(** * Paladin core: state store, transport, submission, Zeto inputs, filters

    A shallow embedding of the parts of the Paladin node that the
    specification makes claims about:

    - [Filters]   : [Int64BoolField.SQLValue] and [BooleanField.SQLValue]
                    (core/go/internal/filters);
    - [Zeto]      : [Zeto.prepareInputs] (domains/zeto/internal/zeto);
    - [TxMgr]     : [processNewTransactions], [resolveNewTransaction],
                    [resolveFunction], [insertTransactions] and
                    [checkIdempotencyKeys] (core/go/internal/txmgr);
    - [Transport] : [peer.sender], [peer.reliableMessageScan] and
                    [peer.processReliableMsgPage] (core/go/internal/transportmgr);
    - [StateMgr]  : the in-memory [domainContext] (core/go/internal/statemgr).

    and of the code around them:

    - [HexFilters]  : [HexBytesField.SQLValue];
    - [Snark]       : [validateInputs] of the in-memory SNARK prover;
    - [TxFunction]  : [txManager.pickFunction];
    - [TxInternal]  : [UpsertInternalPrivateTxsFinalizeIDs];
    - [Peers]       : [getPeer], [connectPeer], [startSender], [deactivate];
    - [ScanViews]   : what a scan of the reliable messages sends and counts;
    - [StateViews]  : [StateLocksByTransaction] and what a context keeps;
    - [ZetoOutputs] : [Zeto.prepareOutputs] and [Zeto.makeNewState];
    - [InFlight]    : the versions of an [inFlightTransactionState];
    - [ZetoLocked]  : [transferLockedHandler.loadCoins].

    Go code is translated function by function.  Errors are values of a sum
    type, mutable receivers are threaded explicitly, and calls that leave
    the repository files at hand (the database, the plugin callbacks, the
    clock) are arguments of the functions that make them. *)

From Stdlib Require Import ZArith List Bool Lia Permutation Sorted Ascii String.
From Stdlib Require Import DecimalString.
From stdpp Require Import base option list sorting gmap strings fin_maps.

Import ListNotations.
Local Open Scope string_scope.
Set Warnings "-register-all".

(** Go's [(T, error)] results. *)
Inductive result (E A : Type) : Type :=
| Ok (a : A)
| Err (e : E).
Arguments Ok {E A} a.
Arguments Err {E A} e.

Definition is_ok {E A} (r : result E A) : bool :=
  match r with Ok _ => true | Err _ => false end.

Definition is_err {E A} (r : result E A) : bool := negb (is_ok r).

(* ===================================================================== *)
(** * Filters: boolean label fields *)
(* ===================================================================== *)

Module Filters.

(** What [json.Unmarshal(jsonValue, &untyped)] stores into an
    [interface{}]: nil, bool, float64 (kept as its literal), string,
    []interface{} or map[string]interface{}. *)
Inductive untyped : Type :=
| UNil
| UBool (b : bool)
| UFloat64 (literal : string)
| UString (s : string)
| UArray (items : list untyped)
| UObject (fields : list (string * untyped)).

(** A [pldtypes.RawJSON] as far as [SQLValue] observes it: the answer of
    [IsNil()], which is how the code recognises JSON null, and the outcome
    of [json.Unmarshal] ([None] when the bytes are not JSON). *)
Record RawJSON : Type := mkRaw {
  IsNil : bool;
  Unmarshal : option untyped;
}.

(** The [driver.Value]s the two fields produce. *)
Inductive driverValue : Type :=
| NULL
| VBool (b : bool)
| VInt64 (n : Z).

Inductive sqlError : Type :=
| UnmarshalError
| MsgFiltersValueInvalidForBool.

Definition is_upper (c : ascii) : bool :=
  (65 <=? nat_of_ascii c)%nat && (nat_of_ascii c <=? 90)%nat.

(** One step of the loop of Go's [strings.EqualFold] on bytes below
    [utf8.RuneSelf]: equal, or an upper-case letter against its lower-case
    form.  A byte from 0x80 up only equals itself, which is exact for the
    comparisons against "true" made here (no other rune folds to t, r, u
    or e). *)
Definition foldEqByte (sr tr : ascii) : bool :=
  if Ascii.eqb tr sr then true
  else
    let lo := if (nat_of_ascii tr <? nat_of_ascii sr)%nat then tr else sr in
    let hi := if (nat_of_ascii tr <? nat_of_ascii sr)%nat then sr else tr in
    is_upper lo && (nat_of_ascii hi =? nat_of_ascii lo + 32)%nat.

Fixpoint EqualFold (s t : string) : bool :=
  match s, t with
  | EmptyString, EmptyString => true
  | String sr s', String tr t' => foldEqByte sr tr && EqualFold s' t'
  | _, _ => false
  end.

(** [Int64BoolField.SQLValue] *)
Definition Int64Bool_SQLValue (jsonValue : RawJSON) : result sqlError driverValue :=
  if IsNil jsonValue then Ok NULL
  else
    match Unmarshal jsonValue with
    | None => Err UnmarshalError
    | Some (UString v) =>
        if EqualFold v "true" then Ok (VInt64 1) else Ok (VInt64 0)
    | Some (UBool v) =>
        if v then Ok (VInt64 1) else Ok (VInt64 0)
    | Some _ => Err MsgFiltersValueInvalidForBool
    end.

(** [BooleanField.SQLValue] *)
Definition Boolean_SQLValue (jsonValue : RawJSON) : result sqlError driverValue :=
  if IsNil jsonValue then Ok NULL
  else
    match Unmarshal jsonValue with
    | None => Err UnmarshalError
    | Some (UString v) =>
        if EqualFold v "true" then Ok (VBool true) else Ok (VBool false)
    | Some (UBool v) => Ok (VBool v)
    | Some _ => Err MsgFiltersValueInvalidForBool
    end.

(** Lower-casing of ASCII letters, used to say "equal ignoring case"
    independently of the loop above. *)
Definition toLower (c : ascii) : ascii :=
  if is_upper c then ascii_of_nat (nat_of_ascii c + 32) else c.

Fixpoint lowerString (s : string) : string :=
  match s with
  | EmptyString => EmptyString
  | String c s' => String (toLower c) (lowerString s')
  end.

(** No upper-case ASCII letter occurs in the string. *)
Fixpoint noUpper (t : string) : bool :=
  match t with
  | EmptyString => true
  | String c t' => negb (is_upper c) && noUpper t'
  end.

(** The raw forms of the JSON values the claim names. *)
Definition jsonNull : RawJSON := mkRaw true (Some UNil).
Definition jsonBool (b : bool) : RawJSON := mkRaw false (Some (UBool b)).
Definition jsonString (s : string) : RawJSON := mkRaw false (Some (UString s)).

Definition int64OfBool (b : bool) : Z := if b then 1%Z else 0%Z.

End Filters.

(* ===================================================================== *)
(** * Zeto: selecting input coins *)
(* ===================================================================== *)

Module Zeto.

Definition MAX_INPUT_COUNT : nat := 10.

(** [pb.StoredState], [pb.StateRef], [types.ZetoCoin] and
    [types.TransferParamEntry], with the fields [prepareInputs] reads.
    Amounts are [*big.Int] values. *)
Record StoredState : Type := mkStoredState {
  ss_Id : string;
  ss_SchemaId : string;
  ss_StoredAt : Z;
  ss_DataJson : string;
}.

Record StateRef : Type := mkStateRef {
  ref_SchemaId : string;
  ref_Id : string;
}.

Record ZetoCoin : Type := mkCoin {
  coin_Owner : string;
  coin_Amount : Z;
}.

Record TransferParamEntry : Type := mkParam {
  param_To : string;
  param_Amount : Z;
}.

(** The query assembled by the builder: [Limit(10).Sort(".created")
    .Equal("owner", sender)], plus [GreaterThan(".created", ts)] when a
    previous page set [lastStateTimestamp]. *)
Record Query : Type := mkQuery {
  q_Limit : nat;
  q_Sort : string;
  q_EqualOwner : string;
  q_GreaterThanCreated : option Z;
}.

Definition buildQuery (sender : string) (lastStateTimestamp : Z) : Query :=
  mkQuery 10 ".created" sender
    (if (0 <? lastStateTimestamp)%Z then Some lastStateTimestamp else None).

(** [big.Int.Text(10)] *)
Definition Text10 (z : Z) : string := NilZero.string_of_int (Z.to_int z).

(** The accumulators of the [for] loop. *)
Record loopState : Type := mkLoop {
  lastStateTimestamp : Z;
  total : Z;
  stateRefs : list StateRef;
  coins : list ZetoCoin;
}.

(** What [prepareInputs] returns when it succeeds.  [total.Sub(total,
    expectedTotal)] stores the difference into [total] itself, so the two
    returned numbers are one object. *)
Record inputs : Type := mkInputs {
  in_coins : list ZetoCoin;
  in_stateRefs : list StateRef;
  in_total : Z;
  in_remainder : Z;
}.

Inductive step (A : Type) : Type :=
| Continue (st : loopState)
| Return (r : result string A).
Arguments Continue {A} st.
Arguments Return {A} r.

Section PrepareInputs.

(** [z.Callbacks.FindAvailableStates] behind [z.findAvailableStates], and
    [z.makeCoin] ([json.Unmarshal] of the state data). *)
Variable findAvailableStates : string -> Query -> result string (list StoredState).
Variable makeCoin : string -> result string ZetoCoin.

Definition sumAmounts (params : list TransferParamEntry) : Z :=
  fold_left (fun acc p => (acc + param_Amount p)%Z) params 0%Z.

(** The body of [for _, state := range states]. *)
Fixpoint eachState (expectedTotal : Z) (states : list StoredState) (st : loopState)
  : step inputs :=
  match states with
  | [] => Continue st
  | state :: rest =>
      match makeCoin (ss_DataJson state) with
      | Err err =>
          Return (Err ("coin " ++ ss_Id state ++ " is invalid: " ++ err))
      | Ok coin =>
          let total' := (total st + coin_Amount coin)%Z in
          let stateRefs' := (stateRefs st ++ [mkStateRef (ss_SchemaId state) (ss_Id state)])%list in
          let coins' := (coins st ++ [coin])%list in
          if (expectedTotal <=? total')%Z then
            let remainder := (total' - expectedTotal)%Z in
            Return (Ok (mkInputs coins' stateRefs' remainder remainder))
          else if (MAX_INPUT_COUNT <=? length stateRefs')%nat then
            Return (Err "could not find enough coins to fulfill the transfer amount total")
          else
            eachState expectedTotal rest
              (mkLoop (ss_StoredAt state) total' stateRefs' coins')
      end
  end.

(** One turn of the outer [for]. *)
Definition onePage (stateQueryContext sender : string) (expectedTotal : Z)
  (st : loopState) : step inputs :=
  match findAvailableStates stateQueryContext (buildQuery sender (lastStateTimestamp st)) with
  | Err err =>
      Return (Err ("failed to query the state store for available coins. " ++ err))
  | Ok [] =>
      Return (Err ("insufficient funds (available=" ++ Text10 (total st) ++ ")"))
  | Ok states => eachState expectedTotal states st
  end.

Fixpoint pages (fuel : nat) (stateQueryContext sender : string) (expectedTotal : Z)
  (st : loopState) : option (result string inputs) :=
  match fuel with
  | O => None
  | S fuel' =>
      match onePage stateQueryContext sender expectedTotal st with
      | Return r => Some r
      | Continue st' => pages fuel' stateQueryContext sender expectedTotal st'
      end
  end.

Definition initial : loopState := mkLoop 0 0 [] [].

(** [Zeto.prepareInputs].  Every turn of the outer loop that does not
    return adds a state reference and leaves fewer than [MAX_INPUT_COUNT]
    of them, so [MAX_INPUT_COUNT + 1] turns are all the loop can make
    ([prepareInputs_returns] below). *)
Definition prepareInputs (stateQueryContext sender : string)
  (params : list TransferParamEntry) : option (result string inputs) :=
  pages (S MAX_INPUT_COUNT) stateQueryContext sender (sumAmounts params) initial.

(** The loop states the outer loop passes through: [initial], and what a
    non-empty page leaves behind when the loop goes round again. *)
Inductive passes (stateQueryContext sender : string) (expectedTotal : Z)
  : nat -> loopState -> Prop :=
| passes_initial : passes stateQueryContext sender expectedTotal 0 initial
| passes_page n st st' :
    passes stateQueryContext sender expectedTotal n st ->
    onePage stateQueryContext sender expectedTotal st = Continue st' ->
    passes stateQueryContext sender expectedTotal (S n) st'.

Definition totalOf (cs : list ZetoCoin) : Z :=
  fold_right (fun c acc => (coin_Amount c + acc)%Z) 0%Z cs.

End PrepareInputs.

(** What the loop preserves between pages: the total is the sum of the
    coins, at least [n] references were collected, and fewer than the
    maximum. *)
Definition consistent (n : nat) (st : loopState) : Prop :=
  total st = totalOf (coins st) /\
  (n <= length (stateRefs st))%nat /\
  (length (stateRefs st) < MAX_INPUT_COUNT)%nat.

End Zeto.

(* ===================================================================== *)
(** * TxMgr: submission and idempotency keys *)
(* ===================================================================== *)

Module TxMgr.

(** A [uuid.UUID] in its text form, as [fmt.Sprintf("%s=%s", key, id)]
    prints it. *)
Abbreviation uuid := string (only parsing).

Inductive TransactionType : Type :=
| TransactionTypePrivate
| TransactionTypePublic
| TransactionTypeOther.

Inductive SubmitMode : Type :=
| SubmitModeAuto
| SubmitModeExternal
| SubmitModePrepare
| SubmitModeCall.

(** [pldapi.TransactionInput]: the fields the submission path branches on
    or hands to [resolveFunction] (the entries of [ABI] in text form), and
    [in_Body] for the rest of [TransactionBase] (from, domain, data),
    which is only handed on. *)
Record TransactionInput : Type := mkInput {
  in_IdempotencyKey : string;
  in_Type : TransactionType;
  in_DependsOn : list uuid;
  in_ABI : option (list string);
  in_ABIReference : option string;
  in_Function : string;
  in_To : option string;
  in_Body : string;
}.

(** [pldapi.StoredABI] *)
Record StoredABI : Type := mkStoredABI {
  abi_Hash : string;
  abi_Entries : list string;
}.

(** [components.ResolvedFunction], by its signature. *)
Abbreviation ResolvedFunction := string (only parsing).

(** [components.ValidatedTransaction] *)
Record ValidatedTransaction : Type := mkValidated {
  vt_ID : uuid;
  vt_SubmitMode : SubmitMode;
  vt_Base : TransactionInput;
}.

(** A row of [transactions] ([persistedTransaction]). *)
Record persistedTransaction : Type := mkRow {
  pt_ID : uuid;
  pt_SubmitMode : SubmitMode;
  pt_IdempotencyKey : option string;
  pt_Type : TransactionType;
  pt_Body : string;
}.

Record transactionDep : Type := mkDep {
  dep_Transaction : uuid;
  dep_DependsOn : uuid;
}.

Inductive txError : Type :=
| MsgTxMgrPrivateOnlyForPrepare
| MsgTxMgrInvalidTXType
| MsgTxMgrABIAndDefinition
| MsgTxMgrNoABIOrReference
| MsgTxMgrABIReferenceLookupFailed (inputABIRef : option string)
| ResolveError (detail : string)
| PublicTxError (detail : string)
| PrivateTxError (detail : string)
| InsertError (detail : string)
| MsgTxMgrIdempotencyKeyClash (info : string).

(** A call in which another component is handed the database transaction
    to write to: [txManager.UpsertABI]; for a public transaction,
    [KeyResolverForDBTX(dbTX).ResolveKey] with
    [publicTxMgr.ValidateTransaction]; [publicTxMgr.WriteNewTransactions];
    [privateTxMgr.HandleNewTx]. *)
Inductive dbtxCall : Type :=
| UpsertABICall (inputABI : list string)
| ValidateTransactionCall (txi : ValidatedTransaction)
| WriteNewTransactionsCall (publicTxs : list ValidatedTransaction)
| HandleNewTxCall (txi : ValidatedTransaction).

(** The two tables the submission path writes itself.  The tables of the
    other components and what they write there are not among the files at
    hand: [otherWrites] keeps, in order, the calls in which they were
    handed the database to write to. *)
Record DB : Type := mkDB {
  transactions : list persistedTransaction;
  transaction_deps : list transactionDep;
  otherWrites : list dbtxCall;
}.

(** A [persistence.DBTX]: the uncommitted view of the tables with the
    hooks registered so far.  The only post-rollback hook in this file is
    the closure over [txs] that calls [checkIdempotencyKeys]; the only
    post-commit hook fills the transaction cache.  [FullTransaction] is
    false for the handle [NOTX()], whose view is the stored tables. *)
Record DBTX : Type := mkDBTX {
  view : DB;
  postRollback : list (list TransactionInput);
  postCommit : list (list uuid);
  FullTransaction : bool;
}.

(** Another component is called with [dbTX]. *)
Definition handOver (c : dbtxCall) (dbTX : DBTX) : DBTX :=
  mkDBTX (mkDB (transactions (view dbTX)) (transaction_deps (view dbTX))
            (otherWrites (view dbTX) ++ [c])%list)
    (postRollback dbTX) (postCommit dbTX) (FullTransaction dbTX).

Definition notEmptyOrNull (s : string) : option string :=
  if String.eqb s "" then None else Some s.

Definition sameKey (a b : option string) : bool :=
  match a, b with
  | Some x, Some y => String.eqb x y
  | _, _ => false
  end.

(** Modelled from the spec: the [transactions] table, whose schema is not
    among the files at hand.  The data model gives it the id as key and an
    "optional idempotency-key unique": a row collides with a stored row of
    the same id or of the same non-null idempotency key. *)
Definition collides (row : persistedTransaction) (table : list persistedTransaction) : bool :=
  existsb (fun r => String.eqb (pt_ID r) (pt_ID row)
                    || sameKey (pt_IdempotencyKey r) (pt_IdempotencyKey row)) table.

(** Modelled from the spec: [Create(ptxs)] on that table, row by row.  A
    colliding row fails the statement, or is skipped under
    [clause.OnConflict{DoNothing: true}].  Returns the table and
    [RowsAffected]. *)
Fixpoint Create (ignoreConflicts : bool) (table rows : list persistedTransaction)
  : result txError (list persistedTransaction * nat) :=
  match rows with
  | [] => Ok (table, 0%nat)
  | row :: rest =>
      if collides row table then
        if ignoreConflicts then Create ignoreConflicts table rest
        else Err (InsertError (pt_ID row))
      else
        match Create ignoreConflicts (table ++ [row])%list rest with
        | Ok (table', n) => Ok (table', S n)
        | Err e => Err e
        end
  end.

Definition depEqb (a b : transactionDep) : bool :=
  String.eqb (dep_Transaction a) (dep_Transaction b)
  && String.eqb (dep_DependsOn a) (dep_DependsOn b).

(** [Create(transactionDeps)] with [DoNothing] on conflict. *)
Fixpoint CreateDeps (table deps : list transactionDep) : list transactionDep :=
  match deps with
  | [] => table
  | d :: rest =>
      if existsb (depEqb d) table then CreateDeps table rest
      else CreateDeps (table ++ [d])%list rest
  end.

(** [strings.Join] *)
Fixpoint Join (parts : list string) (sep : string) : string :=
  match parts with
  | [] => ""
  | [x] => x
  | x :: rest => x ++ sep ++ Join rest sep
  end.

Section Submission.

(** Calls into other components, each of which either passes or stops the
    submission with its error: [resolvePrivateDomain], which reads only;
    [getABIByHash], a read, and [UpsertABI], which answer with the stored
    ABI if there is one; [pickFunction]; [parseInputs], [getPublicTxData]
    and the check of [From]; [ResolveKey] with
    [publicTxMgr.ValidateTransaction]; [publicTxMgr.WriteNewTransactions];
    [privateTxMgr.HandleNewTx]. *)
Variable resolvePrivateDomain : TransactionInput -> option txError.
Variable getABIByHash : string -> result txError (option StoredABI).
Variable UpsertABI : list string -> result txError (option StoredABI).
Variable pickFunction :
  StoredABI -> string -> option string -> result txError ResolvedFunction.
Variable validateInputs : ResolvedFunction -> TransactionInput -> SubmitMode -> option txError.
Variable validatePublic : ValidatedTransaction -> option txError.
Variable WriteNewTransactions : list ValidatedTransaction -> option txError.
Variable HandleNewTx : ValidatedTransaction -> option txError.

(** Whether the lookup made by [checkIdempotencyKeys] itself fails. *)
Variable lookupFails : bool.

(** [defaultConstructor], as an entry in text form. *)
Definition defaultConstructor : string := "constructor()".

(** [resolveFunction].  With a full transaction [UpsertABI] is called on
    it; otherwise in a transaction of its own, which is committed, and so
    seen through [dbTX], when [UpsertABI] returns no error. *)
Definition resolveFunction (dbTX : DBTX) (inputABI : option (list string))
  (inputABIRef : option string) (requiredFunction : string) (to : option string)
  : result txError ResolvedFunction * DBTX :=
  let lookup : result txError (result txError (option StoredABI) * DBTX) :=
    match inputABIRef with
    | Some ref =>
        match inputABI with
        | Some _ => Err MsgTxMgrABIAndDefinition
        | None => Ok (getABIByHash ref, dbTX)
        end
    | None =>
        let entries := default [] inputABI in
        if (length entries =? 0)%nat && bool_decide (is_Some to)
        then Err MsgTxMgrNoABIOrReference
        else
          let entries :=
            if (length entries =? 0)%nat then [defaultConstructor] else entries in
          let pa := UpsertABI entries in
          if FullTransaction dbTX
          then Ok (pa, handOver (UpsertABICall entries) dbTX)
          else Ok (pa, if is_ok pa then handOver (UpsertABICall entries) dbTX else dbTX)
    end in
  match lookup with
  | Err err => (Err err, dbTX)
  | Ok (Ok (Some pa), dbTX1) =>
      match pickFunction pa requiredFunction to with
      | Err err => (Err err, dbTX1)
      | Ok resolvedFunction => (Ok resolvedFunction, dbTX1)
      end
  | Ok (_, dbTX1) => (Err (MsgTxMgrABIReferenceLookupFailed inputABIRef), dbTX1)
  end.

(** [resolveNewTransaction], given the id drawn by [uuid.New()]. *)
Definition resolveNewTransaction (dbTX : DBTX) (txID : uuid) (tx : TransactionInput)
  (submitMode : SubmitMode) : result txError ValidatedTransaction * DBTX :=
  let typed :=
    match in_Type tx with
    | TransactionTypePrivate => resolvePrivateDomain tx
    | TransactionTypePublic =>
        match submitMode with
        | SubmitModeExternal => Some MsgTxMgrPrivateOnlyForPrepare
        | _ => None
        end
    | TransactionTypeOther => Some MsgTxMgrInvalidTXType
    end in
  match typed with
  | Some err => (Err err, dbTX)
  | None =>
      match resolveFunction dbTX (in_ABI tx) (in_ABIReference tx) (in_Function tx)
              (in_To tx) with
      | (Err err, dbTX1) => (Err err, dbTX1)
      | (Ok fn, dbTX1) =>
          match validateInputs fn tx submitMode with
          | Some err => (Err err, dbTX1)
          | None => (Ok (mkValidated txID submitMode tx), dbTX1)
          end
      end
  end.

(** [insertTransactions] *)
Definition insertTransactions (dbTX : DBTX) (txis : list ValidatedTransaction)
  (ignoreConflicts : bool) : result txError nat * DBTX :=
  let ptxs :=
    map (fun txi =>
           mkRow (vt_ID txi) (vt_SubmitMode txi)
                 (notEmptyOrNull (in_IdempotencyKey (vt_Base txi)))
                 (in_Type (vt_Base txi)) (in_Body (vt_Base txi))) txis in
  let transactionDeps :=
    flat_map (fun txi => map (mkDep (vt_ID txi)) (in_DependsOn (vt_Base txi))) txis in
  match Create ignoreConflicts (transactions (view dbTX)) ptxs with
  | Err err => (Err err, dbTX)
  | Ok (table, rowsAffected) =>
      let deps := CreateDeps (transaction_deps (view dbTX)) transactionDeps in
      (Ok rowsAffected,
       mkDBTX (mkDB table deps (otherWrites (view dbTX))) (postRollback dbTX)
         (postCommit dbTX ++
            [if (rowsAffected =? length txis)%nat then map vt_ID txis else []])%list
         (FullTransaction dbTX))
  end.

(** The first loop of [processNewTransactions]: resolve every input, the
    [i]-th with the [i]-th fresh id. *)
Fixpoint resolveAll (newUUID : nat -> uuid) (i : nat) (dbTX : DBTX)
  (txs : list TransactionInput) (submitMode : SubmitMode)
  : result txError (list ValidatedTransaction) * DBTX :=
  match txs with
  | [] => (Ok [], dbTX)
  | tx :: rest =>
      match resolveNewTransaction dbTX (newUUID i) tx submitMode with
      | (Err err, dbTX1) => (Err err, dbTX1)
      | (Ok txi, dbTX1) =>
          match resolveAll newUUID (S i) dbTX1 rest submitMode with
          | (Err err, dbTX2) => (Err err, dbTX2)
          | (Ok txis, dbTX2) => (Ok (txi :: txis), dbTX2)
          end
      end
  end.

Definition isPublic (txi : ValidatedTransaction) : bool :=
  match in_Type (vt_Base txi) with TransactionTypePublic => true | _ => false end.

Definition isPrivate (txi : ValidatedTransaction) : bool :=
  match in_Type (vt_Base txi) with TransactionTypePrivate => true | _ => false end.


(** The same on a database transaction that every call is handed. *)
Fixpoint eachOn {A} (f : A -> option txError) (entry : A -> dbtxCall) (l : list A)
  (dbTX : DBTX) : option txError * DBTX :=
  match l with
  | [] => (None, dbTX)
  | x :: rest =>
      match f x with
      | Some err => (Some err, handOver (entry x) dbTX)
      | None => eachOn f entry rest (handOver (entry x) dbTX)
      end
  end.

(** [processNewTransactions] *)
Definition processNewTransactions (newUUID : nat -> uuid) (dbTX : DBTX)
  (txs : list TransactionInput) (submitMode : SubmitMode)
  : result txError (list uuid) * DBTX :=
  match resolveAll newUUID 0 dbTX txs submitMode with
  | (Err err, dbTX1) => (Err err, dbTX1)
  | (Ok txis, dbTX1) =>
      let publicTxs := filter isPublic txis in
      match eachOn validatePublic ValidateTransactionCall publicTxs dbTX1 with
      | (Some err, dbTX2) => (Err err, dbTX2)
      | (None, dbTX2) =>
          match insertTransactions dbTX2 txis false with
          | (Err err, dbTX3) =>
              (Err err,
               mkDBTX (view dbTX3) (postRollback dbTX3 ++ [txs])%list (postCommit dbTX3)
                 (FullTransaction dbTX3))
          | (Ok _, dbTX3) =>
              match (if (0 <? length publicTxs)%nat
                     then (WriteNewTransactions publicTxs,
                           handOver (WriteNewTransactionsCall publicTxs) dbTX3)
                     else (None, dbTX3)) with
              | (Some err, dbTX4) => (Err err, dbTX4)
              | (None, dbTX4) =>
                  match eachOn HandleNewTx HandleNewTxCall (filter isPrivate txis)
                          dbTX4 with
                  | (Some err, dbTX5) => (Err err, dbTX5)
                  | (None, dbTX5) => (Ok (map vt_ID txis), dbTX5)
                  end
              end
          end
      end
  end.

Definition keyIn (keys : list string) (row : persistedTransaction) : bool :=
  match pt_IdempotencyKey row with
  | Some k => existsb (String.eqb k) keys
  | None => false
  end.

(** [QueryTransactions] for [In("idempotencyKey", keys).Limit(n)], read
    outside any transaction. *)
Definition QueryTransactions (db : DB) (keys : list string) (limit : nat)
  : option (list persistedTransaction) :=
  if lookupFails then None
  else Some (take limit (filter (fun r => keyIn keys r) (transactions db))).

Definition keyText (k : option string) : string :=
  match k with Some s => s | None => "" end.

(** [checkIdempotencyKeys] *)
Definition checkIdempotencyKeys (db : DB) (origErr : txError)
  (txis : list TransactionInput) : txError :=
  let idempotencyKeys :=
    filter (fun k => negb (String.eqb k "")) (map in_IdempotencyKey txis) in
  if (0 <? length idempotencyKeys)%nat then
    match QueryTransactions db idempotencyKeys (length idempotencyKeys) with
    | None => origErr
    | Some existingTxs =>
        if (0 <? length existingTxs)%nat then
          MsgTxMgrIdempotencyKeyClash
            (Join (map (fun tx => keyText (pt_IdempotencyKey tx) ++ "=" ++ pt_ID tx)
                       existingTxs) ",")
        else origErr
    end
  else origErr.

(** The cache filled by the post-commit hooks. *)
Record txManager : Type := mkTM {
  db : DB;
  txCache : list uuid;
}.

(** Modelled from the spec: [persistence.Transaction], the gateway with
    "post-commit / post-rollback hooks" (not among the files at hand).
    When the body fails nothing it wrote is kept, and the post-rollback
    hooks run in order on the stored tables, each given the error so far
    and returning the one to report; when it succeeds its view is stored
    and the post-commit hooks run. *)
Definition Transaction {A} (tm : txManager)
  (body : DBTX -> result txError A * DBTX) : result txError A * txManager :=
  match body (mkDBTX (db tm) [] [] true) with
  | (Err err, dbTX) =>
      (Err (fold_left (fun e txs => checkIdempotencyKeys (db tm) e txs)
                      (postRollback dbTX) err),
       tm)
  | (Ok a, dbTX) =>
      (Ok a, mkTM (view dbTX) (txCache tm ++ concat (postCommit dbTX))%list)
  end.

(** [sendTransactionsNewDBTX]: [SendTransactions] in a new transaction. *)
Definition sendTransactionsNewDBTX (newUUID : nat -> uuid) (tm : txManager)
  (txs : list TransactionInput) : result txError (list uuid) * txManager :=
  Transaction tm (fun dbTX => processNewTransactions newUUID dbTX txs SubmitModeAuto).

(** [prepareTransactionsNewDBTX]: [PrepareTransactions] in a new transaction. *)
Definition prepareTransactionsNewDBTX (newUUID : nat -> uuid) (tm : txManager)
  (txs : list TransactionInput) : result txError (list uuid) * txManager :=
  Transaction tm (fun dbTX => processNewTransactions newUUID dbTX txs SubmitModeExternal).

End Submission.



(** Sample data: every outside call passes; one input under key "k1"; a
    store that already holds that key under "id-1". *)
Definition passes_all {A} : A -> option txError := fun _ => None.

Definition sampleGetABIByHash (ref : string) : result txError (option StoredABI) :=
  Ok None.

Definition sampleUpsertABI (inputABI : list string) : result txError (option StoredABI) :=
  Ok (Some (mkStoredABI "0xabi" inputABI)).

Definition samplePickFunction (pa : StoredABI) (requiredFunction : string)
  (to : option string) : result txError ResolvedFunction :=
  Ok requiredFunction.

Definition input_k1 : TransactionInput :=
  mkInput "k1" TransactionTypePrivate [] (Some ["transfer(address,uint256)"]) None
    "transfer" (Some "0xc0") "transfer(bob,5)".


End TxMgr.

(* ===================================================================== *)
(** * Transport: the sender loop and reliable-message scan of a peer *)
(* ===================================================================== *)

Module Transport.

Definition uint64_add (a b : N) : N := ((a + b) mod 2 ^ 64)%N.

Inductive ReliableMessageType : Type :=
| RMTState
| RMTReceipt
| RMTOther (name : string).

(** [components.ReliableMessage]: a row of [reliable_msgs]. *)
Record ReliableMessage : Type := mkRM {
  Sequence : N;
  ID : string;
  Created : Z;
  Node : string;
  MessageType : ReliableMessageType;
  Metadata : string;
}.

Inductive transportError : Type :=
| ParseError (detail : string)
| MsgTransportStateNotAvailableLocally (detail : string)
| MsgTransportUnsupportedReliableMsg (t : ReliableMessageType)
| StateStoreError (detail : string)
| DatabaseError (detail : string)
| SendError (detail : string).

(** [components.ReliableMessageAck]: a row of [reliable_msg_acks]; [Error]
    holds the error whose text the Go field stores, if any. *)
Record ReliableMessageAck : Type := mkAck {
  MessageID : string;
  Time : Z;
  Error : option transportError;
}.

(** [prototk.PaladinMsg] *)
Record PaladinMsg : Type := mkMsg {
  MessageId : string;
  Component : string;
  MsgType : string;
  Payload : string;
}.

Record MessageStore : Type := mkStore {
  reliable_msgs : list ReliableMessage;
  reliable_msg_acks : list ReliableMessageAck;
}.

(** [pldapi.PeerStats], the part [send] writes. *)
Record PeerStats : Type := mkStats {
  LastSend : option Z;
  SentMsgs : N;
  SentBytes : N;
  ReliableHighestSent : N;
  ReliableAckBase : N;
}.

(** The send-loop state of a [peer]. *)
Record peer : Type := mkPeer {
  Name : string;
  lastFullScan : Z;
  lastDrainHWM : option N;
  persistentMsgsDrained : bool;
  Stats : PeerStats;
}.

(** The two settings of the transport manager the scan reads. *)
Record config : Type := mkConfig {
  reliableMessageResend : Z;
  reliableMessagePageSize : nat;
}.

(** What one scan meets outside the peer: the clock, the parser of the
    metadata and the state store behind [buildStateDistributionMsg], the
    transport behind [send] (after its short retry), and whether a
    database statement fails. *)
Record world : Type := mkWorld {
  now : Z;
  parseStateDistribution : string -> string -> result transportError string;
  GetState : string -> result transportError (option string);
  transportSend : PaladinMsg -> option transportError;
  findFails : option N -> option transportError;
  createFails : list ReliableMessageAck -> option transportError;
}.

(** The three-way result of [buildStateDistributionMsg]: a message, an
    error to acknowledge, or an error to retry. *)
Inductive built : Type :=
| Msg (msg : PaladinMsg)
| ErrorAck (errorAck : transportError)
| Retry (err : transportError).

Definition buildStateDistributionMsg (w : world) (rm : ReliableMessage) : built :=
  match parseStateDistribution w (ID rm) (Metadata rm) with
  | Err parseErr => ErrorAck parseErr
  | Ok sd =>
      match GetState w sd with
      | Err err => Retry err
      | Ok None => ErrorAck (MsgTransportStateNotAvailableLocally sd)
      | Ok (Some data) =>
          Msg (mkMsg (ID rm) "RELIABLE_MESSAGE_HANDLER" "StateDistribution"
                 (sd ++ data))
      end
  end.

(** The [switch rm.MessageType.V()] of [processReliableMsgPage]. *)
Definition buildMsg (w : world) (rm : ReliableMessage) : built :=
  match MessageType rm with
  | RMTState => buildStateDistributionMsg w rm
  | _ => ErrorAck (MsgTransportUnsupportedReliableMsg (MessageType rm))
  end.

(** [afterHWM || time.Since(rm.Created) >= resend]: the message is not
    skipped as "not yet eligible for re-send". *)
Definition eligible (c : config) (w : world) (p : peer) (rm : ReliableMessage) : bool :=
  let afterHWM :=
    match lastDrainHWM p with
    | None => true
    | Some hwm => (hwm <? Sequence rm)%N
    end in
  negb (negb afterHWM && (now w - Created rm <? reliableMessageResend c)%Z).

(** The first loop of [processReliableMsgPage]: the messages to send with
    their sequences, and the error acks, or the first retryable error. *)
Fixpoint buildPage (c : config) (w : world) (p : peer) (page : list ReliableMessage)
  : result transportError (list (N * PaladinMsg) * list ReliableMessageAck) :=
  match page with
  | [] => Ok ([], [])
  | rm :: rest =>
      if negb (eligible c w p rm) then buildPage c w p rest
      else
        match buildMsg w rm with
        | Retry err => Err err
        | ErrorAck errorAck =>
            match buildPage c w p rest with
            | Err err => Err err
            | Ok (msgsToSend, errorAcks) =>
                Ok (msgsToSend, mkAck (ID rm) (now w) (Some errorAck) :: errorAcks)
            end
        | Msg msg =>
            match buildPage c w p rest with
            | Err err => Err err
            | Ok (msgsToSend, errorAcks) =>
                Ok ((Sequence rm, msg) :: msgsToSend, errorAcks)
            end
        end
  end.

Definition acked (acks : list ReliableMessageAck) (id : string) : bool :=
  existsb (fun a => String.eqb (MessageID a) id) acks.

(** [Create(errorAcks)] with [clause.OnConflict{DoNothing: true}] on the
    table keyed by message id. *)
Fixpoint CreateAcks (acks new : list ReliableMessageAck) : list ReliableMessageAck :=
  match new with
  | [] => acks
  | a :: rest =>
      if acked acks (MessageID a) then CreateAcks acks rest
      else CreateAcks (acks ++ [a])%list rest
  end.

(** [peer.send] with a sequence: on success the counters move. *)
Definition send (w : world) (p : peer) (msg : PaladinMsg) (reliableSeq : option N)
  : option transportError * peer :=
  match transportSend w msg with
  | Some err => (Some err, p)
  | None =>
      let st := Stats p in
      let highest :=
        match reliableSeq with
        | Some sq => if (ReliableHighestSent st <? sq)%N then sq else ReliableHighestSent st
        | None => ReliableHighestSent st
        end in
      let ackBase :=
        match lastDrainHWM p with
        | Some hwm => hwm
        | None => ReliableAckBase st
        end in
      (None,
       mkPeer (Name p) (lastFullScan p) (lastDrainHWM p) (persistentMsgsDrained p)
         (mkStats (Some (now w)) (uint64_add (SentMsgs st) 1)
            (uint64_add (SentBytes st) (N.of_nat (String.length (Payload msg))))
            highest ackBase))
  end.

(** The last loop of [processReliableMsgPage]; the third component lists
    what went out, in order. *)
Fixpoint sendAll (w : world) (p : peer) (msgsToSend : list (N * PaladinMsg))
  : option transportError * peer * list (N * PaladinMsg) :=
  match msgsToSend with
  | [] => (None, p, [])
  | (sq, msg) :: rest =>
      match send w p msg (Some sq) with
      | (Some err, p') => (Some err, p', [])
      | (None, p') =>
          let '(r, p'', sent) := sendAll w p' rest in
          (r, p'', (sq, msg) :: sent)
      end
  end.

(** [processReliableMsgPage] *)
Definition processReliableMsgPage (c : config) (w : world) (p : peer) (db : MessageStore)
  (page : list ReliableMessage)
  : option transportError * peer * MessageStore * list (N * PaladinMsg) :=
  match buildPage c w p page with
  | Err err => (Some err, p, db, [])
  | Ok (msgsToSend, errorAcks) =>
      let persisted :=
        if (0 <? length errorAcks)%nat then
          match createFails w errorAcks with
          | Some err => Err err
          | None =>
              Ok (mkStore (reliable_msgs db) (CreateAcks (reliable_msg_acks db) errorAcks))
          end
        else Ok db in
      match persisted with
      | Err err => (Some err, p, db, [])
      | Ok db' =>
          let '(r, p', sent) := sendAll w p msgsToSend in
          (r, p', db', sent)
      end
  end.

Definition seqLe (a b : ReliableMessage) : Prop := (Sequence a <= Sequence b)%N.

#[global] Instance seqLe_dec : RelDecision seqLe.
Proof. intros a b. unfold seqLe. apply _. Defined.

#[global] Instance seqLe_trans : Transitive seqLe.
Proof. intros a b d. unfold seqLe. lia. Qed.

#[global] Instance seqLe_total : Total seqLe.
Proof. intros a b. unfold seqLe. lia. Qed.

Definition above (bound : option N) (rm : ReliableMessage) : bool :=
  match bound with
  | None => true
  | Some b => (b <? Sequence rm)%N
  end.

(** The rows the query selects before [Limit]: joined with their ack and
    kept where ["Ack"."time" IS NULL], above the bound if there is one,
    in [sequence ASC] order. *)
Definition unackedAbove (db : MessageStore) (bound : option N) : list ReliableMessage :=
  merge_sort seqLe
    (filter (fun rm => negb (acked (reliable_msg_acks db) (ID rm)) && above bound rm)
            (reliable_msgs db)).

Definition Find (c : config) (w : world) (db : MessageStore) (bound : option N)
  : result transportError (list ReliableMessage) :=
  match findFails w bound with
  | Some err => Err err
  | None => Ok (take (reliableMessagePageSize c) (unackedAbove db bound))
  end.

(** What the paging loop carries from page to page. *)
Record scanState : Type := mkScan {
  sc_peer : peer;
  sc_db : MessageStore;
  sc_total : nat;
  sc_lastPageEnd : option N;
  sc_sent : list (N * PaladinMsg);
}.

(** The [Where("sequence > ?", ...)] of a page: above the end of the last
    page, or above the high-water mark on the first page of a scan for new
    messages only. *)
Definition queryBound (fullScan : bool) (hwm lastPageEnd : option N) : option N :=
  match lastPageEnd with
  | Some e => Some e
  | None => if fullScan then None else hwm
  end.

(** The [for] loop of [reliableMessageScan].  [None] is the model running
    out of turns; [scanPages_returns] shows it has enough. *)
Fixpoint scanPages (fuel : nat) (c : config) (w : world) (fullScan : bool)
  (hwm : option N) (st : scanState) : option (option transportError * scanState) :=
  match fuel with
  | O => None
  | S fuel' =>
      match Find c w (sc_db st) (queryBound fullScan hwm (sc_lastPageEnd st)) with
      | Err err => Some (Some err, st)
      | Ok page =>
          match processReliableMsgPage c w (sc_peer st) (sc_db st) page with
          | (Some err, p', db', sent) =>
              Some (Some err,
                    mkScan p' db' (sc_total st) (sc_lastPageEnd st)
                      (sc_sent st ++ sent)%list)
          | (None, p', db', sent) =>
              let p'' :=
                if (0 <? length page)%nat
                then mkPeer (Name p') (lastFullScan p') (lastDrainHWM p') false (Stats p')
                else p' in
              let st' :=
                mkScan p'' db'
                  (if (0 <? length page)%nat then sc_total st + length page
                   else sc_total st)%nat
                  (match last page with
                   | Some rm => Some (Sequence rm)
                   | None => sc_lastPageEnd st
                   end)
                  (sc_sent st ++ sent)%list in
              if (length page <? reliableMessagePageSize c)%nat
              then Some (None, st')
              else scanPages fuel' c w fullScan hwm st'
          end
      end
  end.

Definition isFullScan (c : config) (w : world) (p : peer) : bool :=
  match lastDrainHWM p with
  | None => true
  | Some _ => (reliableMessageResend c <=? now w - lastFullScan p)%Z
  end.

(** [peer.reliableMessageScan]: the error if any, the peer and the tables
    afterwards, and the messages handed to the transport, in order. *)
Definition reliableMessageScan (c : config) (w : world) (p : peer) (db : MessageStore)
  (checkNew : bool)
  : option (option transportError * peer * MessageStore * list (N * PaladinMsg)) :=
  let fullScan := isFullScan c w p in
  if negb fullScan && negb checkNew then Some (None, p, db, [])
  else
    match scanPages (S (length (reliable_msgs db))) c w fullScan (lastDrainHWM p)
            (mkScan p db 0 None []) with
    | None => None
    | Some (Some err, st) => Some (Some err, sc_peer st, sc_db st, sc_sent st)
    | Some (None, st) =>
        let p1 := sc_peer st in
        let hwm' :=
          match sc_lastPageEnd st with
          | Some e => Some e
          | None => if fullScan then None else lastDrainHWM p1
          end in
        let p2 :=
          if fullScan
          then mkPeer (Name p1) (now w) hwm' (sc_total st =? 0)%nat (Stats p1)
          else mkPeer (Name p1) (lastFullScan p1) hwm' (persistentMsgsDrained p1) (Stats p1) in
        Some (None, p2, sc_db st, sc_sent st)
    end.

(** ** The sender loop *)

(** Modelled from the spec: [reliableScanRetry.Do], the "outer infinite
    retry loop" of the sender loop, which is not among the files at hand.
    It calls [reliableMessageScan] again after a failed attempt and
    returns an error only when the context is done, as the comment at its
    call says ("context closed").  [senderAt] tells where [peer.sender]
    stands: in that retry, in its [select], or returned. *)
Inductive senderAt : Type :=
| InScan
| InSelect
| SenderReturned.

(** The loop variables of [peer.sender], the peer, and the two tables.
    [sd_resendTimer] is the time [resendTimer] was created at while it
    runs, and [None] once it has fired or [Stop] was called on it (a
    stopped timer delivers nothing on its channel).  [sd_LastReceive] is
    [p.Stats.LastReceive], which [updateReceivedStats] writes. *)
Record senderState : Type := mkSender {
  sd_peer : peer;
  sd_tables : MessageStore;
  sd_at : senderAt;
  sd_checkNew : bool;
  sd_hitInactivityTimeout : bool;
  sd_resendTimer : option Z;
  sd_LastReceive : option Z;
  sd_quiescing : bool;
}.

(** What the loop meets: one call of [reliableMessageScan] by the retry,
    in the world of that moment; one of the four cases of the [select];
    and what other routines do meanwhile: an ack row arrives, a reliable
    message is persisted, a message is received from the peer. *)
Inductive senderEvent : Type :=
| ScanAttempt (w : world)
| ResendTimerFires (w : world)
| PersistedMsgsAvailable
| CtxDone
| SendQueue (w : world) (msg : PaladinMsg)
| AckArrives (ack : ReliableMessageAck)
| MessagePersisted (rm : ReliableMessage)
| MessageReceived (t : Z).

(** What went to the transport: a reliable message with its sequence, or
    a message of the send queue. *)
Definition handedOver : Type := list (option N * PaladinMsg).

Definition reliableSent (out : handedOver) : list (N * PaladinMsg) :=
  omap (fun e => (fun sq => (sq, snd e)) <$> fst e) out.

Definition asReliable (sent : list (N * PaladinMsg)) : handedOver :=
  map (fun e => (Some (fst e), snd e)) sent.

(** The quiesce test after a scan. *)
Definition ableToQuiesce (peerInactivityTimeout : Z) (w : world) (s : senderState)
  (p : peer) : bool :=
  sd_hitInactivityTimeout s && persistentMsgsDrained p &&
  match sd_LastReceive s with
  | None => true
  | Some t => (peerInactivityTimeout <? now w - t)%Z
  end.

(** One step of [peer.sender]: the state afterwards and what went to the
    transport.  An event that cannot happen where the loop stands (the
    timer firing while stopped or before its time, a case of the [select]
    while the scan runs) leaves the state alone, and so does a scan with a
    page size of zero, whose loop does not end.  When the loop returns,
    [senderCleanup] takes over, which is not followed here. *)
Definition senderStep (c : config) (peerInactivityTimeout : Z) (ev : senderEvent)
  (s : senderState) : senderState * handedOver :=
  match ev with
  | ScanAttempt w =>
      match sd_at s with
      | InScan =>
          match reliableMessageScan c w (sd_peer s) (sd_tables s) (sd_checkNew s) with
          | None => (s, [])
          | Some (Some err, p', db', sent) =>
              (mkSender p' db' InScan (sd_checkNew s) (sd_hitInactivityTimeout s)
                 (sd_resendTimer s) (sd_LastReceive s) (sd_quiescing s),
               asReliable sent)
          | Some (None, p', db', sent) =>
              if ableToQuiesce peerInactivityTimeout w s p'
              then (mkSender p' db' SenderReturned (sd_checkNew s)
                      (sd_hitInactivityTimeout s) (sd_resendTimer s) (sd_LastReceive s)
                      true,
                    asReliable sent)
              else (mkSender p' db' InSelect false false (Some (now w))
                      (sd_LastReceive s) (sd_quiescing s),
                    asReliable sent)
          end
      | _ => (s, [])
      end
  | ResendTimerFires w =>
      match sd_at s, sd_resendTimer s with
      | InSelect, Some t =>
          if (reliableMessageResend c <=? now w - t)%Z
          then (mkSender (sd_peer s) (sd_tables s) InScan (sd_checkNew s) true None
                  (sd_LastReceive s) (sd_quiescing s), [])
          else (s, [])
      | _, _ => (s, [])
      end
  | PersistedMsgsAvailable =>
      match sd_at s with
      | InSelect =>
          (mkSender (sd_peer s) (sd_tables s) InScan true (sd_hitInactivityTimeout s)
             None (sd_LastReceive s) (sd_quiescing s), [])
      | _ => (s, [])
      end
  | CtxDone =>
      match sd_at s with
      | InScan =>
          (mkSender (sd_peer s) (sd_tables s) SenderReturned (sd_checkNew s)
             (sd_hitInactivityTimeout s) (sd_resendTimer s) (sd_LastReceive s)
             (sd_quiescing s), [])
      | InSelect =>
          (mkSender (sd_peer s) (sd_tables s) SenderReturned (sd_checkNew s)
             (sd_hitInactivityTimeout s) None (sd_LastReceive s) (sd_quiescing s), [])
      | SenderReturned => (s, [])
      end
  | SendQueue w msg =>
      match sd_at s with
      | InSelect =>
          let '(err, p') := send w (sd_peer s) msg None in
          (mkSender p' (sd_tables s) InSelect (sd_checkNew s) (sd_hitInactivityTimeout s)
             None (sd_LastReceive s) (sd_quiescing s),
           match err with
           | Some _ => []
           | None => [(None, msg)]
           end)
      | _ => (s, [])
      end
  | AckArrives ack =>
      (mkSender (sd_peer s)
         (mkStore (reliable_msgs (sd_tables s))
            (CreateAcks (reliable_msg_acks (sd_tables s)) [ack]))
         (sd_at s) (sd_checkNew s) (sd_hitInactivityTimeout s) (sd_resendTimer s)
         (sd_LastReceive s) (sd_quiescing s), [])
  | MessagePersisted rm =>
      (mkSender (sd_peer s)
         (mkStore (reliable_msgs (sd_tables s) ++ [rm])%list
            (reliable_msg_acks (sd_tables s)))
         (sd_at s) (sd_checkNew s) (sd_hitInactivityTimeout s) (sd_resendTimer s)
         (sd_LastReceive s) (sd_quiescing s), [])
  | MessageReceived t =>
      (mkSender (sd_peer s) (sd_tables s) (sd_at s) (sd_checkNew s)
         (sd_hitInactivityTimeout s) (sd_resendTimer s) (Some t) (sd_quiescing s), [])
  end.

(** [peer.sender] over a sequence of events. *)
Fixpoint sender (c : config) (peerInactivityTimeout : Z) (events : list senderEvent)
  (s : senderState) : senderState * handedOver :=
  match events with
  | [] => (s, [])
  | ev :: rest =>
      let '(s1, out) := senderStep c peerInactivityTimeout ev s in
      let '(s2, more) := sender c peerInactivityTimeout rest s1 in
      (s2, (out ++ more)%list)
  end.

(** [go p.sender()]: [checkNew] and [hitInactivityTimeout] start false. *)
Definition senderStart (p : peer) (db : MessageStore) : senderState :=
  mkSender p db InScan false false None None false.

(** The ids handed to the transport. *)
Definition sentIds (sent : list (N * PaladinMsg)) : list string :=
  map (fun e => MessageId (snd e)) sent.

(** A row is due: it lies above the high-water mark, or the re-send
    interval has passed since it was created. *)
Definition dueForResend (c : config) (w : world) (p : peer) (rm : ReliableMessage) : Prop :=
  above (lastDrainHWM p) rm = true \/
  (reliableMessageResend c <= now w - Created rm)%Z.

(** An entry of the send queue was built from an eligible row of the page. *)
Definition queuedFrom (c : config) (w : world) (p : peer)
  (page : list ReliableMessage) (e : N * PaladinMsg) : Prop :=
  exists rm, rm ∈ page /\ eligible c w p rm = true /\
             buildMsg w rm = Msg (snd e) /\ fst e = Sequence rm.

(** A row is dealt with: it has an ack row, or its message went out. *)
Definition handled (w : world) (acks : list ReliableMessageAck)
  (sent : list (N * PaladinMsg)) (rm : ReliableMessage) : Prop :=
  acked acks (ID rm) = true \/
  exists msg, buildMsg w rm = Msg msg /\ (Sequence rm, msg) ∈ sent.

(** An entry handed to the transport was built from a row that had no ack
    row in [db]. *)
Definition builtFromUnacked (w : world) (db : MessageStore) (e : N * PaladinMsg) : Prop :=
  exists rm, rm ∈ reliable_msgs db /\
             acked (reliable_msg_acks db) (ID rm) = false /\
             buildMsg w rm = Msg (snd e) /\ fst e = Sequence rm /\
             MessageId (snd e) = ID rm.

(** What holds between the pages of a scan started at [p0], [db0]. *)
Definition scanSafe (w : world) (p0 : peer) (db0 : MessageStore) (st : scanState) : Prop :=
  reliable_msgs (sc_db st) = reliable_msgs db0 /\
  (forall id, acked (reliable_msg_acks db0) id = true ->
              acked (reliable_msg_acks (sc_db st)) id = true) /\
  lastDrainHWM (sc_peer st) = lastDrainHWM p0 /\
  (forall e, e ∈ sc_sent st -> builtFromUnacked w db0 e).

(** In a full scan every eligible row up to the end of the last page is
    dealt with. *)
Definition scanLive (c : config) (w : world) (p0 : peer) (db0 : MessageStore)
  (st : scanState) : Prop :=
  forall rm b, rm ∈ reliable_msgs db0 -> eligible c w p0 rm = true ->
    sc_lastPageEnd st = Some b -> (Sequence rm <= b)%N ->
    handled w (reliable_msg_acks (sc_db st)) (sc_sent st) rm.

(** Sample data for the examples below. *)
Definition quietWorld (t : Z) : world :=
  mkWorld t (fun _ meta => if String.eqb meta "bad" then Err (ParseError "bad") else Ok meta)
    (fun _ => Ok (Some "data")) (fun _ => None) (fun _ => None) (fun _ => None).

Definition twoMessages : MessageStore :=
  mkStore [mkRM 1 "m1" 0 "node2" RMTState "good";
        mkRM 2 "m2" 0 "node2" RMTState "bad";
        mkRM 3 "m3" 0 "node2" RMTState "good"]
       [mkAck "m3" 5 None].

Definition freshPeer : peer := mkPeer "node2" 0 None false (mkStats None 0 0 0 0).

Definition config_10_2 : config := mkConfig 10 2.

(** One unacknowledged message for the peer. *)
Definition oneMessage : MessageStore :=
  mkStore [mkRM 1 "m1" 0 "node2" RMTState "good"] [].

(** A message of the send queue. *)
Definition ping : PaladinMsg := mkMsg "p1" "TRANSACTION_ENGINE" "ping" "hello".

(** The wire form of "m1". *)
Definition m1Msg : PaladinMsg :=
  mkMsg "m1" "RELIABLE_MESSAGE_HANDLER" "StateDistribution" "gooddata".

End Transport.

(* ===================================================================== *)
(** * StateMgr: the in-memory domain context *)
(* ===================================================================== *)

Module StateMgr.

Inductive StateLockType : Type :=
| StateLockTypeCreate
| StateLockTypeRead
| StateLockTypeSpend.

Definition isSpend (t : StateLockType) : bool :=
  match t with StateLockTypeSpend => true | _ => false end.

Definition isCreate (t : StateLockType) : bool :=
  match t with StateLockTypeCreate => true | _ => false end.

(** [components.StateLock].  A [uuid.UUID] is a number here, 0 being the
    zero value [uuid.UUID{}]; a state id ([tktypes.HexBytes]) is its hex
    text, which is also the key [ID.String()] of the creating map. *)
Record StateLock : Type := mkLock {
  lk_Type : StateLockType;
  lk_Transaction : N;
  lk_State : string;
}.

(** [components.StateNullifier] *)
Record StateNullifier : Type := mkNullifier {
  nf_ID : string;
  nf_State : string;
}.

(** A [*components.State]: the address of the object and the fields that
    are never written again once it is built.  The two fields the context
    does write, [Locks] and [Nullifier], live in the object store of the
    context ([objects] below), so that every holder of the pointer sees
    the same value. *)
Record State : Type := mkState {
  addr : nat;
  ID : string;
  Schema : string;
  Data : string;
}.

Record stateFields : Type := mkFields {
  Locks : list StateLock;
  Nullifier : option StateNullifier;
}.

(** [components.StateWithLabels]: the embedded [*State] and the label
    values worked out from its data. *)
Record StateWithLabels : Type := mkLabelled {
  state : State;
  LabelValues : list (string * string);
}.

(** [components.StateUpsert] *)
Record StateUpsert : Type := mkUpsert {
  up_ID : string;
  up_SchemaID : string;
  up_Data : string;
  up_CreatedBy : option N;
}.

(** [query.QueryJSON]: the limit, the sort fields, and the statements as
    handed to the evaluator. *)
Record QueryJSON : Type := mkQuery {
  Limit : option nat;
  Sort : list string;
  Statements : string;
}.

Inductive stateError : Type :=
| MsgStateDomainContextClosed
| MsgStateFlushFailedDomainReset (cause : string)
| MsgStateNullifierStateNotInCtx (stateId nullifierId : string)
| MsgStateNullifierConflict (stateId existingId : string)
| MsgStateLockNoTransaction
| MsgStateLockNoState
| MsgStateLockCreateNotInContext (stateId : string)
| MsgContextCanceled
| FlushError (cause : string)
| SchemaError (detail : string)
| QueryError (detail : string)
| DatabaseError (detail : string).

(** A [writeOperation] of the flush writer: its id, the states and
    nullifiers queued on it, whether its [flushed] channel has been
    closed, and the [flushResult] stored before closing it ([None] for
    nil). *)
Record writeOperation : Type := mkWriteOp {
  wo_id : nat;
  wo_states : list StateWithLabels;
  wo_stateNullifiers : list StateNullifier;
  flushed : bool;
  flushResult : option string;
}.

(** [domainContext].  [objects] holds the written fields of the [State]
    objects by address (an address without an entry has nil [Locks] and
    [Nullifier]); [allocated] and [opsCreated] number the objects and
    write operations made so far. *)
Record domainContext : Type := mkDC {
  id : N;
  domainName : string;
  contractAddress : string;
  closed : bool;
  unFlushed : option writeOperation;
  flushing : option writeOperation;
  creatingStates : gmap string StateWithLabels;
  txLocks : list StateLock;
  objects : gmap nat stateFields;
  allocated : nat;
  opsCreated : nat;
}.

Definition set_closed (b : bool) (dc : domainContext) : domainContext :=
  mkDC (id dc) (domainName dc) (contractAddress dc) b (unFlushed dc) (flushing dc)
    (creatingStates dc) (txLocks dc) (objects dc) (allocated dc) (opsCreated dc).

Definition set_unFlushed (u : option writeOperation) (dc : domainContext) : domainContext :=
  mkDC (id dc) (domainName dc) (contractAddress dc) (closed dc) u (flushing dc)
    (creatingStates dc) (txLocks dc) (objects dc) (allocated dc) (opsCreated dc).

Definition set_flushing (f : option writeOperation) (dc : domainContext) : domainContext :=
  mkDC (id dc) (domainName dc) (contractAddress dc) (closed dc) (unFlushed dc) f
    (creatingStates dc) (txLocks dc) (objects dc) (allocated dc) (opsCreated dc).

Definition set_creatingStates (m : gmap string StateWithLabels) (dc : domainContext)
  : domainContext :=
  mkDC (id dc) (domainName dc) (contractAddress dc) (closed dc) (unFlushed dc)
    (flushing dc) m (txLocks dc) (objects dc) (allocated dc) (opsCreated dc).

Definition set_txLocks (l : list StateLock) (dc : domainContext) : domainContext :=
  mkDC (id dc) (domainName dc) (contractAddress dc) (closed dc) (unFlushed dc)
    (flushing dc) (creatingStates dc) l (objects dc) (allocated dc) (opsCreated dc).

Definition set_objects (o : gmap nat stateFields) (dc : domainContext) : domainContext :=
  mkDC (id dc) (domainName dc) (contractAddress dc) (closed dc) (unFlushed dc)
    (flushing dc) (creatingStates dc) (txLocks dc) o (allocated dc) (opsCreated dc).

Definition set_allocated (n : nat) (dc : domainContext) : domainContext :=
  mkDC (id dc) (domainName dc) (contractAddress dc) (closed dc) (unFlushed dc)
    (flushing dc) (creatingStates dc) (txLocks dc) (objects dc) n (opsCreated dc).

Definition set_opsCreated (n : nat) (dc : domainContext) : domainContext :=
  mkDC (id dc) (domainName dc) (contractAddress dc) (closed dc) (unFlushed dc)
    (flushing dc) (creatingStates dc) (txLocks dc) (objects dc) (allocated dc) n.

(** Reading and writing the fields of the object behind a [*State]. *)
Definition fieldsOf (dc : domainContext) (s : State) : stateFields :=
  default (mkFields [] None) (objects dc !! addr s).

Definition set_Nullifier (s : State) (n : option StateNullifier) (dc : domainContext)
  : domainContext :=
  set_objects (<[addr s := mkFields (Locks (fieldsOf dc s)) n]> (objects dc)) dc.

Definition set_Locks (s : State) (l : list StateLock) (dc : domainContext)
  : domainContext :=
  set_objects (<[addr s := mkFields l (Nullifier (fieldsOf dc s))]> (objects dc)) dc.

(** [ss.writer.newWriteOp] *)
Definition newWriteOp (n : nat) : writeOperation := mkWriteOp n [] [] false None.

(** [checkResetInitUnFlushed] *)
Definition checkResetInitUnFlushed (dc : domainContext)
  : option stateError * domainContext :=
  if closed dc then (Some MsgStateDomainContextClosed, dc)
  else
    let broken :=
      match flushing dc with
      | Some f => if flushed f then flushResult f else None
      | None => None
      end in
    match broken with
    | Some cause => (Some (MsgStateFlushFailedDomainReset cause), dc)
    | None =>
        match unFlushed dc with
        | Some _ => (None, dc)
        | None =>
            (None,
             set_opsCreated (S (opsCreated dc))
               (set_unFlushed (Some (newWriteOp (opsCreated dc))) dc))
        end
    end.

(** The write operation accepting appends; [checkResetInitUnFlushed]
    leaves one in place whenever it passes. *)
Definition theUnFlushed (dc : domainContext) : writeOperation :=
  default (newWriteOp (opsCreated dc)) (unFlushed dc).

Definition set_wo_states (l : list StateWithLabels) (wo : writeOperation) : writeOperation :=
  mkWriteOp (wo_id wo) l (wo_stateNullifiers wo) (flushed wo) (flushResult wo).

Definition set_wo_stateNullifiers (l : list StateNullifier) (wo : writeOperation)
  : writeOperation :=
  mkWriteOp (wo_id wo) (wo_states wo) l (flushed wo) (flushResult wo).

(** [for _, l := range dc.txLocks] looking for a spend lock on a state. *)
Definition spendLocked (dc : domainContext) (stateId : string) : bool :=
  existsb (fun lock => String.eqb (lk_State lock) stateId && isSpend (lk_Type lock))
          (txLocks dc).

(** [getUnFlushedStates]: the ids under a spend lock, the spent ids (none
    are collected), and the nullifiers queued on both write operations. *)
Definition getUnFlushedStates (dc : domainContext)
  : result stateError (list string * list string * list StateNullifier) * domainContext :=
  match checkResetInitUnFlushed dc with
  | (Some flushErr, dc1) => (Err flushErr, dc1)
  | (None, dc1) =>
      let spending :=
        map lk_State (filter (fun l => isSpend (lk_Type l)) (txLocks dc1)) in
      let nullifiers :=
        (wo_stateNullifiers (theUnFlushed dc1) ++
         match flushing dc1 with
         | Some f => wo_stateNullifiers f
         | None => []
         end)%list in
      (Ok (spending, [], nullifiers), dc1)
  end.

(** [applyLocks]: every state gets the locks held on its id, in order. *)
Fixpoint applyLocks (dc : domainContext) (states : list State) : domainContext :=
  match states with
  | [] => dc
  | s :: rest =>
      applyLocks
        (set_Locks s (filter (fun l => String.eqb (lk_State l) (ID s)) (txLocks dc)) dc)
        rest
  end.

(** [addStateLocks] *)
Fixpoint addStateLocks (dc : domainContext) (locks : list StateLock)
  : option stateError * domainContext :=
  match locks with
  | [] => (None, dc)
  | l :: rest =>
      if (lk_Transaction l =? 0)%N then (Some MsgStateLockNoTransaction, dc)
      else if (String.length (lk_State l) =? 0)%nat then (Some MsgStateLockNoState, dc)
      else
        match creatingStates dc !! lk_State l, isCreate (lk_Type l) with
        | None, true => (Some (MsgStateLockCreateNotInContext (lk_State l)), dc)
        | _, _ => addStateLocks (set_txLocks (txLocks dc ++ [l])%list dc) rest
        end
  end.

(** [AddStateLocks] *)
Definition AddStateLocks (dc : domainContext) (locks : list StateLock)
  : option stateError * domainContext :=
  match checkResetInitUnFlushed dc with
  | (Some flushErr, dc1) => (Some flushErr, dc1)
  | (None, dc1) => addStateLocks dc1 locks
  end.

(** The loop of [UpsertNullifiers] after the append. *)
Fixpoint attachNullifiers (dc : domainContext) (nullifiers : list StateNullifier)
  : option stateError * domainContext :=
  match nullifiers with
  | [] => (None, dc)
  | nullifier :: rest =>
      match creatingStates dc !! nf_State nullifier with
      | None =>
          (Some (MsgStateNullifierStateNotInCtx (nf_State nullifier) (nf_ID nullifier)), dc)
      | Some creatingState =>
          match Nullifier (fieldsOf dc (state creatingState)) with
          | Some existing =>
              if negb (String.eqb (nf_ID existing) (nf_ID nullifier))
              then (Some (MsgStateNullifierConflict (nf_State nullifier) (nf_ID existing)), dc)
              else attachNullifiers
                     (set_Nullifier (state creatingState) (Some nullifier) dc) rest
          | None =>
              attachNullifiers (set_Nullifier (state creatingState) (Some nullifier) dc) rest
          end
      end
  end.

(** [UpsertNullifiers] *)
Definition UpsertNullifiers (dc : domainContext) (nullifiers : list StateNullifier)
  : option stateError * domainContext :=
  match checkResetInitUnFlushed dc with
  | (Some flushErr, dc1) => (Some flushErr, dc1)
  | (None, dc1) =>
      let wo := theUnFlushed dc1 in
      let dc2 :=
        set_unFlushed
          (Some (set_wo_stateNullifiers (wo_stateNullifiers wo ++ nullifiers)%list wo))
          dc1 in
      attachNullifiers dc2 nullifiers
  end.

(** The inner loop of [ClearTransactions] for one lock: is its transaction
    among those cleared. *)
Definition cleared (transactions : list N) (lock : StateLock) : bool :=
  existsb (fun tx => (lk_Transaction lock =? tx)%N) transactions.

(** A lock that is cleared, is a create lock, and is on the state [k]. *)
Definition clearsCreate (transactions : list N) (k : string) (lock : StateLock) : bool :=
  cleared transactions lock && isCreate (lk_Type lock) && String.eqb (lk_State lock) k.

(** The loop of [ClearTransactions] over [dc.txLocks]: the creating map
    after the deletions, and the locks kept. *)
Fixpoint clearLocks (transactions : list N) (locks : list StateLock)
  (creating : gmap string StateWithLabels)
  : gmap string StateWithLabels * list StateLock :=
  match locks with
  | [] => (creating, [])
  | lock :: rest =>
      if cleared transactions lock then
        clearLocks transactions rest
          (if isCreate (lk_Type lock) then delete (lk_State lock) creating else creating)
      else
        let '(creating', newLocks) := clearLocks transactions rest creating in
        (creating', lock :: newLocks)
  end.

(** [ClearTransactions] *)
Definition ClearTransactions (dc : domainContext) (transactions : list N)
  : domainContext :=
  let '(creating, newLocks) := clearLocks transactions (txLocks dc) (creatingStates dc) in
  set_txLocks newLocks (set_creatingStates creating dc).

(** How the [select] of [clearExistingFlush] ends: on the [flushed]
    channel of the flush, for a flush still running once it has completed
    with the result given; or on the [Done] channel of the caller's
    context, which the [select] may also take when the flush has completed
    already, if that context is cancelled. *)
Inductive waitOutcome : Type :=
| FlushCompletes (result : option string)
| ContextDone.

(** [clearExistingFlush]: the stored [flushResult] is returned as it is
    ([FlushError]), after waiting for the flush if it is still running. *)
Definition clearExistingFlush (wait : waitOutcome) (dc : domainContext)
  : option stateError * domainContext :=
  match flushing dc with
  | None => (None, dc)
  | Some f =>
      match wait with
      | ContextDone => (Some MsgContextCanceled, dc)
      | FlushCompletes res =>
          if flushed f then (option_map FlushError (flushResult f), dc)
          else
            (option_map FlushError res,
             set_flushing
               (Some (mkWriteOp (wo_id f) (wo_states f) (wo_stateNullifiers f) true res))
               dc)
      end
  end.

(** [Reset] *)
Definition Reset (wait : waitOutcome) (dc : domainContext) : domainContext :=
  let '(_, dc1) := clearExistingFlush wait dc in
  set_txLocks [] (set_unFlushed None (set_flushing None (set_creatingStates ∅ dc1))).

(** [InitiateFlush] up to the hand-over to the writer: the sealed write
    operation, with its fresh [flushed] channel, becomes [flushing]. *)
Definition InitiateFlush (wait : waitOutcome) (dc : domainContext)
  : option stateError * domainContext :=
  match clearExistingFlush wait dc with
  | (Some err, dc1) => (Some err, dc1)
  | (None, dc1) =>
      let sealed :=
        match unFlushed dc1 with
        | Some u =>
            Some (mkWriteOp (wo_id u) (wo_states u) (wo_stateNullifiers u) false
                    (flushResult u))
        | None => None
        end in
      (None, set_unFlushed None (set_flushing sealed dc1))
  end.

(** The end of [doFlush] for the write operation [op]: the result is
    stored and the channel closed, on the object [dc.flushing] points to
    if that is still the one. *)
Definition doFlush (op : nat) (err : option string) (dc : domainContext) : domainContext :=
  match flushing dc with
  | Some f =>
      if (wo_id f =? op)%nat && negb (flushed f)
      then set_flushing
             (Some (mkWriteOp (wo_id f) (wo_states f) (wo_stateNullifiers f) true err)) dc
      else dc
  | None => dc
  end.

Section Store.

(** Calls that leave the context: [ss.GetSchema] and [schema.ProcessState]
    (the id, schema, data and label values of the state to store);
    [filters.EvalQuery] on the label set of a schema; [schema.RecoverLabels];
    [filters.SortValueSetInPlace]; and the two database queries
    [ss.findStates] and [ss.findAvailableNullifiers], each returning rows
    (id, schema, data, nullifier). *)
Variable GetSchema : string -> string -> option stateError.
Variable ProcessState :
  string -> StateUpsert -> result stateError (string * string * string * list (string * string)).
Variable EvalQuery : QueryJSON -> string -> list (string * string) -> result stateError bool.
Variable RecoverLabels : string -> State -> result stateError (list (string * string)).
Variable SortValueSetInPlace :
  string -> list string -> list StateWithLabels -> result stateError (list StateWithLabels).
Variable findStates :
  string -> string -> string -> QueryJSON -> list string ->
  result stateError (list (string * string * string * option StateNullifier)).
Variable findAvailableNullifiers :
  string -> string -> string -> QueryJSON -> list string -> list string -> list string ->
  result stateError (list (string * string * string * option StateNullifier)).

(** The objects a query result arrives in: fresh ones, one per row. *)
Fixpoint loadRows (dc : domainContext)
  (rows : list (string * string * string * option StateNullifier))
  : list State * domainContext :=
  match rows with
  | [] => ([], dc)
  | (rid, rschema, rdata, rnull) :: rest =>
      let s := mkState (allocated dc) rid rschema rdata in
      let dc1 := set_allocated (S (allocated dc)) (set_Nullifier s rnull dc) in
      let '(states, dc2) := loadRows dc1 rest in
      (s :: states, dc2)
  end.

(** The loop of [mergeUnFlushedApplyLocks] over the creating map. *)
Fixpoint collectMatches (dc : domainContext) (schemaId : string) (dbStates : list State)
  (query : QueryJSON) (requireNullifier : bool) (creating : list StateWithLabels)
  : result stateError (list StateWithLabels) :=
  match creating with
  | [] => Ok []
  | st :: rest =>
      if negb (String.eqb (Schema (state st)) schemaId)
      then collectMatches dc schemaId dbStates query requireNullifier rest
      else if spendLocked dc (ID (state st))
      then collectMatches dc schemaId dbStates query requireNullifier rest
      else if requireNullifier
              && negb (bool_decide (is_Some (Nullifier (fieldsOf dc (state st)))))
      then collectMatches dc schemaId dbStates query requireNullifier rest
      else
        match EvalQuery query schemaId (LabelValues st) with
        | Err err => Err err
        | Ok isMatch =>
            match collectMatches dc schemaId dbStates query requireNullifier rest with
            | Err err => Err err
            | Ok matches =>
                if isMatch
                   && negb (existsb (fun dbState => String.eqb (ID dbState) (ID (state st)))
                                    dbStates)
                then Ok (st :: matches)
                else Ok matches
            end
        end
  end.

(** The first loop of [mergeInMemoryMatches]. *)
Fixpoint recoverAll (schemaId : string) (states : list State)
  : result stateError (list StateWithLabels) :=
  match states with
  | [] => Ok []
  | s :: rest =>
      match RecoverLabels schemaId s with
      | Err err => Err err
      | Ok labels =>
          match recoverAll schemaId rest with
          | Err err => Err err
          | Ok full => Ok (mkLabelled s labels :: full)
          end
      end
  end.

(** [mergeInMemoryMatches] *)
Definition mergeInMemoryMatches (schemaId : string) (states : list State)
  (extras : list StateWithLabels) (query : QueryJSON) : result stateError (list State) :=
  match recoverAll schemaId states with
  | Err err => Err err
  | Ok recovered =>
      let fullList :=
        (recovered ++
         filter (fun s => negb (existsb (fun p => String.eqb (ID p) (ID (state s))) states))
                extras)%list in
      match SortValueSetInPlace schemaId (Sort query) fullList with
      | Err err => Err err
      | Ok sorted =>
          let len :=
            match Limit query with
            | Some limit => if (limit <? length sorted)%nat then limit else length sorted
            | None => length sorted
            end in
          Ok (map state (take len sorted))
      end
  end.

(** The order in which [range dc.creatingStates] visits the map is not
    fixed by Go; the model takes the order of [map_to_list]. *)
Definition creatingList (dc : domainContext) : list StateWithLabels :=
  (map_to_list (creatingStates dc)).*2.

(** [mergeUnFlushedApplyLocks] *)
Definition mergeUnFlushedApplyLocks (dc : domainContext) (schemaId : string)
  (dbStates : list State) (query : QueryJSON) (requireNullifier : bool)
  : result stateError (list State) * domainContext :=
  match checkResetInitUnFlushed dc with
  | (Some flushErr, dc1) => (Err flushErr, dc1)
  | (None, dc1) =>
      match collectMatches dc1 schemaId dbStates query requireNullifier (creatingList dc1) with
      | Err err => (Err err, dc1)
      | Ok matches =>
          let merged :=
            if (0 <? length matches)%nat
            then mergeInMemoryMatches schemaId dbStates matches query
            else Ok dbStates in
          match merged with
          | Err err => (Err err, dc1)
          | Ok retStates => (Ok retStates, applyLocks dc1 retStates)
          end
      end
  end.

(** [FindAvailableStates] *)
Definition FindAvailableStates (dc : domainContext) (schemaID : string) (query : QueryJSON)
  : result stateError (list State) * domainContext :=
  match getUnFlushedStates dc with
  | (Err err, dc1) => (Err err, dc1)
  | (Ok (spending, spent, _), dc1) =>
      match findStates (domainName dc1) (contractAddress dc1) schemaID query
              (spending ++ spent)%list with
      | Err err => (Err err, dc1)
      | Ok rows =>
          let '(states, dc2) := loadRows dc1 rows in
          mergeUnFlushedApplyLocks dc2 schemaID states query false
      end
  end.

(** The loop of [FindAvailableNullifiers] attaching queued nullifiers to
    the loaded states that have none. *)
Fixpoint attachQueued (dc : domainContext) (nullifiers : list StateNullifier)
  (states : list State) : domainContext :=
  match states with
  | [] => dc
  | s :: rest =>
      let dc1 :=
        match Nullifier (fieldsOf dc s) with
        | Some _ => dc
        | None =>
            match List.find (fun n => String.eqb (nf_State n) (ID s)) nullifiers with
            | Some n => set_Nullifier s (Some n) dc
            | None => dc
            end
        end in
      attachQueued dc1 nullifiers rest
  end.

(** [FindAvailableNullifiers] *)
Definition FindAvailableNullifiers (dc : domainContext) (schemaID : string)
  (query : QueryJSON) : result stateError (list State) * domainContext :=
  match getUnFlushedStates dc with
  | (Err err, dc1) => (Err err, dc1)
  | (Ok (spending, spent, nullifiers), dc1) =>
      match findAvailableNullifiers (domainName dc1) (contractAddress dc1) schemaID query
              (map nf_State nullifiers) spending spent with
      | Err err => (Err err, dc1)
      | Ok rows =>
          let '(states, dc2) := loadRows dc1 rows in
          mergeUnFlushedApplyLocks (attachQueued dc2 nullifiers states) schemaID states
            query true
      end
  end.

(** The first loop of [UpsertStates]: for every upsert, the state with its
    label values in a new object, and its create lock if [CreatedBy] is
    set.  [base] is the address of the first new object. *)
Fixpoint processUpserts (domain contract : string) (base : nat)
  (stateUpserts : list StateUpsert)
  : result stateError (list StateWithLabels * list StateLock * list StateWithLabels) :=
  match stateUpserts with
  | [] => Ok ([], [], [])
  | ns :: rest =>
      match GetSchema domain (up_SchemaID ns) with
      | Some err => Err err
      | None =>
          match ProcessState contract ns with
          | Err err => Err err
          | Ok (sid, sschema, sdata, labels) =>
              let vs := mkLabelled (mkState base sid sschema sdata) labels in
              match processUpserts domain contract (S base) rest with
              | Err err => Err err
              | Ok (withValues, stateLocks, toMakeAvailable) =>
                  match up_CreatedBy ns with
                  | Some createdBy =>
                      Ok (vs :: withValues,
                          mkLock StateLockTypeCreate createdBy sid :: stateLocks,
                          vs :: toMakeAvailable)
                  | None => Ok (vs :: withValues, stateLocks, toMakeAvailable)
                  end
              end
          end
      end
  end.

(** [UpsertStates] *)
Definition UpsertStates (dc : domainContext) (stateUpserts : list StateUpsert)
  : result stateError (list State) * domainContext :=
  match processUpserts (domainName dc) (contractAddress dc) (allocated dc) stateUpserts with
  | Err err => (Err err, dc)
  | Ok (withValues, stateLocks, toMakeAvailable) =>
      match checkResetInitUnFlushed dc with
      | (Some flushErr, dc1) => (Err flushErr, dc1)
      | (None, dc1) =>
          let wo := theUnFlushed dc1 in
          let deDuppedUnFlushedStates :=
            filter (fun existing =>
                      negb (existsb (fun s => String.eqb (ID (state existing)) (ID (state s)))
                                    withValues))
                   (wo_states wo) in
          let dc2 :=
            set_allocated (allocated dc1 + length withValues)%nat
              (set_unFlushed
                 (Some (set_wo_states (deDuppedUnFlushedStates ++ withValues)%list wo)) dc1) in
          let dc3 :=
            set_creatingStates
              (fold_left (fun m s => <[ID (state s) := s]> m) toMakeAvailable
                         (creatingStates dc2)) dc2 in
          match addStateLocks dc3 stateLocks with
          | (Some err, dc4) => (Err err, dc4)
          | (None, dc4) => (Ok (map state withValues), dc4)
          end
      end
  end.

(** The contexts that can be reached from a new one by the operations of
    a [DomainContext] and the completion of a flush. *)
Inductive reached : domainContext -> Prop :=
| reached_new ctxId domain contract :
    reached (mkDC ctxId domain contract false None None ∅ [] ∅ 0 0)
| reached_UpsertStates dc stateUpserts :
    reached dc -> reached (snd (UpsertStates dc stateUpserts))
| reached_UpsertNullifiers dc nullifiers :
    reached dc -> reached (snd (UpsertNullifiers dc nullifiers))
| reached_AddStateLocks dc locks :
    reached dc -> reached (snd (AddStateLocks dc locks))
| reached_FindAvailableStates dc schemaID query :
    reached dc -> reached (snd (FindAvailableStates dc schemaID query))
| reached_FindAvailableNullifiers dc schemaID query :
    reached dc -> reached (snd (FindAvailableNullifiers dc schemaID query))
| reached_ClearTransactions dc transactions :
    reached dc -> reached (ClearTransactions dc transactions)
| reached_InitiateFlush dc wait :
    reached dc -> reached (snd (InitiateFlush wait dc))
| reached_doFlush dc op err :
    reached dc -> reached (doFlush op err dc)
| reached_Reset dc wait :
    reached dc -> reached (Reset wait dc)
| reached_closed dc :
    reached dc -> reached (set_closed true dc).

(** One call on the context other than [Reset] and [Close], or the
    completion of a flush. *)
Inductive call : domainContext -> domainContext -> Prop :=
| call_UpsertStates dc stateUpserts :
    call dc (snd (UpsertStates dc stateUpserts))
| call_UpsertNullifiers dc nullifiers :
    call dc (snd (UpsertNullifiers dc nullifiers))
| call_AddStateLocks dc locks :
    call dc (snd (AddStateLocks dc locks))
| call_FindAvailableStates dc schemaID query :
    call dc (snd (FindAvailableStates dc schemaID query))
| call_FindAvailableNullifiers dc schemaID query :
    call dc (snd (FindAvailableNullifiers dc schemaID query))
| call_ClearTransactions dc transactions :
    call dc (ClearTransactions dc transactions)
| call_InitiateFlush dc wait :
    call dc (snd (InitiateFlush wait dc))
| call_doFlush dc op err :
    call dc (doFlush op err dc).

(** The states of an [UpsertStates] call, once processed, have pairwise
    distinct ids. *)
Definition distinctIds (dc : domainContext) (stateUpserts : list StateUpsert) : Prop :=
  forall withValues stateLocks toMakeAvailable,
    processUpserts (domainName dc) (contractAddress dc) (allocated dc) stateUpserts
      = Ok (withValues, stateLocks, toMakeAvailable) ->
    NoDup ((fun s => ID (state s)) <$> withValues).

(** The contexts reached from a new one when no [UpsertStates] call
    carries a state id twice. *)
Inductive reachedDistinct : domainContext -> Prop :=
| distinct_new ctxId domain contract :
    reachedDistinct (mkDC ctxId domain contract false None None ∅ [] ∅ 0 0)
| distinct_UpsertStates dc stateUpserts :
    reachedDistinct dc -> distinctIds dc stateUpserts ->
    reachedDistinct (snd (UpsertStates dc stateUpserts))
| distinct_UpsertNullifiers dc nullifiers :
    reachedDistinct dc -> reachedDistinct (snd (UpsertNullifiers dc nullifiers))
| distinct_AddStateLocks dc locks :
    reachedDistinct dc -> reachedDistinct (snd (AddStateLocks dc locks))
| distinct_FindAvailableStates dc schemaID query :
    reachedDistinct dc -> reachedDistinct (snd (FindAvailableStates dc schemaID query))
| distinct_FindAvailableNullifiers dc schemaID query :
    reachedDistinct dc ->
    reachedDistinct (snd (FindAvailableNullifiers dc schemaID query))
| distinct_ClearTransactions dc transactions :
    reachedDistinct dc -> reachedDistinct (ClearTransactions dc transactions)
| distinct_InitiateFlush dc wait :
    reachedDistinct dc -> reachedDistinct (snd (InitiateFlush wait dc))
| distinct_doFlush dc op err :
    reachedDistinct dc -> reachedDistinct (doFlush op err dc)
| distinct_Reset dc wait :
    reachedDistinct dc -> reachedDistinct (Reset wait dc)
| distinct_closed dc :
    reachedDistinct dc -> reachedDistinct (set_closed true dc).

End Store.

(** Sample surroundings for the examples: one known schema "coin", states
    stored as given with the data as their "owner" label, a query matching
    every state, labels recovered as empty, a sort that leaves the order,
    and an empty database. *)
Definition sampleGetSchema (domain schemaId : string) : option stateError :=
  if String.eqb schemaId "coin" then None else Some (SchemaError schemaId).

Definition sampleProcessState (contract : string) (ns : StateUpsert)
  : result stateError (string * string * string * list (string * string)) :=
  Ok (up_ID ns, up_SchemaID ns, up_Data ns, [("owner", up_Data ns)]).

Definition sampleEvalQuery (q : QueryJSON) (schemaId : string)
  (labels : list (string * string)) : result stateError bool := Ok true.

Definition sampleRecoverLabels (schemaId : string) (s : State)
  : result stateError (list (string * string)) := Ok [].

Definition sampleSort (schemaId : string) (fields : list string)
  (l : list StateWithLabels) : result stateError (list StateWithLabels) := Ok l.

Definition emptyFindStates (domain contract schemaId : string) (q : QueryJSON)
  (excluded : list string)
  : result stateError (list (string * string * string * option StateNullifier)) := Ok [].

Definition emptyFindNullifiers (domain contract schemaId : string) (q : QueryJSON)
  (withNullifiers spending spent : list string)
  : result stateError (list (string * string * string * option StateNullifier)) := Ok [].

Definition sampleUpsertStates := UpsertStates sampleGetSchema sampleProcessState.

Definition sampleFindAvailableStates :=
  FindAvailableStates sampleEvalQuery sampleRecoverLabels sampleSort emptyFindStates.

Definition sampleFindAvailableNullifiers :=
  FindAvailableNullifiers sampleEvalQuery sampleRecoverLabels sampleSort
    emptyFindNullifiers.

Definition emptyContext : domainContext :=
  mkDC 1 "zeto" "0xc0" false None None ∅ [] ∅ 0 0.

Definition allStates : QueryJSON := mkQuery None [".created"] "{}".

(** A context in which transaction 7 has created state "s1". *)
Definition contextWithS1 : domainContext :=
  snd (sampleUpsertStates emptyContext [mkUpsert "s1" "coin" "alice" (Some 7%N)]).

(** The ids on a write list. *)
Definition writeIds (wo : writeOperation) : list string :=
  (fun s => ID (state s)) <$> wo_states wo.

(** The id of the nullifier attached to the object behind a state. *)
Definition nullifierId (dc : domainContext) (s : State) : option string :=
  nf_ID <$> Nullifier (fieldsOf dc s).

(** A context in which "s1" carries the nullifier "n1". *)
Definition contextWithN1 : domainContext :=
  snd (UpsertNullifiers contextWithS1 [mkNullifier "n1" "s1"]).


(** The id of a database row. *)
Definition rowId (r : string * string * string * option StateNullifier) : string :=
  r.1.1.1.

(** The locks held in the context on a state id, in the order taken. *)
Definition locksOn (dc : domainContext) (stateId : string) : list StateLock :=
  filter (fun l => String.eqb (lk_State l) stateId) (txLocks dc).

(** The ids under a spend lock in the context. *)
Definition spendingIds (dc : domainContext) : list string :=
  map lk_State (filter (fun l => isSpend (lk_Type l)) (txLocks dc)).

(** What the creating map of a context satisfies however it was reached
    from a new one ([wellFormed_reached] below): entries are keyed by the
    id of their state, their objects were made before now, and no object
    sits under two keys. *)
Definition wellFormed (dc : domainContext) : Prop :=
  (forall k cs, creatingStates dc !! k = Some cs ->
     ID (state cs) = k /\ (addr (state cs) < allocated dc)%nat) /\
  (forall k1 k2 cs1 cs2,
     creatingStates dc !! k1 = Some cs1 -> creatingStates dc !! k2 = Some cs2 ->
     addr (state cs1) = addr (state cs2) -> k1 = k2).

(** What the loop over the creating map collects: a state of the schema
    that is not under a spend lock, satisfies the query, and did not come
    back from the database. *)
Definition collected
  (EvalQuery : QueryJSON -> string -> list (string * string) -> result stateError bool)
  (dc : domainContext) (schemaId : string) (dbStates : list State)
  (query : QueryJSON) (cs : StateWithLabels) : Prop :=
  Schema (state cs) = schemaId /\
  spendLocked dc (ID (state cs)) = false /\
  EvalQuery query schemaId (LabelValues cs) = Ok true /\
  ID (state cs) ∉ ID <$> dbStates.

(** The overlay states a query may return: in the creating map, of the
    schema, not under a spend lock, and satisfying the query. *)
Definition overlayVisible
  (EvalQuery : QueryJSON -> string -> list (string * string) -> result stateError bool)
  (dc : domainContext) (schemaId : string) (query : QueryJSON)
  (cs : StateWithLabels) : Prop :=
  cs ∈ creatingList dc /\
  Schema (state cs) = schemaId /\
  spendLocked dc (ID (state cs)) = false /\
  EvalQuery query schemaId (LabelValues cs) = Ok true.

(** The overlay states in the words of the specification: "the states in
    C's creating map that satisfy Q", for the schema asked. *)
Definition overlaySatisfying
  (EvalQuery : QueryJSON -> string -> list (string * string) -> result stateError bool)
  (dc : domainContext) (schemaId : string) (query : QueryJSON)
  (cs : StateWithLabels) : Prop :=
  cs ∈ creatingList dc /\
  Schema (state cs) = schemaId /\
  EvalQuery query schemaId (LabelValues cs) = Ok true.

(** The list cut at the limit of the query, if it has one. *)
Definition upToLimit {A} (query : QueryJSON) (l : list A) : list A :=
  match Limit query with
  | Some n => take n l
  | None => l
  end.

(** [contextWithS1] after transaction 8 has taken a spend lock on "s1". *)
Definition contextS1Spent : domainContext :=
  snd (AddStateLocks contextWithS1 [mkLock StateLockTypeSpend 8 "s1"]).

(** The last flush of the context has completed with an error. *)
Definition flushFailed (dc : domainContext) (cause : string) : Prop :=
  exists f, flushing dc = Some f /\ flushed f = true /\ flushResult f = Some cause.

(** The state manager's registry: [domainContexts] are the ids registered,
    [contextObjects] the context objects by id, which stay reachable from
    whoever opened them after they leave the registry. *)
Record stateManager : Type := mkSS {
  domainContexts : gset N;
  contextObjects : gmap N domainContext;
}.

(** [NewDomainContext], given the id drawn by [uuid.New()]. *)
Definition NewDomainContext (ss : stateManager) (newId : N)
  (domain contract : string) : stateManager :=
  mkSS ({[newId]} ∪ domainContexts ss)
       (<[newId := mkDC newId domain contract false None None ∅ [] ∅ 0 0]>
          (contextObjects ss)).



(** A state manager holding [contextWithS1] as its one context. *)
Definition sampleManager : stateManager :=
  mkSS {[1%N]} {[1%N := contextWithS1]}.

End StateMgr.

(* ===================================================================== *)
(** * Filters: the hex bytes label field *)
(* ===================================================================== *)

Module HexFilters.
Import Filters.

(** The [driver.Value]s [HexBytesField.SQLValue] produces. *)
Inductive driverValue : Type :=
| NULL
| VString (s : string).

(** The errors of [encoding/hex]. *)
Inductive hexError : Type :=
| InvalidByteError (c : ascii)
| ErrLength.

Inductive sqlError : Type :=
| UnmarshalError
| MsgFiltersValueInvalidHex (cause : hexError)
| MsgFiltersValueInvalidForString.

(** [strings.HasPrefix] with what is left behind the prefix. *)
Fixpoint stripPrefix (prefix s : string) : option string :=
  match prefix, s with
  | EmptyString, _ => Some s
  | String a prefix', String b s' =>
      if Ascii.eqb a b then stripPrefix prefix' s' else None
  | String _ _, EmptyString => None
  end.

(** [strings.TrimPrefix] *)
Definition TrimPrefix (s prefix : string) : string :=
  match stripPrefix prefix s with
  | Some rest => rest
  | None => s
  end.

(** [reverseHexTable] of [encoding/hex]: the value of a hex digit of
    either case, [None] standing for the entry 0xff. *)
Definition fromHexChar (c : ascii) : option N :=
  let n := N_of_ascii c in
  if (48 <=? n)%N && (n <=? 57)%N then Some (n - 48)%N
  else if (97 <=? n)%N && (n <=? 102)%N then Some (n - 97 + 10)%N
  else if (65 <=? n)%N && (n <=? 70)%N then Some (n - 65 + 10)%N
  else None.

(** [hex.Decode]: the bytes decoded before the first error, and the
    error.  A bad digit is reported before a bad length. *)
Fixpoint Decode (src : string) : list N * option hexError :=
  match src with
  | EmptyString => ([], None)
  | String p EmptyString =>
      match fromHexChar p with
      | None => ([], Some (InvalidByteError p))
      | Some _ => ([], Some ErrLength)
      end
  | String p (String q rest) =>
      match fromHexChar p with
      | None => ([], Some (InvalidByteError p))
      | Some a =>
          match fromHexChar q with
          | None => ([], Some (InvalidByteError q))
          | Some b =>
              let '(bytes, err) := Decode rest in
              (N.lor (N.shiftl a 4) b :: bytes, err)
          end
      end
  end.

(** [hex.DecodeString] *)
Definition DecodeString (s : string) : list N * option hexError := Decode s.

Definition hextable : string := "0123456789abcdef".

Definition hexDigit (v : N) : ascii :=
  match String.get (N.to_nat v) hextable with
  | Some c => c
  | None => "0"%char
  end.

(** [hex.EncodeToString] *)
Fixpoint EncodeToString (src : list N) : string :=
  match src with
  | [] => ""
  | v :: rest =>
      String (hexDigit (N.shiftr v 4))
        (String (hexDigit (N.land v 15)) (EncodeToString rest))
  end.

(** [HexBytesField.SQLValue] *)
Definition HexBytes_SQLValue (jsonValue : RawJSON) : result sqlError driverValue :=
  if IsNil jsonValue then Ok NULL
  else
    match Unmarshal jsonValue with
    | None => Err UnmarshalError
    | Some (UString v) =>
        match DecodeString (TrimPrefix v "0x") with
        | (_, Some err) => Err (MsgFiltersValueInvalidHex err)
        | (byteBytes, None) => Ok (VString (EncodeToString byteBytes))
        end
    | Some _ => Err MsgFiltersValueInvalidForString
    end.

(** Every character is a hex digit. *)
Fixpoint isHex (s : string) : bool :=
  match s with
  | EmptyString => true
  | String c s' => bool_decide (is_Some (fromHexChar c)) && isHex s'
  end.

End HexFilters.

(* ===================================================================== *)
(** * Snark prover: validation of a proving request *)
(* ===================================================================== *)

Module Snark.

(** [pb.ProvingRequestCommon]: the repeated fields [validateInputs] reads. *)
Record ProvingRequestCommon : Type := mkCommon {
  InputCommitments : list string;
  InputValues : list N;
  InputSalts : list string;
  OutputValues : list N;
  OutputOwners : list string;
}.

(** [validateInputs]: [None] is a nil error. *)
Definition validateInputs (inputs : ProvingRequestCommon) : option string :=
  if (length (InputCommitments inputs) =? 0)%nat then
    Some "input commitments are required"
  else if (length (InputValues inputs) =? 0)%nat then
    Some "input values are required"
  else if (length (InputSalts inputs) =? 0)%nat then
    Some "input salts are required"
  else if negb (length (InputCommitments inputs) =? length (InputValues inputs))%nat
          || negb (length (InputCommitments inputs) =? length (InputSalts inputs))%nat then
    Some "input commitments, values, and salts must have the same length"
  else if (length (OutputValues inputs) =? 0)%nat then
    Some "output values are required"
  else if (length (OutputOwners inputs) =? 0)%nat then
    Some "output owner keys are required"
  else if negb (length (OutputValues inputs) =? length (OutputOwners inputs))%nat then
    Some "output values and owner keys must have the same length"
  else None.

End Snark.

(* ===================================================================== *)
(** * TxMgr: choosing the function of a transaction *)
(* ===================================================================== *)

Module TxFunction.
Import Filters HexFilters.

(** [abi.EntryType] *)
Inductive EntryType : Type :=
| Function
| Constructor
| Receive
| Fallback
| Event
| Error.

(** An [abi.Entry]: its type and name, and its inputs in text form. *)
Record Entry : Type := mkEntry {
  Type_ : EntryType;
  Name : string;
  Inputs : string;
}.

(** [pldapi.StoredABI] *)
Record StoredABI : Type := mkStoredABI {
  Hash : string;
  ABI : list Entry;
}.

(** [components.ResolvedFunction] *)
Record ResolvedFunction : Type := mkResolved {
  ABIReference : string;
  Definition_ : Entry;
  Signature_ : string;
}.

Inductive pickError : Type :=
| MsgTxMgrFunctionWithoutTo
| MsgTxMgrFunctionMultiMatch (oldSelector functionSignature : string)
| MsgTxMgrFunctionNoMatch.

(** [strings.Contains] *)
Fixpoint Contains (s substr : string) : bool :=
  match stripPrefix substr s with
  | Some _ => true
  | None =>
      match s with
      | EmptyString => false
      | String _ s' => Contains s' substr
      end
  end.

Definition isFunction (t : EntryType) : bool :=
  match t with Function => true | _ => false end.

Definition isConstructor (t : EntryType) : bool :=
  match t with Constructor => true | _ => false end.

(** [defaultConstructor] *)
Definition defaultConstructor : Entry := mkEntry Constructor "" "".

Section PickFunction.

(** The two texts the ABI library works out for an entry:
    [e.Signature()], empty when it reports an error, and
    [e.FunctionSelectorBytes().String()], "0x" and eight hex digits.  The
    byte-wise [EqualFold] is exact against selector texts of that form. *)
Variable Signature : Entry -> string.
Variable FunctionSelector : Entry -> string.

(** The [isMatch] of one turn of the loop; [to] is the address, if any. *)
Definition isMatch (requiredFunction : string) (to : option string) (e : Entry) : bool :=
  if isConstructor (Type_ e) && negb (bool_decide (is_Some to)) then true
  else if isFunction (Type_ e) && bool_decide (is_Some to) then
    if bool_decide (is_Some (stripPrefix "0x" requiredFunction)) then
      EqualFold (FunctionSelector e) requiredFunction
    else if Contains requiredFunction "(" then
      String.eqb (Signature e) requiredFunction
    else if (0 <? String.length requiredFunction)%nat then
      String.eqb (Name e) requiredFunction
    else true
  else false.

(** The loop over [pa.ABI], carrying [selectedFunction] and
    [functionSignature]. *)
Fixpoint pickLoop (requiredFunction : string) (to : option string) (entries : list Entry)
  (selectedFunction : option Entry) (functionSignature : string)
  : result pickError (option Entry * string) :=
  match entries with
  | [] => Ok (selectedFunction, functionSignature)
  | e :: rest =>
      if isMatch requiredFunction to e then
        let oldSelector := functionSignature in
        let functionSignature := Signature e in
        if negb (String.eqb oldSelector "") then
          Err (MsgTxMgrFunctionMultiMatch oldSelector functionSignature)
        else pickLoop requiredFunction to rest (Some e) functionSignature
      else pickLoop requiredFunction to rest selectedFunction functionSignature
  end.

(** [defaultConstructorSignature] *)
Definition defaultConstructorSignature : string := Signature defaultConstructor.

(** [txManager.pickFunction] *)
Definition pickFunction (pa : StoredABI) (requiredFunction : string) (to : option string)
  : result pickError ResolvedFunction :=
  if negb (String.eqb requiredFunction "") && negb (bool_decide (is_Some to)) then
    Err MsgTxMgrFunctionWithoutTo
  else
    match pickLoop requiredFunction to (ABI pa) None "" with
    | Err err => Err err
    | Ok (selectedFunction, functionSignature) =>
        match (if String.eqb functionSignature "" then None else selectedFunction) with
        | None =>
            match to with
            | None =>
                Ok (mkResolved (Hash pa) defaultConstructor defaultConstructorSignature)
            | Some _ => Err MsgTxMgrFunctionNoMatch
            end
        | Some e => Ok (mkResolved (Hash pa) e functionSignature)
        end
    end.

End PickFunction.

(** Sample data: signatures written as name and inputs, selectors looked
    up by name. *)
Definition sampleSignature (e : Entry) : string := Name e ++ "(" ++ Inputs e ++ ")".

Definition sampleSelector (e : Entry) : string :=
  if String.eqb (Name e) "transfer" then "0xa9059cbb" else "0x00000000".

Definition sampleABI : StoredABI :=
  mkStoredABI "0xabi1"
    [mkEntry Constructor "" "uint256";
     mkEntry Function "transfer" "address,uint256";
     mkEntry Function "mint" "address,uint256";
     mkEntry Event "Transfer" "address,address,uint256"].

End TxFunction.

(* ===================================================================== *)
(** * TxMgr: transactions of the private transaction manager *)
(* ===================================================================== *)

Module TxInternal.
Import TxMgr.



(** The fields of [txi.Transaction] that
    [UpsertInternalPrivateTxsFinalizeIDs] reads and writes. *)
Record internalTx : Type := mkInternal {
  itx_ID : uuid;
  itx_Created : Z;
  itx_IdempotencyKey : string;
}.

(** The columns selected from [transactions]: id, created and
    idempotency_key. *)
Record storedTx : Type := mkStored {
  stx_ID : uuid;
  stx_Created : Z;
  stx_IdempotencyKey : option string;
}.

Inductive upsertError : Type :=
| InsertFailed (detail : string)
| FindFailed (detail : string)
| MsgTxMgrPrivateInsertErrorMismatch (found matched expected : nat).

(** [txInDB.IdempotencyKey != nil &&
     tx.Transaction.IdempotencyKey == *txInDB.IdempotencyKey] *)
Definition keyMatches (tx : internalTx) (txInDB : storedTx) : bool :=
  match stx_IdempotencyKey txInDB with
  | Some k => String.eqb (itx_IdempotencyKey tx) k
  | None => false
  end.

(** The inner loop over [txsInDB] for one transaction: the transaction
    afterwards and the matches counted. *)
Fixpoint matchRows (tx : internalTx) (txsInDB : list storedTx) : internalTx * nat :=
  match txsInDB with
  | [] => (tx, 0%nat)
  | txInDB :: rest =>
      if keyMatches tx txInDB then
        let '(tx', n) :=
          matchRows (mkInternal (stx_ID txInDB) (stx_Created txInDB)
                       (itx_IdempotencyKey tx)) rest in
        (tx', S n)
      else matchRows tx rest
  end.

(** The outer loop over [txis]. *)
Fixpoint matchAll (txis : list internalTx) (txsInDB : list storedTx)
  : list internalTx * nat :=
  match txis with
  | [] => ([], 0%nat)
  | tx :: rest =>
      let '(tx', n) := matchRows tx txsInDB in
      let '(rest', m) := matchAll rest txsInDB in
      (tx' :: rest', (n + m)%nat)
  end.

Section Upsert.

(** [insertTransactions] with [ignoreConflicts], which stamps the
    transactions and reports the rows inserted, and the query
    [Where("idempotency_key in (?)", idempotencyKeys).Find(&txsInDB)]. *)
Variable insertTransactions : list internalTx -> result upsertError Z * list internalTx.
Variable Find : list string -> result upsertError (list storedTx).

(** [UpsertInternalPrivateTxsFinalizeIDs]: the error, if any, and the
    transactions as the call leaves them. *)
Definition UpsertInternalPrivateTxsFinalizeIDs (txis : list internalTx)
  : option upsertError * list internalTx :=
  match insertTransactions txis with
  | (Err err, txis1) => (Some err, txis1)
  | (Ok insertCount, txis1) =>
      if negb (insertCount =? Z.of_nat (length txis1))%Z then
        let idempotencyKeys := map itx_IdempotencyKey txis1 in
        match Find idempotencyKeys with
        | Err err => (Some err, txis1)
        | Ok txsInDB =>
            let '(txis2, matchCount) := matchAll txis1 txsInDB in
            if negb (matchCount =? length txis1)%nat then
              (Some (MsgTxMgrPrivateInsertErrorMismatch (length txsInDB) matchCount
                       (length txis1)),
               txis2)
            else (None, txis2)
        end
      else (None, txis1)
  end.

End Upsert.

(** The transaction carries the id and creation time of a stored row that
    has its idempotency key. *)
Definition finalizedFrom (txsInDB : list storedTx) (tx tx' : internalTx) : Prop :=
  itx_IdempotencyKey tx' = itx_IdempotencyKey tx /\
  exists row, row ∈ txsInDB /\
    stx_IdempotencyKey row = Some (itx_IdempotencyKey tx) /\
    itx_ID tx' = stx_ID row /\ itx_Created tx' = stx_Created row.

(** Sample data: two transactions, the first of which lost the insert to
    a stored row with its key. *)
Definition sampleTxis : list internalTx :=
  [mkInternal "new-1" 100 "k1"; mkInternal "new-2" 100 "k2"].

Definition sampleStored : list storedTx :=
  [mkStored "old-1" 50 (Some "k1"); mkStored "new-2" 100 (Some "k2")].

End TxInternal.

(* ===================================================================== *)
(** * Transport: connecting to a peer *)
(* ===================================================================== *)

Module Peers.

(** An entry of the registry for a node: the name of a transport and the
    details to reach the node over it. *)
Record registeredTransport : Type := mkRegistered {
  rt_Transport : string;
  rt_Details : string;
}.

Inductive connectError : Type :=
| MsgTransportInvalidTargetNode (nodeName : string)
| MsgTransportSendLocalNode (localNodeName : string)
| MsgTransportNoTransportsConfiguredForNode (nodeName : string) (registered : list string)
| RegistryError (detail : string)
| ActivateError (detail : string).

(** [p.Outbound]: the peer info as parsed, or the text under "info" when
    it is not JSON. *)
Inductive outbound : Type :=
| PeerInfo (parsed : string)
| InfoText (raw : string).

Section Connect.

(** The type of the transport plugins held in [tm.transportsByName]. *)
Variable transport : Type.

(** The fields of a [peer] that connecting reads and writes. *)
Record peer : Type := mkPeer {
  Name : string;
  Activated : Z;
  p_transport : option transport;
  Outbound : option outbound;
  OutboundError : option connectError;
  senderStarted : bool;
}.

(** [transportManager]: the peers are held by pointer, so what is written
    to a peer after it was put into the map is written to the entry. *)
Record transportManager : Type := mkTM {
  localNodeName : string;
  peers : gmap string peer;
  transportsByName : gmap string transport;
}.

(** Calls that leave the file: the check of the node name, the registry
    lookup, the activation in the transport plugin, and the parse of the
    peer info it returns. *)
Variable ValidateSafeCharsStartEndAlphaNum : string -> option string.
Variable GetNodeTransports : string -> result connectError (list registeredTransport).
Variable ActivateNode : transport -> string -> string -> result connectError string.
Variable parsePeerInfo : string -> option string.

Definition set_transport (t : option transport) (p : peer) : peer :=
  mkPeer (Name p) (Activated p) t (Outbound p) (OutboundError p) (senderStarted p).

Definition set_OutboundError (e : option connectError) (p : peer) : peer :=
  mkPeer (Name p) (Activated p) (p_transport p) (Outbound p) e (senderStarted p).

(** The loop of [startSender] over the registered transports: every turn
    overwrites [p.transport] and [remoteTransportDetails]. *)
Definition selectTransport (tm : transportManager)
  (registeredTransportDetails : list registeredTransport) (current : option transport)
  : option transport * string :=
  fold_left (fun _ rtd => (transportsByName tm !! rt_Transport rtd, rt_Details rtd))
            registeredTransportDetails (current, "").

(** [peer.startSender] *)
Definition startSender (tm : transportManager) (p : peer) : option connectError * peer :=
  match GetNodeTransports (Name p) with
  | Err err => (Some err, p)
  | Ok registeredTransportDetails =>
      let '(selected, remoteTransportDetails) :=
        selectTransport tm registeredTransportDetails (p_transport p) in
      let p1 := set_transport selected p in
      match selected with
      | None =>
          (Some (MsgTransportNoTransportsConfiguredForNode (Name p)
                   (map rt_Transport registeredTransportDetails)),
           p1)
      | Some t =>
          match ActivateNode t (Name p) remoteTransportDetails with
          | Err err => (Some err, p1)
          | Ok peerInfoJson =>
              (None,
               mkPeer (Name p1) (Activated p1) (p_transport p1)
                 (Some (match parsePeerInfo peerInfoJson with
                        | Some parsed => PeerInfo parsed
                        | None => InfoText peerInfoJson
                        end))
                 (OutboundError p1) true)
          end
      end
  end.

(** [p != nil && (p.senderStarted.Load() || !sending)] *)
Definition alreadyActive (found : option peer) (sending : bool) : option peer :=
  match found with
  | Some p => if senderStarted p || negb sending then Some p else None
  | None => None
  end.

(** [transportManager.connectPeer], at the time [now]. *)
Definition connectPeer (now : Z) (tm : transportManager) (nodeName : string)
  (sending : bool) : result connectError peer * transportManager :=
  match alreadyActive (peers tm !! nodeName) sending with
  | Some p => (Ok p, tm)
  | None =>
      let p :=
        match peers tm !! nodeName with
        | Some p => p
        | None => mkPeer nodeName now None None None false
        end in
      let put (p : peer) :=
        mkTM (localNodeName tm) (<[nodeName := p]> (peers tm)) (transportsByName tm) in
      if sending then
        match startSender tm p with
        | (Some err, p1) => (Err err, put (set_OutboundError (Some err) p1))
        | (None, p1) => (Ok p1, put p1)
        end
      else (Ok p, put p)
  end.

(** [transportManager.getActivePeer] *)
Definition getActivePeer (tm : transportManager) (nodeName : string) : option peer :=
  peers tm !! nodeName.

(** [transportManager.getPeer] *)
Definition getPeer (now : Z) (tm : transportManager) (nodeName : string) (sending : bool)
  : result connectError peer * transportManager :=
  match ValidateSafeCharsStartEndAlphaNum nodeName with
  | Some _ => (Err (MsgTransportInvalidTargetNode nodeName), tm)
  | None =>
      if String.eqb nodeName (localNodeName tm) then
        (Err (MsgTransportSendLocalNode (localNodeName tm)), tm)
      else
        match alreadyActive (getActivePeer tm nodeName) sending with
        | Some p => (Ok p, tm)
        | None => connectPeer now tm nodeName sending
        end
  end.

(** [peer.deactivate], as far as the manager sees it. *)
Definition deactivate (tm : transportManager) (p : peer) : transportManager :=
  mkTM (localNodeName tm) (delete (Name p) (peers tm)) (transportsByName tm).

(** Every peer of the map sits under its own name, which passed the check
    of node names and is not the name of the local node. *)
Definition peersNamed (tm : transportManager) : Prop :=
  forall k p, peers tm !! k = Some p ->
    Name p = k /\ k <> localNodeName tm /\ ValidateSafeCharsStartEndAlphaNum k = None.

End Connect.

Arguments mkPeer {transport}.
Arguments Name {transport}.
Arguments Activated {transport}.
Arguments p_transport {transport}.
Arguments Outbound {transport}.
Arguments OutboundError {transport}.
Arguments senderStarted {transport}.
Arguments mkTM {transport}.
Arguments localNodeName {transport}.
Arguments peers {transport}.
Arguments transportsByName {transport}.

(** Sample surroundings: the registry lists "grpc" and then "jms" for
    every node, the local node has only "grpc" configured, and activation
    succeeds. *)
Definition sampleRegistry (nodeName : string)
  : result connectError (list registeredTransport) :=
  Ok [mkRegistered "grpc" "host:9000"; mkRegistered "jms" "queue1"].

Definition sampleManager : transportManager string :=
  mkTM "node1" ∅ {["grpc" := "grpc-plugin"]}.

Definition sampleActivate (t nodeName details : string) : result connectError string :=
  Ok "{}".

End Peers.

(* ===================================================================== *)
(** * Transport: what a scan leaves on the peer *)
(* ===================================================================== *)

Module ScanViews.
Import Transport.

(** The payload bytes of the messages handed to the transport. *)
Definition sentBytes (sent : list (N * PaladinMsg)) : N :=
  fold_right (fun e acc => (N.of_nat (String.length (Payload (snd e))) + acc)%N) 0%N sent.

(** The highest of a starting value and the sequences sent. *)
Definition highestOf (start : N) (sent : list (N * PaladinMsg)) : N :=
  fold_left N.max (fst <$> sent) start.

(** The page the query of a turn of the loop returns. *)
Definition pageAt (c : config) (fullScan : bool) (hwm : option N) (st : scanState)
  : list ReliableMessage :=
  take (reliableMessagePageSize c)
       (unackedAbove (sc_db st) (queryBound fullScan hwm (sc_lastPageEnd st))).

(** The loop state after a page that was processed without error. *)
Definition afterPage (st : scanState) (page : list ReliableMessage) (p' : peer)
  (db' : MessageStore) (sent : list (N * PaladinMsg)) : scanState :=
  mkScan
    (if (0 <? length page)%nat
     then mkPeer (Name p') (lastFullScan p') (lastDrainHWM p') false (Stats p')
     else p')
    db'
    (if (0 <? length page)%nat then sc_total st + length page else sc_total st)%nat
    (match last page with
     | Some rm => Some (Sequence rm)
     | None => sc_lastPageEnd st
     end)
    (sc_sent st ++ sent)%list.

(** The loop state returned when a page fails. *)
Definition failedPage (st : scanState) (p' : peer) (db' : MessageStore)
  (sent : list (N * PaladinMsg)) : scanState :=
  mkScan p' db' (sc_total st) (sc_lastPageEnd st) (sc_sent st ++ sent)%list.

(** The sequences handed to the transport so far are in ascending order
    and, in a scan for new messages only, above the high-water mark. *)
Definition inOrder (fullScan : bool) (hwm : option N) (sent : list (N * PaladinMsg))
  : Prop :=
  StronglySorted N.le (fst <$> sent) /\
  (fullScan = false -> forall h, hwm = Some h ->
     forall sq, sq ∈ fst <$> sent -> (h < sq)%N).

(** Between pages, moreover, the end of the last page bounds what was
    sent, and lies above the high-water mark in a scan for new messages. *)
Definition ordered (fullScan : bool) (hwm : option N) (st : scanState) : Prop :=
  inOrder fullScan hwm (sc_sent st) /\
  (forall sq, sq ∈ fst <$> sc_sent st ->
     exists e, sc_lastPageEnd st = Some e /\ (sq <= e)%N) /\
  (fullScan = false -> forall h e, hwm = Some h -> sc_lastPageEnd st = Some e -> (h < e)%N).

(** The counters [s1] are the counters [s0] after [sent] went out at the
    time [t] under the high-water mark [hwm]. *)
Definition accounted (t : Z) (hwm : option N) (s0 s1 : PeerStats)
  (sent : list (N * PaladinMsg)) : Prop :=
  SentMsgs s1 = ((SentMsgs s0 + N.of_nat (length sent)) mod 2 ^ 64)%N /\
  SentBytes s1 = ((SentBytes s0 + sentBytes sent) mod 2 ^ 64)%N /\
  ReliableHighestSent s1 = highestOf (ReliableHighestSent s0) sent /\
  (sent = [] -> s1 = s0) /\
  (sent <> [] ->
   LastSend s1 = Some t /\
   ReliableAckBase s1 = match hwm with Some h => h | None => ReliableAckBase s0 end).

(** Pages were found: rows were counted and the end of a page is held. *)
Definition foundRows (st : scanState) : Prop :=
  (0 < sc_total st)%nat /\ is_Some (sc_lastPageEnd st).

End ScanViews.

(* ===================================================================== *)
(** * StateMgr: locks by transaction, and what the context keeps *)
(* ===================================================================== *)

Module StateViews.
Import StateMgr.

(** [StateLocksByTransaction]: a copy of the locks, by transaction. *)
Definition StateLocksByTransaction (dc : domainContext) : gmap N (list StateLock) :=
  fold_left
    (fun txLocksCopy l =>
       <[lk_Transaction l :=
           (default [] (txLocksCopy !! lk_Transaction l) ++ [l])%list]> txLocksCopy)
    (txLocks dc) ∅.

(** The locks a transaction holds in the context, in the order taken. *)
Definition locksOf (dc : domainContext) (tx : N) : list StateLock :=
  filter (fun l => (lk_Transaction l =? tx)%N) (txLocks dc).

(** The checks [addStateLocks] makes on one lock: [None] when it passes. *)
Definition lockError (dc : domainContext) (l : StateLock) : option stateError :=
  if (lk_Transaction l =? 0)%N then Some MsgStateLockNoTransaction
  else if (String.length (lk_State l) =? 0)%nat then Some MsgStateLockNoState
  else
    match creatingStates dc !! lk_State l, isCreate (lk_Type l) with
    | None, true => Some (MsgStateLockCreateNotInContext (lk_State l))
    | _, _ => None
    end.

(** A lock names a transaction and a state. *)
Definition validLock (l : StateLock) : Prop :=
  lk_Transaction l <> 0%N /\ lk_State l <> "".

(** The nullifiers queued on the two write operations, as
    [getUnFlushedStates] lists them. *)
Definition queuedNullifiers (dc : domainContext) : list StateNullifier :=
  (wo_stateNullifiers (theUnFlushed dc) ++
   match flushing dc with
   | Some f => wo_stateNullifiers f
   | None => []
   end)%list.

(** The nullifier of a database row, or else the first queued nullifier
    for its state. *)
Definition rowNullifier (queued : list StateNullifier)
  (row : string * string * string * option StateNullifier) : option StateNullifier :=
  match row.2 with
  | Some n => Some n
  | None => List.find (fun n => String.eqb (nf_State n) (rowId row)) queued
  end.

(** What the first loop of [UpsertStates] derives from an upsert and its
    processed state: the create lock and the state to make available, if
    the upsert names its creator. *)
Definition createLockOf (p : StateUpsert * StateWithLabels) : option StateLock :=
  (fun createdBy => mkLock StateLockTypeCreate createdBy (ID (state p.2)))
    <$> up_CreatedBy p.1.

Definition availableOf (p : StateUpsert * StateWithLabels) : option StateWithLabels :=
  (fun _ => p.2) <$> up_CreatedBy p.1.

(** The last state of a list with the id [k]. *)
Definition lastWithId (k : string) (l : list StateWithLabels) : option StateWithLabels :=
  last (filter (fun s => String.eqb (ID (state s)) k) l).

(** An upsert whose creator is the zero transaction. *)
Definition upsertByNobody : StateUpsert := mkUpsert "s1" "coin" "alice" (Some 0%N).

(** [contextWithS1] with a spend lock of transaction 8 and a read lock of
    transaction 7 on "s1". *)
Definition contextThreeLocks : domainContext :=
  snd (AddStateLocks contextWithS1
         [mkLock StateLockTypeSpend 8 "s1"; mkLock StateLockTypeRead 7 "s1"]).

End StateViews.

(* ===================================================================== *)
(** * Zeto: what the coin selection keeps, and the output coins *)
(* ===================================================================== *)

Module ZetoOutputs.
Import Zeto.

(** What the loop of [prepareInputs] has established whenever it goes on
    to another state: the total is the sum of the coins, there is one
    reference per coin, fewer than [MAX_INPUT_COUNT] of them, and the
    coins, if any, fall short of the amount wanted. *)
Definition selecting (expectedTotal : Z) (st : loopState) : Prop :=
  total st = totalOf (coins st) /\
  length (coins st) = length (stateRefs st) /\
  (length (stateRefs st) < MAX_INPUT_COUNT)%nat /\
  (coins st <> [] -> (total st < expectedTotal)%Z).

(** What a successful selection satisfies: both numbers returned are the
    remainder, the sum of the coins less the amount wanted, which is not
    negative; one reference per coin, at least one and at most
    [MAX_INPUT_COUNT]; and the coins before the last fall short. *)
Definition covering (expectedTotal : Z) (res : inputs) : Prop :=
  in_total res = in_remainder res /\
  in_remainder res = (totalOf (in_coins res) - expectedTotal)%Z /\
  (0 <= in_remainder res)%Z /\
  length (in_coins res) = length (in_stateRefs res) /\
  (0 < length (in_stateRefs res) <= MAX_INPUT_COUNT)%nat /\
  (forall before c, in_coins res = (before ++ [c])%list -> before <> [] ->
                    (totalOf before < expectedTotal)%Z).

(** One page of two coins of 4 and 7, for the examples. *)
Definition twoCoins (ctx : string) (q : Query) : result string (list StoredState) :=
  match q_GreaterThanCreated q with
  | None => Ok [mkStoredState "0x01" "coin" 5 "4"; mkStoredState "0x02" "coin" 6 "7"]
  | Some _ => Ok []
  end.

Definition coinOfAlice (data : string) : result string ZetoCoin :=
  if String.eqb data "4" then Ok (mkCoin "alice" 4) else Ok (mkCoin "alice" 7).

(** [types.ZetoCoin] with the fields [prepareOutputs] sets, [pb.NewState]
    and [pb.ResolvedVerifier]. *)
Record OutputCoin : Type := mkOutputCoin {
  Salt : Z;
  Owner : string;
  OwnerKey : string;
  Amount : Z;
}.

Record NewState : Type := mkNewState {
  ns_Id : option string;
  ns_SchemaId : string;
  ns_StateDataJson : string;
}.

Record ResolvedVerifier : Type := mkResolved {
  rv_Lookup : string;
  rv_Algorithm : string;
  rv_VerifierType : string;
  rv_Verifier : string;
}.

(** A call returns, with a value or an error, or panics. *)
Inductive outcome (A : Type) : Type :=
| Returned (r : result string A)
| Panicked.
Arguments Returned {A} r.
Arguments Panicked {A}.

Definition outputTotal (cs : list OutputCoin) : Z :=
  fold_right (fun c acc => (Amount c + acc)%Z) 0%Z cs.

Section PrepareOutputs.

(** Calls that leave the file: [domain.FindVerifier], with the algorithm
    [z.getAlgoZetoSnarkBJJ()] and the verifier type
    [IDEN3_PUBKEY_BABYJUBJUB_COMPRESSED_0X]; [loadBabyJubKey];
    [crypto.NewSalt], whose n-th call of a run yields [NewSalt n];
    [zetosigner.EncodeBabyJubJubPublicKey]; [tktypes.MustParseHexBytes],
    which panics on text that is not hex ([None]); [json.Marshal] and
    [coin.Hash().String()] of a coin; and the id of the coin schema. *)
Variable key : Type.
Variable FindVerifier :
  string -> string -> string -> list ResolvedVerifier -> option ResolvedVerifier.
Variable algoZetoSnarkBJJ : string.
Variable IDEN3_PUBKEY_BABYJUBJUB_COMPRESSED_0X : string.
Variable loadBabyJubKey : string -> result string key.
Variable NewSalt : nat -> Z.
Variable EncodeBabyJubJubPublicKey : key -> string.
Variable MustParseHexBytes : string -> option string.
Variable Marshal : OutputCoin -> result string string.
Variable Hash : OutputCoin -> result string string.
Variable coinSchemaId : string.

(** [Zeto.makeNewState] *)
Definition makeNewState (coin : OutputCoin) : result string NewState :=
  match Marshal coin with
  | Err err => Err err
  | Ok coinJSON =>
      match Hash coin with
      | Err err => Err err
      | Ok hashStr => Ok (mkNewState (Some hashStr) coinSchemaId coinJSON)
      end
  end.

(** [Zeto.prepareOutputs], [salts] being the number of salts drawn before
    the call. *)
Fixpoint prepareOutputs (salts : nat) (params : list TransferParamEntry)
  (resolvedVerifiers : list ResolvedVerifier)
  : outcome (list OutputCoin * list NewState) :=
  match params with
  | [] => Returned (Ok ([], []))
  | param :: rest =>
      match FindVerifier (param_To param) algoZetoSnarkBJJ
              IDEN3_PUBKEY_BABYJUBJUB_COMPRESSED_0X resolvedVerifiers with
      | None => Returned (Err ("failed to resolve: " ++ param_To param))
      | Some resolvedRecipient =>
          match loadBabyJubKey (rv_Verifier resolvedRecipient) with
          | Err err => Returned (Err ("failed load receiver public key. " ++ err))
          | Ok recipientKey =>
              let salt := NewSalt salts in
              let compressedKeyStr := EncodeBabyJubJubPublicKey recipientKey in
              match MustParseHexBytes compressedKeyStr with
              | None => Panicked
              | Some ownerKey =>
                  let newCoin :=
                    mkOutputCoin salt (param_To param) ownerKey (param_Amount param) in
                  match makeNewState newCoin with
                  | Err err => Returned (Err ("failed to create new state. " ++ err))
                  | Ok newState =>
                      match prepareOutputs (S salts) rest resolvedVerifiers with
                      | Returned (Ok (coins, newStates)) =>
                          Returned (Ok (newCoin :: coins, newState :: newStates))
                      | Returned (Err err) => Returned (Err err)
                      | Panicked => Panicked
                      end
                  end
              end
          end
      end
  end.

(** The three errors [prepareOutputs] has for a parameter. *)
Definition outputErrorFor (param : TransferParamEntry) (e : string) : Prop :=
  e = ("failed to resolve: " ++ param_To param)%string \/
  (exists err, e = ("failed load receiver public key. " ++ err)%string) \/
  (exists err, e = ("failed to create new state. " ++ err)%string).

End PrepareOutputs.

(** Sample surroundings: every recipient resolves to a verifier of its own
    name except "nobody", keys are the verifier text, the n-th salt is n,
    a coin is written as its owner and hashed as its owner key. *)
Definition sampleFindVerifier (lookup algorithm verifierType : string)
  (resolved : list ResolvedVerifier) : option ResolvedVerifier :=
  if String.eqb lookup "nobody" then None
  else Some (mkResolved lookup algorithm verifierType ("0x" ++ lookup)).

Definition samplePrepareOutputs :=
  prepareOutputs string sampleFindVerifier "bjj" "compressed" (fun v => Ok v)
    Z.of_nat (fun k => k) (fun s => Some s) (fun c => Ok (Owner c))
    (fun c => Ok (OwnerKey c)) "coin".

End ZetoOutputs.

(* ===================================================================== *)
(** * PublicTxMgr: the versions of an in-flight transaction *)
(* ===================================================================== *)

Module InFlight.

(** The calls this file makes on a version. *)
Inductive versionCall : Type :=
| SetCurrent (current : bool)
| Cancel.

(** An [InFlightTransactionStateVersion] as this file sees it: the id it
    was made with, and the calls made on it since, in order. *)
Record InFlightTransactionStateVersion : Type := mkVersion {
  v_id : nat;
  v_calls : list versionCall;
}.

(** [NewInFlightTransactionStateVersion], the managers passed down left
    out. *)
Definition NewInFlightTransactionStateVersion (id : nat)
  : InFlightTransactionStateVersion := mkVersion id [].

(** [inFlightTransactionState]: the field the methods below work on. *)
Record inFlightTransactionState : Type := mkState {
  versions : list InFlightTransactionStateVersion;
}.

(** [NewInFlightTransactionStateManager] *)
Definition NewInFlightTransactionStateManager : inFlightTransactionState :=
  mkState [NewInFlightTransactionStateVersion 0].

(** [GetVersions] *)
Definition GetVersions (iftxs : inFlightTransactionState)
  : list InFlightTransactionStateVersion := versions iftxs.

(** [GetVersion]: [None] where the index panics. *)
Definition GetVersion (iftxs : inFlightTransactionState) (id : nat)
  : option InFlightTransactionStateVersion := versions iftxs !! id.

(** [GetCurrentVersion]: [None] where the index -1 panics. *)
Definition GetCurrentVersion (iftxs : inFlightTransactionState)
  : option InFlightTransactionStateVersion :=
  match length (versions iftxs) with
  | O => None
  | S n => versions iftxs !! n
  end.

(** [GetPreviousVersions] *)
Definition GetPreviousVersions (iftxs : inFlightTransactionState)
  : list InFlightTransactionStateVersion :=
  if (length (versions iftxs) <? 2)%nat then []
  else take (length (versions iftxs) - 1) (versions iftxs).

Definition called (c : versionCall) (v : InFlightTransactionStateVersion)
  : InFlightTransactionStateVersion := mkVersion (v_id v) (v_calls v ++ [c]).

(** [NewVersion]: [None] where indexing an empty slice panics. *)
Definition NewVersion (iftxs : inFlightTransactionState) : option inFlightTransactionState :=
  match length (versions iftxs) with
  | O => None
  | S n =>
      let vs1 := alter (called (SetCurrent false)) n (versions iftxs) in
      let vs2 := alter (called Cancel) n vs1 in
      Some (mkState (vs2 ++ [NewInFlightTransactionStateVersion (length vs2)]))
  end.

(** [n] calls of [NewVersion] in a row. *)
Fixpoint newVersions (n : nat) (iftxs : inFlightTransactionState)
  : option inFlightTransactionState :=
  match n with
  | O => Some iftxs
  | S n' =>
      match NewVersion iftxs with
      | Some iftxs' => newVersions n' iftxs'
      | None => None
      end
  end.

(** A version that was replaced: no longer current, and cancelled. *)
Definition retired (id : nat) : InFlightTransactionStateVersion :=
  mkVersion id [SetCurrent false; Cancel].

End InFlight.

(* ===================================================================== *)
(** * Zeto: loading the locked inputs of a transfer *)
(* ===================================================================== *)

Module ZetoLocked.
Import Zeto.

(** [types.ZetoCoin] with the fields [loadCoins] and [Assemble] read. *)
Record LockedCoin : Type := mkLockedCoin {
  lc_Owner : string;
  lc_Amount : Z;
  lc_Locked : bool;
}.

Inductive loadError : Type :=
| QueryFailed (err : string)
| MsgFailedToQueryStatesById (wanted found : nat)
| UnmarshalFailed (err : string)
| MsgErrorInputNotLocked (stateId : string).

(** [HexUint256.NilOrZero] on a [*HexUint256]. *)
Definition NilOrZero (input : option Z) : bool :=
  match input with
  | None => true
  | Some v => (v =? 0)%Z
  end.

Section LoadCoins.

(** Calls that leave the file: [HexUint256.String], the text of the query
    [In(".id", inputIDs)], [z.findAvailableStates] and [json.Unmarshal]
    into a coin. *)
Variable HexString : Z -> string.
Variable inQuery : list string -> string.
Variable findAvailableStates : bool -> string -> string -> result string (list StoredState).
Variable Unmarshal : string -> result string LockedCoin.

(** The first loop: the texts of the ids that are neither nil nor zero. *)
Fixpoint inputIDs (ids : list (option Z)) : list string :=
  match ids with
  | [] => []
  | input :: rest =>
      if negb (NilOrZero input)
      then HexString (default 0%Z input) :: inputIDs rest
      else inputIDs rest
  end.

(** The loop over the states found. *)
Fixpoint eachInput (inputStates : list StoredState)
  : result loadError (list LockedCoin * list StateRef) :=
  match inputStates with
  | [] => Ok ([], [])
  | state :: rest =>
      match Unmarshal (ss_DataJson state) with
      | Err err => Err (UnmarshalFailed err)
      | Ok coin =>
          if negb (lc_Locked coin) then Err (MsgErrorInputNotLocked (ss_Id state))
          else
            match eachInput rest with
            | Err err => Err err
            | Ok (inputCoins, stateRefs) =>
                Ok (coin :: inputCoins,
                    mkStateRef (ss_SchemaId state) (ss_Id state) :: stateRefs)
            end
      end
  end.

(** [transferLockedHandler.loadCoins] *)
Definition loadCoins (ids : list (option Z)) (useNullifiers : bool)
  (stateQueryContext : string) : result loadError (list LockedCoin * list StateRef) :=
  let inputIDs := inputIDs ids in
  match findAvailableStates useNullifiers stateQueryContext (inQuery inputIDs) with
  | Err err => Err (QueryFailed err)
  | Ok inputStates =>
      if negb (length inputStates =? length inputIDs)%nat
      then Err (MsgFailedToQueryStatesById (length inputIDs) (length inputStates))
      else eachInput inputStates
  end.

End LoadCoins.

(** Sample surroundings: ids written in decimal, a store holding the
    states "1" (locked) and "2" (not locked), which answers with as many
    states as ids were asked. *)
Definition sampleHex (v : Z) : string := NilZero.string_of_int (Z.to_int v).

Definition sampleInQuery (ids : list string) : string := String.concat "," ids.

Definition sampleStates (useNullifiers : bool) (ctx query : string)
  : result string (list StoredState) :=
  if String.eqb query "1" then Ok [mkStoredState "1" "coin" 5 "locked"]
  else if String.eqb query "1,2"
  then Ok [mkStoredState "1" "coin" 5 "locked"; mkStoredState "2" "coin" 6 "free"]
  else Ok [].

Definition sampleUnmarshal (data : string) : result string LockedCoin :=
  Ok (mkLockedCoin "alice" 4 (String.eqb data "locked")).

Definition sampleLoadCoins :=
  loadCoins sampleHex sampleInQuery sampleStates sampleUnmarshal.

End ZetoLocked.

(* ===================================================================== *)
(** * Theorems *)
(* ===================================================================== *)

Module FiltersFacts.
Import Filters.

Lemma foldEqByte_lower (c t : ascii) :
  is_upper t = false ->
  foldEqByte c t = Ascii.eqb (toLower c) t.
Proof.
  intros Ht. unfold foldEqByte, toLower.
  destruct (Ascii.eqb_spec t c) as [-> |Hne].
  - rewrite Ht. symmetry. apply Ascii.eqb_refl.
  - destruct (Nat.ltb_spec (nat_of_ascii t) (nat_of_ascii c)) as [Hlt|Hge].
    + rewrite Ht. simpl.
      destruct (is_upper c) eqn:Hc.
      * symmetry. apply Ascii.eqb_neq. intros E.
        apply (f_equal nat_of_ascii) in E.
        unfold is_upper in Hc. apply andb_prop in Hc as [_ Hc].
        apply Nat.leb_le in Hc.
        rewrite nat_ascii_embedding in E by lia. lia.
      * symmetry. apply Ascii.eqb_neq. congruence.
    + destruct (is_upper c) eqn:Hc; simpl.
      * unfold is_upper in Hc. apply andb_prop in Hc as [_ Hc].
        apply Nat.leb_le in Hc.
        destruct (Nat.eqb_spec (nat_of_ascii t) (nat_of_ascii c + 32)) as [E|E].
        -- symmetry. apply Ascii.eqb_eq. rewrite <- E. apply ascii_nat_embedding.
        -- symmetry. apply Ascii.eqb_neq. intros E'. apply E.
           rewrite <- E'. rewrite nat_ascii_embedding by lia. reflexivity.
      * symmetry. apply Ascii.eqb_neq. congruence.
Qed.

Lemma EqualFold_lower (t s : string) :
  noUpper t = true ->
  EqualFold s t = String.eqb (lowerString s) t.
Proof.
  revert s. induction t as [|c t IH]; intros [|d s] Ht; simpl; try reflexivity.
  simpl in Ht. apply andb_prop in Ht as [Hc Ht].
  apply negb_true_iff in Hc.
  rewrite foldEqByte_lower by exact Hc.
  rewrite IH by exact Ht.
  destruct (Ascii.eqb (toLower d) c); reflexivity.
Qed.

Lemma EqualFold_true_iff (s : string) :
  EqualFold s "true" = true <-> lowerString s = "true".
Proof.
  rewrite EqualFold_lower by reflexivity. apply String.eqb_eq.
Qed.

(** C10.  For both bool-kind label fields: JSON null gives NULL; JSON
    true/false gives the value itself (1/0 for the int64 flavour); a JSON
    string gives true (1) exactly when it equals "true" ignoring case and
    false (0) otherwise, so "yes" and "1" give false without an error;
    and whenever an error is returned the input was neither a string nor
    a boolean. *)
Theorem SQLValue_bool_projection :
  Boolean_SQLValue jsonNull = Ok NULL /\
  Int64Bool_SQLValue jsonNull = Ok NULL /\
  (forall b, Boolean_SQLValue (jsonBool b) = Ok (VBool b) /\
             Int64Bool_SQLValue (jsonBool b) = Ok (VInt64 (int64OfBool b))) /\
  (forall s, exists b,
      Boolean_SQLValue (jsonString s) = Ok (VBool b) /\
      Int64Bool_SQLValue (jsonString s) = Ok (VInt64 (int64OfBool b)) /\
      (b = true <-> lowerString s = "true")) /\
  Boolean_SQLValue (jsonString "yes") = Ok (VBool false) /\
  Boolean_SQLValue (jsonString "1") = Ok (VBool false) /\
  Int64Bool_SQLValue (jsonString "yes") = Ok (VInt64 0) /\
  Int64Bool_SQLValue (jsonString "1") = Ok (VInt64 0) /\
  (forall raw e,
      Boolean_SQLValue raw = Err e \/ Int64Bool_SQLValue raw = Err e ->
      IsNil raw = false /\
      (forall s, Unmarshal raw <> Some (UString s)) /\
      (forall b, Unmarshal raw <> Some (UBool b))).
Proof.
  repeat split; try reflexivity.
  - destruct b; reflexivity.
  - intros s. exists (EqualFold s "true").
    unfold Boolean_SQLValue, Int64Bool_SQLValue; simpl.
    pose proof (EqualFold_true_iff s) as Hs.
    destruct (EqualFold s "true"); repeat split; auto; apply Hs.
  - destruct H as [H|H];
      unfold Boolean_SQLValue, Int64Bool_SQLValue in H;
      destruct (IsNil raw); [discriminate|reflexivity|discriminate|reflexivity].
  - intros s Hs. destruct H as [H|H];
      unfold Boolean_SQLValue, Int64Bool_SQLValue in H;
      destruct (IsNil raw); try discriminate; rewrite Hs in H;
      destruct (EqualFold s "true"); discriminate.
  - intros b Hb. destruct H as [H|H];
      unfold Boolean_SQLValue, Int64Bool_SQLValue in H;
      destruct (IsNil raw); try discriminate; rewrite Hb in H;
      destruct b; discriminate.
Qed.

End FiltersFacts.

Module ZetoFacts.
Import Zeto.

Section Facts.

Variable findAvailableStates : string -> Query -> result string (list StoredState).
Variable makeCoin : string -> result string ZetoCoin.
Variables (stateQueryContext sender : string) (expectedTotal : Z).

Abbreviation eachState := (eachState makeCoin expectedTotal).
Abbreviation onePage :=
  (onePage findAvailableStates makeCoin stateQueryContext sender expectedTotal).
Abbreviation pages n :=
  (pages findAvailableStates makeCoin n stateQueryContext sender expectedTotal).
Abbreviation passes :=
  (passes findAvailableStates makeCoin stateQueryContext sender expectedTotal).

Lemma totalOf_app cs c : totalOf (cs ++ [c])%list = (totalOf cs + coin_Amount c)%Z.
Proof. induction cs as [|d cs IH]; simpl; lia. Qed.

Lemma eachState_continue states : forall st st' n,
  consistent n st ->
  eachState states st = Continue st' ->
  total st' = totalOf (coins st') /\
  (length (stateRefs st) <= length (stateRefs st'))%nat /\
  (length (stateRefs st') < MAX_INPUT_COUNT)%nat /\
  (states <> [] -> (length (stateRefs st) < length (stateRefs st'))%nat).
Proof.
  induction states as [|state rest IH]; intros st st' n (Ht & Hn & Hmax) H;
    cbn [Zeto.eachState] in H.
  - inversion H; subst. repeat split; auto. congruence.
  - destruct (makeCoin (ss_DataJson state)) as [coin|err]; [|discriminate].
    destruct (expectedTotal <=? total st + coin_Amount coin)%Z; [discriminate|].
    destruct (Nat.leb_spec MAX_INPUT_COUNT
                (length (stateRefs st ++ [mkStateRef (ss_SchemaId state) (ss_Id state)])%list))
      as [|Hlt]; [discriminate|].
    apply (IH _ _ n) in H.
    + cbn [stateRefs length] in H. rewrite length_app in H. cbn [length] in H.
      destruct H as (H1 & H2 & H3 & _). repeat split; auto; lia.
    + unfold consistent; simpl. rewrite totalOf_app, Ht.
      rewrite length_app in *. simpl in *. repeat split; auto; lia.
Qed.

Lemma passes_consistent n st : passes n st -> n = 0%nat \/ consistent n st.
Proof.
  induction 1 as [|n st st' Hp IH Hpage]; [now left|right].
  unfold Zeto.onePage in Hpage.
  destruct (findAvailableStates _ _) as [[|s0 states]|err]; try discriminate.
  assert (Hc : consistent n st \/ (n = 0%nat /\ st = initial)).
  { destruct IH as [-> |IH]; [|now left]. right. split; [reflexivity|].
    inversion Hp. reflexivity. }
  destruct Hc as [Hc|[-> ->]].
  - pose proof (eachState_continue _ _ _ _ Hc Hpage) as (H1 & H2 & H3 & H4).
    destruct Hc as (_ & Hn & _).
    repeat split; auto. specialize (H4 ltac:(discriminate)). lia.
  - assert (Hc : consistent 0 initial).
    { unfold consistent, MAX_INPUT_COUNT; simpl. repeat split; lia. }
    pose proof (eachState_continue _ _ _ _ Hc Hpage) as (H1 & H2 & H3 & H4).
    repeat split; auto. specialize (H4 ltac:(discriminate)). lia.
Qed.

Lemma passes_total n st : passes n st -> total st = totalOf (coins st).
Proof.
  intros H. destruct (passes_consistent _ _ H) as [-> |(Ht & _)]; [|exact Ht].
  inversion H. reflexivity.
Qed.

Lemma passes_bound n st : passes n st -> (n < MAX_INPUT_COUNT)%nat.
Proof.
  intros H. destruct (passes_consistent _ _ H) as [-> |(_ & Hn & Hmax)].
  - unfold MAX_INPUT_COUNT. lia.
  - lia.
Qed.

Lemma pages_passes n st : passes n st ->
  forall fuel, pages (n + fuel) initial = pages fuel st.
Proof.
  induction 1 as [|n st st' Hp IH Hpage]; intros fuel; [reflexivity|].
  replace (S n + fuel)%nat with (n + S fuel)%nat by lia.
  rewrite IH. simpl. rewrite Hpage. reflexivity.
Qed.

Lemma pages_returns : forall fuel n st,
  consistent n st \/ st = initial ->
  (MAX_INPUT_COUNT < fuel + length (stateRefs st))%nat ->
  exists r, pages fuel st = Some r.
Proof.
  induction fuel as [|fuel IH]; intros n st Hc Hfuel.
  - exfalso. destruct Hc as [(_ & _ & Hmax)| ->]; simpl in *; [lia|].
    unfold MAX_INPUT_COUNT in Hfuel. lia.
  - simpl. destruct onePage as [st'|r] eqn:Hpage; [|eauto].
    assert (Hc0 : consistent 0 st).
    { destruct Hc as [(H1 & H2 & H3)| ->].
      - repeat split; auto. lia.
      - unfold consistent, MAX_INPUT_COUNT; simpl. repeat split; lia. }
    unfold Zeto.onePage in Hpage.
    destruct (findAvailableStates _ _) as [[|s0 states]|err]; try discriminate.
    pose proof (eachState_continue _ _ _ _ Hc0 Hpage) as (H1 & H2 & H3 & H4).
    specialize (H4 ltac:(discriminate)).
    apply (IH 0%nat); [left; repeat split; auto; lia | lia].
Qed.

End Facts.

(** [prepareInputs] always returns: the fuel of the model is never used up. *)
Lemma prepareInputs_returns find mk ctx sender params :
  exists r, prepareInputs find mk ctx sender params = Some r.
Proof.
  unfold prepareInputs. apply (pages_returns _ _ _ _ _ _ 0%nat); [now right|].
  cbn [stateRefs initial length]. lia.
Qed.

(** C9.  When the first available-states query comes back empty,
    [prepareInputs] fails with exactly "insufficient funds (available=0)"
    and hands back no inputs; and whenever the loop meets an empty query
    result, the amount reported is the decimal total of the coins
    accumulated up to then. *)
Theorem prepareInputs_insufficient_funds
  (find : string -> Query -> result string (list StoredState))
  (mk : string -> result string ZetoCoin)
  (ctx sender : string) (params : list TransferParamEntry) :
  (find ctx (buildQuery sender 0) = Ok [] ->
   prepareInputs find mk ctx sender params =
     Some (Err "insufficient funds (available=0)")) /\
  (forall n st,
     passes find mk ctx sender (sumAmounts params) n st ->
     find ctx (buildQuery sender (lastStateTimestamp st)) = Ok [] ->
     prepareInputs find mk ctx sender params =
       Some (Err ("insufficient funds (available="
                    ++ Text10 (totalOf (coins st)) ++ ")"))).
Proof.
  split.
  - intros H. unfold prepareInputs. cbn [pages]. unfold onePage.
    cbn [lastStateTimestamp initial]. rewrite H. reflexivity.
  - intros n st Hp H. unfold prepareInputs.
    pose proof (passes_bound _ _ _ _ _ _ _ Hp) as Hn.
    replace (S MAX_INPUT_COUNT) with (n + S (MAX_INPUT_COUNT - n))%nat by lia.
    rewrite (pages_passes _ _ _ _ _ _ _ Hp). simpl.
    unfold onePage. rewrite H.
    rewrite (passes_total _ _ _ _ _ _ _ Hp). reflexivity.
Qed.

(** A run of the first part: an empty store. *)
Lemma prepareInputs_insufficient_funds_witness :
  prepareInputs (fun _ _ => Ok []) (fun _ => Err "unused") "ctx" "alice"
    [mkParam "bob" 10] = Some (Err "insufficient funds (available=0)").
Proof.
  apply (proj1 (prepareInputs_insufficient_funds
                  (fun _ _ => Ok []) (fun _ => Err "unused") "ctx" "alice"
                  [mkParam "bob" 10])).
  reflexivity.
Defined.

(** One coin of 3 on the first page, nothing after it, 10 wanted. *)
Example prepareInputs_available_3 :
  prepareInputs
    (fun _ q => match q_GreaterThanCreated q with
                | None => Ok [mkStoredState "0x01" "coin" 5 "{}"]
                | Some _ => Ok []
                end)
    (fun _ => Ok (mkCoin "alice" 3)) "ctx" "alice" [mkParam "bob" 10]
  = Some (Err "insufficient funds (available=3)").
Proof. reflexivity. Qed.

End ZetoFacts.

Module TxMgrFacts.
Import TxMgr.







Section Facts.

Variable resolvePrivateDomain : TransactionInput -> option txError.
Variable getABIByHash : string -> result txError (option StoredABI).
Variable UpsertABI : list string -> result txError (option StoredABI).
Variable pickFunction :
  StoredABI -> string -> option string -> result txError ResolvedFunction.
Variable validateInputs : ResolvedFunction -> TransactionInput -> SubmitMode -> option txError.
Variable validatePublic : ValidatedTransaction -> option txError.
Variable WriteNewTransactions : list ValidatedTransaction -> option txError.
Variable HandleNewTx : ValidatedTransaction -> option txError.
Variable lookupFails : bool.

Local Abbreviation resolveFunction := (resolveFunction getABIByHash UpsertABI pickFunction).
Local Abbreviation resolveNewTransaction :=
  (resolveNewTransaction resolvePrivateDomain getABIByHash UpsertABI pickFunction
     validateInputs).
Local Abbreviation resolveAll :=
  (resolveAll resolvePrivateDomain getABIByHash UpsertABI pickFunction validateInputs).






End Facts.



(** Submitting, then submitting again under the same key: the first call
    stores a row under the fresh id, the second reports that id and writes
    nothing. *)
Example resubmit_reports_first_id :
  let submit ids tm :=
    sendTransactionsNewDBTX passes_all sampleGetABIByHash sampleUpsertABI
      samplePickFunction (fun _ _ _ => None) passes_all passes_all
      passes_all false ids tm [input_k1] in
  let first := submit (fun _ => "id-A") (mkTM (mkDB [] [] []) []) in
  let second := submit (fun _ => "id-B") (snd first) in
  fst first = Ok ["id-A"] /\
  fst second = Err (MsgTxMgrIdempotencyKeyClash "k1=id-A") /\
  snd second = snd first.
Proof. repeat split. Qed.

End TxMgrFacts.

Module TransportFacts.
Import Transport.

Lemma acked_app acks more id :
  acked (acks ++ more)%list id = acked acks id || acked more id.
Proof. unfold acked. apply existsb_app. Qed.

Lemma acked_CreateAcks_mono new : forall acks id,
  acked acks id = true -> acked (CreateAcks acks new) id = true.
Proof.
  induction new as [|a rest IH]; intros acks id H; simpl; [exact H|].
  destruct (acked acks (MessageID a)); apply IH; [exact H|].
  rewrite acked_app, H. reflexivity.
Qed.

Lemma acked_CreateAcks_new new : forall acks a,
  a ∈ new -> acked (CreateAcks acks new) (MessageID a) = true.
Proof.
  induction new as [|b rest IH]; intros acks a Hin; [inversion Hin|].
  apply elem_of_cons in Hin as [-> |Hin]; simpl.
  - destruct (acked acks (MessageID b)) eqn:Hb; apply acked_CreateAcks_mono.
    + exact Hb.
    + rewrite acked_app. unfold acked at 2. simpl. rewrite String.eqb_refl.
      apply orb_true_r.
  - destruct (acked acks (MessageID b)); now apply IH.
Qed.

Lemma send_hwm w p msg sq r p' :
  send w p msg sq = (r, p') -> lastDrainHWM p' = lastDrainHWM p.
Proof.
  unfold send. destruct (transportSend w msg); intros H; inversion H; reflexivity.
Qed.

Lemma sendAll_spec w msgs : forall p r p' sent,
  sendAll w p msgs = (r, p', sent) ->
  lastDrainHWM p' = lastDrainHWM p /\
  (exists rest, msgs = sent ++ rest)%list /\
  (r = None -> sent = msgs).
Proof.
  induction msgs as [|[sq msg] rest IH]; intros p r p' sent H; simpl in H.
  - inversion H; subst. repeat split. now exists [].
  - destruct (send w p msg (Some sq)) as [[err|] p1] eqn:Hsend.
    + inversion H; subst. split; [eapply send_hwm, Hsend|].
      split; [now eexists|discriminate].
    + destruct (sendAll w p1 rest) as [[r2 p2] sent2] eqn:Hrest.
      inversion H; subst.
      destruct (IH _ _ _ _ Hrest) as (Hh & [tl Htl] & Hall).
      split; [rewrite Hh; eapply send_hwm, Hsend|].
      split.
      * exists tl. simpl. now rewrite <- Htl.
      * intros Hr. now rewrite (Hall Hr).
Qed.

Lemma buildMsg_id w rm msg : buildMsg w rm = Msg msg -> MessageId msg = ID rm.
Proof.
  unfold buildMsg, buildStateDistributionMsg.
  destruct (MessageType rm); try discriminate.
  destruct (parseStateDistribution w (ID rm) (Metadata rm)) as [sd|]; [|discriminate].
  destruct (GetState w sd) as [[data|]|]; try discriminate.
  intros H. inversion H. reflexivity.
Qed.

Section Page.

Variables (c : config) (w : world) (p : peer).

Abbreviation queuedFrom := (queuedFrom c w p).

Lemma buildPage_sound page : forall msgs acks,
  buildPage c w p page = Ok (msgs, acks) ->
  (forall e, e ∈ msgs -> queuedFrom page e) /\
  (forall rm, rm ∈ page -> eligible c w p rm = true ->
     match buildMsg w rm with
     | Msg msg => (Sequence rm, msg) ∈ msgs
     | ErrorAck errorAck => mkAck (ID rm) (now w) (Some errorAck) ∈ acks
     | Retry _ => False
     end).
Proof.
  induction page as [|rm rest IH]; intros msgs acks H; simpl in H.
  - inversion H; subst. split; intros ? Hin; inversion Hin.
  - destruct (eligible c w p rm) eqn:Hel; simpl in H.
    + destruct (buildMsg w rm) as [msg|errorAck|err] eqn:Hb; [| |discriminate];
        destruct (buildPage c w p rest) as [[msgs' acks']|] eqn:Hrest;
        try discriminate; inversion H; subst;
        destruct (IH _ _ eq_refl) as [IH1 IH2]; split.
      * intros e He. apply elem_of_cons in He as [-> |He].
        -- exists rm. repeat split; auto. apply list_elem_of_here.
        -- destruct (IH1 e He) as (rm' & ? & ? & ? & ?).
           exists rm'. repeat split; auto. now apply list_elem_of_further.
      * intros rm' Hin Hel'. apply elem_of_cons in Hin as [-> |Hin].
        -- rewrite Hb. apply list_elem_of_here.
        -- specialize (IH2 rm' Hin Hel').
           destruct (buildMsg w rm'); auto. now apply list_elem_of_further.
      * intros e He. destruct (IH1 e He) as (rm' & ? & ? & ? & ?).
        exists rm'. repeat split; auto. now apply list_elem_of_further.
      * intros rm' Hin Hel'. apply elem_of_cons in Hin as [-> |Hin].
        -- rewrite Hb. apply list_elem_of_here.
        -- specialize (IH2 rm' Hin Hel').
           destruct (buildMsg w rm'); auto. now apply list_elem_of_further.
    + destruct (IH _ _ H) as [IH1 IH2]. split.
      * intros e He. destruct (IH1 e He) as (rm' & ? & ? & ? & ?).
        exists rm'. repeat split; auto. now apply list_elem_of_further.
      * intros rm' Hin Hel'. apply elem_of_cons in Hin as [-> |Hin]; [congruence|].
        now apply IH2.
Qed.

(** What one page does: the rows of [reliable_msgs] stay, ack rows are only
    added, the high-water mark is not touched, whatever went out was built
    from an eligible row of the page, and when the page ends without an
    error every eligible row went out or has an ack row. *)
Lemma processReliableMsgPage_spec db page r p' db' sent :
  processReliableMsgPage c w p db page = (r, p', db', sent) ->
  reliable_msgs db' = reliable_msgs db /\
  (forall id, acked (reliable_msg_acks db) id = true ->
              acked (reliable_msg_acks db') id = true) /\
  lastDrainHWM p' = lastDrainHWM p /\
  (forall e, e ∈ sent -> queuedFrom page e) /\
  (r = None ->
   forall rm, rm ∈ page -> eligible c w p rm = true ->
     match buildMsg w rm with
     | Msg msg => (Sequence rm, msg) ∈ sent
     | ErrorAck _ => acked (reliable_msg_acks db') (ID rm) = true
     | Retry _ => False
     end).
Proof.
  unfold processReliableMsgPage.
  destruct (buildPage c w p page) as [[msgs acks]|err] eqn:Hbuild.
  2:{ intros H; inversion H; subst. repeat split; auto; try discriminate.
      intros e He. inversion He. }
  destruct (buildPage_sound _ _ _ Hbuild) as [Hq Hall].
  set (persisted := if (0 <? length acks)%nat then _ else _).
  assert (Hp : match persisted with
               | Err _ => True
               | Ok db1 =>
                   reliable_msgs db1 = reliable_msgs db /\
                   (forall id, acked (reliable_msg_acks db) id = true ->
                               acked (reliable_msg_acks db1) id = true) /\
                   (forall a, a ∈ acks ->
                              acked (reliable_msg_acks db1) (MessageID a) = true)
               end).
  { subst persisted. destruct (Nat.ltb_spec 0 (length acks)) as [Hlen|Hlen].
    - destruct (createFails w acks); [exact I|]. cbn [reliable_msgs reliable_msg_acks].
      repeat split.
      + intros id. apply acked_CreateAcks_mono.
      + intros a. apply acked_CreateAcks_new.
    - destruct acks; [|simpl in Hlen; lia]. repeat split; auto.
      intros a Ha. inversion Ha. }
  destruct persisted as [db1|err].
  2:{ intros H; inversion H; subst. repeat split; auto; try discriminate.
      intros e He. inversion He. }
  destruct Hp as (Hm & Hmono & Hnew).
  destruct (sendAll w p msgs) as [[r1 p1] sent1] eqn:Hsend.
  intros H; inversion H; subst.
  destruct (sendAll_spec _ _ _ _ _ _ Hsend) as (Hh & [tl Htl] & Hfull).
  repeat split; auto.
  - intros e He. apply Hq. rewrite Htl. apply elem_of_app. now left.
  - intros Hr rm Hin Hel. specialize (Hall rm Hin Hel).
    destruct (buildMsg w rm); auto.
    + now rewrite (Hfull Hr).
    + apply (Hnew _ Hall).
Qed.

End Page.

Lemma unackedAbove_elem db bound rm :
  rm ∈ unackedAbove db bound <->
  rm ∈ reliable_msgs db /\ acked (reliable_msg_acks db) (ID rm) = false /\
  above bound rm = true.
Proof.
  unfold unackedAbove. rewrite merge_sort_Permutation, list_elem_of_filter.
  rewrite <- Is_true_true, andb_True, negb_True, Is_true_false, Is_true_true.
  tauto.
Qed.

Lemma unackedAbove_sorted db bound : StronglySorted seqLe (unackedAbove db bound).
Proof. apply StronglySorted_merge_sort; apply _. Qed.

Lemma eligible_hwm c w p p' rm :
  lastDrainHWM p = lastDrainHWM p' -> eligible c w p rm = eligible c w p' rm.
Proof. unfold eligible. now intros ->. Qed.

Lemma same_sequence (msgs : list ReliableMessage) a b :
  NoDup (Sequence <$> msgs) -> a ∈ msgs -> b ∈ msgs ->
  Sequence a = Sequence b -> a = b.
Proof.
  induction msgs as [|x msgs IH]; intros Hnd Ha Hb Hs; [inversion Ha|].
  rewrite fmap_cons in Hnd. apply NoDup_cons in Hnd as [Hx Hnd].
  assert (Hfresh : forall y, y ∈ msgs -> Sequence y <> Sequence x).
  { intros y Hy E. apply Hx. rewrite <- E. apply list_elem_of_fmap. eauto. }
  apply elem_of_cons in Ha as [-> |Ha], Hb as [-> |Hb]; auto.
  - exfalso. eapply Hfresh; eauto.
  - exfalso. eapply Hfresh; eauto.
Qed.

Lemma handled_mono w acks acks' sent more rm :
  (forall id, acked acks id = true -> acked acks' id = true) ->
  handled w acks sent rm -> handled w acks' (sent ++ more)%list rm.
Proof.
  intros Hmono [Ha|(msg & Hb & Hin)]; [left; auto|right].
  exists msg. split; [exact Hb|]. apply elem_of_app. now left.
Qed.

Section Scan.

Variables (c : config) (w : world) (fullScan : bool) (p0 : peer) (db0 : MessageStore).
Hypothesis pageSize_pos : (0 < reliableMessagePageSize c)%nat.

Abbreviation hwm := (lastDrainHWM p0).
Abbreviation pageOf st :=
  (take (reliableMessagePageSize c)
     (unackedAbove (sc_db st) (queryBound fullScan hwm (sc_lastPageEnd st)))).

(** A row of the page is a stored row without an ack row, before the scan
    as well. *)
Lemma page_row st rm :
  scanSafe w p0 db0 st -> rm ∈ pageOf st ->
  rm ∈ reliable_msgs db0 /\ acked (reliable_msg_acks db0) (ID rm) = false.
Proof.
  intros (Hm & Hmono & _) Hin.
  apply subseteq_take in Hin.
  apply unackedAbove_elem in Hin as (Hin & Hun & _).
  rewrite Hm in Hin. split; [exact Hin|].
  destruct (acked (reliable_msg_acks db0) (ID rm)) eqn:E; [|reflexivity].
  rewrite (Hmono _ E) in Hun. discriminate.
Qed.

(** The state after a page: [scanSafe] carries over, whatever the outcome
    of the page and the bookkeeping done on the peer and the counters. *)
Lemma page_safe st r p' db' sent p'' total' end' :
  scanSafe w p0 db0 st ->
  processReliableMsgPage c w (sc_peer st) (sc_db st) (pageOf st) = (r, p', db', sent) ->
  lastDrainHWM p'' = lastDrainHWM p' ->
  scanSafe w p0 db0 (mkScan p'' db' total' end' (sc_sent st ++ sent)%list).
Proof.
  intros Hsafe Hproc Hp''.
  destruct (processReliableMsgPage_spec _ _ _ _ _ _ _ _ _ Hproc)
    as (Hm' & Hmono' & Hh' & Hq & _).
  pose proof Hsafe as (Hm & Hmono & Hh & Hsent).
  unfold scanSafe; cbn [sc_db sc_peer sc_sent]. repeat split.
  - congruence.
  - auto.
  - congruence.
  - intros e He. apply elem_of_app in He as [He|He]; [auto|].
    destruct (Hq e He) as (rm & Hin & _ & Hb & Hs).
    destruct (page_row _ _ Hsafe Hin) as [Hin0 Hun0].
    exists rm. repeat split; auto. exact (buildMsg_id _ _ _ Hb).
Qed.

Lemma scanPages_safe fuel : forall st r st',
  scanSafe w p0 db0 st ->
  scanPages fuel c w fullScan hwm st = Some (r, st') ->
  scanSafe w p0 db0 st'.
Proof.
  induction fuel as [|fuel IH]; intros st r st' Hsafe H; [discriminate|].
  cbn [scanPages] in H. unfold Find in H.
  destruct (findFails w _); [inversion H; now subst|].
  destruct (processReliableMsgPage _ _ _ _ _) as [[[[err|] p'] db'] sent] eqn:Hproc.
  - inversion H; subst. eapply page_safe; eauto.
  - match type of H with
    | (if _ then Some (None, ?s) else _) = _ =>
        assert (Hsafe' : scanSafe w p0 db0 s)
    end.
    { eapply page_safe; [exact Hsafe|exact Hproc|].
      destruct (0 <? length _)%nat; reflexivity. }
    destruct (length _ <? reliableMessagePageSize c)%nat.
    + inversion H; now subst.
    + eapply IH; eauto.
Qed.

(** The end of a page bounds the sequences of its rows, and a row left for
    later pages lies at or above it. *)
Lemma page_last (U : list ReliableMessage) n l :
  StronglySorted seqLe U -> last (take n U) = Some l ->
  (forall x, x ∈ take n U -> (Sequence x <= Sequence l)%N) /\
  (forall y, y ∈ drop n U -> (Sequence l <= Sequence y)%N).
Proof.
  intros Hs Hl. rewrite <- (take_drop n U) in Hs.
  apply last_Some in Hl as [front Hfront]. split.
  - intros x Hx. rewrite Hfront in Hx, Hs.
    apply elem_of_app in Hx as [Hx|Hx].
    + apply StronglySorted_app_1_l in Hs.
      eapply (StronglySorted_app_1_elem_of seqLe) in Hs; [exact Hs|exact Hx|].
      apply list_elem_of_here.
    + apply list_elem_of_singleton in Hx. subst. unfold seqLe. lia.
  - intros y Hy.
    eapply (StronglySorted_app_1_elem_of seqLe) in Hs; [exact Hs| |exact Hy].
    rewrite Hfront. apply elem_of_app. right. apply list_elem_of_here.
Qed.

Hypothesis full : fullScan = true.
Hypothesis sequences_unique : NoDup (Sequence <$> reliable_msgs db0).

(** In a full scan a row is dealt with already or among the rows the next
    query selects. *)
Lemma pending_selected st rm :
  scanSafe w p0 db0 st -> scanLive c w p0 db0 st ->
  rm ∈ reliable_msgs db0 -> eligible c w p0 rm = true ->
  handled w (reliable_msg_acks (sc_db st)) (sc_sent st) rm \/
  rm ∈ unackedAbove (sc_db st) (queryBound fullScan hwm (sc_lastPageEnd st)).
Proof.
  intros (Hm & _) Hlive Hin Hel.
  destruct (acked (reliable_msg_acks (sc_db st)) (ID rm)) eqn:E; [left; now left|].
  unfold queryBound. rewrite full.
  destruct (sc_lastPageEnd st) as [b|] eqn:Hend.
  - destruct (N.lt_ge_cases b (Sequence rm)) as [Hlt|Hge].
    + right. apply unackedAbove_elem. rewrite Hm. repeat split; auto.
      now apply N.ltb_lt.
    + left. eapply Hlive; eauto.
  - right. apply unackedAbove_elem. rewrite Hm. repeat split; auto.
Qed.

Lemma page_live st p' db' sent p'' total' :
  scanSafe w p0 db0 st -> scanLive c w p0 db0 st ->
  processReliableMsgPage c w (sc_peer st) (sc_db st) (pageOf st) = (None, p', db', sent) ->
  let st' := mkScan p'' db' total'
               (match last (pageOf st) with
                | Some rm => Some (Sequence rm)
                | None => sc_lastPageEnd st
                end) (sc_sent st ++ sent)%list in
  scanLive c w p0 db0 st' /\
  ((length (pageOf st) < reliableMessagePageSize c)%nat ->
   forall rm, rm ∈ reliable_msgs db0 -> eligible c w p0 rm = true ->
              handled w (reliable_msg_acks db') (sc_sent st ++ sent)%list rm).
Proof.
  intros Hsafe Hlive Hproc st'.
  destruct (processReliableMsgPage_spec _ _ _ _ _ _ _ _ _ Hproc)
    as (Hm' & Hmono' & Hh' & Hq & Hall).
  specialize (Hall eq_refl).
  pose proof Hsafe as (Hm & Hmono & Hh & Hsent).
  assert (Hpage : forall rm, rm ∈ pageOf st -> eligible c w p0 rm = true ->
                    handled w (reliable_msg_acks db') (sc_sent st ++ sent)%list rm).
  { intros rm Hin Hel. rewrite (eligible_hwm _ _ _ (sc_peer st)) in Hel by congruence.
    specialize (Hall rm Hin Hel). unfold handled.
    destruct (buildMsg w rm) as [msg|ea|err]; [right|left; exact Hall|contradiction].
    exists msg. split; [reflexivity|]. apply elem_of_app. now right. }
  assert (Hcase : forall rm, rm ∈ reliable_msgs db0 -> eligible c w p0 rm = true ->
            handled w (reliable_msg_acks db') (sc_sent st ++ sent)%list rm \/
            rm ∈ drop (reliableMessagePageSize c)
                   (unackedAbove (sc_db st) (queryBound fullScan hwm (sc_lastPageEnd st)))).
  { intros rm Hin Hel.
    destruct (pending_selected _ _ Hsafe Hlive Hin Hel) as [Hh0|Hsel].
    - left. eapply handled_mono; eauto.
    - rewrite <- (take_drop (reliableMessagePageSize c)) in Hsel.
      apply elem_of_app in Hsel as [Hsel|Hsel]; [left; now apply Hpage|now right]. }
  split.
  - intros rm b Hin Hel Hend Hle. subst st'. cbn [sc_lastPageEnd sc_db sc_sent] in *.
    destruct (Hcase rm Hin Hel) as [Hd|Hdrop]; [exact Hd|].
    destruct (last (pageOf st)) as [l|] eqn:Hlast.
    + inversion Hend; subst b.
      destruct (page_last _ _ _ (unackedAbove_sorted _ _) Hlast) as [_ Hge].
      specialize (Hge _ Hdrop).
      assert (Hl : l ∈ pageOf st) by (eapply last_Some_elem_of; eauto).
      assert (rm = l) as ->.
      { eapply same_sequence; eauto.
        - now destruct (page_row _ _ Hsafe Hl).
        - lia. }
      apply Hpage; auto.
    + apply last_None in Hlast.
      assert (Hnil : unackedAbove (sc_db st)
                       (queryBound fullScan hwm (sc_lastPageEnd st)) = []).
      { destruct (unackedAbove _ _) as [|x U]; [reflexivity|].
        destruct (reliableMessagePageSize c); [lia|discriminate]. }
      rewrite Hnil, drop_nil in Hdrop. inversion Hdrop.
  - intros Hshort rm Hin Hel.
    destruct (Hcase rm Hin Hel) as [Hd|Hdrop]; [exact Hd|].
    rewrite length_take in Hshort.
    rewrite drop_ge in Hdrop by lia. inversion Hdrop.
Qed.

Lemma scanPages_live fuel : forall st st',
  scanSafe w p0 db0 st -> scanLive c w p0 db0 st ->
  scanPages fuel c w fullScan hwm st = Some (None, st') ->
  forall rm, rm ∈ reliable_msgs db0 -> eligible c w p0 rm = true ->
             handled w (reliable_msg_acks (sc_db st')) (sc_sent st') rm.
Proof.
  induction fuel as [|fuel IH]; intros st st' Hsafe Hlive H; [discriminate|].
  cbn [scanPages] in H. unfold Find in H.
  destruct (findFails w _); [discriminate|].
  destruct (processReliableMsgPage _ _ _ _ _) as [[[[err|] p'] db'] sent] eqn:Hproc;
    [discriminate|].
  match type of H with
  | (if _ then Some (None, mkScan ?p'' _ ?t _ _) else _) = _ =>
      destruct (page_live _ _ _ _ p'' t Hsafe Hlive Hproc) as [Hlive' Hshort];
      assert (Hsafe' : scanSafe w p0 db0
                         (mkScan p'' db' t
                            (match last (pageOf st) with
                             | Some rm => Some (Sequence rm)
                             | None => sc_lastPageEnd st
                             end) (sc_sent st ++ sent)%list))
  end.
  { eapply page_safe; [exact Hsafe|exact Hproc|].
    destruct (0 <? length _)%nat; reflexivity. }
  destruct (Nat.ltb_spec (length (pageOf st)) (reliableMessagePageSize c)) as [Hlt|Hge].
  - inversion H; subst. cbn [sc_db sc_sent]. now apply Hshort.
  - eapply IH; eauto.
Qed.

End Scan.

Lemma unackedAbove_length db bound :
  length (unackedAbove db bound) =
  length (filter (fun rm => negb (acked (reliable_msg_acks db) (ID rm)) && above bound rm)
                 (reliable_msgs db)).
Proof. unfold unackedAbove. now rewrite merge_sort_Permutation. Qed.

(** The rows left above the end of a non-empty page are fewer than the rows
    the page was cut from. *)
Lemma fewer_rows_left db db' bound n l :
  reliable_msgs db' = reliable_msgs db ->
  (forall id, acked (reliable_msg_acks db) id = true ->
              acked (reliable_msg_acks db') id = true) ->
  last (take n (unackedAbove db bound)) = Some l ->
  (length (unackedAbove db' (Some (Sequence l))) < length (unackedAbove db bound))%nat.
Proof.
  intros Hm Hmono Hlast.
  assert (Hl : l ∈ unackedAbove db bound).
  { eapply subseteq_take, last_Some_elem_of, Hlast. }
  rewrite !unackedAbove_length, Hm.
  set (P := fun rm => negb (acked (reliable_msg_acks db) (ID rm)) && above bound rm).
  set (P' := fun rm => negb (acked (reliable_msg_acks db') (ID rm))
                       && above (Some (Sequence l)) rm).
  apply unackedAbove_elem in Hl as (Hin & Hun & Hab).
  assert (Himp : forall x, P' x -> P x).
  { intros x. unfold P, P'. rewrite !andb_True, !negb_True. intros [Ha Hb]. split.
    - intros Hx. apply Ha. apply Is_true_true. apply Hmono. now apply Is_true_true.
    - apply Is_true_true. apply Is_true_true in Hb. cbn [above] in Hb.
      apply N.ltb_lt in Hb. destruct bound as [b|]; [|reflexivity].
      cbn [above] in *. apply N.ltb_lt in Hab. apply N.ltb_lt. lia. }
  replace (filter (fun rm => P' rm) (reliable_msgs db))
    with (filter (fun rm => P' rm) (filter (fun rm => P rm) (reliable_msgs db))).
  - apply (length_filter_lt _ _ l).
    + apply list_elem_of_filter. split; [|exact Hin].
      unfold P. rewrite Hun, Hab. exact I.
    + unfold P'. cbn [above]. rewrite N.ltb_irrefl, andb_false_r. auto.
  - rewrite list_filter_filter. apply list_filter_iff. intros x. split.
    + tauto.
    + intros Hx. split; [exact Hx|now apply Himp].
Qed.

Lemma scanPages_returns c w fullScan hwm fuel : forall st,
  (0 < reliableMessagePageSize c)%nat ->
  (length (unackedAbove (sc_db st) (queryBound fullScan hwm (sc_lastPageEnd st))) < fuel)%nat ->
  exists r, scanPages fuel c w fullScan hwm st = Some r.
Proof.
  induction fuel as [|fuel IH]; intros st Hps Hfuel; [lia|].
  cbn [scanPages]. unfold Find.
  destruct (findFails w _); [eauto|].
  destruct (processReliableMsgPage _ _ _ _ _) as [[[[err|] p'] db'] sent] eqn:Hproc;
    [eauto|].
  destruct (Nat.ltb_spec (length (take (reliableMessagePageSize c)
              (unackedAbove (sc_db st) (queryBound fullScan hwm (sc_lastPageEnd st)))))
              (reliableMessagePageSize c)) as [Hlt|Hge]; [eauto|].
  apply IH; [exact Hps|]. cbn [sc_db sc_lastPageEnd].
  destruct (processReliableMsgPage_spec _ _ _ _ _ _ _ _ _ Hproc) as (Hm & Hmono & _).
  destruct (last (take _ _)) as [l|] eqn:Hlast.
  - cbn [queryBound].
    pose proof (fewer_rows_left _ _ _ _ _ Hm Hmono Hlast). lia.
  - apply last_None in Hlast. rewrite Hlast in Hge. simpl in Hge. lia.
Qed.

(** Ack rows written by a page are error rows. *)
Lemma CreateAcks_elem new : forall acks a,
  a ∈ CreateAcks acks new -> a ∈ acks \/ a ∈ new.
Proof.
  induction new as [|b rest IH]; intros acks a Hin; simpl in Hin; [now left|].
  destruct (acked acks (MessageID b)).
  - destruct (IH _ _ Hin); [now left|right; now apply list_elem_of_further].
  - destruct (IH _ _ Hin) as [H|H]; [|right; now apply list_elem_of_further].
    apply elem_of_app in H as [H|H]; [now left|right].
    apply list_elem_of_singleton in H. subst. apply list_elem_of_here.
Qed.

Lemma buildPage_errors c w p page : forall msgs acks,
  buildPage c w p page = Ok (msgs, acks) ->
  forall a, a ∈ acks -> is_Some (Error a).
Proof.
  induction page as [|rm rest IH]; intros msgs acks H a Ha; simpl in H.
  - inversion H; subst. inversion Ha.
  - destruct (negb (eligible c w p rm)); [eauto|].
    destruct (buildMsg w rm); [| |discriminate];
      destruct (buildPage c w p rest) as [[msgs' acks']|] eqn:Hrest;
      try discriminate; inversion H; subst; [eauto|].
    apply elem_of_cons in Ha as [-> |Ha]; [now eexists|eauto].
Qed.

Lemma processReliableMsgPage_errors c w p db page r p' db' sent :
  processReliableMsgPage c w p db page = (r, p', db', sent) ->
  forall a, a ∈ reliable_msg_acks db' ->
            a ∈ reliable_msg_acks db \/ is_Some (Error a).
Proof.
  unfold processReliableMsgPage.
  destruct (buildPage c w p page) as [[msgs acks]|err] eqn:Hbuild.
  2:{ intros H; inversion H; subst. now left. }
  destruct (0 <? length acks)%nat.
  - destruct (createFails w acks).
    + intros H; inversion H; subst. now left.
    + destruct (sendAll w p msgs) as [[r1 p1] sent1]. intros H; inversion H; subst.
      cbn [reliable_msg_acks]. intros a Ha.
      apply CreateAcks_elem in Ha as [Ha|Ha]; [now left|right].
      eapply buildPage_errors; eauto.
  - destruct (sendAll w p msgs) as [[r1 p1] sent1]. intros H; inversion H; subst.
    now left.
Qed.

Lemma scanPages_errors c w fullScan hwm fuel : forall st r st',
  scanPages fuel c w fullScan hwm st = Some (r, st') ->
  forall a, a ∈ reliable_msg_acks (sc_db st') ->
            a ∈ reliable_msg_acks (sc_db st) \/ is_Some (Error a).
Proof.
  induction fuel as [|fuel IH]; intros st r st' H; [discriminate|].
  cbn [scanPages] in H. unfold Find in H.
  destruct (findFails w _); [inversion H; subst; now left|].
  destruct (processReliableMsgPage _ _ _ _ _) as [[[[err|] p'] db'] sent] eqn:Hproc.
  - inversion H; subst. cbn [sc_db].
    eapply processReliableMsgPage_errors; eauto.
  - destruct (length _ <? reliableMessagePageSize c)%nat.
    + inversion H; subst. cbn [sc_db].
      eapply processReliableMsgPage_errors; eauto.
    + intros a Ha. destruct (IH _ _ _ H a Ha) as [Ha'|Ha']; [|now right].
      cbn [sc_db] in Ha'. eapply processReliableMsgPage_errors; eauto.
Qed.

(** What a whole scan does. *)
Lemma reliableMessageScan_spec c w p db checkNew :
  (0 < reliableMessagePageSize c)%nat ->
  exists r p' db' sent,
    reliableMessageScan c w p db checkNew = Some (r, p', db', sent) /\
    reliable_msgs db' = reliable_msgs db /\
    (forall id, acked (reliable_msg_acks db) id = true ->
                acked (reliable_msg_acks db') id = true) /\
    (forall a, a ∈ reliable_msg_acks db' ->
               a ∈ reliable_msg_acks db \/ is_Some (Error a)) /\
    (forall e, e ∈ sent -> builtFromUnacked w db e) /\
    (r = None -> isFullScan c w p = true ->
     NoDup (Sequence <$> reliable_msgs db) ->
     forall rm, rm ∈ reliable_msgs db -> eligible c w p rm = true ->
                handled w (reliable_msg_acks db') sent rm).
Proof.
  intros Hps. unfold reliableMessageScan.
  destruct (negb (isFullScan c w p) && negb checkNew) eqn:Hskip.
  { exists None, p, db, []. repeat split; auto.
    - intros e He. inversion He.
    - intros _ Hfull. rewrite Hfull in Hskip. discriminate. }
  set (st0 := mkScan p db 0 None []).
  assert (Hsafe0 : scanSafe w p db st0).
  { repeat split; auto. intros e He. inversion He. }
  destruct (scanPages_returns c w (isFullScan c w p) (lastDrainHWM p)
              (S (length (reliable_msgs db))) st0 Hps) as [[r st] Hrun].
  { rewrite unackedAbove_length. cbn [sc_db st0].
    pose proof (length_filter
                  (fun rm => negb (acked (reliable_msg_acks db) (ID rm))
                             && above (queryBound (isFullScan c w p) (lastDrainHWM p)
                                         (sc_lastPageEnd st0)) rm)
                  (reliable_msgs db)). lia. }
  rewrite Hrun.
  pose proof (scanPages_safe _ _ _ _ _ _ _ _ _ Hsafe0 Hrun) as (Hm & Hmono & Hh & Hsent).
  pose proof (scanPages_errors _ _ _ _ _ _ _ _ Hrun) as Herrs.
  destruct r as [err|].
  - exists (Some err), (sc_peer st), (sc_db st), (sc_sent st).
    repeat split; auto. discriminate.
  - eexists None, _, (sc_db st), (sc_sent st). split; [reflexivity|].
    repeat split; auto.
    intros _ Hfull Hnd rm Hin Hel.
    rewrite Hfull in Hrun.
    eapply (scanPages_live c w true p db Hps eq_refl Hnd); eauto.
    intros rm' b _ _ Hend. discriminate.
Qed.

(** ** The sender loop *)

Lemma send_lastFullScan w p msg sq r p' :
  send w p msg sq = (r, p') -> lastFullScan p' = lastFullScan p.
Proof.
  unfold send. destruct (transportSend w msg); intros H; inversion H; reflexivity.
Qed.

Lemma sendAll_lastFullScan w msgs : forall p r p' sent,
  sendAll w p msgs = (r, p', sent) -> lastFullScan p' = lastFullScan p.
Proof.
  induction msgs as [|[sq msg] rest IH]; intros p r p' sent H; simpl in H.
  - now inversion H.
  - destruct (send w p msg (Some sq)) as [[err|] p1] eqn:Hsend.
    + inversion H; subst. eapply send_lastFullScan, Hsend.
    + destruct (sendAll w p1 rest) as [[r2 p2] sent2] eqn:Hrest.
      inversion H; subst. rewrite (IH _ _ _ _ Hrest). eapply send_lastFullScan, Hsend.
Qed.

Lemma processReliableMsgPage_lastFullScan c w p db page r p' db' sent :
  processReliableMsgPage c w p db page = (r, p', db', sent) ->
  lastFullScan p' = lastFullScan p.
Proof.
  unfold processReliableMsgPage.
  destruct (buildPage c w p page) as [[msgs acks]|err]; [|now intros [= _ <- _ _]].
  destruct (if (0 <? length acks)%nat then _ else _); [|now intros [= _ <- _ _]].
  destruct (sendAll w p msgs) as [[r1 p1] sent1] eqn:Hsend.
  intros [= _ <- _ _]. eapply sendAll_lastFullScan, Hsend.
Qed.

Lemma scanPages_lastFullScan c w fullScan hwm fuel : forall st r st',
  scanPages fuel c w fullScan hwm st = Some (r, st') ->
  lastFullScan (sc_peer st') = lastFullScan (sc_peer st).
Proof.
  induction fuel as [|fuel IH]; intros st r st' H; [discriminate|].
  cbn [scanPages] in H.
  destruct (Find c w _ _) as [page|]; [|now inversion H].
  destruct (processReliableMsgPage _ _ _ _ _) as [[[[err|] p'] db'] sent] eqn:Hproc;
    apply processReliableMsgPage_lastFullScan in Hproc.
  - now inversion H.
  - destruct (length page <? reliableMessagePageSize c)%nat.
    + inversion H; subst. cbn [sc_peer]. now destruct (0 <? length page)%nat.
    + rewrite (IH _ _ _ H). cbn [sc_peer]. now destruct (0 <? length page)%nat.
Qed.

(** A scan that fails leaves the time of the last full scan and the
    high-water mark as they were. *)
Lemma reliableMessageScan_failed c w p db checkNew err p' db' sent :
  reliableMessageScan c w p db checkNew = Some (Some err, p', db', sent) ->
  lastFullScan p' = lastFullScan p /\ lastDrainHWM p' = lastDrainHWM p.
Proof.
  unfold reliableMessageScan.
  destruct (negb (isFullScan c w p) && negb checkNew); [discriminate|].
  destruct (scanPages _ _ _ _ _ _) as [[[e|] st]|] eqn:Hrun; [|discriminate..].
  intros [= _ <- _ _].
  split; [exact (scanPages_lastFullScan _ _ _ _ _ _ _ _ Hrun)|].
  assert (Hsafe0 : scanSafe w p db (mkScan p db 0 None [])).
  { repeat split; auto. intros e0 He. inversion He. }
  now destruct (scanPages_safe _ _ _ _ _ _ _ _ _ Hsafe0 Hrun) as (_ & _ & Hh & _).
Qed.

(** After a scan that succeeds the last full scan is no later than the
    clock of the scan, if it was not before. *)
Lemma reliableMessageScan_lastFullScan c w p db checkNew p' db' sent :
  reliableMessageScan c w p db checkNew = Some (None, p', db', sent) ->
  (lastFullScan p <= now w)%Z -> (lastFullScan p' <= now w)%Z.
Proof.
  unfold reliableMessageScan.
  destruct (negb (isFullScan c w p) && negb checkNew); [now intros [= <- _ _]|].
  destruct (scanPages _ _ _ _ _ _) as [[[e|] st]|] eqn:Hrun; [discriminate| |discriminate].
  apply scanPages_lastFullScan in Hrun. cbn [sc_peer] in Hrun.
  intros [= <- _ _] Hle. destruct (isFullScan c w p); cbn [lastFullScan]; lia.
Qed.

Lemma eligible_due c w p rm :
  eligible c w p rm = true <-> dueForResend c w p rm.
Proof.
  unfold eligible, dueForResend, above.
  destruct (match lastDrainHWM p with Some hwm => _ | None => true end);
    cbn [negb andb]; [tauto|].
  destruct (Z.ltb_spec (now w - Created rm) (reliableMessageResend c)); cbn [negb].
  - split; [discriminate|]. intros [?|?]; [discriminate|lia].
  - split; [now right|reflexivity].
Qed.

Lemma isFullScan_due c w p :
  lastDrainHWM p = None \/ (reliableMessageResend c <= now w - lastFullScan p)%Z ->
  isFullScan c w p = true.
Proof.
  unfold isFullScan. destruct (lastDrainHWM p); [|reflexivity].
  intros [?|?]; [discriminate|]. now apply Z.leb_le.
Qed.

Lemma reliableSent_asReliable sent : reliableSent (asReliable sent) = sent.
Proof.
  unfold reliableSent, asReliable. induction sent as [|[sq msg] rest IH]; [reflexivity|].
  cbn. f_equal. exact IH.
Qed.

Lemma reliableSent_app out more :
  reliableSent (out ++ more)%list = (reliableSent out ++ reliableSent more)%list.
Proof. apply omap_app. Qed.

(** What a full scan that succeeds has done for a row that was due. *)
Lemma full_scan_handles c w p db checkNew p' db' sent :
  (0 < reliableMessagePageSize c)%nat ->
  reliableMessageScan c w p db checkNew = Some (None, p', db', sent) ->
  lastDrainHWM p = None \/ (reliableMessageResend c <= now w - lastFullScan p)%Z ->
  NoDup (Sequence <$> reliable_msgs db) ->
  forall rm, rm ∈ reliable_msgs db ->
    acked (reliable_msg_acks db) (ID rm) = false ->
    dueForResend c w p rm ->
    match buildMsg w rm with
    | Msg msg =>
        (Sequence rm, msg) ∈ sent \/ acked (reliable_msg_acks db') (ID rm) = true
    | ErrorAck _ =>
        (exists a, a ∈ reliable_msg_acks db' /\ MessageID a = ID rm /\
                   is_Some (Error a)) /\
        (forall msg, (Sequence rm, msg) ∉ sent)
    | Retry _ => acked (reliable_msg_acks db') (ID rm) = true
    end.
Proof.
  intros Hps Hscan Hfull Hnd rm Hin Hun Hdue.
  apply isFullScan_due in Hfull. apply eligible_due in Hdue.
  destruct (reliableMessageScan_spec c w p db checkNew Hps)
    as (r & p1 & db1 & sent1 & Hrun & Hm & Hmono & Herrs & Hsent & Hlive).
  rewrite Hscan in Hrun. injection Hrun as <- <- <- <-.
  specialize (Hlive eq_refl Hfull Hnd rm Hin Hdue).
  assert (Hacked : acked (reliable_msg_acks db') (ID rm) = true ->
            exists a, a ∈ reliable_msg_acks db' /\ MessageID a = ID rm /\
                      is_Some (Error a)).
  { intros Ha. unfold acked in Ha. apply existsb_exists in Ha as (a & Ha & Heq).
    apply String.eqb_eq in Heq. apply list_elem_of_In in Ha.
    exists a. repeat split; auto.
    destruct (Herrs a Ha) as [Hold|Hnew]; [|exact Hnew].
    exfalso. assert (acked (reliable_msg_acks db) (ID rm) = true); [|congruence].
    apply existsb_exists. exists a. split; [now apply list_elem_of_In|].
    now apply String.eqb_eq. }
  destruct (buildMsg w rm) as [msg|ea|err] eqn:Hb.
  - destruct Hlive as [Ha|(msg' & Hmsg & Hs)]; [now right|left].
    rewrite Hb in Hmsg. now injection Hmsg as <-.
  - destruct Hlive as [Ha|(msg' & Hmsg & _)]; [|congruence]. split; [auto|].
    intros msg Hs. destruct (Hsent _ Hs) as (rm' & Hin' & _ & Hb' & Hseq & _).
    cbn [fst snd] in *.
    assert (rm = rm') as <- by (eapply same_sequence; eauto).
    congruence.
  - destruct Hlive as [Ha|(msg' & Hmsg & _)]; [exact Ha|congruence].
Qed.

Lemma senderStep_safe c peerInactivityTimeout ev s :
  (0 < reliableMessagePageSize c)%nat ->
  forall id, acked (reliable_msg_acks (sd_tables s)) id = true ->
    acked (reliable_msg_acks (sd_tables (fst (senderStep c peerInactivityTimeout ev s))))
      id = true /\
    id ∉ sentIds (reliableSent (snd (senderStep c peerInactivityTimeout ev s))).
Proof.
  intros Hps id Hacked.
  assert (Hnone : acked (reliable_msg_acks (sd_tables s)) id = true /\
                  id ∉ sentIds (reliableSent []))
    by (split; [exact Hacked|apply not_elem_of_nil]).
  destruct ev as [w|w| | |w msg|ack|rm|t]; cbn [senderStep].
  - destruct (sd_at s); [|exact Hnone..].
    destruct (reliableMessageScan_spec c w (sd_peer s) (sd_tables s) (sd_checkNew s) Hps)
      as (r & p' & db' & sent & Hrun & _ & Hmono & _ & Hsent & _).
    rewrite Hrun.
    assert (Hfresh : id ∉ sentIds (reliableSent (asReliable sent))).
    { rewrite reliableSent_asReliable. intros Hin.
      apply list_elem_of_In, in_map_iff in Hin as (e & <- & He).
      apply list_elem_of_In in He.
      destruct (Hsent _ He) as (rm & _ & Hun & _ & _ & Hid). congruence. }
    destruct r as [err|]; [|destruct (ableToQuiesce _ _ _ _)]; cbn [fst snd sd_tables];
      auto.
  - destruct (sd_at s), (sd_resendTimer s) as [t0|]; try exact Hnone.
    destruct (_ <=? _)%Z; exact Hnone.
  - destruct (sd_at s); exact Hnone.
  - destruct (sd_at s); exact Hnone.
  - destruct (sd_at s); [exact Hnone| |exact Hnone].
    destruct (send w (sd_peer s) msg None) as [[err|] p']; cbn; (split; [exact Hacked|]);
      apply not_elem_of_nil.
  - cbn. split; [|apply not_elem_of_nil]. now apply (acked_CreateAcks_mono [ack]).
  - exact Hnone.
  - exact Hnone.
Qed.

(** No case of the [select] but [persistedMsgsAvailable] leads from a
    stopped timer back to the scan. *)
Lemma senderStep_stalled c peerInactivityTimeout ev s :
  ev <> PersistedMsgsAvailable ->
  sd_at s <> InScan -> sd_resendTimer s = None ->
  let r := senderStep c peerInactivityTimeout ev s in
  sd_at (fst r) <> InScan /\ sd_resendTimer (fst r) = None /\ reliableSent (snd r) = [].
Proof.
  intros Hev Hat Htimer. cbv zeta.
  assert (Hnone : sd_at (fst (s, @nil (option N * PaladinMsg))) <> InScan /\
                  sd_resendTimer (fst (s, @nil (option N * PaladinMsg))) = None /\
                  reliableSent (snd (s, @nil (option N * PaladinMsg))) = [])
    by now repeat split.
  destruct ev as [w|w| | |w msg|ack|rm|t]; cbn [senderStep]; try contradiction.
  - destruct (sd_at s); [contradiction|exact Hnone..].
  - rewrite Htimer. destruct (sd_at s); exact Hnone.
  - destruct (sd_at s) eqn:E; [contradiction| |exact Hnone]. now repeat split.
  - destruct (sd_at s) eqn:E; [contradiction| |exact Hnone].
    destruct (send w (sd_peer s) msg None) as [[err|] p']; now repeat split.
  - now repeat split.
  - now repeat split.
  - now repeat split.
Qed.

(** C2.  The sender loop of a peer, for a page size above zero.  Over any
    run, an id that has an ack row is never handed to the transport as a
    reliable message again.  When the resend timer fires the loop goes to
    its scan, and a scan attempted when a full scan is due either fails,
    to be attempted again with the same marks, or leaves every row
    without ack row that was due either sent or with an ack row, a row
    whose message cannot be built for a permanent data error getting an
    ack row with the error and not being sent.  After a scan that leads
    to the [select] the timer runs.  But a message taken from the send
    queue stops the timer without leaving the [select], and from then on
    no reliable message is sent, whatever else happens and however late,
    until [persistedMsgsAvailable] is signalled. *)
Theorem sender_resends_until_acked (c : config) (peerInactivityTimeout : Z) :
  (0 < reliableMessagePageSize c)%nat ->
  let step := senderStep c peerInactivityTimeout in
  (forall events s id,
     acked (reliable_msg_acks (sd_tables s)) id = true ->
     id ∉ sentIds (reliableSent (snd (sender c peerInactivityTimeout events s)))) /\
  (forall s t0 w,
     sd_at s = InSelect -> sd_resendTimer s = Some t0 ->
     (reliableMessageResend c <= now w - t0)%Z ->
     let s1 := fst (step (ResendTimerFires w) s) in
     sd_at s1 = InScan /\ sd_peer s1 = sd_peer s /\ sd_tables s1 = sd_tables s /\
     sd_hitInactivityTimeout s1 = true /\
     forall w', (lastFullScan (sd_peer s) <= t0)%Z -> (now w <= now w')%Z ->
                (reliableMessageResend c <= now w' - lastFullScan (sd_peer s1))%Z) /\
  (forall s w,
     sd_at s = InScan ->
     lastDrainHWM (sd_peer s) = None \/
     (reliableMessageResend c <= now w - lastFullScan (sd_peer s))%Z ->
     let s2 := fst (step (ScanAttempt w) s) in
     let sent := reliableSent (snd (step (ScanAttempt w) s)) in
     (sd_at s2 = InScan /\
      lastFullScan (sd_peer s2) = lastFullScan (sd_peer s) /\
      lastDrainHWM (sd_peer s2) = lastDrainHWM (sd_peer s) /\
      sd_checkNew s2 = sd_checkNew s /\
      sd_hitInactivityTimeout s2 = sd_hitInactivityTimeout s) \/
     (sd_at s2 <> InScan /\
      (NoDup (Sequence <$> reliable_msgs (sd_tables s)) ->
       forall rm, rm ∈ reliable_msgs (sd_tables s) ->
         acked (reliable_msg_acks (sd_tables s)) (ID rm) = false ->
         dueForResend c w (sd_peer s) rm ->
         match buildMsg w rm with
         | Msg msg =>
             (Sequence rm, msg) ∈ sent \/
             acked (reliable_msg_acks (sd_tables s2)) (ID rm) = true
         | ErrorAck _ =>
             (exists a, a ∈ reliable_msg_acks (sd_tables s2) /\ MessageID a = ID rm /\
                        is_Some (Error a)) /\
             (forall msg, (Sequence rm, msg) ∉ sent)
         | Retry _ => acked (reliable_msg_acks (sd_tables s2)) (ID rm) = true
         end))) /\
  (forall s w,
     sd_at s = InScan ->
     let s2 := fst (step (ScanAttempt w) s) in
     sd_at s2 = InSelect ->
     sd_resendTimer s2 = Some (now w) /\
     ((lastFullScan (sd_peer s) <= now w)%Z -> (lastFullScan (sd_peer s2) <= now w)%Z)) /\
  (forall s w msg,
     sd_at s = InSelect ->
     let s1 := fst (step (SendQueue w msg) s) in
     sd_at s1 = InSelect /\ sd_resendTimer s1 = None /\ sd_tables s1 = sd_tables s) /\
  (forall events s,
     sd_at s = InSelect -> sd_resendTimer s = None ->
     PersistedMsgsAvailable ∉ events ->
     let r := sender c peerInactivityTimeout events s in
     reliableSent (snd r) = [] /\ sd_at (fst r) <> InScan).
Proof.
  intros Hps step. subst step. repeat apply conj.
  - induction events as [|ev events IH]; intros s id Hacked; [apply not_elem_of_nil|].
    cbn [sender].
    destruct (senderStep_safe c peerInactivityTimeout ev s Hps id Hacked) as [Hnext Hout].
    destruct (senderStep c peerInactivityTimeout ev s) as [s1 out].
    specialize (IH s1 id Hnext).
    destruct (sender c peerInactivityTimeout events s1) as [s2 more].
    cbn [fst snd] in *. rewrite reliableSent_app. unfold sentIds. rewrite map_app.
    intros Hin. apply elem_of_app in Hin as [Hin|Hin]; contradiction.
  - intros s t0 w Hat Htimer Hdue. cbn [senderStep]. rewrite Hat, Htimer.
    apply Z.leb_le in Hdue as Hdue'. rewrite Hdue'. cbn.
    repeat split. intros w' H1 H2. lia.
  - intros s w Hat Hfull. cbn [senderStep]. rewrite Hat.
    destruct (reliableMessageScan_spec c w (sd_peer s) (sd_tables s) (sd_checkNew s) Hps)
      as (r & p' & db' & sent & Hrun & _).
    rewrite Hrun. destruct r as [err|].
    + left. cbn. destruct (reliableMessageScan_failed _ _ _ _ _ _ _ _ _ Hrun) as [H1 H2].
      now repeat split.
    + right.
      assert (Hhandled := full_scan_handles c w _ _ _ _ _ _ Hps Hrun Hfull).
      destruct (ableToQuiesce _ _ _ _); cbn [fst snd sd_at sd_tables];
        rewrite reliableSent_asReliable; (split; [discriminate|exact Hhandled]).
  - intros s w Hat. cbn [senderStep]. rewrite Hat.
    destruct (reliableMessageScan c w (sd_peer s) (sd_tables s) (sd_checkNew s))
      as [[[[[err|] p'] db'] sent]|] eqn:Hrun; cbn; [discriminate| |congruence].
    destruct (ableToQuiesce _ _ _ _); cbn; [discriminate|].
    intros _. split; [reflexivity|].
    eapply reliableMessageScan_lastFullScan, Hrun.
  - intros s w msg Hat. cbn [senderStep]. rewrite Hat.
    now destruct (send w (sd_peer s) msg None) as [[err|] p'].
  - induction events as [|ev events IH]; intros s Hat Htimer Hev.
    { cbn. split; [reflexivity|]. now rewrite Hat. }
    cbn [sender].
    assert (Hat' : sd_at s <> InScan) by now rewrite Hat.
    assert (Hne : ev <> PersistedMsgsAvailable).
    { intros ->. apply Hev, list_elem_of_here. }
    destruct (senderStep_stalled c peerInactivityTimeout ev s Hne Hat' Htimer)
      as (Hat1 & Htimer1 & Hout).
    destruct (senderStep c peerInactivityTimeout ev s) as [s1 out]. cbn [fst snd] in *.
    destruct (sd_at s1) eqn:Hs1; [contradiction| |].
    + assert (Hev' : PersistedMsgsAvailable ∉ events).
      { intros Hin. apply Hev. now apply list_elem_of_further. }
      specialize (IH s1 Hs1 Htimer1 Hev').
      destruct (sender c peerInactivityTimeout events s1) as [s2 more]. cbn [fst snd] in *.
      rewrite reliableSent_app, Hout. exact IH.
    + assert (Hdone : forall evs s', sd_at s' = SenderReturned ->
                let r := sender c peerInactivityTimeout evs s' in
                reliableSent (snd r) = [] /\ sd_at (fst r) = SenderReturned).
      { clear. induction evs as [|e evs IHd]; intros s' Hs'; [now split|].
        cbn [sender].
        assert (Hsame : senderStep c peerInactivityTimeout e s' = (s', [])
                        \/ exists s'', senderStep c peerInactivityTimeout e s' = (s'', [])
                                       /\ sd_at s'' = SenderReturned).
        { destruct e; cbn [senderStep]; rewrite ?Hs';
            try (left; reflexivity);
            try (right; eexists; split; [reflexivity|cbn; first [reflexivity|exact Hs']]). }
        destruct Hsame as [-> |(s'' & -> & Hs'')].
        - specialize (IHd s' Hs').
          destruct (sender c peerInactivityTimeout evs s') as [s2 more]. exact IHd.
        - specialize (IHd s'' Hs'').
          destruct (sender c peerInactivityTimeout evs s'') as [s2 more]. exact IHd. }
      destruct (Hdone events s1 Hs1) as [Hsent Hfinal].
      destruct (sender c peerInactivityTimeout events s1) as [s2 more]. cbn [fst snd] in *.
      rewrite reliableSent_app, Hout, Hsent. split; [reflexivity|]. now rewrite Hfinal.
Qed.

(** The theorem after the first scan of [oneMessage] at time 100 and the
    timer firing at time 111: the scan that follows sends "m1" again. *)
Lemma sender_resends_until_acked_witness :
  (0 < reliableMessagePageSize config_10_2)%nat /\
  let s := fst (sender config_10_2 60
                  [ScanAttempt (quietWorld 100); ResendTimerFires (quietWorld 111)]
                  (senderStart freshPeer oneMessage)) in
  let r := senderStep config_10_2 60 (ScanAttempt (quietWorld 111)) s in
  (1%N, m1Msg) ∈ reliableSent (snd r) \/
  acked (reliable_msg_acks (sd_tables (fst r))) "m1" = true.
Proof.
  assert (Hps : (0 < reliableMessagePageSize config_10_2)%nat) by (simpl; lia).
  split; [exact Hps|]. cbv zeta.
  assert (Hat : sd_at (fst (sender config_10_2 60
                  [ScanAttempt (quietWorld 100); ResendTimerFires (quietWorld 111)]
                  (senderStart freshPeer oneMessage))) = InScan)
    by (vm_compute; reflexivity).
  assert (Hfull : lastDrainHWM (sd_peer (fst (sender config_10_2 60
                  [ScanAttempt (quietWorld 100); ResendTimerFires (quietWorld 111)]
                  (senderStart freshPeer oneMessage)))) = None \/
      (reliableMessageResend config_10_2 <= now (quietWorld 111) - lastFullScan (sd_peer (fst (sender config_10_2 60
                  [ScanAttempt (quietWorld 100); ResendTimerFires (quietWorld 111)]
                  (senderStart freshPeer oneMessage)))))%Z)
    by (right; vm_compute; discriminate).
  destruct (proj1 (proj2 (proj2 (sender_resends_until_acked config_10_2 60 Hps)))
              _ (quietWorld 111) Hat Hfull)
    as [[Hfailed _]|[_ Hsent]].
  - vm_compute in Hfailed. discriminate.
  - refine (Hsent _ (mkRM 1 "m1" 0 "node2" RMTState "good") _ _ _).
    + vm_compute. apply NoDup_singleton.
    + vm_compute. apply list_elem_of_here.
    + vm_compute. reflexivity.
    + right. vm_compute. discriminate.
Defined.

(** The run in which C2 fails.  The first scan sends "m1", which gets no
    ack row.  When only the timer wakes the loop, "m1" is sent again at
    time 111.  When a message of the send queue arrives at time 103,
    before the timer is up, it is sent and the timer stopped: "m1" is not
    sent again at time 111 nor at time 1000, and the loop is still in its
    [select], without timer. *)
Lemma sender_stalls_after_send_queue :
  let start := senderStart freshPeer oneMessage in
  let resent :=
    sender config_10_2 60
      [ScanAttempt (quietWorld 100);
       ResendTimerFires (quietWorld 111); ScanAttempt (quietWorld 111)] start in
  let stalled :=
    sender config_10_2 60
      [ScanAttempt (quietWorld 100); SendQueue (quietWorld 103) ping;
       ResendTimerFires (quietWorld 111); ScanAttempt (quietWorld 111);
       ResendTimerFires (quietWorld 1000); ScanAttempt (quietWorld 1000)] start in
  snd resent = [(Some 1%N, m1Msg); (Some 1%N, m1Msg)] /\
  snd stalled = [(Some 1%N, m1Msg); (None, ping)] /\
  sd_at (fst stalled) = InSelect /\
  sd_resendTimer (fst stalled) = None /\
  acked (reliable_msg_acks (sd_tables (fst stalled))) "m1" = false.
Proof. vm_compute. repeat split. Qed.

End TransportFacts.

Module StateMgrFacts.
Import StateMgr.

(** ** ClearTransactions *)

Lemma clearLocks_spec transactions locks : forall creating,
  snd (clearLocks transactions locks creating)
    = filter (fun l => negb (cleared transactions l)) locks /\
  forall k, fst (clearLocks transactions locks creating) !! k
            = if existsb (clearsCreate transactions k) locks then None
              else creating !! k.
Proof.
  induction locks as [|lock rest IH]; intros creating; [split; reflexivity|].
  cbn [clearLocks]. rewrite filter_cons.
  destruct (cleared transactions lock) eqn:Hc; cbn [negb].
  - destruct (IH (if isCreate (lk_Type lock) then delete (lk_State lock) creating
                  else creating)) as [IH1 IH2].
    rewrite decide_False by auto. split; [exact IH1|].
    intros k. rewrite IH2. cbn [existsb]. unfold clearsCreate at 2. rewrite Hc.
    destruct (existsb (clearsCreate transactions k) rest);
      [now rewrite orb_true_r|rewrite orb_false_r].
    destruct (isCreate (lk_Type lock)); cbn [andb]; [|reflexivity].
    destruct (String.eqb_spec (lk_State lock) k) as [-> |Hne].
    + apply lookup_delete_eq.
    + now apply lookup_delete_ne.
  - destruct (IH creating) as [IH1 IH2].
    destruct (clearLocks transactions rest creating) as [creating' newLocks].
    cbn [fst snd] in *. rewrite decide_True by exact I. split; [now f_equal|].
    intros k. rewrite IH2. cbn [existsb]. unfold clearsCreate at 2. now rewrite Hc.
Qed.

(** C5, as the code has it.  [ClearTransactions] keeps, in order, exactly
    the locks whose transaction is not among those given; a creating-map
    entry goes exactly when one of the removed locks is a create lock on
    its key; and the two write operations, so the unflushed states with
    them, are left as they were. *)
Theorem ClearTransactions_effect (dc : domainContext) (transactions : list N) :
  let dc' := ClearTransactions dc transactions in
  (forall lock, cleared transactions lock = true <-> In (lk_Transaction lock) transactions) /\
  txLocks dc' = filter (fun l => negb (cleared transactions l)) (txLocks dc) /\
  (forall k, creatingStates dc' !! k
             = if existsb (clearsCreate transactions k) (txLocks dc) then None
               else creatingStates dc !! k) /\
  unFlushed dc' = unFlushed dc /\
  flushing dc' = flushing dc.
Proof.
  unfold ClearTransactions.
  destruct (clearLocks_spec transactions (txLocks dc) (creatingStates dc)) as [H1 H2].
  destruct (clearLocks transactions (txLocks dc) (creatingStates dc)) as [creating newLocks].
  cbn [fst snd] in *. repeat split; auto.
  - unfold cleared. rewrite existsb_exists. intros (tx & Hin & Heq).
    apply N.eqb_eq in Heq. now subst.
  - intros Hin. unfold cleared. apply existsb_exists.
    exists (lk_Transaction lock). split; [exact Hin|apply N.eqb_refl].
Qed.

(** C5 as stated fails: after transaction 7, which created "s1", is
    cleared, its create lock and creating-map entry are gone but "s1" is
    still on the unflushed write list. *)
Lemma ClearTransactions_keeps_unflushed :
  let dc' := ClearTransactions contextWithS1 [7%N] in
  txLocks contextWithS1 = [mkLock StateLockTypeCreate 7 "s1"] /\
  writeIds (theUnFlushed contextWithS1) = ["s1"] /\
  txLocks dc' = [] /\
  creatingStates dc' !! "s1" = None /\
  writeIds (theUnFlushed dc') = ["s1"].
Proof. vm_compute. repeat split. Qed.

(** ** Frames: what the helpers leave alone *)

Lemma check_pass dc dc1 :
  checkResetInitUnFlushed dc = (None, dc1) ->
  unFlushed dc1 = Some (theUnFlushed dc) /\
  closed dc = false /\
  closed dc1 = false /\
  flushing dc1 = flushing dc /\
  creatingStates dc1 = creatingStates dc /\
  txLocks dc1 = txLocks dc /\
  objects dc1 = objects dc /\
  allocated dc1 = allocated dc /\
  domainName dc1 = domainName dc /\
  contractAddress dc1 = contractAddress dc.
Proof.
  unfold checkResetInitUnFlushed, theUnFlushed.
  destruct (closed dc) eqn:Hc; [discriminate|].
  destruct (match flushing dc with Some f => _ | None => None end); [discriminate|].
  destruct (unFlushed dc) as [u|] eqn:Hu; intros H; inversion H; subst; cbn;
    rewrite ?Hu, ?Hc; repeat split; reflexivity.
Qed.

Lemma check_fail dc e dc1 :
  checkResetInitUnFlushed dc = (Some e, dc1) ->
  dc1 = dc /\
  ((closed dc = true /\ e = MsgStateDomainContextClosed) \/
   (closed dc = false /\
    exists f cause, flushing dc = Some f /\ flushed f = true /\
                    flushResult f = Some cause /\
                    e = MsgStateFlushFailedDomainReset cause)).
Proof.
  unfold checkResetInitUnFlushed.
  destruct (closed dc) eqn:Hc.
  { intros H; inversion H; subst. split; [reflexivity|now left]. }
  destruct (flushing dc) as [f|] eqn:Hf.
  - destruct (flushed f) eqn:Hd.
    + destruct (flushResult f) as [cause|] eqn:Hr.
      * intros H; inversion H; subst. split; [reflexivity|right].
        split; [reflexivity|]. exists f, cause. auto.
      * destruct (unFlushed dc); discriminate.
    + destruct (unFlushed dc); discriminate.
  - destruct (unFlushed dc); discriminate.
Qed.

Lemma addStateLocks_frame locks : forall dc r dc',
  addStateLocks dc locks = (r, dc') ->
  unFlushed dc' = unFlushed dc /\
  flushing dc' = flushing dc /\
  creatingStates dc' = creatingStates dc /\
  objects dc' = objects dc /\
  closed dc' = closed dc /\
  opsCreated dc' = opsCreated dc.
Proof.
  induction locks as [|l rest IH]; intros dc r dc' H; cbn [addStateLocks] in H.
  - inversion H; subst. repeat split.
  - destruct (lk_Transaction l =? 0)%N; [inversion H; subst; repeat split|].
    destruct (String.length (lk_State l) =? 0)%nat; [inversion H; subst; repeat split|].
    destruct (creatingStates dc !! lk_State l), (isCreate (lk_Type l));
      try (inversion H; subst; repeat split; fail);
      apply IH in H; exact H.
Qed.

(** ** UpsertStates *)

Section Upserts.

Variable GetSchema : string -> string -> option stateError.
Variable ProcessState :
  string -> StateUpsert -> result stateError (string * string * string * list (string * string)).

(** When the states of one call have pairwise distinct ids and the
    unflushed write list held at most one entry per id, the list after
    [UpsertStates] again holds at most one entry per id: every state of
    the call is on it, and an older entry stays exactly when no state of
    the call has its id. *)
Lemma UpsertStates_replaces (dc : domainContext) (stateUpserts : list StateUpsert)
  (withValues : list StateWithLabels) (stateLocks : list StateLock)
  (toMakeAvailable : list StateWithLabels) :
  processUpserts GetSchema ProcessState (domainName dc) (contractAddress dc)
    (allocated dc) stateUpserts = Ok (withValues, stateLocks, toMakeAvailable) ->
  fst (checkResetInitUnFlushed dc) = None ->
  NoDup ((fun s => ID (state s)) <$> withValues) ->
  NoDup (writeIds (theUnFlushed dc)) ->
  let dc' := snd (UpsertStates GetSchema ProcessState dc stateUpserts) in
  NoDup (writeIds (theUnFlushed dc')) /\
  (forall s, s ∈ withValues -> s ∈ wo_states (theUnFlushed dc')) /\
  (forall e, e ∈ wo_states (theUnFlushed dc') ->
     e ∈ withValues \/
     (e ∈ wo_states (theUnFlushed dc) /\
      ID (state e) ∉ (fun s => ID (state s)) <$> withValues)).
Proof.
  intros Hproc Hcheck Hnew Hold dc'. subst dc'. unfold UpsertStates.
  rewrite Hproc.
  destruct (checkResetInitUnFlushed dc) as [[e|] dc1] eqn:Hc; [discriminate|].
  destruct (check_pass _ _ Hc) as (Hu & _ & _ & _ & _ & _ & _ & _ & _ & _).
  match goal with
  | |- context [addStateLocks ?d stateLocks] =>
      destruct (addStateLocks d stateLocks) as [r dc4] eqn:Hadd;
      destruct (addStateLocks_frame _ _ _ _ Hadd) as (Hu4 & _)
  end.
  assert (Hwo : wo_states (theUnFlushed dc4)
                = (filter (fun existing =>
                             negb (existsb (fun s => String.eqb (ID (state existing))
                                                                (ID (state s)))
                                           withValues))
                          (wo_states (theUnFlushed dc)) ++ withValues)%list).
  { unfold theUnFlushed at 1. rewrite Hu4. cbn. unfold theUnFlushed at 1.
    rewrite Hu. reflexivity. }
  assert (Hkeep : forall e,
            negb (existsb (fun s => String.eqb (ID (state e)) (ID (state s))) withValues)
            <-> ID (state e) ∉ (fun s => ID (state s)) <$> withValues).
  { intros e. rewrite negb_True, Is_true_true, existsb_exists. split.
    - intros Hn Hin. apply Hn. apply list_elem_of_fmap in Hin as (s & Hs & Hin).
      exists s. split; [now apply list_elem_of_In|]. now apply String.eqb_eq.
    - intros Hn (s & Hin & Heq). apply Hn. apply String.eqb_eq in Heq.
      apply list_elem_of_fmap. exists s. split; [exact Heq|now apply list_elem_of_In]. }
  assert (Hgoal :
    NoDup (writeIds (theUnFlushed dc4)) /\
    (forall s, s ∈ withValues -> s ∈ wo_states (theUnFlushed dc4)) /\
    (forall e, e ∈ wo_states (theUnFlushed dc4) ->
       e ∈ withValues \/
       (e ∈ wo_states (theUnFlushed dc) /\
        ID (state e) ∉ (fun s => ID (state s)) <$> withValues))).
  { unfold writeIds. rewrite Hwo. split; [|split].
    - rewrite fmap_app. apply NoDup_app. split; [|split].
      + eapply sublist_NoDup; [exact Hold|].
        unfold writeIds. apply fmap_sublist, sublist_filter.
      + intros i Hi. apply list_elem_of_fmap in Hi as (e & -> & He).
        apply list_elem_of_filter in He as [He _]. now apply Hkeep.
      + exact Hnew.
    - intros s Hs. apply elem_of_app. now right.
    - intros e He. apply elem_of_app in He as [He|He]; [right|now left].
      apply list_elem_of_filter in He as [Hk He]. split; [exact He|now apply Hkeep]. }
  destruct r; exact Hgoal.
Qed.

End Upserts.

(** C7 as stated fails: one call carrying the id "s1" twice leaves two
    entries for "s1" on the unflushed write list. *)
Lemma UpsertStates_duplicate_in_one_call :
  let dc' := snd (sampleUpsertStates emptyContext
                    [mkUpsert "s1" "coin" "alice" None;
                     mkUpsert "s1" "coin" "alice" None]) in
  writeIds (theUnFlushed dc') = ["s1"; "s1"] /\
  ~ NoDup (writeIds (theUnFlushed dc')).
Proof.
  split; [reflexivity|].
  intros H. change (NoDup ["s1"; "s1"]) in H.
  apply NoDup_cons in H as [H _]. apply H. apply list_elem_of_here.
Qed.

(** ** UpsertNullifiers *)

Lemma fieldsOf_set_Nullifier dc s n s' :
  Nullifier (fieldsOf (set_Nullifier s n dc) s')
  = if decide (addr s = addr s') then n else Nullifier (fieldsOf dc s').
Proof.
  unfold fieldsOf, set_Nullifier. cbn [objects set_objects].
  destruct (decide (addr s = addr s')) as [E|E].
  - rewrite E, lookup_insert_eq. reflexivity.
  - rewrite lookup_insert_ne by exact E. reflexivity.
Qed.

Lemma attach_step dc cs n s m :
  (forall existing, Nullifier (fieldsOf dc (state cs)) = Some existing ->
                    nf_ID existing = nf_ID n) ->
  Nullifier (fieldsOf dc s) = Some m ->
  exists m', Nullifier (fieldsOf (set_Nullifier (state cs) (Some n) dc) s) = Some m' /\
             nf_ID m' = nf_ID m.
Proof.
  intros Hsame Hm. rewrite fieldsOf_set_Nullifier.
  destruct (decide (addr (state cs) = addr s)) as [E|E]; [|eauto].
  exists n. split; [reflexivity|]. symmetry. apply Hsame.
  unfold fieldsOf in *. now rewrite E.
Qed.

(** The loop attaching nullifiers: what it leaves alone, that it never
    replaces an attached nullifier by one of another id, and when it
    fails. *)
Lemma attachNullifiers_spec nullifiers : forall dc r dc',
  attachNullifiers dc nullifiers = (r, dc') ->
  (creatingStates dc' = creatingStates dc /\ txLocks dc' = txLocks dc /\
   unFlushed dc' = unFlushed dc /\ flushing dc' = flushing dc /\
   opsCreated dc' = opsCreated dc) /\
  (forall s m, Nullifier (fieldsOf dc s) = Some m ->
     exists m', Nullifier (fieldsOf dc' s) = Some m' /\ nf_ID m' = nf_ID m) /\
  (forall e, r = Some e ->
     exists n, n ∈ nullifiers /\
       ((e = MsgStateNullifierStateNotInCtx (nf_State n) (nf_ID n) /\
         creatingStates dc !! nf_State n = None) \/
        (exists cs existing,
           creatingStates dc !! nf_State n = Some cs /\
           nullifierId dc' (state cs) = Some existing /\
           existing <> nf_ID n /\
           e = MsgStateNullifierConflict (nf_State n) existing))) /\
  (r = None ->
   forall n, n ∈ nullifiers ->
     exists cs, creatingStates dc !! nf_State n = Some cs /\
                nullifierId dc' (state cs) = Some (nf_ID n)).
Proof.
  induction nullifiers as [|n rest IH]; intros dc r dc' H; cbn [attachNullifiers] in H.
  { inversion H; subst. repeat split; eauto; try discriminate.
    intros _ n Hn. inversion Hn. }
  destruct (creatingStates dc !! nf_State n) as [cs|] eqn:Hcs.
  2:{ inversion H; subst. repeat split; eauto; try discriminate.
      intros e He. inversion He; subst. exists n. split; [apply list_elem_of_here|].
      now left. }
  assert (Hstep : forall dcn,
            (forall existing, Nullifier (fieldsOf dc (state cs)) = Some existing ->
                              nf_ID existing = nf_ID n) ->
            dcn = set_Nullifier (state cs) (Some n) dc ->
            attachNullifiers dcn rest = (r, dc') ->
            (creatingStates dc' = creatingStates dc /\ txLocks dc' = txLocks dc /\
             unFlushed dc' = unFlushed dc /\ flushing dc' = flushing dc /\
             opsCreated dc' = opsCreated dc) /\
            (forall s m, Nullifier (fieldsOf dc s) = Some m ->
               exists m', Nullifier (fieldsOf dc' s) = Some m' /\ nf_ID m' = nf_ID m) /\
            (forall e, r = Some e ->
               exists n0, n0 ∈ n :: rest /\
                 ((e = MsgStateNullifierStateNotInCtx (nf_State n0) (nf_ID n0) /\
                   creatingStates dc !! nf_State n0 = None) \/
                  (exists cs0 existing,
                     creatingStates dc !! nf_State n0 = Some cs0 /\
                     nullifierId dc' (state cs0) = Some existing /\
                     existing <> nf_ID n0 /\
                     e = MsgStateNullifierConflict (nf_State n0) existing))) /\
            (r = None ->
             forall n0, n0 ∈ n :: rest ->
               exists cs0, creatingStates dc !! nf_State n0 = Some cs0 /\
                           nullifierId dc' (state cs0) = Some (nf_ID n0))).
  { intros dcn Hsame -> Hrest.
    destruct (IH _ _ _ Hrest) as ((F1 & F2 & F3 & F4 & F5) & Hkeep & Hfail & Hok).
    cbn in F1, F2, F3, F4, F5. split; [repeat split; assumption|]. split; [|split].
    - intros s m Hm.
      destruct (attach_step dc cs n s m Hsame Hm) as (m1 & Hm1 & Hid1).
      destruct (Hkeep _ _ Hm1) as (m2 & Hm2 & Hid2).
      exists m2. split; [exact Hm2|congruence].
    - intros e He. destruct (Hfail e He) as (n0 & Hin & Hcase).
      exists n0. split; [now apply list_elem_of_further|exact Hcase].
    - intros Hr n0 Hin. apply elem_of_cons in Hin as [-> |Hin].
      + exists cs. split; [exact Hcs|].
        assert (Hn : Nullifier (fieldsOf (set_Nullifier (state cs) (Some n) dc) (state cs))
                     = Some n).
        { rewrite fieldsOf_set_Nullifier. now rewrite decide_True. }
        destruct (Hkeep _ _ Hn) as (m2 & Hm2 & Hid2).
        unfold nullifierId. rewrite Hm2. cbn. now f_equal.
      + apply (Hok Hr n0 Hin). }
  destruct (Nullifier (fieldsOf dc (state cs))) as [existing|] eqn:Hex.
  - destruct (String.eqb_spec (nf_ID existing) (nf_ID n)) as [Heq|Hne]; cbn [negb] in H.
    + apply (Hstep _ ltac:(intros ? [= <-]; exact Heq) eq_refl H).
    + inversion H; subst. repeat split; eauto; try discriminate.
      intros e He. inversion He; subst. exists n. split; [apply list_elem_of_here|].
      right. exists cs, (nf_ID existing). repeat split; auto.
      unfold nullifierId. now rewrite Hex.
  - apply (Hstep _ ltac:(intros ? [=]) eq_refl H).
Qed.





(** ** Flush failure, Reset and Close *)

Lemma check_flushFailed dc cause :
  closed dc = false -> flushFailed dc cause ->
  checkResetInitUnFlushed dc = (Some (MsgStateFlushFailedDomainReset cause), dc).
Proof.
  intros Hc (f & Hf & Hd & Hr). unfold checkResetInitUnFlushed.
  now rewrite Hc, Hf, Hd, Hr.
Qed.


Section Operations.

Variable GetSchema : string -> string -> option stateError.
Variable ProcessState :
  string -> StateUpsert -> result stateError (string * string * string * list (string * string)).
Variable EvalQuery : QueryJSON -> string -> list (string * string) -> result stateError bool.
Variable RecoverLabels : string -> State -> result stateError (list (string * string)).
Variable SortValueSetInPlace :
  string -> list string -> list StateWithLabels -> result stateError (list StateWithLabels).
Variable findStates :
  string -> string -> string -> QueryJSON -> list string ->
  result stateError (list (string * string * string * option StateNullifier)).
Variable findAvailableNullifiers :
  string -> string -> string -> QueryJSON -> list string -> list string -> list string ->
  result stateError (list (string * string * string * option StateNullifier)).

(** Every operation that starts with [checkResetInitUnFlushed] returns
    the error of that check and leaves the context as it was;
    [UpsertStates] does so once its upserts have passed the schema. *)
Lemma refused_by_check dc e :
  checkResetInitUnFlushed dc = (Some e, dc) ->
  (forall stateUpserts processed,
     processUpserts GetSchema ProcessState (domainName dc) (contractAddress dc)
       (allocated dc) stateUpserts = Ok processed ->
     UpsertStates GetSchema ProcessState dc stateUpserts = (Err e, dc)) /\
  (forall nullifiers, UpsertNullifiers dc nullifiers = (Some e, dc)) /\
  (forall locks, AddStateLocks dc locks = (Some e, dc)) /\
  (forall schemaID query,
     FindAvailableStates EvalQuery RecoverLabels SortValueSetInPlace findStates
       dc schemaID query = (Err e, dc)) /\
  (forall schemaID query,
     FindAvailableNullifiers EvalQuery RecoverLabels SortValueSetInPlace
       findAvailableNullifiers dc schemaID query = (Err e, dc)).
Proof.
  intros Hc. repeat split.
  - intros ups [[wv sl] av] Hp. unfold UpsertStates. now rewrite Hp, Hc.
  - intros ns. unfold UpsertNullifiers. now rewrite Hc.
  - intros locks. unfold AddStateLocks. now rewrite Hc.
  - intros S Q. unfold FindAvailableStates, getUnFlushedStates. now rewrite Hc.
  - intros S Q. unfold FindAvailableNullifiers, getUnFlushedStates. now rewrite Hc.
Qed.

(** A failed flush stays failed, and the context open, over every call
    other than [Reset] and [Close]. *)
Lemma call_keeps_failed dc dc' cause :
  call GetSchema ProcessState EvalQuery RecoverLabels SortValueSetInPlace
    findStates findAvailableNullifiers dc dc' ->
  closed dc = false /\ flushFailed dc cause ->
  closed dc' = false /\ flushFailed dc' cause.
Proof.
  intros Hcall [Hopen Hfailed].
  pose proof (refused_by_check dc _ (check_flushFailed _ _ Hopen Hfailed))
    as (_ & H2 & H3 & H4 & H5).
  pose proof (check_flushFailed _ _ Hopen Hfailed) as Hc.
  destruct Hfailed as (f & Hf & Hd & Hr).
  inversion Hcall; subst.
  - unfold UpsertStates. destruct (processUpserts _ _ _ _ _ _) as [[[wv sl] av]|].
    + rewrite Hc. cbn. split; [exact Hopen|]. now exists f.
    + cbn. split; [exact Hopen|]. now exists f.
  - rewrite H2. cbn. split; [exact Hopen|]. now exists f.
  - rewrite H3. cbn. split; [exact Hopen|]. now exists f.
  - rewrite H4. cbn. split; [exact Hopen|]. now exists f.
  - rewrite H5. cbn. split; [exact Hopen|]. now exists f.
  - unfold ClearTransactions. destruct (clearLocks _ _ _). cbn.
    split; [exact Hopen|]. now exists f.
  - unfold InitiateFlush, clearExistingFlush. rewrite Hf.
    destruct wait as [res|]; [rewrite Hd, Hr|]; cbn; (split; [exact Hopen|]);
      now exists f.
  - unfold doFlush. rewrite Hf, Hd, andb_false_r. split; [exact Hopen|]. now exists f.
Qed.

Lemma calls_keep_failed dc dc' cause :
  rtc (call GetSchema ProcessState EvalQuery RecoverLabels SortValueSetInPlace
         findStates findAvailableNullifiers) dc dc' ->
  closed dc = false /\ flushFailed dc cause ->
  closed dc' = false /\ flushFailed dc' cause.
Proof.
  induction 1 as [|x y z Hxy _ IH]; [auto|].
  intros Hx. apply IH. eapply call_keeps_failed; eauto.
Qed.

(** [Reset] on an open context, however its wait ends. *)
Lemma Reset_clears dc wait :
  closed dc = false ->
  let dc2 := Reset wait dc in
  creatingStates dc2 = ∅ /\ txLocks dc2 = [] /\
  unFlushed dc2 = None /\ flushing dc2 = None /\
  fst (checkResetInitUnFlushed dc2) = None /\
  fst (UpsertNullifiers dc2 []) = None /\
  fst (AddStateLocks dc2 []) = None.
Proof.
  intros Hopen. cbv zeta. unfold Reset.
  destruct (clearExistingFlush wait dc) as [r0 dc0] eqn:Hclear.
  assert (Hc0 : closed dc0 = false).
  { unfold clearExistingFlush in Hclear.
    destruct (flushing dc) as [f|]; [|inversion Hclear; now subst].
    destruct wait as [res|]; [|inversion Hclear; now subst].
    destruct (flushed f); inversion Hclear; subst; now cbn. }
  split; [reflexivity|]. split; [reflexivity|]. split; [reflexivity|].
  split; [reflexivity|]. split; [|split].
  - unfold checkResetInitUnFlushed. cbn. now rewrite Hc0.
  - unfold UpsertNullifiers, checkResetInitUnFlushed. cbn. now rewrite Hc0.
  - unfold AddStateLocks, checkResetInitUnFlushed. cbn. now rewrite Hc0.
Qed.

(** C6, as the code has it.  On an open context with something to flush:
    while the flush started by [InitiateFlush] is in flight, the wait
    inside [Reset] and [InitiateFlush] ends when the flush completes, with
    its result, or when the caller's context is done, and [Reset] then
    discards everything all the same.  Once the flush has
    completed with an error, then after any calls other than [Reset] and
    [Close]: [UpsertNullifiers], [AddStateLocks], [FindAvailableStates]
    and [FindAvailableNullifiers] return the must-reset error, and so
    does [UpsertStates] when its upserts pass the schema lookup and the
    processing, which come before the check and whose error it returns
    otherwise; [InitiateFlush] fails as well; and all of them leave the
    context as it was.  [Reset], however its wait ends, leaves no creating
    state, no lock and no write operation, after which the check passes
    and the operations go through on the empty context. *)
Theorem flush_failure_requires_reset (dc : domainContext) (u : writeOperation)
  (wait : waitOutcome) (cause : string) :
  closed dc = false ->
  unFlushed dc = Some u ->
  fst (InitiateFlush wait dc) = None ->
  let inFlight := snd (InitiateFlush wait dc) in
  let dc1 := doFlush (wo_id u) (Some cause) inFlight in
  let mustReset := MsgStateFlushFailedDomainReset cause in
  (forall res,
     clearExistingFlush (FlushCompletes res) inFlight
     = (option_map FlushError res, doFlush (wo_id u) res inFlight)) /\
  clearExistingFlush ContextDone inFlight = (Some MsgContextCanceled, inFlight) /\
  (forall wait',
     let dc2 := Reset wait' inFlight in
     creatingStates dc2 = ∅ /\ txLocks dc2 = [] /\
     unFlushed dc2 = None /\ flushing dc2 = None /\
     fst (checkResetInitUnFlushed dc2) = None) /\
  flushFailed dc1 cause /\
  forall dc',
    rtc (call GetSchema ProcessState EvalQuery RecoverLabels SortValueSetInPlace
           findStates findAvailableNullifiers) dc1 dc' ->
    (forall stateUpserts,
       UpsertStates GetSchema ProcessState dc' stateUpserts
       = (match processUpserts GetSchema ProcessState (domainName dc')
                  (contractAddress dc') (allocated dc') stateUpserts with
          | Ok _ => Err mustReset
          | Err err => Err err
          end, dc')) /\
    (forall nullifiers, UpsertNullifiers dc' nullifiers = (Some mustReset, dc')) /\
    (forall locks, AddStateLocks dc' locks = (Some mustReset, dc')) /\
    (forall schemaID query,
       FindAvailableStates EvalQuery RecoverLabels SortValueSetInPlace findStates
         dc' schemaID query = (Err mustReset, dc')) /\
    (forall schemaID query,
       FindAvailableNullifiers EvalQuery RecoverLabels SortValueSetInPlace
         findAvailableNullifiers dc' schemaID query = (Err mustReset, dc')) /\
    (forall wait',
       InitiateFlush wait' dc'
       = (Some (match wait' with
                | FlushCompletes _ => FlushError cause
                | ContextDone => MsgContextCanceled
                end), dc')) /\
    (forall wait',
       let dc2 := Reset wait' dc' in
       creatingStates dc2 = ∅ /\ txLocks dc2 = [] /\
       unFlushed dc2 = None /\ flushing dc2 = None /\
       fst (checkResetInitUnFlushed dc2) = None /\
       fst (UpsertNullifiers dc2 []) = None /\
       fst (AddStateLocks dc2 []) = None).
Proof.
  intros Hopen Hu Hinit inFlight dc1 mustReset.
  assert (Hfl : closed inFlight = false /\
                flushing inFlight
                = Some (mkWriteOp (wo_id u) (wo_states u) (wo_stateNullifiers u) false
                          (flushResult u))).
  { subst inFlight. unfold InitiateFlush in *.
    destruct (clearExistingFlush wait dc) as [[e|] dc0] eqn:Hclear; [discriminate|].
    assert (Hdc0 : unFlushed dc0 = Some u /\ closed dc0 = false).
    { unfold clearExistingFlush in Hclear.
      destruct (flushing dc) as [f|]; [|inversion Hclear; now subst].
      destruct wait as [res|]; [|discriminate].
      destruct (flushed f); inversion Hclear; subst; now cbn. }
    destruct Hdc0 as [Hu0 Hc0]. cbn [snd]. rewrite Hu0. cbn. now split. }
  destruct Hfl as [Hopen1 Hflushing].
  split; [|split].
  { intros res. unfold clearExistingFlush, doFlush. rewrite Hflushing. cbn.
    now rewrite Nat.eqb_refl. }
  { unfold clearExistingFlush. now rewrite Hflushing. }
  split.
  { intros wait'. destruct (Reset_clears inFlight wait' Hopen1) as (?&?&?&?&?&_).
    now repeat split. }
  assert (Hfailed1 : closed dc1 = false /\ flushFailed dc1 cause).
  { subst dc1. unfold doFlush. rewrite Hflushing. cbn. rewrite Nat.eqb_refl. cbn.
    split; [exact Hopen1|]. eexists. repeat split. }
  split; [exact (proj2 Hfailed1)|].
  intros dc' Hcalls.
  destruct (calls_keep_failed _ _ _ Hcalls Hfailed1) as [Hc' Hfailed].
  pose proof (check_flushFailed _ _ Hc' Hfailed) as Hcheck.
  pose proof (refused_by_check dc' mustReset Hcheck) as (_ & H2 & H3 & H4 & H5).
  split; [|split; [exact H2|split; [exact H3|split; [exact H4|split; [exact H5|split]]]]].
  - intros ups. unfold UpsertStates.
    destruct (processUpserts _ _ _ _ _ _) as [[[wv sl] av]|]; [|reflexivity].
    now rewrite Hcheck.
  - intros wait'. destruct Hfailed as (f & Hf & Hd & Hr).
    unfold InitiateFlush, clearExistingFlush. rewrite Hf.
    destruct wait' as [res|]; [|reflexivity]. now rewrite Hd, Hr.
  - intros wait'. exact (Reset_clears dc' wait' Hc').
Qed.



End Operations.

(** The theorem on [contextWithS1], whose flush fails with "db down":
    after transaction 7 is cleared the locks are still refused, until
    [Reset]. *)
Lemma flush_failure_requires_reset_witness :
  let dc1 := doFlush 0 (Some "db down") (snd (InitiateFlush ContextDone contextWithS1)) in
  let dc' := ClearTransactions dc1 [7%N] in
  AddStateLocks dc' [mkLock StateLockTypeRead 8 "s1"]
    = (Some (MsgStateFlushFailedDomainReset "db down"), dc') /\
  fst (AddStateLocks (Reset ContextDone dc') []) = None.
Proof.
  cbv zeta.
  pose proof (flush_failure_requires_reset sampleGetSchema sampleProcessState
                sampleEvalQuery sampleRecoverLabels sampleSort emptyFindStates
                emptyFindNullifiers contextWithS1
                (mkWriteOp 0 [mkLabelled (mkState 0 "s1" "coin" "alice")
                                [("owner", "alice")]] [] false None)
                ContextDone "db down" eq_refl eq_refl eq_refl)
    as (_ & _ & _ & _ & Hafter).
  destruct (Hafter _ (rtc_once _ _ (call_ClearTransactions _ _ _ _ _ _ _ _ [7%N])))
    as (_ & _ & Hlocks & _ & _ & _ & Hreset).
  split; [apply Hlocks|]. apply (Hreset ContextDone).
Defined.

(** C6 as stated fails: on the context whose flush has failed, an upsert
    of a state of an unknown schema is refused with the schema error, not
    with the must-reset error; and once the context is closed, the error
    is that it is closed. *)
Lemma flush_failure_schema_error_first :
  let dc1 := doFlush 0 (Some "db down") (snd (InitiateFlush ContextDone contextWithS1)) in
  fst (checkResetInitUnFlushed dc1) = Some (MsgStateFlushFailedDomainReset "db down") /\
  sampleUpsertStates dc1 [mkUpsert "s2" "nope" "bob" None]
    = (Err (SchemaError "nope"), dc1) /\
  fst (sampleUpsertStates dc1 [mkUpsert "s2" "nope" "bob" None])
    <> Err (MsgStateFlushFailedDomainReset "db down") /\
  fst (AddStateLocks (set_closed true dc1) []) = Some MsgStateDomainContextClosed.
Proof. vm_compute. repeat split. discriminate. Qed.



(** ** Locks on returned states *)

Lemma fieldsOf_set_Locks dc s l s' :
  fieldsOf (set_Locks s l dc) s'
  = if decide (addr s = addr s')
    then mkFields l (Nullifier (fieldsOf dc s')) else fieldsOf dc s'.
Proof.
  unfold fieldsOf, set_Locks. cbn [objects set_objects].
  destruct (decide (addr s = addr s')) as [E|E].
  - rewrite E, lookup_insert_eq. unfold fieldsOf. now rewrite E.
  - rewrite lookup_insert_ne by exact E. reflexivity.
Qed.

Lemma applyLocks_frame states : forall dc,
  txLocks (applyLocks dc states) = txLocks dc /\
  creatingStates (applyLocks dc states) = creatingStates dc /\
  (forall s, addr s ∉ addr <$> states ->
             fieldsOf (applyLocks dc states) s = fieldsOf dc s).
Proof.
  induction states as [|s0 rest IH]; intros dc; cbn [applyLocks]; [repeat split|].
  destruct (IH (set_Locks s0
                  (filter (fun l => String.eqb (lk_State l) (ID s0)) (txLocks dc)) dc))
    as (H1 & H2 & H3).
  cbn in H1, H2. repeat split; auto.
  intros s Hs. rewrite fmap_cons in Hs. apply not_elem_of_cons in Hs as [Hne Hs].
  rewrite (H3 s Hs), fieldsOf_set_Locks. now rewrite decide_False by congruence.
Qed.

(** After [applyLocks], every state of the list carries the locks held on
    its id. *)
Lemma applyLocks_spec states : forall dc,
  NoDup (addr <$> states) ->
  forall s, s ∈ states -> Locks (fieldsOf (applyLocks dc states) s) = locksOn dc (ID s).
Proof.
  induction states as [|s0 rest IH]; intros dc Hnd s Hs; [inversion Hs|].
  rewrite fmap_cons in Hnd. apply NoDup_cons in Hnd as [Hfresh Hnd].
  cbn [applyLocks]. apply elem_of_cons in Hs as [-> |Hs].
  - destruct (applyLocks_frame rest
                (set_Locks s0 (filter (fun l => String.eqb (lk_State l) (ID s0))
                                      (txLocks dc)) dc)) as (_ & _ & Hf).
    rewrite (Hf s0 Hfresh), fieldsOf_set_Locks. now rewrite decide_True.
  - rewrite (IH _ Hnd s Hs). reflexivity.
Qed.

(** ** The creating map stays well-formed *)

Lemma wellFormed_new dc : creatingStates dc = ∅ -> wellFormed dc.
Proof.
  intros E. split.
  - intros k cs H. rewrite E, lookup_empty in H. discriminate.
  - intros k1 k2 cs1 cs2 H. rewrite E, lookup_empty in H. discriminate.
Qed.

(** Entries may go and the object counter may grow. *)
Lemma wellFormed_sub dc dc' :
  (forall k cs, creatingStates dc' !! k = Some cs -> creatingStates dc !! k = Some cs) ->
  (allocated dc <= allocated dc')%nat ->
  wellFormed dc -> wellFormed dc'.
Proof.
  intros Hsub Hal [Hkey Hinj]. split.
  - intros k cs H. destruct (Hkey k cs (Hsub _ _ H)) as [Hid Hlt]. split; [exact Hid|lia].
  - intros k1 k2 cs1 cs2 H1 H2. apply (Hinj k1 k2 cs1 cs2); auto.
Qed.

Lemma wellFormed_list dc :
  wellFormed dc ->
  (forall k cs, creatingStates dc !! k = Some cs -> ID (state cs) = k) /\
  (forall cs, cs ∈ creatingList dc -> (addr (state cs) < allocated dc)%nat) /\
  NoDup ((fun cs => addr (state cs)) <$> creatingList dc).
Proof.
  intros [Hkey Hinj]. split; [|split].
  - intros k cs H. apply (Hkey k cs H).
  - intros cs H. unfold creatingList in H.
    apply list_elem_of_fmap in H as ([k cs'] & -> & H).
    apply elem_of_map_to_list in H. apply (Hkey k cs' H).
  - unfold creatingList. rewrite <- list_fmap_compose.
    apply NoDup_fmap_2_strong; [|apply NoDup_map_to_list].
    intros [k1 cs1] [k2 cs2] H1 H2 Heq. cbn in Heq.
    apply elem_of_map_to_list in H1, H2.
    assert (k1 = k2) as -> by (eapply Hinj; eauto).
    rewrite H1 in H2. now inversion H2.
Qed.

Lemma addStateLocks_allocated locks : forall dc r dc',
  addStateLocks dc locks = (r, dc') -> allocated dc' = allocated dc.
Proof.
  induction locks as [|l rest IH]; intros dc r dc' H; cbn [addStateLocks] in H.
  - now inversion H.
  - destruct (lk_Transaction l =? 0)%N; [now inversion H|].
    destruct (String.length (lk_State l) =? 0)%nat; [now inversion H|].
    destruct (creatingStates dc !! lk_State l), (isCreate (lk_Type l));
      try (now inversion H); apply IH in H; exact H.
Qed.

Lemma attachNullifiers_allocated nullifiers : forall dc r dc',
  attachNullifiers dc nullifiers = (r, dc') -> allocated dc' = allocated dc.
Proof.
  induction nullifiers as [|n rest IH]; intros dc r dc' H; cbn [attachNullifiers] in H.
  - now inversion H.
  - destruct (creatingStates dc !! nf_State n) as [cs|]; [|now inversion H].
    destruct (Nullifier (fieldsOf dc (state cs))) as [existing|].
    + destruct (negb (String.eqb (nf_ID existing) (nf_ID n))); [now inversion H|].
      apply IH in H. exact H.
    + apply IH in H. exact H.
Qed.

Section UpsertsWellFormed.

Variable GetSchema : string -> string -> option stateError.
Variable ProcessState :
  string -> StateUpsert -> result stateError (string * string * string * list (string * string)).

Lemma processUpserts_spec domain contract stateUpserts :
  forall base withValues stateLocks toMakeAvailable,
  processUpserts GetSchema ProcessState domain contract base stateUpserts
    = Ok (withValues, stateLocks, toMakeAvailable) ->
  (fun s => addr (state s)) <$> withValues = seq base (length withValues) /\
  (forall s, s ∈ toMakeAvailable -> s ∈ withValues).
Proof.
  induction stateUpserts as [|ns rest IH]; intros base wv sl av H;
    cbn [processUpserts] in H.
  - inversion H; subst. split; [reflexivity|]. intros s Hs. inversion Hs.
  - destruct (GetSchema domain (up_SchemaID ns)); [discriminate|].
    destruct (ProcessState contract ns) as [[[[sid sschema] sdata] labels]|];
      [|discriminate].
    destruct (processUpserts _ _ _ _ (S base) rest) as [[[wv' sl'] av']|] eqn:Hrest;
      [|discriminate].
    destruct (IH _ _ _ _ Hrest) as [Haddr Hsub].
    destruct (up_CreatedBy ns); inversion H; subst; rewrite fmap_cons;
      cbn [length seq state addr]; rewrite Haddr; (split; [reflexivity|]).
    + intros s Hs. apply elem_of_cons in Hs as [-> |Hs];
        [apply list_elem_of_here|apply list_elem_of_further, Hsub, Hs].
    + intros s Hs. apply list_elem_of_further, Hsub, Hs.
Qed.

Lemma fold_insert_lookup (l : list StateWithLabels) :
  forall (m : gmap string StateWithLabels) k cs,
  fold_left (fun m s => <[ID (state s) := s]> m) l m !! k = Some cs ->
  (cs ∈ l /\ ID (state cs) = k) \/ m !! k = Some cs.
Proof.
  induction l as [|s rest IH]; intros m k cs H; cbn [fold_left] in H; [now right|].
  destruct (IH _ _ _ H) as [[Hin Hid]|Hm].
  - left. split; [now apply list_elem_of_further|exact Hid].
  - destruct (decide (ID (state s) = k)) as [E|E].
    + rewrite E, lookup_insert_eq in Hm. inversion Hm; subst. left.
      split; [apply list_elem_of_here|reflexivity].
    + rewrite lookup_insert_ne in Hm by exact E. now right.
Qed.

(** [UpsertStates] keeps the creating map well-formed, whatever it
    returns. *)
Lemma UpsertStates_wellFormed dc stateUpserts :
  wellFormed dc ->
  wellFormed (snd (UpsertStates GetSchema ProcessState dc stateUpserts)).
Proof.
  intros Hwf. unfold UpsertStates.
  destruct (processUpserts _ _ _ _ _ _) as [[[wv sl] av]|] eqn:Hproc; [|exact Hwf].
  destruct (checkResetInitUnFlushed dc) as [[e|] dc1] eqn:Hc.
  { destruct (check_fail _ _ _ Hc) as [-> _]. exact Hwf. }
  destruct (check_pass _ _ Hc) as (_ & _ & _ & _ & Hcr & _ & _ & Hal & _).
  destruct (processUpserts_spec _ _ _ _ _ _ _ Hproc) as [Haddr Hsub].
  match goal with
  | |- context [addStateLocks ?d sl] =>
      destruct (addStateLocks d sl) as [r dc4] eqn:Hadd;
      destruct (addStateLocks_frame _ _ _ _ Hadd) as (_ & _ & Hcr4 & _);
      pose proof (addStateLocks_allocated _ _ _ _ Hadd) as Hal4
  end.
  cbn in Hcr4, Hal4.
  assert (Hgoal : wellFormed dc4).
  { destruct Hwf as [Hkey Hinj].
    assert (Hnew : forall cs, cs ∈ av ->
              (allocated dc <= addr (state cs) < allocated dc + length wv)%nat).
    { intros cs Hcs. apply Hsub in Hcs.
      assert (Ha : addr (state cs) ∈ (fun s => addr (state s)) <$> wv)
        by (apply list_elem_of_fmap; eauto).
      rewrite Haddr in Ha. apply elem_of_seq in Ha. lia. }
    assert (Hsame : forall cs1 cs2, cs1 ∈ av -> cs2 ∈ av ->
              addr (state cs1) = addr (state cs2) -> cs1 = cs2).
    { intros cs1 cs2 H1 H2 E. apply Hsub in H1, H2.
      apply list_elem_of_lookup in H1 as [i1 H1], H2 as [i2 H2].
      assert (Hi : forall i cs, wv !! i = Some cs ->
                     addr (state cs) = (allocated dc + i)%nat).
      { intros i cs Hi.
        assert (Hl : ((fun s => addr (state s)) <$> wv) !! i = Some (addr (state cs)))
          by (rewrite list_lookup_fmap, Hi; reflexivity).
        rewrite Haddr in Hl. apply lookup_seq in Hl as [-> _]. reflexivity. }
      rewrite (Hi _ _ H1), (Hi _ _ H2) in E.
      assert (i1 = i2) as -> by lia. rewrite H1 in H2. now inversion H2. }
    split.
    - intros k cs H. rewrite Hcr4, Hcr in H. rewrite Hal4, Hal.
      destruct (fold_insert_lookup _ _ _ _ H) as [[Hin Hid]|Hm].
      + split; [exact Hid|]. apply Hnew in Hin. lia.
      + destruct (Hkey _ _ Hm). split; [assumption|lia].
    - intros k1 k2 cs1 cs2 H1 H2 E. rewrite Hcr4, Hcr in H1, H2.
      destruct (fold_insert_lookup _ _ _ _ H1) as [[Hin1 Hid1]|Hm1],
               (fold_insert_lookup _ _ _ _ H2) as [[Hin2 Hid2]|Hm2].
      + rewrite <- Hid1, <- Hid2. f_equal. f_equal. now apply Hsame.
      + apply Hnew in Hin1. destruct (Hkey _ _ Hm2). lia.
      + apply Hnew in Hin2. destruct (Hkey _ _ Hm1). lia.
      + eapply Hinj; eauto. }
  destruct r; exact Hgoal.
Qed.

End UpsertsWellFormed.

Lemma UpsertNullifiers_wellFormed dc nullifiers :
  wellFormed dc -> wellFormed (snd (UpsertNullifiers dc nullifiers)).
Proof.
  intros Hwf. unfold UpsertNullifiers.
  destruct (checkResetInitUnFlushed dc) as [[e|] dc1] eqn:Hc.
  { destruct (check_fail _ _ _ Hc) as [-> _]. exact Hwf. }
  destruct (check_pass _ _ Hc) as (_ & _ & _ & _ & Hcr & _ & _ & Hal & _).
  match goal with
  | |- context [attachNullifiers ?d nullifiers] =>
      destruct (attachNullifiers d nullifiers) as [r dc'] eqn:Hat;
      destruct (attachNullifiers_spec _ _ _ _ Hat) as ((Hcr' & _) & _);
      pose proof (attachNullifiers_allocated _ _ _ _ Hat) as Hal'
  end.
  cbn in Hcr', Hal'. cbn [snd].
  eapply wellFormed_sub; [| |exact Hwf].
  - intros k cs H. now rewrite Hcr', Hcr in H.
  - rewrite Hal', Hal. lia.
Qed.

Lemma AddStateLocks_wellFormed dc locks :
  wellFormed dc -> wellFormed (snd (AddStateLocks dc locks)).
Proof.
  intros Hwf. unfold AddStateLocks.
  destruct (checkResetInitUnFlushed dc) as [[e|] dc1] eqn:Hc.
  { destruct (check_fail _ _ _ Hc) as [-> _]. exact Hwf. }
  destruct (check_pass _ _ Hc) as (_ & _ & _ & _ & Hcr & _ & _ & Hal & _).
  destruct (addStateLocks dc1 locks) as [r dc'] eqn:Hadd.
  destruct (addStateLocks_frame _ _ _ _ Hadd) as (_ & _ & Hcr' & _).
  pose proof (addStateLocks_allocated _ _ _ _ Hadd) as Hal'.
  cbn [snd]. eapply wellFormed_sub; [| |exact Hwf].
  - intros k cs H. now rewrite Hcr', Hcr in H.
  - rewrite Hal', Hal. lia.
Qed.

Lemma ClearTransactions_wellFormed dc transactions :
  wellFormed dc -> wellFormed (ClearTransactions dc transactions).
Proof.
  intros Hwf. eapply wellFormed_sub; [| |exact Hwf].
  - intros k cs H.
    destruct (ClearTransactions_effect dc transactions) as (_ & _ & Hlookup & _).
    rewrite Hlookup in H. destruct (existsb _ _); [discriminate|exact H].
  - unfold ClearTransactions.
    destruct (clearLocks _ _ _). cbn. lia.
Qed.

Lemma Reset_wellFormed wait dc : wellFormed (Reset wait dc).
Proof.
  apply wellFormed_new. unfold Reset.
  destruct (clearExistingFlush wait dc). reflexivity.
Qed.

Lemma clearExistingFlush_frame wait dc r dc' :
  clearExistingFlush wait dc = (r, dc') ->
  creatingStates dc' = creatingStates dc /\ allocated dc' = allocated dc.
Proof.
  unfold clearExistingFlush. destruct (flushing dc) as [f|]; [|now intros [= <- <-]].
  destruct wait as [res|]; [|now intros [= <- <-]].
  destruct (flushed f); intros [= <- <-]; split; reflexivity.
Qed.

Lemma InitiateFlush_wellFormed wait dc :
  wellFormed dc -> wellFormed (snd (InitiateFlush wait dc)).
Proof.
  intros Hwf. unfold InitiateFlush.
  destruct (clearExistingFlush wait dc) as [[e|] dc1] eqn:Hclear;
    destruct (clearExistingFlush_frame _ _ _ _ Hclear) as [Hcr Hal]; cbn [snd];
    (eapply wellFormed_sub; [| |exact Hwf]); cbn;
    try (intros k cs H; now rewrite Hcr in H); rewrite Hal; lia.
Qed.

Lemma doFlush_wellFormed op err dc : wellFormed dc -> wellFormed (doFlush op err dc).
Proof.
  intros Hwf. unfold doFlush. destruct (flushing dc) as [f|]; [|exact Hwf].
  destruct (_ && _); exact Hwf.
Qed.

Lemma loadRows_frame rows : forall dc states dc',
  loadRows dc rows = (states, dc') ->
  creatingStates dc' = creatingStates dc /\ (allocated dc <= allocated dc')%nat.
Proof.
  induction rows as [|[[[rid rschema] rdata] rnull] rest IH]; intros dc states dc' H;
    cbn [loadRows] in H.
  - inversion H; subst. split; [reflexivity|lia].
  - destruct (loadRows _ rest) as [states1 dc2] eqn:Hrest. inversion H; subst.
    destruct (IH _ _ _ Hrest) as [Hcr Hal]. cbn in Hcr, Hal. split; [exact Hcr|lia].
Qed.

Lemma attachQueued_frame nullifiers states : forall dc,
  creatingStates (attachQueued dc nullifiers states) = creatingStates dc /\
  allocated (attachQueued dc nullifiers states) = allocated dc.
Proof.
  induction states as [|s rest IH]; intros dc; cbn [attachQueued]; [now split|].
  match goal with |- context [attachQueued ?d nullifiers rest] =>
    destruct (IH d) as [Hcr Hal]; rewrite Hcr, Hal end.
  destruct (Nullifier (fieldsOf dc s)); [now split|].
  destruct (List.find _ nullifiers); now split.
Qed.

Lemma applyLocks_allocated states : forall dc,
  allocated (applyLocks dc states) = allocated dc.
Proof.
  induction states as [|s rest IH]; intros dc; cbn [applyLocks]; [reflexivity|].
  now rewrite IH.
Qed.

Section FindWellFormed.

Variable EvalQuery : QueryJSON -> string -> list (string * string) -> result stateError bool.
Variable RecoverLabels : string -> State -> result stateError (list (string * string)).
Variable SortValueSetInPlace :
  string -> list string -> list StateWithLabels -> result stateError (list StateWithLabels).

Lemma mergeUnFlushedApplyLocks_frame dc schemaId dbStates query requireNullifier :
  let dc' := snd (mergeUnFlushedApplyLocks EvalQuery RecoverLabels SortValueSetInPlace
                    dc schemaId dbStates query requireNullifier) in
  creatingStates dc' = creatingStates dc /\ allocated dc' = allocated dc.
Proof.
  unfold mergeUnFlushedApplyLocks.
  destruct (checkResetInitUnFlushed dc) as [[e|] dc1] eqn:Hc.
  { destruct (check_fail _ _ _ Hc) as [-> _]. now split. }
  destruct (check_pass _ _ Hc) as (_ & _ & _ & _ & Hcr & _ & _ & Hal & _).
  destruct (collectMatches _ _ _ _ _ _ _); [|now split].
  destruct (if (0 <? length a)%nat then _ else _) as [retStates|]; [|now split].
  cbn [snd]. destruct (applyLocks_frame retStates dc1) as (_ & Hcr' & _).
  rewrite Hcr', applyLocks_allocated. now split.
Qed.

Lemma FindAvailableStates_wellFormed findStates dc schemaID query :
  wellFormed dc ->
  wellFormed (snd (FindAvailableStates EvalQuery RecoverLabels SortValueSetInPlace
                     findStates dc schemaID query)).
Proof.
  intros Hwf. unfold FindAvailableStates, getUnFlushedStates.
  destruct (checkResetInitUnFlushed dc) as [[e|] dc1] eqn:Hc.
  { destruct (check_fail _ _ _ Hc) as [-> _]. exact Hwf. }
  destruct (check_pass _ _ Hc) as (_ & _ & _ & _ & Hcr & _ & _ & Hal & _).
  assert (Hwf1 : wellFormed dc1).
  { eapply wellFormed_sub; [| |exact Hwf]; [intros k cs H; now rewrite Hcr in H|lia]. }
  destruct (findStates _ _ _ _ _) as [rows|]; [|exact Hwf1].
  destruct (loadRows dc1 rows) as [states dc2] eqn:Hload.
  destruct (loadRows_frame _ _ _ _ Hload) as [Hcr2 Hal2].
  destruct (mergeUnFlushedApplyLocks_frame dc2 schemaID states query false)
    as [Hcr3 Hal3].
  eapply wellFormed_sub; [| |exact Hwf1].
  - intros k cs H. now rewrite Hcr3, Hcr2 in H.
  - rewrite Hal3. exact Hal2.
Qed.

Lemma FindAvailableNullifiers_wellFormed findAvailableNullifiers dc schemaID query :
  wellFormed dc ->
  wellFormed (snd (FindAvailableNullifiers EvalQuery RecoverLabels SortValueSetInPlace
                     findAvailableNullifiers dc schemaID query)).
Proof.
  intros Hwf. unfold FindAvailableNullifiers, getUnFlushedStates.
  destruct (checkResetInitUnFlushed dc) as [[e|] dc1] eqn:Hc.
  { destruct (check_fail _ _ _ Hc) as [-> _]. exact Hwf. }
  destruct (check_pass _ _ Hc) as (_ & _ & _ & _ & Hcr & _ & _ & Hal & _).
  assert (Hwf1 : wellFormed dc1).
  { eapply wellFormed_sub; [| |exact Hwf]; [intros k cs H; now rewrite Hcr in H|lia]. }
  destruct (findAvailableNullifiers _ _ _ _ _ _ _) as [rows|]; [|exact Hwf1].
  destruct (loadRows dc1 rows) as [states dc2] eqn:Hload.
  destruct (loadRows_frame _ _ _ _ Hload) as [Hcr2 Hal2].
  match goal with
  | |- context [attachQueued dc2 ?ns states] =>
      destruct (attachQueued_frame ns states dc2) as [Hcr3 Hal3];
      destruct (mergeUnFlushedApplyLocks_frame (attachQueued dc2 ns states)
                  schemaID states query true) as [Hcr4 Hal4]
  end.
  eapply wellFormed_sub; [| |exact Hwf1].
  - intros k cs H. now rewrite Hcr4, Hcr3, Hcr2 in H.
  - rewrite Hal4, Hal3. exact Hal2.
Qed.

End FindWellFormed.

(** Every context reached from a new one is well-formed. *)
Lemma wellFormed_reached GetSchema ProcessState EvalQuery RecoverLabels
  SortValueSetInPlace findStates findAvailableNullifiers dc :
  reached GetSchema ProcessState EvalQuery RecoverLabels SortValueSetInPlace
    findStates findAvailableNullifiers dc ->
  wellFormed dc.
Proof.
  induction 1.
  - now apply wellFormed_new.
  - now apply UpsertStates_wellFormed.
  - now apply UpsertNullifiers_wellFormed.
  - now apply AddStateLocks_wellFormed.
  - now apply FindAvailableStates_wellFormed.
  - now apply FindAvailableNullifiers_wellFormed.
  - now apply ClearTransactions_wellFormed.
  - now apply InitiateFlush_wellFormed.
  - now apply doFlush_wellFormed.
  - apply Reset_wellFormed.
  - exact IHreached.
Qed.

(** ** FindAvailableStates *)

Section Find.

Variable EvalQuery : QueryJSON -> string -> list (string * string) -> result stateError bool.
Variable RecoverLabels : string -> State -> result stateError (list (string * string)).
Variable SortValueSetInPlace :
  string -> list string -> list StateWithLabels -> result stateError (list StateWithLabels).
Variable findStates :
  string -> string -> string -> QueryJSON -> list string ->
  result stateError (list (string * string * string * option StateNullifier)).

(** The objects loaded depend on the context only through the next free
    address. *)
Lemma loadRows_states dc dc1 rows :
  allocated dc1 = allocated dc -> fst (loadRows dc rows) = fst (loadRows dc1 rows).
Proof.
  revert dc dc1. induction rows as [|[[[rid rschema] rdata] rnull] rest IH];
    intros dc dc1 Hal; cbn [loadRows]; [reflexivity|].
  rewrite Hal.
  match goal with
  | |- fst (let '(_, _) := loadRows ?a rest in _) = fst (let '(_, _) := loadRows ?b rest in _) =>
      pose proof (IH a b eq_refl) as Hrest;
      destruct (loadRows a rest), (loadRows b rest)
  end.
  cbn in *. now rewrite Hrest.
Qed.

Lemma loadRows_spec rows : forall dc states dc',
  loadRows dc rows = (states, dc') ->
  ID <$> states = rowId <$> rows /\
  addr <$> states = seq (allocated dc) (length rows) /\
  allocated dc' = (allocated dc + length rows)%nat /\
  creatingStates dc' = creatingStates dc /\
  txLocks dc' = txLocks dc /\
  unFlushed dc' = unFlushed dc /\
  flushing dc' = flushing dc /\
  closed dc' = closed dc.
Proof.
  induction rows as [|[[[rid rschema] rdata] rnull] rest IH]; intros dc states dc' H;
    cbn [loadRows] in H.
  - inversion H; subst. cbn. rewrite Nat.add_0_r. repeat split.
  - destruct (loadRows _ rest) as [states1 dc2] eqn:Hrest.
    inversion H; subst.
    destruct (IH _ _ _ Hrest) as (H1 & H2 & H3 & H4 & H5 & H6 & H7 & H8).
    cbn in H2, H3, H4, H5, H6, H7, H8.
    rewrite !fmap_cons, H1, H2. cbn [length seq addr ID]. repeat split; auto.
    rewrite H3. lia.
Qed.

(** [checkResetInitUnFlushed] passes again where it has just passed. *)
Lemma check_again dc dc1 dc2 :
  checkResetInitUnFlushed dc = (None, dc1) ->
  unFlushed dc2 = unFlushed dc1 -> flushing dc2 = flushing dc1 ->
  closed dc2 = closed dc1 ->
  checkResetInitUnFlushed dc2 = (None, dc2).
Proof.
  intros Hc Hu Hf Hcl.
  destruct (check_pass _ _ Hc) as (Hu1 & _ & Hc1 & Hf1 & _).
  unfold checkResetInitUnFlushed in *.
  rewrite Hcl, Hc1, Hf, Hf1, Hu, Hu1.
  destruct (closed dc); [discriminate|].
  destruct (match flushing dc with Some f => _ | None => None end); [discriminate|].
  reflexivity.
Qed.

Abbreviation collected := (collected EvalQuery).

Lemma collectMatches_spec dc schemaId dbStates query creating : forall matches,
  collectMatches EvalQuery dc schemaId dbStates query false creating = Ok matches ->
  matches `sublist_of` creating /\
  forall cs, cs ∈ matches <-> cs ∈ creating /\ collected dc schemaId dbStates query cs.
Proof.
  induction creating as [|st rest IH]; intros matches H; cbn [collectMatches] in H.
  { inversion H; subst. split; [constructor|]. intros cs. split.
    - intros Hin. inversion Hin.
    - intros [Hin _]. inversion Hin. }
  assert (Hskip : ~ collected dc schemaId dbStates query st ->
                  collectMatches EvalQuery dc schemaId dbStates query false rest
                    = Ok matches ->
                  matches `sublist_of` st :: rest /\
                  forall cs, cs ∈ matches <->
                             cs ∈ st :: rest /\ collected dc schemaId dbStates query cs).
  { intros Hnot Hrest. destruct (IH _ Hrest) as [Hsub Hiff].
    split; [now apply sublist_cons|]. intros cs. rewrite Hiff, elem_of_cons.
    split; [tauto|]. intros [[-> |Hin] Hc]; [contradiction|tauto]. }
  destruct (String.eqb_spec (Schema (state st)) schemaId) as [Hsch|Hsch]; cbn [negb] in H.
  2:{ apply Hskip; [|exact H]. intros (Hs & _). contradiction. }
  destruct (spendLocked dc (ID (state st))) eqn:Hsp.
  { apply Hskip; [|exact H]. intros (_ & Hs & _). congruence. }
  cbn [andb] in H.
  destruct (EvalQuery query schemaId (LabelValues st)) as [isMatch|err] eqn:Hev;
    [|discriminate].
  destruct (collectMatches EvalQuery dc schemaId dbStates query false rest)
    as [matches'|err] eqn:Hrest; [|discriminate].
  destruct isMatch; cbn [andb] in H.
  2:{ inversion H; subst. apply Hskip; [|reflexivity].
      intros (_ & _ & He & _). congruence. }
  destruct (existsb _ dbStates) eqn:Hdup; cbn [negb] in H; inversion H; subst.
  - apply Hskip; [|reflexivity]. intros (_ & _ & _ & Hn). apply Hn.
    apply existsb_exists in Hdup as (d & Hd & Heq). apply String.eqb_eq in Heq.
    apply list_elem_of_fmap. exists d. split; [now symmetry|now apply list_elem_of_In].
  - destruct (IH _ eq_refl) as [Hsub Hiff].
    split; [now apply sublist_skip|]. intros cs. rewrite !elem_of_cons, Hiff.
    split; [|tauto]. intros [-> |[Hin Hc]]; [|tauto].
    split; [now left|]. repeat split; auto.
    intros Hin. apply list_elem_of_fmap in Hin as (d & Hd & Hin).
    assert (existsb (fun dbState => String.eqb (ID dbState) (ID (state st))) dbStates
            = true); [|congruence].
    apply existsb_exists. exists d. split; [now apply list_elem_of_In|].
    apply String.eqb_eq. now symmetry.
Qed.

Lemma recoverAll_state schemaId states : forall recovered,
  recoverAll RecoverLabels schemaId states = Ok recovered ->
  state <$> recovered = states.
Proof.
  induction states as [|s rest IH]; intros recovered H; cbn [recoverAll] in H.
  - now inversion H.
  - destruct (RecoverLabels schemaId s); [|discriminate].
    destruct (recoverAll RecoverLabels schemaId rest) as [full|]; [|discriminate].
    inversion H; subst. rewrite fmap_cons. cbn. f_equal. now apply IH.
Qed.

Hypothesis sort_permutes : forall schemaId fields l sorted,
  SortValueSetInPlace schemaId fields l = Ok sorted -> sorted ≡ₚ l.

(** [mergeInMemoryMatches] returns, cut at the limit, the states of a
    sorted rearrangement of the database states followed by the extras. *)
Lemma mergeInMemoryMatches_spec schemaId states extras query ret :
  (forall s, s ∈ extras -> ID (state s) ∉ ID <$> states) ->
  mergeInMemoryMatches RecoverLabels SortValueSetInPlace schemaId states extras query
    = Ok ret ->
  exists recovered sorted,
    recoverAll RecoverLabels schemaId states = Ok recovered /\
    state <$> recovered = states /\
    SortValueSetInPlace schemaId (Sort query) (recovered ++ extras)%list = Ok sorted /\
    sorted ≡ₚ (recovered ++ extras)%list /\
    ret = state <$> upToLimit query sorted.
Proof.
  intros Hfresh. unfold mergeInMemoryMatches.
  destruct (recoverAll RecoverLabels schemaId states) as [recovered|] eqn:Hrec;
    [|discriminate].
  set (kept := filter _ extras).
  assert (Hkept : kept = extras).
  { subst kept. clear -Hfresh. induction extras as [|x extras IH]; [reflexivity|].
    rewrite filter_cons. rewrite decide_True.
    - f_equal. apply IH. intros s Hs. apply Hfresh. now apply list_elem_of_further.
    - apply negb_True, Is_true_false. apply not_true_iff_false.
      rewrite existsb_exists. intros (d & Hd & Heq). apply String.eqb_eq in Heq.
      apply (Hfresh x (list_elem_of_here _ _)).
      apply list_elem_of_fmap. exists d. split; [now symmetry|now apply list_elem_of_In]. }
  rewrite Hkept.
  destruct (SortValueSetInPlace schemaId (Sort query) (recovered ++ extras))
    as [sorted|] eqn:Hsort; [|discriminate].
  intros [= <-]. exists recovered, sorted.
  rewrite (recoverAll_state _ _ _ Hrec). split; [reflexivity|]. repeat split; eauto.
  unfold upToLimit. destruct (Limit query) as [limit|]; f_equal.
  - destruct (Nat.ltb_spec limit (length sorted)); [reflexivity|].
    rewrite !take_ge by lia. reflexivity.
  - now rewrite take_ge.
Qed.

Lemma creatingList_ids dc :
  (forall k cs, creatingStates dc !! k = Some cs -> ID (state cs) = k) ->
  NoDup ((fun cs => ID (state cs)) <$> creatingList dc).
Proof.
  intros Hkey. unfold creatingList.
  assert (H : (fun cs => ID (state cs)) <$> (map_to_list (creatingStates dc)).*2
              = (map_to_list (creatingStates dc)).*1).
  { rewrite <- list_fmap_compose. apply list_fmap_ext. intros i [k cs] Hin.
    cbn. apply Hkey. apply elem_of_map_to_list. eapply list_elem_of_lookup_2, Hin. }
  rewrite H. apply NoDup_fst_map_to_list.
Qed.

Abbreviation FindAvailableStates :=
  (FindAvailableStates EvalQuery RecoverLabels SortValueSetInPlace findStates).

(** The steps of a [FindAvailableStates] that returns states. *)
Lemma FindAvailableStates_steps dc schemaID query states dc' :
  FindAvailableStates dc schemaID query = (Ok states, dc') ->
  exists dc1 rows dbStates dc2 matches,
    checkResetInitUnFlushed dc = (None, dc1) /\
    findStates (domainName dc) (contractAddress dc) schemaID query (spendingIds dc)
      = Ok rows /\
    loadRows dc1 rows = (dbStates, dc2) /\
    collectMatches EvalQuery dc2 schemaID dbStates query false (creatingList dc)
      = Ok matches /\
    ((matches = [] /\ states = dbStates) \/
     (matches <> [] /\
      mergeInMemoryMatches RecoverLabels SortValueSetInPlace schemaID dbStates matches
        query = Ok states)) /\
    dc' = applyLocks dc2 states.
Proof.
  unfold StateMgr.FindAvailableStates, getUnFlushedStates.
  destruct (checkResetInitUnFlushed dc) as [[e|] dc1] eqn:Hc; [discriminate|].
  destruct (check_pass _ _ Hc) as (Hu & _ & Hcl & Hf & Hcr & Hlk & Hobj & Hal & Hdn & Hca).
  rewrite app_nil_r, Hdn, Hca.
  replace (map lk_State (filter (fun l => isSpend (lk_Type l)) (txLocks dc1)))
    with (spendingIds dc) by (unfold spendingIds; now rewrite Hlk).
  destruct (findStates _ _ _ _ _) as [rows|] eqn:Hfind; [|discriminate].
  destruct (loadRows dc1 rows) as [dbStates dc2] eqn:Hload.
  destruct (loadRows_spec _ _ _ _ Hload) as (_ & _ & _ & Hcr2 & Hlk2 & Hu2 & Hf2 & Hcl2).
  unfold mergeUnFlushedApplyLocks.
  rewrite (check_again _ _ dc2 Hc Hu2 Hf2 Hcl2).
  replace (creatingList dc2) with (creatingList dc)
    by (unfold creatingList; now rewrite Hcr2, Hcr).
  destruct (collectMatches _ _ _ _ _ _ _) as [matches|] eqn:Hcm; [|discriminate].
  destruct matches as [|m0 matches]; cbn [length Nat.ltb Nat.leb].
  - intros H; inversion H; subst. exists dc1, rows, states, dc2, [].
    repeat split; auto.
  - destruct (mergeInMemoryMatches _ _ _ _ _ _) as [ret|] eqn:Hmerge; [|discriminate].
    intros H; inversion H; subst. exists dc1, rows, dbStates, dc2, (m0 :: matches).
    repeat split; auto.
Qed.

(** C1, as the code has it.  When [FindAvailableStates] returns states on
    a well-formed context, the database was asked for the states matching
    the query with the spend-locked ids excluded, and: every state
    returned is one of those rows or an overlay state of the schema that is
    not spend-locked and satisfies the query; without a limit every such
    row and overlay state is returned; no id is returned twice if the rows
    have distinct ids; a limit that the rows respect bounds the result;
    the overlay states added are exactly those visible ones whose id no
    row has, in the order of the creating map, and either there is none
    and the rows come back as they are, or the result is exactly the
    output of the sort on the rows followed by the added overlay states,
    cut at the limit; and each state returned carries the locks held on
    its id in the context. *)
Theorem FindAvailableStates_visible (dc : domainContext) (schemaID : string)
  (query : QueryJSON) (states : list State) (dc' : domainContext) :
  wellFormed dc ->
  FindAvailableStates dc schemaID query = (Ok states, dc') ->
  exists rows,
    findStates (domainName dc) (contractAddress dc) schemaID query (spendingIds dc)
      = Ok rows /\
    (forall s, s ∈ states ->
       ID s ∈ rowId <$> rows \/
       exists cs, overlayVisible EvalQuery dc schemaID query cs /\ state cs = s) /\
    (Limit query = None ->
     forall i,
       i ∈ rowId <$> rows \/
       (exists cs, overlayVisible EvalQuery dc schemaID query cs /\ ID (state cs) = i) ->
       i ∈ ID <$> states) /\
    (NoDup (rowId <$> rows) -> NoDup (ID <$> states)) /\
    (forall n, Limit query = Some n -> (length rows <= n)%nat ->
               (length states <= n)%nat) /\
    (exists matches,
       matches `sublist_of` creatingList dc /\
       (forall cs, cs ∈ matches <->
          overlayVisible EvalQuery dc schemaID query cs /\
          ID (state cs) ∉ rowId <$> rows) /\
       ((matches = [] /\ states = fst (loadRows dc rows) /\
         ID <$> states = rowId <$> rows) \/
        (matches <> [] /\
         exists recovered sorted,
           recoverAll RecoverLabels schemaID (fst (loadRows dc rows)) = Ok recovered /\
           SortValueSetInPlace schemaID (Sort query) (recovered ++ matches)%list
             = Ok sorted /\
           states = state <$> upToLimit query sorted))) /\
    (forall s, s ∈ states -> Locks (fieldsOf dc' s) = locksOn dc (ID s)).
Proof.
  intros Hwf Hfind.
  destruct (wellFormed_list _ Hwf) as (Wkey & Wold & Waddr).
  destruct (FindAvailableStates_steps _ _ _ _ _ Hfind)
    as (dc1 & rows & dbStates & dc2 & matches & Hc & Hrows & Hload & Hcm & Hcase & ->).
  destruct (check_pass _ _ Hc) as (_ & _ & _ & _ & Hcr & Hlk & _ & Hal & _).
  assert (Hloaded : fst (loadRows dc rows) = dbStates).
  { rewrite (loadRows_states dc dc1 rows) by now rewrite Hal. now rewrite Hload. }
  destruct (loadRows_spec _ _ _ _ Hload) as (Hids & Haddrs & _ & _ & Hlk2 & _).
  destruct (collectMatches_spec _ _ _ _ _ _ Hcm) as [Hsub Hmatch].
  assert (Hsp : forall i, spendLocked dc2 i = spendLocked dc i).
  { intros i. unfold spendLocked. now rewrite Hlk2, Hlk. }
  assert (Hvis : forall cs, cs ∈ matches <->
                   overlayVisible EvalQuery dc schemaID query cs /\
                   ID (state cs) ∉ rowId <$> rows).
  { intros cs. rewrite Hmatch. unfold StateMgr.collected, overlayVisible.
    rewrite Hsp, Hids. tauto. }
  assert (Hlocks : forall i, locksOn dc2 i = locksOn dc i).
  { intros i. unfold locksOn. now rewrite Hlk2, Hlk. }
  assert (Hdbaddr : forall s, s ∈ dbStates -> (allocated dc <= addr s)%nat).
  { intros s Hs. assert (Ha : addr s ∈ addr <$> dbStates) by now apply list_elem_of_fmap_2.
    rewrite Haddrs, Hal in Ha. apply elem_of_seq in Ha. lia. }
  assert (Haddr_all : NoDup (addr <$> (dbStates ++ (state <$> matches))%list)).
  { rewrite fmap_app. apply NoDup_app. split; [|split].
    - rewrite Haddrs. apply NoDup_seq.
    - intros a Ha Hb. apply list_elem_of_fmap in Ha as (s & -> & Hs).
      apply list_elem_of_fmap in Hb as (s' & Hs' & Hin').
      apply list_elem_of_fmap in Hin' as (cs & -> & Hcs).
      apply Hdbaddr in Hs. apply Hvis in Hcs as [(Hcs & _) _].
      apply Wold in Hcs. lia.
    - rewrite <- list_fmap_compose.
      eapply sublist_NoDup; [exact Waddr|]. now apply fmap_sublist. }
  assert (Hid_all : NoDup (rowId <$> rows) ->
                    NoDup (ID <$> (dbStates ++ (state <$> matches))%list)).
  { intros Hnd. rewrite fmap_app. apply NoDup_app. split; [|split].
    - now rewrite Hids.
    - intros i Hi Hb. apply list_elem_of_fmap in Hb as (s' & -> & Hin').
      apply list_elem_of_fmap in Hin' as (cs & -> & Hcs).
      apply Hvis in Hcs as [_ Hn]. apply Hn. now rewrite <- Hids.
    - rewrite <- list_fmap_compose.
      eapply sublist_NoDup; [exact (creatingList_ids dc Wkey)|]. now apply fmap_sublist. }
  exists rows. split; [exact Hrows|].
  destruct Hcase as [[-> ->]|[Hne Hmerge]].
  - (* nothing to add from the overlay *)
    assert (Hcover : forall cs, overlayVisible EvalQuery dc schemaID query cs ->
                                ID (state cs) ∈ rowId <$> rows).
    { intros cs Hcs. destruct (decide (ID (state cs) ∈ rowId <$> rows)) as [Hin|Hn];
        [exact Hin|].
      exfalso. assert (Hm : cs ∈ []) by (apply Hvis; now split). inversion Hm. }
    repeat split.
    + intros s Hs. left. rewrite <- Hids. now apply list_elem_of_fmap_2.
    + intros _ i [Hi|(cs & Hcs & <-)]; rewrite Hids; auto.
    + intros Hnd. now rewrite Hids.
    + intros n _ Hlen. rewrite <- (length_fmap ID), Hids, length_fmap. exact Hlen.
    + exists []. split; [exact Hsub|]. split; [exact Hvis|]. left. now rewrite Hloaded.
    + intros s Hs. rewrite applyLocks_spec; auto.
      rewrite app_nil_r in Haddr_all. exact Haddr_all.
  - (* overlay states merged in *)
    destruct (mergeInMemoryMatches_spec _ _ _ _ _
                ltac:(intros s Hs; apply Hmatch in Hs as [_ (_ & _ & _ & Hn)]; exact Hn)
                Hmerge)
      as (recovered & sorted & Hrecover & Hrec & Hsort & Hperm & ->).
    assert (Hcut : upToLimit query sorted `sublist_of` sorted).
    { unfold upToLimit. destruct (Limit query); [apply sublist_take|reflexivity]. }
    assert (Hin_merged : forall x, x ∈ (recovered ++ matches)%list ->
              ID (state x) ∈ rowId <$> rows \/ overlayVisible EvalQuery dc schemaID query x).
    { intros x Hx. apply elem_of_app in Hx as [Hdb|Hov].
      - left. rewrite <- Hids, <- Hrec, <- list_fmap_compose.
        now apply (list_elem_of_fmap_2 (ID ∘ state)).
      - right. now apply Hvis in Hov as [Hov _]. }
    assert (Hstates : state <$> (recovered ++ matches)%list
                      = (dbStates ++ (state <$> matches))%list).
    { now rewrite fmap_app, Hrec. }
    assert (Hsubperm : forall (B : Type) (f : State -> B),
              NoDup (f <$> (dbStates ++ (state <$> matches))%list) ->
              NoDup (f <$> (state <$> upToLimit query sorted))).
    { intros B f Hnd. eapply sublist_NoDup; [|apply fmap_sublist, fmap_sublist, Hcut].
      rewrite Hperm, Hstates. exact Hnd. }
    repeat split.
    + intros s Hs. apply list_elem_of_fmap in Hs as (x & -> & Hx).
      eapply elem_of_sublist in Hx; [|exact Hcut]. rewrite Hperm in Hx.
      destruct (Hin_merged x Hx) as [Hrow|Hov]; [now left|right; eauto].
    + intros Hnone i Hi. unfold upToLimit. rewrite Hnone.
      rewrite <- list_fmap_compose, Hperm, list_fmap_compose, Hstates, fmap_app.
      apply elem_of_app.
      destruct (decide (i ∈ rowId <$> rows)) as [Hrow|Hn];
        [left; now rewrite Hids|right].
      destruct Hi as [Hrow|(cs & Hcs & <-)]; [contradiction|].
      rewrite <- list_fmap_compose. apply (list_elem_of_fmap_2 (ID ∘ state)).
      apply Hvis. now split.
    + intros Hnd. apply Hsubperm, Hid_all, Hnd.
    + intros n Hn _. unfold upToLimit. rewrite Hn, length_fmap, length_take. lia.
    + exists matches. split; [exact Hsub|]. split; [exact Hvis|]. right.
      split; [exact Hne|]. exists recovered, sorted. now rewrite Hloaded.
    + intros s Hs. rewrite applyLocks_spec; auto.
Qed.

End Find.

Lemma contextWithS1_wellFormed : wellFormed contextWithS1.
Proof.
  apply (wellFormed_reached sampleGetSchema sampleProcessState sampleEvalQuery
           sampleRecoverLabels sampleSort emptyFindStates emptyFindNullifiers).
  apply reached_UpsertStates, reached_new.
Qed.

(** The theorem on [contextWithS1] with an empty database: the one state
    returned carries the create lock of transaction 7. *)
Lemma FindAvailableStates_visible_witness :
  let r := sampleFindAvailableStates contextWithS1 "coin" allStates in
  fst r = Ok [mkState 0 "s1" "coin" "alice"] /\
  Locks (fieldsOf (snd r) (mkState 0 "s1" "coin" "alice"))
    = [mkLock StateLockTypeCreate 7 "s1"].
Proof.
  split; [vm_compute; reflexivity|].
  destruct (FindAvailableStates_visible sampleEvalQuery sampleRecoverLabels sampleSort
              emptyFindStates
              ltac:(intros ? ? ? ? [= <-]; reflexivity)
              contextWithS1 "coin" allStates [mkState 0 "s1" "coin" "alice"]
              (snd (sampleFindAvailableStates contextWithS1 "coin" allStates))
              contextWithS1_wellFormed ltac:(vm_compute; reflexivity))
    as (rows & _ & _ & _ & _ & _ & _ & Hlocks).
  rewrite (Hlocks _ (list_elem_of_here _ _)). vm_compute. reflexivity.
Defined.

(** C1 as stated fails: in [contextS1Spent] the creating map holds "s1",
    of schema "coin" and satisfying the query, and the database holds
    nothing, yet the state is not returned, because transaction 8 holds a
    spend lock on it. *)
Lemma FindAvailableStates_hides_spent_overlay :
  overlaySatisfying sampleEvalQuery contextS1Spent "coin" allStates
    (mkLabelled (mkState 0 "s1" "coin" "alice") [("owner", "alice")]) /\
  spendLocked contextS1Spent "s1" = true /\
  emptyFindStates "zeto" "0xc0" "coin" allStates (spendingIds contextS1Spent) = Ok [] /\
  fst (sampleFindAvailableStates contextS1Spent "coin" allStates) = Ok [].
Proof.
  split; [|vm_compute; repeat split].
  split; [|split; reflexivity].
  assert (L : creatingList contextS1Spent
              = [mkLabelled (mkState 0 "s1" "coin" "alice") [("owner", "alice")]])
    by (vm_compute; reflexivity).
  rewrite L. apply list_elem_of_here.
Qed.

(** ** The write list over the life of a context *)

Lemma applyLocks_objects states : forall dc,
  exists o, applyLocks dc states = set_objects o dc.
Proof.
  induction states as [|s rest IH]; intros dc; cbn [applyLocks].
  - exists (objects dc). now destruct dc.
  - destruct (IH (set_Locks s (filter (fun l => String.eqb (lk_State l) (ID s))
                                       (txLocks dc)) dc)) as [o ->].
    now exists o.
Qed.

Lemma attachQueued_writes nullifiers states : forall dc,
  unFlushed (attachQueued dc nullifiers states) = unFlushed dc /\
  flushing (attachQueued dc nullifiers states) = flushing dc /\
  closed (attachQueued dc nullifiers states) = closed dc.
Proof.
  induction states as [|s rest IH]; intros dc; cbn [attachQueued]; [now repeat split|].
  match goal with |- context [attachQueued ?d nullifiers rest] =>
    destruct (IH d) as (H1 & H2 & H3); rewrite H1, H2, H3 end.
  destruct (Nullifier (fieldsOf dc s)); [now repeat split|].
  destruct (List.find _ nullifiers); now repeat split.
Qed.

Lemma clearExistingFlush_writes wait dc r dc' :
  clearExistingFlush wait dc = (r, dc') ->
  unFlushed dc' = unFlushed dc /\
  wo_states <$> flushing dc' = wo_states <$> flushing dc.
Proof.
  unfold clearExistingFlush. destruct (flushing dc) as [f|] eqn:Hf;
    [|intros [= <- <-]; now rewrite Hf].
  destruct wait as [res|]; [|intros [= <- <-]; now rewrite Hf].
  destruct (flushed f); intros [= <- <-]; cbn; now rewrite ?Hf.
Qed.

Section WriteList.

Variable GetSchema : string -> string -> option stateError.
Variable ProcessState :
  string -> StateUpsert -> result stateError (string * string * string * list (string * string)).
Variable EvalQuery : QueryJSON -> string -> list (string * string) -> result stateError bool.
Variable RecoverLabels : string -> State -> result stateError (list (string * string)).
Variable SortValueSetInPlace :
  string -> list string -> list StateWithLabels -> result stateError (list StateWithLabels).
Variable findStates :
  string -> string -> string -> QueryJSON -> list string ->
  result stateError (list (string * string * string * option StateNullifier)).
Variable findAvailableNullifiers :
  string -> string -> string -> QueryJSON -> list string -> list string -> list string ->
  result stateError (list (string * string * string * option StateNullifier)).

Local Abbreviation reachedDistinct :=
  (reachedDistinct GetSchema ProcessState EvalQuery RecoverLabels SortValueSetInPlace
     findStates findAvailableNullifiers).

(** The states queued on the two write operations are as they were. *)
Local Abbreviation sameWrites dc dc' :=
  (wo_states (theUnFlushed dc') = wo_states (theUnFlushed dc) /\
   wo_states <$> flushing dc' = wo_states <$> flushing dc).

Lemma theUnFlushed_states dc :
  wo_states (theUnFlushed dc) = from_option wo_states [] (unFlushed dc).
Proof. unfold theUnFlushed. now destruct (unFlushed dc). Qed.

Lemma fields_sameWrites dc dc' :
  unFlushed dc' = unFlushed dc -> flushing dc' = flushing dc -> sameWrites dc dc'.
Proof. intros Hu Hf. now rewrite !theUnFlushed_states, Hu, Hf. Qed.

Lemma check_sameWrites dc r dc1 :
  checkResetInitUnFlushed dc = (r, dc1) -> sameWrites dc dc1.
Proof.
  intros Hc. destruct r as [e|].
  - now destruct (check_fail _ _ _ Hc) as [-> _].
  - destruct (check_pass _ _ Hc) as (Hu & _ & _ & Hf & _).
    rewrite (theUnFlushed_states dc1), Hu, Hf. now split.
Qed.

Lemma mergeUnFlushedApplyLocks_sameWrites dc schemaId dbStates query requireNullifier :
  sameWrites dc
    (snd (mergeUnFlushedApplyLocks EvalQuery RecoverLabels SortValueSetInPlace
            dc schemaId dbStates query requireNullifier)).
Proof.
  unfold mergeUnFlushedApplyLocks.
  destruct (checkResetInitUnFlushed dc) as [r dc1] eqn:Hc.
  pose proof (check_sameWrites _ _ _ Hc) as Hsame.
  destruct r as [e|]; [exact Hsame|].
  destruct (collectMatches _ _ _ _ _ _ _) as [matches|]; [|exact Hsame].
  destruct (if (0 <? length matches)%nat then _ else _) as [retStates|]; [|exact Hsame].
  cbn [snd]. destruct (applyLocks_objects retStates dc1) as [o ->]. exact Hsame.
Qed.

Lemma FindAvailableStates_sameWrites dc schemaID query :
  sameWrites dc
    (snd (FindAvailableStates EvalQuery RecoverLabels SortValueSetInPlace findStates
            dc schemaID query)).
Proof.
  unfold FindAvailableStates, getUnFlushedStates.
  destruct (checkResetInitUnFlushed dc) as [r dc1] eqn:Hc.
  pose proof (check_sameWrites _ _ _ Hc) as [Hs1 Hs2].
  destruct r as [e|]; [now split|].
  destruct (findStates _ _ _ _ _) as [rows|]; [|now split].
  destruct (loadRows dc1 rows) as [states dc2] eqn:Hload.
  destruct (loadRows_spec _ _ _ _ Hload) as (_ & _ & _ & _ & _ & Hu2 & Hf2 & _).
  destruct (mergeUnFlushedApplyLocks_sameWrites dc2 schemaID states query false)
    as [Hm1 Hm2].
  destruct (fields_sameWrites dc1 dc2 Hu2 Hf2) as [Hl1 Hl2].
  split; congruence.
Qed.

Lemma FindAvailableNullifiers_sameWrites dc schemaID query :
  sameWrites dc
    (snd (FindAvailableNullifiers EvalQuery RecoverLabels SortValueSetInPlace
            findAvailableNullifiers dc schemaID query)).
Proof.
  unfold FindAvailableNullifiers, getUnFlushedStates.
  destruct (checkResetInitUnFlushed dc) as [r dc1] eqn:Hc.
  pose proof (check_sameWrites _ _ _ Hc) as [Hs1 Hs2].
  destruct r as [e|]; [now split|].
  destruct (findAvailableNullifiers _ _ _ _ _ _ _) as [rows|]; [|now split].
  destruct (loadRows dc1 rows) as [states dc2] eqn:Hload.
  destruct (loadRows_spec _ _ _ _ Hload) as (_ & _ & _ & _ & _ & Hu2 & Hf2 & _).
  match goal with
  | |- context [attachQueued dc2 ?ns states] =>
      destruct (attachQueued_writes ns states dc2) as (Hu3 & Hf3 & _);
      destruct (mergeUnFlushedApplyLocks_sameWrites (attachQueued dc2 ns states)
                  schemaID states query true) as [Hm1 Hm2];
      destruct (fields_sameWrites dc2 (attachQueued dc2 ns states) Hu3 Hf3)
        as [Hq1 Hq2]
  end.
  destruct (fields_sameWrites dc1 dc2 Hu2 Hf2) as [Hl1 Hl2].
  split; congruence.
Qed.

Lemma UpsertNullifiers_sameWrites dc nullifiers :
  sameWrites dc (snd (UpsertNullifiers dc nullifiers)).
Proof.
  unfold UpsertNullifiers.
  destruct (checkResetInitUnFlushed dc) as [r dc1] eqn:Hc.
  pose proof (check_sameWrites _ _ _ Hc) as [Hs1 Hs2].
  destruct r as [e|]; [now split|].
  destruct (attachNullifiers _ nullifiers) as [r dc2] eqn:Hat.
  destruct (attachNullifiers_spec _ _ _ _ Hat) as ((_ & _ & Hu2 & Hf2 & _) & _).
  cbn [snd]. cbn in Hu2, Hf2. unfold theUnFlushed at 1. rewrite Hu2, Hf2. cbn.
  now split.
Qed.

Lemma AddStateLocks_sameWrites dc locks :
  sameWrites dc (snd (AddStateLocks dc locks)).
Proof.
  unfold AddStateLocks.
  destruct (checkResetInitUnFlushed dc) as [r dc1] eqn:Hc.
  pose proof (check_sameWrites _ _ _ Hc) as [Hs1 Hs2].
  destruct r as [e|]; [now split|].
  destruct (addStateLocks dc1 locks) as [r dc2] eqn:Hadd.
  destruct (addStateLocks_frame _ _ _ _ Hadd) as (Hu2 & Hf2 & _).
  destruct (fields_sameWrites dc1 dc2 Hu2 Hf2) as [Hl1 Hl2].
  split; cbn [snd]; congruence.
Qed.

(** The unflushed write list and the write operation being flushed hold
    no state id twice. *)
Local Abbreviation noDuplicateWrites dc :=
  (NoDup (writeIds (theUnFlushed dc)) /\
   forall f, flushing dc = Some f -> NoDup (writeIds f)).

Lemma sameWrites_noDuplicates dc dc' :
  sameWrites dc dc' -> noDuplicateWrites dc -> noDuplicateWrites dc'.
Proof.
  intros [Hu Hf] [Hnu Hnf]. unfold writeIds in *. rewrite Hu. split; [exact Hnu|].
  intros f' Hf'. rewrite Hf' in Hf. destruct (flushing dc) as [f|]; [|discriminate].
  injection Hf as ->. now apply Hnf.
Qed.

Lemma UpsertStates_noDuplicates dc stateUpserts :
  distinctIds GetSchema ProcessState dc stateUpserts ->
  noDuplicateWrites dc ->
  noDuplicateWrites (snd (UpsertStates GetSchema ProcessState dc stateUpserts)).
Proof.
  intros Hdistinct [Hnu Hnf].
  destruct (processUpserts GetSchema ProcessState (domainName dc) (contractAddress dc)
              (allocated dc) stateUpserts) as [[[wv sl] av]|err] eqn:Hproc.
  2:{ unfold UpsertStates. rewrite Hproc. now split. }
  destruct (checkResetInitUnFlushed dc) as [[e|] dc1] eqn:Hc.
  { unfold UpsertStates. rewrite Hproc, Hc. cbn [snd].
    destruct (check_fail _ _ _ Hc) as [-> _]. now split. }
  split.
  - apply (UpsertStates_replaces GetSchema ProcessState dc stateUpserts wv sl av Hproc);
      [now rewrite Hc|eapply Hdistinct, Hproc|exact Hnu].
  - unfold UpsertStates. rewrite Hproc, Hc.
    destruct (check_pass _ _ Hc) as (_ & _ & _ & Hf & _).
    match goal with
    | |- context [addStateLocks ?d sl] =>
        destruct (addStateLocks d sl) as [r dc4] eqn:Hadd;
        destruct (addStateLocks_frame _ _ _ _ Hadd) as (_ & Hf4 & _)
    end.
    cbn in Hf4. intros f Hfl. apply Hnf. rewrite <- Hf, <- Hf4. now destruct r.
Qed.

(** In a context on which no [UpsertStates] call carried a state id
    twice, neither write operation holds a state id twice. *)
Lemma reachedDistinct_noDuplicates dc :
  reachedDistinct dc -> noDuplicateWrites dc.
Proof.
  induction 1 as
    [ctxId domain contract|dc ups _ IH Hd|dc ns _ IH|dc locks _ IH|dc s q _ IH|dc s q _ IH
    |dc txs _ IH|dc wait _ IH|dc op err _ IH|dc wait _ IH|dc _ IH].
  - split; [constructor|discriminate].
  - now apply UpsertStates_noDuplicates.
  - eapply sameWrites_noDuplicates; [apply UpsertNullifiers_sameWrites|exact IH].
  - eapply sameWrites_noDuplicates; [apply AddStateLocks_sameWrites|exact IH].
  - eapply sameWrites_noDuplicates; [apply FindAvailableStates_sameWrites|exact IH].
  - eapply sameWrites_noDuplicates; [apply FindAvailableNullifiers_sameWrites|exact IH].
  - eapply sameWrites_noDuplicates; [|exact IH].
    unfold ClearTransactions. destruct (clearLocks _ _ _). now split.
  - destruct IH as [Hnu Hnf]. unfold InitiateFlush.
    destruct (clearExistingFlush wait dc) as [[e|] dc1] eqn:Hclear;
      destruct (clearExistingFlush_writes _ _ _ _ Hclear) as [Hu1 Hf1]; cbn [snd].
    + apply (sameWrites_noDuplicates dc); [|now split].
      split; [now rewrite !theUnFlushed_states, Hu1|exact Hf1].
    + split; [constructor|]. cbn. rewrite Hu1. intros f Hf.
      destruct (unFlushed dc) as [u|] eqn:Hu; [|discriminate].
      injection Hf as <-. unfold theUnFlushed in Hnu. rewrite Hu in Hnu. exact Hnu.
  - eapply sameWrites_noDuplicates; [|exact IH].
    unfold doFlush. destruct (flushing dc) as [f|] eqn:Hf; [|now rewrite Hf].
    destruct (_ && _); cbn; now rewrite ?Hf.
  - unfold Reset. destruct (clearExistingFlush wait dc). split; [constructor|discriminate].
  - exact IH.
Qed.

(** C7, as the code has it.  On a context on which no [UpsertStates]
    call so far carried a state id twice, after a call whose states have
    pairwise distinct ids the unflushed write list holds at most one
    entry per id.  When the call goes through, every state of the call is
    on the list, and an older entry stays exactly when no state of the
    call has its id.  The write operation that the next [InitiateFlush]
    hands to the writer holds that list, so no state id twice. *)
Theorem UpsertStates_last_write_wins (dc : domainContext) (stateUpserts : list StateUpsert) :
  reachedDistinct dc ->
  distinctIds GetSchema ProcessState dc stateUpserts ->
  let dc' := snd (UpsertStates GetSchema ProcessState dc stateUpserts) in
  NoDup (writeIds (theUnFlushed dc')) /\
  (forall withValues stateLocks toMakeAvailable,
     processUpserts GetSchema ProcessState (domainName dc) (contractAddress dc)
       (allocated dc) stateUpserts = Ok (withValues, stateLocks, toMakeAvailable) ->
     fst (checkResetInitUnFlushed dc) = None ->
     (forall s, s ∈ withValues -> s ∈ wo_states (theUnFlushed dc')) /\
     (forall e, e ∈ wo_states (theUnFlushed dc') ->
        e ∈ withValues \/
        (e ∈ wo_states (theUnFlushed dc) /\
         ID (state e) ∉ (fun s => ID (state s)) <$> withValues))) /\
  (forall wait, fst (InitiateFlush wait dc') = None ->
     match flushing (snd (InitiateFlush wait dc')) with
     | Some f => wo_states f = wo_states (theUnFlushed dc') /\ NoDup (writeIds f)
     | None => wo_states (theUnFlushed dc') = []
     end).
Proof.
  intros Hreached Hdistinct dc'.
  destruct (reachedDistinct_noDuplicates dc Hreached) as [Hold _].
  assert (Hreached' : reachedDistinct dc') by now apply distinct_UpsertStates.
  destruct (reachedDistinct_noDuplicates dc' Hreached') as [Hnd _].
  split; [exact Hnd|]. split.
  - intros withValues stateLocks toMakeAvailable Hproc Hcheck.
    destruct (UpsertStates_replaces GetSchema ProcessState dc stateUpserts withValues
                stateLocks toMakeAvailable Hproc Hcheck (Hdistinct _ _ _ Hproc) Hold)
      as (_ & Hin & Hout).
    split; [exact Hin|exact Hout].
  - intros wait Hflush. unfold InitiateFlush in *.
    destruct (clearExistingFlush wait dc') as [[e|] dc1] eqn:Hclear; [discriminate|].
    destruct (clearExistingFlush_writes _ _ _ _ Hclear) as [Hu1 _].
    cbn. rewrite Hu1. unfold writeIds, theUnFlushed in *.
    destruct (unFlushed dc') as [u|]; cbn; [|reflexivity].
    split; [reflexivity|exact Hnd].
Qed.

End WriteList.

Lemma contextWithS1_distinct :
  reachedDistinct sampleGetSchema sampleProcessState sampleEvalQuery sampleRecoverLabels
    sampleSort emptyFindStates emptyFindNullifiers contextWithS1.
Proof.
  apply distinct_UpsertStates; [apply distinct_new|].
  intros wv sl av H. injection H as <- _ _. apply NoDup_singleton.
Qed.

Lemma upsertS1_distinct :
  distinctIds sampleGetSchema sampleProcessState contextWithS1
    [mkUpsert "s1" "coin" "bob" None].
Proof. intros wv sl av H. injection H as <- _ _. apply NoDup_singleton. Qed.

(** The theorem on [contextWithS1], upserting "s1" again with new data:
    the list still holds "s1" once, and the write operation handed to the
    writer holds that list. *)
Lemma UpsertStates_last_write_wins_witness :
  let dc' := snd (sampleUpsertStates contextWithS1 [mkUpsert "s1" "coin" "bob" None]) in
  NoDup (writeIds (theUnFlushed dc')) /\
  match flushing (snd (InitiateFlush ContextDone dc')) with
  | Some f => wo_states f = wo_states (theUnFlushed dc') /\ NoDup (writeIds f)
  | None => wo_states (theUnFlushed dc') = []
  end.
Proof.
  cbv zeta.
  destruct (UpsertStates_last_write_wins sampleGetSchema sampleProcessState
              sampleEvalQuery sampleRecoverLabels sampleSort emptyFindStates
              emptyFindNullifiers
              contextWithS1 [mkUpsert "s1" "coin" "bob" None]
              contextWithS1_distinct upsertS1_distinct)
    as (Hnd & _ & Hflush).
  split; [exact Hnd|]. apply (Hflush ContextDone). reflexivity.
Defined.

(** On [contextWithS1] the second upsert of "s1" has replaced the first. *)
Example UpsertStates_replaces_s1 :
  wo_states (theUnFlushed
               (snd (sampleUpsertStates contextWithS1 [mkUpsert "s1" "coin" "bob" None])))
  = [mkLabelled (mkState 1 "s1" "coin" "bob") [("owner", "bob")]].
Proof. reflexivity. Qed.

End StateMgrFacts.

Module HexFiltersFacts.
Import Filters HexFilters.

Lemma fromHexChar_bound c a : fromHexChar c = Some a -> (a < 16)%N.
Proof.
  unfold fromHexChar.
  repeat match goal with |- context [if ?b then _ else _] => destruct b eqn:? end;
    intros [= <-]; try discriminate;
    repeat match goal with
           | H : (_ && _) = true |- _ => apply andb_prop in H as [? ?]
           | H : (_ <=? _)%N = true |- _ => apply N.leb_le in H
           end; lia.
Qed.

Lemma hexDigit_fromHexChar c a : fromHexChar c = Some a -> hexDigit a = toLower c.
Proof.
  destruct c as [[|] [|] [|] [|] [|] [|] [|] [|]]; vm_compute; intros [= <-]; reflexivity.
Qed.

Lemma nibbles a b :
  (a < 16)%N -> (b < 16)%N ->
  N.shiftr (N.lor (N.shiftl a 4) b) 4 = a /\ N.land (N.lor (N.shiftl a 4) b) 15 = b.
Proof.
  intros Ha Hb.
  assert (H : forallb (fun a => forallb (fun b =>
                 (N.shiftr (N.lor (N.shiftl a 4) b) 4 =? a)%N
                 && (N.land (N.lor (N.shiftl a 4) b) 15 =? b)%N)
                 (map N.of_nat (seq 0 16))) (map N.of_nat (seq 0 16)) = true)
    by (vm_compute; reflexivity).
  rewrite forallb_forall in H.
  assert (Hin : forall x, (x < 16)%N -> In x (map N.of_nat (seq 0 16))).
  { intros x Hx. apply in_map_iff. exists (N.to_nat x). split; [lia|].
    apply in_seq. lia. }
  specialize (H a (Hin a Ha)). rewrite forallb_forall in H.
  specialize (H b (Hin b Hb)). apply andb_prop in H as [H1 H2].
  apply N.eqb_eq in H1, H2. auto.
Qed.

(** A string of pairs: induction two characters at a time. *)
Lemma string_pairs_ind (P : string -> Prop) :
  P "" -> (forall c, P (String c "")) ->
  (forall p q rest, P rest -> P (String p (String q rest))) ->
  forall s, P s.
Proof.
  intros H0 H1 H2.
  assert (H : forall s, P s /\ forall c, P (String c s)).
  { induction s as [|c s [IH1 IH2]]; split; auto. }
  intros s. apply H.
Qed.

(** [Decode] succeeds exactly on the hex strings of even length, and
    [EncodeToString] of the bytes is the string in lower case. *)
Lemma Decode_spec s :
  match Decode s with
  | (bytes, None) =>
      isHex s = true /\ Nat.even (String.length s) = true /\
      EncodeToString bytes = lowerString s
  | (_, Some _) => isHex s = false \/ Nat.even (String.length s) = false
  end.
Proof.
  induction s as [| c | p q rest IH] using string_pairs_ind.
  - cbn. auto.
  - cbn [Decode]. destruct (fromHexChar c); right; reflexivity.
  - cbn [Decode]. destruct (fromHexChar p) as [a|] eqn:Hp.
    2:{ left. cbn [isHex]. rewrite Hp. reflexivity. }
    destruct (fromHexChar q) as [b|] eqn:Hq.
    2:{ left. cbn [isHex]. rewrite Hp, Hq. reflexivity. }
    destruct (Decode rest) as [bytes [e|]].
    + destruct IH as [IH|IH]; [left|right].
      * cbn [isHex]. rewrite IH. now rewrite !andb_false_r.
      * exact IH.
    + destruct IH as (IH1 & IH2 & IH3). repeat split.
      * cbn [isHex]. rewrite Hp, Hq, IH1. reflexivity.
      * exact IH2.
      * cbn [EncodeToString lowerString].
        destruct (nibbles a b (fromHexChar_bound _ _ Hp) (fromHexChar_bound _ _ Hq))
          as [-> ->].
        now rewrite (hexDigit_fromHexChar _ _ Hp), (hexDigit_fromHexChar _ _ Hq), IH3.
Qed.

Lemma isHex_lower s : isHex s = true -> isHex (lowerString s) = true.
Proof.
  induction s as [|c s IH]; [reflexivity|]. cbn [isHex lowerString].
  intros H. apply andb_prop in H as [Hc Hs]. rewrite (IH Hs), andb_true_r.
  revert Hc. destruct c as [[|] [|] [|] [|] [|] [|] [|] [|]]; vm_compute; auto.
Qed.

Lemma lowerString_length s : String.length (lowerString s) = String.length s.
Proof. induction s as [|c s IH]; cbn; congruence. Qed.

Lemma lowerString_hex_idem s :
  isHex s = true -> lowerString (lowerString s) = lowerString s.
Proof.
  induction s as [|c s IH]; [reflexivity|]. cbn [isHex lowerString].
  intros H. apply andb_prop in H as [Hc Hs]. rewrite (IH Hs). f_equal.
  clear. destruct c as [[|] [|] [|] [|] [|] [|] [|] [|]]; reflexivity.
Qed.

(** A hex string does not start with "0x". *)
Lemma TrimPrefix_hex s : isHex s = true -> TrimPrefix s "0x" = s.
Proof.
  destruct s as [|p [|q rest]]; [reflexivity| |].
  { intros _. unfold TrimPrefix. cbn [stripPrefix]. now destruct (Ascii.eqb "0" p). }
  cbn [isHex]. intros H. apply andb_prop in H as [_ H]. apply andb_prop in H as [Hq _].
  unfold TrimPrefix. cbn [stripPrefix].
  destruct (Ascii.eqb "0" p); [|reflexivity].
  destruct (Ascii.eqb_spec "x"%char q) as [<-|]; [|reflexivity].
  vm_compute in Hq. discriminate Hq.
Qed.

(** X1.  [HexBytesField.SQLValue] on a JSON string: with one leading "0x"
    taken off, the string must consist of hex digits and have even length,
    and the value stored is that string in lower case; anything else is an
    invalid-hex error.  So "0xABcd", "abcd" and "ABCD" all give "abcd".
    JSON null gives NULL, and a JSON boolean is refused. *)
Theorem HexBytes_SQLValue_canonical (v : string) :
  let t := TrimPrefix v "0x" in
  (isHex t = true /\ Nat.even (String.length t) = true ->
   HexBytes_SQLValue (jsonString v) = Ok (VString (lowerString t))) /\
  (forall h, HexBytes_SQLValue (jsonString v) = Ok (VString h) ->
             isHex t = true /\ Nat.even (String.length t) = true /\ h = lowerString t) /\
  (isHex t = false \/ Nat.even (String.length t) = false ->
   exists cause, HexBytes_SQLValue (jsonString v) = Err (MsgFiltersValueInvalidHex cause)) /\
  HexBytes_SQLValue jsonNull = Ok NULL /\
  (forall b, HexBytes_SQLValue (jsonBool b) = Err MsgFiltersValueInvalidForString).
Proof.
  intros t. unfold HexBytes_SQLValue, DecodeString. cbn [jsonString IsNil Unmarshal].
  fold t. pose proof (Decode_spec t) as H.
  destruct (Decode t) as [bytes [e|]].
  - split; [|split; [|split; [|split]]]; try reflexivity.
    + intros [H1 H2]. destruct H; congruence.
    + intros h; discriminate.
    + intros _. now exists e.
  - destruct H as (H1 & H2 & H3).
    split; [|split; [|split; [|split]]]; try reflexivity.
    + intros _. now rewrite H3.
    + intros h [= <-]. auto.
    + intros [?|?]; congruence.
Qed.

(** X2.  The value [HexBytesField.SQLValue] stores is a fixed point: given
    back as a JSON string it is stored unchanged. *)
Theorem HexBytes_SQLValue_idempotent (v h : string) :
  HexBytes_SQLValue (jsonString v) = Ok (VString h) ->
  HexBytes_SQLValue (jsonString h) = Ok (VString h).
Proof.
  unfold HexBytes_SQLValue, DecodeString. cbn [jsonString IsNil Unmarshal].
  pose proof (Decode_spec (TrimPrefix v "0x")) as H.
  destruct (Decode (TrimPrefix v "0x")) as [bytes [e|]]; [discriminate|].
  destruct H as (H1 & H2 & H3). intros [= <-]. rewrite H3.
  rewrite (TrimPrefix_hex _ (isHex_lower _ H1)).
  pose proof (Decode_spec (lowerString (TrimPrefix v "0x"))) as H'.
  destruct (Decode (lowerString (TrimPrefix v "0x"))) as [bytes' [e'|]].
  - destruct H' as [H'|H'].
    + rewrite (isHex_lower _ H1) in H'. discriminate.
    + rewrite lowerString_length, H2 in H'. discriminate.
  - destruct H' as (_ & _ & ->). now rewrite (lowerString_hex_idem _ H1).
Qed.

Lemma HexBytes_SQLValue_idempotent_witness :
  HexBytes_SQLValue (jsonString "abcd") = Ok (VString "abcd").
Proof.
  apply (HexBytes_SQLValue_idempotent "0xABcd" "abcd"). reflexivity.
Defined.

Example HexBytes_SQLValue_samples :
  HexBytes_SQLValue (jsonString "0xABcd") = Ok (VString "abcd") /\
  HexBytes_SQLValue (jsonString "0X12") = Err (MsgFiltersValueInvalidHex (InvalidByteError "X")) /\
  HexBytes_SQLValue (jsonString "0x0x12") = Err (MsgFiltersValueInvalidHex (InvalidByteError "x")) /\
  HexBytes_SQLValue (jsonString "abc") = Err (MsgFiltersValueInvalidHex ErrLength) /\
  HexBytes_SQLValue (jsonString "") = Ok (VString "").
Proof. repeat split. Qed.

End HexFiltersFacts.

Module SnarkFacts.
Import Snark.

(** X3.  [validateInputs] accepts a proving request exactly when it has at
    least one input and one output, as many input values and salts as
    input commitments, and as many output owners as output values. *)
Theorem validateInputs_accepts (inputs : ProvingRequestCommon) :
  validateInputs inputs = None <->
  (0 < length (InputCommitments inputs))%nat /\
  length (InputValues inputs) = length (InputCommitments inputs) /\
  length (InputSalts inputs) = length (InputCommitments inputs) /\
  (0 < length (OutputValues inputs))%nat /\
  length (OutputOwners inputs) = length (OutputValues inputs).
Proof.
  unfold validateInputs.
  repeat match goal with
         | |- context [(?a =? ?b)%nat] => destruct (Nat.eqb_spec a b)
         end; cbn [negb orb]; split; try discriminate; try lia; try reflexivity.
Qed.

End SnarkFacts.

Module TxFunctionFacts.
Import TxFunction.

Section Facts.

Variable Signature : Entry -> string.
Variable FunctionSelector : Entry -> string.
Variables (requiredFunction : string) (to : option string).

Local Abbreviation isMatch := (isMatch Signature FunctionSelector requiredFunction to).
Local Abbreviation pickLoop := (pickLoop Signature FunctionSelector requiredFunction to).

(** Once a signature is held, the next match ends the loop. *)
Lemma pickLoop_holding entries : forall sel sig,
  sig <> "" ->
  pickLoop entries sel sig =
    match filter (fun e => isMatch e) entries with
    | [] => Ok (sel, sig)
    | e :: _ => Err (MsgTxMgrFunctionMultiMatch sig (Signature e))
    end.
Proof.
  induction entries as [|e rest IH]; intros sel sig Hsig; [reflexivity|].
  cbn [pickLoop]. rewrite filter_cons.
  destruct (isMatch e) eqn:Hm.
  - rewrite decide_True by exact I.
    destruct (String.eqb_spec sig ""); [contradiction|reflexivity].
  - rewrite decide_False by (intros []). now apply IH.
Qed.

Lemma pickLoop_empty entries : forall sel,
  (forall e, e ∈ entries -> isMatch e = true -> Signature e <> "") ->
  pickLoop entries sel "" =
    match filter (fun e => isMatch e) entries with
    | [] => Ok (sel, "")
    | [e] => Ok (Some e, Signature e)
    | e1 :: e2 :: _ => Err (MsgTxMgrFunctionMultiMatch (Signature e1) (Signature e2))
    end.
Proof.
  induction entries as [|e rest IH]; intros sel Hsig; [reflexivity|].
  cbn [pickLoop]. rewrite filter_cons.
  destruct (isMatch e) eqn:Hm.
  - rewrite decide_True by exact I. cbn [String.eqb negb].
    rewrite pickLoop_holding by (apply Hsig; [left|exact Hm]).
    now destruct (filter _ rest).
  - rewrite decide_False by (intros []).
    apply IH. intros e' He'. apply Hsig. now right.
Qed.

End Facts.

(** X4.  [pickFunction] refuses a function name without a [to] address;
    otherwise, the entries of the ABI that match having signatures, it
    returns the one entry that matches (every constructor for a deploy;
    for an invoke the functions with the selector, the signature or the
    name asked for, or every function when none is asked for), fails with
    the two first signatures when more than one matches, and when none
    matches falls back to the default constructor for a deploy and fails
    for an invoke. *)
Theorem pickFunction_unique_match
  (Signature FunctionSelector : Entry -> string)
  (pa : StoredABI) (requiredFunction : string) (to : option string) :
  (forall e, e ∈ ABI pa ->
     isMatch Signature FunctionSelector requiredFunction to e = true ->
     Signature e <> "") ->
  pickFunction Signature FunctionSelector pa requiredFunction to =
    if negb (String.eqb requiredFunction "") && negb (bool_decide (is_Some to))
    then Err MsgTxMgrFunctionWithoutTo
    else
      match filter (fun e => isMatch Signature FunctionSelector requiredFunction to e)
                   (ABI pa) with
      | [] =>
          match to with
          | None =>
              Ok (mkResolved (Hash pa) defaultConstructor (Signature defaultConstructor))
          | Some _ => Err MsgTxMgrFunctionNoMatch
          end
      | [e] => Ok (mkResolved (Hash pa) e (Signature e))
      | e1 :: e2 :: _ =>
          Err (MsgTxMgrFunctionMultiMatch (Signature e1) (Signature e2))
      end.
Proof.
  intros Hsig. unfold pickFunction.
  destruct (negb (String.eqb requiredFunction "") && negb (bool_decide (is_Some to)));
    [reflexivity|].
  rewrite pickLoop_empty by exact Hsig.
  destruct (filter _ (ABI pa)) as [|e1 [|e2 rest]] eqn:Hf; [reflexivity| |reflexivity].
  assert (He : e1 ∈ filter (fun e => isMatch Signature FunctionSelector requiredFunction to e)
                           (ABI pa)) by (rewrite Hf; left).
  apply list_elem_of_filter in He as [Hm He].
  destruct (String.eqb_spec (Signature e1) "") as [E|E]; [|reflexivity].
  exfalso. apply (Hsig e1 He); [|exact E]. now apply Is_true_true_1.
Qed.

Lemma pickFunction_unique_match_witness :
  pickFunction sampleSignature sampleSelector sampleABI "transfer" (Some "0xc0") =
    Ok (mkResolved "0xabi1" (mkEntry Function "transfer" "address,uint256")
          "transfer(address,uint256)").
Proof.
  rewrite (pickFunction_unique_match sampleSignature sampleSelector sampleABI
             "transfer" (Some "0xc0")).
  - reflexivity.
  - intros e _ _. unfold sampleSignature. destruct (Name e); discriminate.
Defined.

(** By selector in either case, by signature, with no name (two
    functions match), and a deploy. *)
Example pickFunction_samples :
  pickFunction sampleSignature sampleSelector sampleABI "0xA9059CBB" (Some "0xc0") =
    Ok (mkResolved "0xabi1" (mkEntry Function "transfer" "address,uint256")
          "transfer(address,uint256)") /\
  pickFunction sampleSignature sampleSelector sampleABI "mint(address,uint256)"
    (Some "0xc0") =
    Ok (mkResolved "0xabi1" (mkEntry Function "mint" "address,uint256")
          "mint(address,uint256)") /\
  pickFunction sampleSignature sampleSelector sampleABI "" (Some "0xc0") =
    Err (MsgTxMgrFunctionMultiMatch "transfer(address,uint256)" "mint(address,uint256)") /\
  pickFunction sampleSignature sampleSelector sampleABI "burn" (Some "0xc0") =
    Err MsgTxMgrFunctionNoMatch /\
  pickFunction sampleSignature sampleSelector sampleABI "" None =
    Ok (mkResolved "0xabi1" (mkEntry Constructor "" "uint256") "(uint256)") /\
  pickFunction sampleSignature sampleSelector sampleABI "mint" None =
    Err MsgTxMgrFunctionWithoutTo.
Proof. repeat split. Qed.

End TxFunctionFacts.

Module TxInternalFacts.
Import TxMgr TxInternal.

Section Facts.

Variable resolvePrivateDomain : TransactionInput -> option txError.
Variable getABIByHash : string -> result txError (option StoredABI).
Variable UpsertABI : list string -> result txError (option StoredABI).
Variable pickFunction :
  StoredABI -> string -> option string -> result txError ResolvedFunction.
Variable validateInputs : ResolvedFunction -> TransactionInput -> SubmitMode -> option txError.

Local Abbreviation resolveNewTransaction :=
  (resolveNewTransaction resolvePrivateDomain getABIByHash UpsertABI pickFunction
     validateInputs).
Local Abbreviation resolveAll :=
  (resolveAll resolvePrivateDomain getABIByHash UpsertABI pickFunction validateInputs).




End Facts.



(** That batch, run: the public transaction is refused after the ABI of
    the private one has been upserted in the database transaction. *)
Example processNewTransactions_refused_after_upsert :
  processNewTransactions passes_all sampleGetABIByHash sampleUpsertABI
    samplePickFunction (fun _ _ _ => None) passes_all passes_all passes_all
    (fun _ => "id-2") (mkDBTX (mkDB [] [] []) [] [] true)
    [input_k1; mkInput "" TransactionTypePublic [] None None "" None "deploy()"]
    SubmitModeExternal
  = (Err MsgTxMgrPrivateOnlyForPrepare,
     mkDBTX (mkDB [] [] [UpsertABICall ["transfer(address,uint256)"]]) [] [] true).
Proof. reflexivity. Qed.

(** ** Reconciling ids after an insert that skipped conflicts *)

Lemma matchRows_key tx rows : itx_IdempotencyKey (matchRows tx rows).1 = itx_IdempotencyKey tx.
Proof.
  revert tx. induction rows as [|row rest IH]; intros tx; [reflexivity|].
  cbn [matchRows]. destruct (keyMatches tx row).
  - specialize (IH (mkInternal (stx_ID row) (stx_Created row) (itx_IdempotencyKey tx))).
    destruct (matchRows _ rest). exact IH.
  - apply IH.
Qed.

(** No row holds the key: nothing is counted and nothing written. *)
Lemma matchRows_none tx rows :
  Some (itx_IdempotencyKey tx) ∉ stx_IdempotencyKey <$> rows ->
  matchRows tx rows = (tx, 0%nat).
Proof.
  revert tx. induction rows as [|row rest IH]; intros tx Hno; [reflexivity|].
  rewrite fmap_cons in Hno. apply not_elem_of_cons in Hno as [Hne Hno].
  cbn [matchRows]. unfold keyMatches.
  destruct (stx_IdempotencyKey row) as [k|]; [|now apply IH].
  destruct (String.eqb_spec (itx_IdempotencyKey tx) k) as [E|E]; [congruence|].
  now apply IH.
Qed.

Lemma omap_keys_elem (rows : list storedTx) k :
  Some k ∈ stx_IdempotencyKey <$> rows <-> k ∈ omap stx_IdempotencyKey rows.
Proof.
  rewrite list_elem_of_fmap, list_elem_of_omap. split.
  - intros (row & E & Hin). eauto.
  - intros (row & Hin & E). eauto.
Qed.

(** With unique keys a transaction matches at most one row, and takes its
    id and creation time. *)
Lemma matchRows_unique tx rows :
  NoDup (omap stx_IdempotencyKey rows) ->
  ((Some (itx_IdempotencyKey tx) ∉ stx_IdempotencyKey <$> rows) /\
   matchRows tx rows = (tx, 0%nat)) \/
  (exists tx', matchRows tx rows = (tx', 1%nat) /\ finalizedFrom rows tx tx').
Proof.
  revert tx. induction rows as [|row rest IH]; intros tx Hnd.
  { left. split; [|reflexivity]. rewrite fmap_nil. apply not_elem_of_nil. }
  cbn [matchRows]. unfold keyMatches.
  destruct (stx_IdempotencyKey row) as [k|] eqn:Hk.
  - cbn [omap list_omap] in Hnd; rewrite Hk in Hnd. apply NoDup_cons in Hnd as [Hfresh Hnd].
    destruct (String.eqb_spec (itx_IdempotencyKey tx) k) as [E|E].
    + right. subst k.
      rewrite matchRows_none
        by (cbn [itx_IdempotencyKey]; now rewrite omap_keys_elem).
      eexists. split; [reflexivity|]. split; [reflexivity|].
      exists row. repeat split; auto. left.
    + destruct (IH tx Hnd) as [[Hno Hm]|(tx' & Hm & Hk' & row' & Hin & Hrow)].
      * left. split; [|exact Hm]. rewrite fmap_cons, Hk.
        apply not_elem_of_cons. split; [congruence|exact Hno].
      * right. exists tx'. split; [exact Hm|]. split; [exact Hk'|].
        exists row'. split; [now right|exact Hrow].
  - cbn [omap list_omap] in Hnd; rewrite Hk in Hnd.
    destruct (IH tx Hnd) as [[Hno Hm]|(tx' & Hm & Hk' & row' & Hin & Hrow)].
    + left. split; [|exact Hm]. rewrite fmap_cons, Hk.
      apply not_elem_of_cons. split; [congruence|exact Hno].
    + right. exists tx'. split; [exact Hm|]. split; [exact Hk'|].
      exists row'. split; [now right|exact Hrow].
Qed.

Lemma matchAll_unique rows txis :
  NoDup (omap stx_IdempotencyKey rows) ->
  (matchAll txis rows).2 <= length txis /\
  length (matchAll txis rows).1 = length txis /\
  ((matchAll txis rows).2 = length txis ->
   Forall2 (finalizedFrom rows) txis (matchAll txis rows).1) /\
  ((forall tx, tx ∈ txis -> Some (itx_IdempotencyKey tx) ∈ stx_IdempotencyKey <$> rows) ->
   (matchAll txis rows).2 = length txis).
Proof.
  intros Hnd. induction txis as [|tx rest IH].
  { cbn. repeat split; auto. }
  destruct IH as (IHle & IHlen & IHall & IHfound).
  cbn [matchAll].
  destruct (matchRows_unique tx rows Hnd) as [[Hno ->]|(tx' & -> & Hfin)];
    destruct (matchAll rest rows) as [rest' m]; cbn [fst snd length] in *.
  - repeat split; [lia|lia| |].
    + intros E. lia.
    + intros Hall. exfalso. apply Hno, Hall. left.
  - repeat split; [lia|lia| |].
    + intros E. constructor; [exact Hfin|]. apply IHall. lia.
    + intros Hall. f_equal. apply IHfound. intros tx0 Hin. apply Hall. now right.
Qed.

(** X6.  [UpsertInternalPrivateTxsFinalizeIDs], when the insert skipped
    conflicting rows: the rows found by idempotency key having distinct
    keys, the call succeeds exactly when every transaction has a stored
    row with its key, and then every transaction carries the id and the
    creation time of that row; otherwise it fails with the mismatch
    error.  When no row was skipped the transactions are left as the
    insert stamped them. *)
Theorem UpsertInternalPrivateTxsFinalizeIDs_reconciles
  (insertTransactions : list internalTx -> result upsertError Z * list internalTx)
  (Find : list string -> result upsertError (list storedTx))
  (txis txis1 : list internalTx) (insertCount : Z) (txsInDB : list storedTx) :
  insertTransactions txis = (Ok insertCount, txis1) ->
  Find (map itx_IdempotencyKey txis1) = Ok txsInDB ->
  NoDup (omap stx_IdempotencyKey txsInDB) ->
  let found :=
    forall tx, tx ∈ txis1 ->
      Some (itx_IdempotencyKey tx) ∈ stx_IdempotencyKey <$> txsInDB in
  let r := UpsertInternalPrivateTxsFinalizeIDs insertTransactions Find txis in
  (insertCount = Z.of_nat (length txis1) -> r = (None, txis1)) /\
  (insertCount <> Z.of_nat (length txis1) ->
   (found -> r.1 = None /\ Forall2 (finalizedFrom txsInDB) txis1 r.2) /\
   (r.1 = None -> found) /\
   (~ found ->
    exists matched,
      r.1 = Some (MsgTxMgrPrivateInsertErrorMismatch (length txsInDB) matched
                    (length txis1)) /\ (matched < length txis1)%nat)).
Proof.
  intros Hins Hfind Hnd found r. subst r.
  unfold UpsertInternalPrivateTxsFinalizeIDs. rewrite Hins.
  destruct (Z.eqb_spec insertCount (Z.of_nat (length txis1))) as [E|E]; cbn [negb].
  { split; [reflexivity|contradiction]. }
  split; [contradiction|]. intros _. rewrite Hfind.
  destruct (matchAll_unique txsInDB txis1 Hnd) as (Hle & Hlen & Hall & Hfound).
  destruct (matchAll txis1 txsInDB) as [txis2 matchCount] eqn:Hm. cbn [fst snd] in *.
  assert (Hconv : matchCount = length txis1 -> found).
  { intros Hc tx Hin. specialize (Hall Hc).
    apply list_elem_of_lookup in Hin as [i Hi].
    destruct (Forall2_lookup_l _ _ _ _ _ Hall Hi) as (tx' & _ & _ & row & Hrow & Hk & _).
    apply list_elem_of_fmap. exists row. auto. }
  destruct (Nat.eqb_spec matchCount (length txis1)) as [Hc|Hc]; cbn [negb fst snd].
  - repeat split; auto. intros Hnot. exfalso. auto.
  - split; [|split].
    + intros Hf. exfalso. auto.
    + discriminate.
    + intros _. exists matchCount. split; [reflexivity|lia].
Qed.

Lemma UpsertInternalPrivateTxsFinalizeIDs_reconciles_witness :
  (UpsertInternalPrivateTxsFinalizeIDs (fun txis => (Ok 1%Z, txis))
     (fun _ => Ok sampleStored) sampleTxis).1 = None /\
  Forall2 (finalizedFrom sampleStored) sampleTxis
    (UpsertInternalPrivateTxsFinalizeIDs (fun txis => (Ok 1%Z, txis))
       (fun _ => Ok sampleStored) sampleTxis).2.
Proof.
  apply (UpsertInternalPrivateTxsFinalizeIDs_reconciles (fun txis => (Ok 1%Z, txis))
           (fun _ => Ok sampleStored) sampleTxis sampleTxis 1%Z sampleStored
           eq_refl eq_refl).
  - apply (bool_decide_eq_true_1 _). vm_compute. reflexivity.
  - cbn. lia.
  - intros tx Hin. apply list_elem_of_In in Hin. cbn in Hin.
    destruct Hin as [<-|[<-|[]]]; cbn; [left|right; left].
Defined.

Example UpsertInternalPrivateTxsFinalizeIDs_sample :
  UpsertInternalPrivateTxsFinalizeIDs (fun txis => (Ok 1%Z, txis))
    (fun _ => Ok sampleStored) sampleTxis
  = (None, [mkInternal "old-1" 50 "k1"; mkInternal "new-2" 100 "k2"]).
Proof. reflexivity. Qed.

End TxInternalFacts.

Module PeersFacts.
Import Peers.

Section Facts.

Variable transport : Type.
Variable ValidateSafeCharsStartEndAlphaNum : string -> option string.
Variable GetNodeTransports : string -> result connectError (list registeredTransport).
Variable ActivateNode : transport -> string -> string -> result connectError string.
Variable parsePeerInfo : string -> option string.

Local Abbreviation startSender :=
  (startSender transport GetNodeTransports ActivateNode parsePeerInfo).
Local Abbreviation connectPeer :=
  (connectPeer transport GetNodeTransports ActivateNode parsePeerInfo).
Local Abbreviation getPeer :=
  (getPeer transport ValidateSafeCharsStartEndAlphaNum GetNodeTransports ActivateNode
     parsePeerInfo).
Local Abbreviation peersNamed := (peersNamed transport ValidateSafeCharsStartEndAlphaNum).

(** The loop keeps what its last turn wrote. *)
Lemma selectTransport_last (tm : transportManager transport) registered current :
  selectTransport transport tm registered current =
    match last registered with
    | Some rtd => (transportsByName tm !! rt_Transport rtd, rt_Details rtd)
    | None => (current, "")
    end.
Proof.
  unfold selectTransport.
  destruct registered as [|rtd rest] using rev_ind; [reflexivity|].
  now rewrite fold_left_app, last_snoc.
Qed.

Lemma startSender_frame (tm : transportManager transport) p r p' :
  startSender tm p = (r, p') ->
  Name p' = Name p /\
  (r <> None -> senderStarted p' = senderStarted p /\ OutboundError p' = OutboundError p) /\
  (r = None -> senderStarted p' = true).
Proof.
  unfold Peers.startSender.
  destruct (GetNodeTransports (Name p)) as [registered|err].
  2:{ intros [= <- <-]. split; [|split]; auto. discriminate. }
  destruct (selectTransport _ _ _ _) as [[t|] details].
  - destruct (ActivateNode t (Name p) details) as [json|err]; intros [= <- <-];
      (split; [|split]); auto; try discriminate. intros H. now contradiction H.
  - intros [= <- <-]. split; [|split]; auto. discriminate.
Qed.

Lemma put_named (tm : transportManager transport) nodeName p :
  peersNamed tm -> Name p = nodeName -> nodeName <> localNodeName tm ->
  ValidateSafeCharsStartEndAlphaNum nodeName = None ->
  peersNamed (mkTM (localNodeName tm) (<[nodeName := p]> (peers tm))
                (transportsByName tm)).
Proof.
  intros Hnamed Hname Hloc Hvalid k q Hk. cbn [peers localNodeName] in *.
  destruct (decide (k = nodeName)) as [-> |Hne].
  - rewrite lookup_insert_eq in Hk. inversion Hk; subst. auto.
  - rewrite lookup_insert_ne in Hk by congruence. now apply Hnamed.
Qed.

End Facts.

(** X7.  [startSender] connects over the transport of the last entry the
    registry lists for the node: when no transport is configured locally
    under the name of that entry it fails, naming all the registered
    transports, whether or not an earlier entry names a configured
    transport; and when it succeeds, the peer holds the transport
    configured under that name and its sender is started. *)
Theorem startSender_uses_last_registered
  (transport : Type)
  (GetNodeTransports : string -> result connectError (list registeredTransport))
  (ActivateNode : transport -> string -> string -> result connectError string)
  (parsePeerInfo : string -> option string)
  (tm : transportManager transport) (p : peer transport)
  (registered : list registeredTransport) (rtd : registeredTransport) :
  GetNodeTransports (Name p) = Ok registered ->
  last registered = Some rtd ->
  (transportsByName tm !! rt_Transport rtd = None ->
   startSender transport GetNodeTransports ActivateNode parsePeerInfo tm p =
     (Some (MsgTransportNoTransportsConfiguredForNode (Name p)
              (map rt_Transport registered)),
      set_transport transport None p)) /\
  (forall p',
     startSender transport GetNodeTransports ActivateNode parsePeerInfo tm p = (None, p') ->
     exists t json,
       transportsByName tm !! rt_Transport rtd = Some t /\
       ActivateNode t (Name p) (rt_Details rtd) = Ok json /\
       p_transport p' = Some t /\ senderStarted p' = true /\ Name p' = Name p).
Proof.
  intros Hreg Hlast. unfold startSender. rewrite Hreg, selectTransport_last, Hlast.
  split.
  - intros ->. reflexivity.
  - intros p'. destruct (transportsByName tm !! rt_Transport rtd) as [t|]; [|discriminate].
    destruct (ActivateNode t (Name p) (rt_Details rtd)) as [json|err] eqn:Hact;
      [|discriminate].
    intros [= <-]. exists t, json. repeat split; auto.
Qed.

Lemma startSender_uses_last_registered_witness :
  startSender string sampleRegistry sampleActivate (fun _ => None) sampleManager
    (mkPeer "node2" 0 None None None false) =
    (Some (MsgTransportNoTransportsConfiguredForNode "node2" ["grpc"; "jms"]),
     mkPeer "node2" 0 None None None false).
Proof.
  apply (proj1 (startSender_uses_last_registered string sampleRegistry sampleActivate
                  (fun _ => None) sampleManager (mkPeer "node2" 0 None None None false)
                  [mkRegistered "grpc" "host:9000"; mkRegistered "jms" "queue1"]
                  (mkRegistered "jms" "queue1") eq_refl eq_refl)).
  reflexivity.
Defined.

(** X8.  [getPeer]: a name that fails the check of node names, or the name
    of the local node, is refused and the peers are left as they are.
    Otherwise, on peers that sit under their own names: all other peers
    are untouched and the peers still sit under their own names; a peer
    returned is the one now in the map under that name, with its sender
    started if it was asked for sending; and when the sender cannot be
    started the peer is in the map all the same, not started, with the
    error recorded as its outbound error. *)
Theorem getPeer_registers
  (transport : Type)
  (ValidateSafeCharsStartEndAlphaNum : string -> option string)
  (GetNodeTransports : string -> result connectError (list registeredTransport))
  (ActivateNode : transport -> string -> string -> result connectError string)
  (parsePeerInfo : string -> option string)
  (now : Z) (tm tm' : transportManager transport) (nodeName : string) (sending : bool)
  (r : result connectError (peer transport)) :
  peersNamed transport ValidateSafeCharsStartEndAlphaNum tm ->
  getPeer transport ValidateSafeCharsStartEndAlphaNum GetNodeTransports ActivateNode
    parsePeerInfo now tm nodeName sending = (r, tm') ->
  peersNamed transport ValidateSafeCharsStartEndAlphaNum tm' /\
  localNodeName tm' = localNodeName tm /\
  (forall n, n <> nodeName -> peers tm' !! n = peers tm !! n) /\
  (ValidateSafeCharsStartEndAlphaNum nodeName <> None \/ nodeName = localNodeName tm ->
   tm' = tm /\ exists e, r = Err e) /\
  (forall p, r = Ok p ->
     peers tm' !! nodeName = Some p /\ Name p = nodeName /\
     (sending = true -> senderStarted p = true)) /\
  (forall e, r = Err e ->
     ValidateSafeCharsStartEndAlphaNum nodeName = None -> nodeName <> localNodeName tm ->
     exists p, peers tm' !! nodeName = Some p /\
               OutboundError p = Some e /\ senderStarted p = false).
Proof.
  intros Hnamed. unfold getPeer.
  destruct (ValidateSafeCharsStartEndAlphaNum nodeName) as [bad|] eqn:Hvalid.
  { intros [= <- <-]. split; [|split; [|split; [|split; [|split]]]]; auto.
    - eauto.
    - discriminate.
    - discriminate. }
  destruct (String.eqb_spec nodeName (localNodeName tm)) as [Hloc|Hloc].
  { intros [= <- <-]. split; [|split; [|split; [|split; [|split]]]]; auto.
    - eauto.
    - discriminate.
    - intros e _ _ Hn. contradiction. }
  assert (Hrefused :
            @None string <> None \/ nodeName = localNodeName tm ->
            tm' = tm /\ exists e, r = Err e).
  { intros [H|H]; [now contradiction H|contradiction]. }
  unfold getActivePeer, connectPeer.
  destruct (alreadyActive transport (peers tm !! nodeName) sending) as [p|] eqn:Hact.
  { intros [= <- <-]. unfold alreadyActive in Hact.
    destruct (peers tm !! nodeName) as [p0|] eqn:Hp0; [|discriminate].
    destruct (senderStarted p0 || negb sending) eqn:Hs; [|discriminate].
    inversion Hact; subst p0. destruct (Hnamed _ _ Hp0) as (Hname & _ & _).
    split; [|split; [|split; [|split; [|split]]]]; auto.
    - intros q [= <-]. split; [reflexivity|]. split; [exact Hname|].
      intros ->. now rewrite orb_false_r in Hs.
    - discriminate. }
  set (p := match peers tm !! nodeName with
            | Some p => p
            | None => mkPeer nodeName now None None None false
            end).
  assert (Hp : Name p = nodeName /\ (sending = true -> senderStarted p = false)).
  { subst p. unfold alreadyActive in Hact.
    destruct (peers tm !! nodeName) as [p0|] eqn:Hp0; [|auto].
    destruct (Hnamed _ _ Hp0) as (Hname & _ & _). split; [exact Hname|].
    intros ->. destruct (senderStarted p0); [discriminate|reflexivity]. }
  destruct Hp as [Hname Hstopped].
  destruct sending.
  - destruct (Peers.startSender transport GetNodeTransports ActivateNode parsePeerInfo tm p)
      as [[err|] p1] eqn:Hstart;
      destruct (PeersFacts.startSender_frame _ _ _ _ _ _ _ _ Hstart) as (Hn1 & Hfail & Hok);
      intros [= <- <-]; cbn [peers localNodeName].
    + destruct (Hfail ltac:(discriminate)) as [Hs1 _].
      split; [|split; [|split; [|split; [|split]]]]; auto.
      * apply put_named; auto. cbn [Name set_OutboundError]. congruence.
      * intros n Hn. now rewrite lookup_insert_ne by congruence.
      * discriminate.
      * intros e [= <-] _ _. eexists. rewrite lookup_insert_eq. split; [reflexivity|].
        cbn [OutboundError senderStarted set_OutboundError].
        split; [reflexivity|]. rewrite Hs1. now apply Hstopped.
    + specialize (Hok eq_refl).
      split; [|split; [|split; [|split; [|split]]]]; auto.
      * apply put_named; auto. congruence.
      * intros n Hn. now rewrite lookup_insert_ne by congruence.
      * intros q [= <-]. rewrite lookup_insert_eq. split; [reflexivity|].
        split; [congruence|auto].
      * discriminate.
  - intros [= <- <-]; cbn [peers localNodeName].
    split; [|split; [|split; [|split; [|split]]]]; auto.
    + apply put_named; auto.
    + intros n Hn. now rewrite lookup_insert_ne by congruence.
    + intros q [= <-]. rewrite lookup_insert_eq. split; [reflexivity|].
      split; [exact Hname|discriminate].
    + discriminate.
Qed.

Lemma getPeer_registers_witness :
  exists p,
    peers (getPeer string (fun _ => None) sampleRegistry sampleActivate (fun _ => None)
             5 sampleManager "node2" true).2 !! "node2" = Some p /\
    senderStarted p = false.
Proof.
  destruct (getPeer_registers string (fun _ => None) sampleRegistry sampleActivate
              (fun _ => None) 5 sampleManager
              (getPeer string (fun _ => None) sampleRegistry sampleActivate (fun _ => None)
                 5 sampleManager "node2" true).2
              "node2" true
              (Err (MsgTransportNoTransportsConfiguredForNode "node2" ["grpc"; "jms"])))
    as (_ & _ & _ & _ & _ & H).
  - intros k p Hk. cbn in Hk. rewrite lookup_empty in Hk. discriminate.
  - reflexivity.
  - destruct (H _ eq_refl eq_refl) as (p & Hp & _ & Hs); [discriminate|]. eauto.
Defined.

End PeersFacts.

Module ScanFacts.
Import Transport ScanViews.

Lemma StronglySorted_sublist {A} (R : relation A) (l1 l2 : list A) :
  l1 `sublist_of` l2 -> StronglySorted R l2 -> StronglySorted R l1.
Proof.
  induction 1 as [|x l1 l2 Hsub IH|x l1 l2 Hsub IH]; intros Hs; [constructor| |].
  - apply StronglySorted_cons in Hs as [Hall Hs]. apply StronglySorted_cons.
    split; [|auto]. rewrite Forall_forall in *. intros y Hy.
    apply Hall. eapply elem_of_sublist; eauto.
  - apply StronglySorted_cons in Hs as [_ Hs]. auto.
Qed.

(** The sequences queued by a page follow the rows of the page. *)
Lemma buildPage_sublist c w p page : forall msgs acks,
  buildPage c w p page = Ok (msgs, acks) ->
  fst <$> msgs `sublist_of` Sequence <$> page.
Proof.
  induction page as [|rm rest IH]; intros msgs acks H; cbn [buildPage] in H.
  - inversion H; subst. constructor.
  - rewrite fmap_cons. destruct (negb (eligible c w p rm)).
    + apply sublist_cons. eauto.
    + destruct (buildMsg w rm); [| |discriminate];
        destruct (buildPage c w p rest) as [[msgs' acks']|] eqn:Hrest;
        try discriminate; inversion H; subst.
      * rewrite fmap_cons. apply sublist_skip. eauto.
      * apply sublist_cons. eauto.
Qed.

Lemma processReliableMsgPage_sublist c w p db page r p' db' sent :
  processReliableMsgPage c w p db page = (r, p', db', sent) ->
  fst <$> sent `sublist_of` Sequence <$> page.
Proof.
  unfold processReliableMsgPage.
  destruct (buildPage c w p page) as [[msgs acks]|err] eqn:Hbuild.
  2:{ intros [= <- <- <- <-]. apply sublist_nil_l. }
  pose proof (buildPage_sublist _ _ _ _ _ _ Hbuild) as Hsub.
  destruct (if (0 <? length acks)%nat then _ else _) as [db1|err].
  2:{ intros [= <- <- <- <-]. apply sublist_nil_l. }
  destruct (sendAll w p msgs) as [[r1 p1] sent1] eqn:Hsend.
  intros [= <- <- <- <-].
  destruct (TransportFacts.sendAll_spec _ _ _ _ _ _ Hsend) as (_ & [tl Htl] & _).
  transitivity (fst <$> msgs); [|exact Hsub].
  rewrite Htl, fmap_app. apply sublist_inserts_r. reflexivity.
Qed.

(** ** The counters of the peer *)

Lemma highestOf_app start a b : highestOf start (a ++ b) = highestOf (highestOf start a) b.
Proof. unfold highestOf. now rewrite fmap_app, fold_left_app. Qed.

Lemma sentBytes_app a b : sentBytes (a ++ b) = (sentBytes a + sentBytes b)%N.
Proof.
  unfold sentBytes. induction a as [|e a IH]; [reflexivity|].
  cbn [app fold_right]. rewrite IH. lia.
Qed.

Lemma accounted_refl t hwm s :
  (SentMsgs s < 2 ^ 64)%N -> (SentBytes s < 2 ^ 64)%N -> accounted t hwm s s [].
Proof.
  intros H1 H2. unfold accounted. cbn [length sentBytes fold_right highestOf].
  rewrite !N.add_0_r, !N.mod_small by assumption.
  split; [|split; [|split; [|split]]]; auto. intros H; now contradiction H.
Qed.

Lemma accounted_trans t hwm s0 s1 s2 a b :
  accounted t hwm s0 s1 a -> accounted t hwm s1 s2 b ->
  accounted t hwm s0 s2 (a ++ b).
Proof.
  intros (A1 & A2 & A3 & A4 & A5) (B1 & B2 & B3 & B4 & B5).
  unfold accounted. split; [|split; [|split; [|split]]].
  - rewrite B1, A1, length_app, Nat2N.inj_add, N.Div0.add_mod_idemp_l.
    f_equal. lia.
  - rewrite B2, A2, sentBytes_app, N.Div0.add_mod_idemp_l. f_equal. lia.
  - now rewrite B3, A3, highestOf_app.
  - intros H. apply app_eq_nil in H as [-> ->]. now rewrite B4, A4.
  - intros Hne. destruct b as [|e b].
    + rewrite (B4 eq_refl). rewrite app_nil_r in Hne. now apply A5.
    + destruct (B5 ltac:(discriminate)) as [-> ->]. split; [reflexivity|].
      destruct hwm as [h|]; [reflexivity|].
      destruct a as [|e' a]; [now rewrite (A4 eq_refl)|].
      now destruct (A5 ltac:(discriminate)) as [_ ->].
Qed.

Lemma accounted_bounded t hwm s0 s1 sent :
  accounted t hwm s0 s1 sent -> (SentMsgs s1 < 2 ^ 64)%N /\ (SentBytes s1 < 2 ^ 64)%N.
Proof.
  intros (-> & -> & _). split; apply N.mod_upper_bound; discriminate.
Qed.

Lemma send_accounted w p msg sq p' :
  send w p msg (Some sq) = (None, p') ->
  lastDrainHWM p' = lastDrainHWM p /\
  accounted (now w) (lastDrainHWM p) (Stats p) (Stats p') [(sq, msg)].
Proof.
  unfold send. destruct (transportSend w msg); [discriminate|]. intros [= <-].
  split; [reflexivity|]. unfold accounted. cbn [Stats SentMsgs SentBytes
    ReliableHighestSent LastSend ReliableAckBase length sentBytes fold_right snd].
  unfold uint64_add. split; [|split; [|split; [|split]]].
  - reflexivity.
  - now rewrite N.add_0_r.
  - unfold highestOf. cbn [fmap list_fmap fold_left fst].
    destruct (N.ltb_spec (ReliableHighestSent (Stats p)) sq); lia.
  - discriminate.
  - intros _. split; [reflexivity|]. now destruct (lastDrainHWM p).
Qed.

Lemma sendAll_accounted w msgs : forall p r p' sent,
  (SentMsgs (Stats p) < 2 ^ 64)%N -> (SentBytes (Stats p) < 2 ^ 64)%N ->
  sendAll w p msgs = (r, p', sent) ->
  accounted (now w) (lastDrainHWM p) (Stats p) (Stats p') sent.
Proof.
  induction msgs as [|[sq msg] rest IH]; intros p r p' sent H1 H2 H; cbn [sendAll] in H.
  - inversion H; subst. now apply accounted_refl.
  - destruct (send w p msg (Some sq)) as [[err|] p1] eqn:Hsend.
    + inversion H; subst. unfold send in Hsend.
      destruct (transportSend w msg); inversion Hsend; subst. now apply accounted_refl.
    + destruct (sendAll w p1 rest) as [[r2 p2] sent2] eqn:Hrest.
      inversion H; subst.
      destruct (send_accounted _ _ _ _ _ Hsend) as [Hh Hacc].
      destruct (accounted_bounded _ _ _ _ _ Hacc) as [B1 B2].
      specialize (IH _ _ _ _ B1 B2 Hrest). rewrite Hh in IH.
      exact (accounted_trans _ _ _ _ _ [(sq, msg)] sent2 Hacc IH).
Qed.

Lemma processReliableMsgPage_accounted c w p db page r p' db' sent :
  (SentMsgs (Stats p) < 2 ^ 64)%N -> (SentBytes (Stats p) < 2 ^ 64)%N ->
  processReliableMsgPage c w p db page = (r, p', db', sent) ->
  accounted (now w) (lastDrainHWM p) (Stats p) (Stats p') sent.
Proof.
  intros H1 H2. unfold processReliableMsgPage.
  destruct (buildPage c w p page) as [[msgs acks]|err].
  2:{ intros [= <- <- <- <-]. now apply accounted_refl. }
  destruct (if (0 <? length acks)%nat then _ else _) as [db1|err].
  2:{ intros [= <- <- <- <-]. now apply accounted_refl. }
  destruct (sendAll w p msgs) as [[r1 p1] sent1] eqn:Hsend.
  intros [= <- <- <- <-]. eapply sendAll_accounted; eauto.
Qed.

Section Pages.

Variables (c : config) (w : world) (fullScan : bool) (hwm : option N).

Lemma scanPages_unfold fuel st :
  scanPages (S fuel) c w fullScan hwm st =
    match findFails w (queryBound fullScan hwm (sc_lastPageEnd st)) with
    | Some err => Some (Some err, st)
    | None =>
        match processReliableMsgPage c w (sc_peer st) (sc_db st)
                (pageAt c fullScan hwm st) with
        | (Some err, p', db', sent) => Some (Some err, failedPage st p' db' sent)
        | (None, p', db', sent) =>
            if (length (pageAt c fullScan hwm st) <? reliableMessagePageSize c)%nat
            then Some (None, afterPage st (pageAt c fullScan hwm st) p' db' sent)
            else scanPages fuel c w fullScan hwm
                   (afterPage st (pageAt c fullScan hwm st) p' db' sent)
        end
    end.
Proof.
  cbn [scanPages]. unfold Find.
  destruct (findFails w (queryBound fullScan hwm (sc_lastPageEnd st))); reflexivity.
Qed.

(** What holds before a page and is kept by every page holds when the
    loop returns. *)
Lemma scanPages_invariant (I E : scanState -> Prop) :
  (forall st, I st -> E st) ->
  (forall st r p' db' sent,
     I st ->
     processReliableMsgPage c w (sc_peer st) (sc_db st) (pageAt c fullScan hwm st)
       = (r, p', db', sent) ->
     match r with
     | Some _ => E (failedPage st p' db' sent)
     | None => I (afterPage st (pageAt c fullScan hwm st) p' db' sent)
     end) ->
  forall fuel st r st',
    I st -> scanPages fuel c w fullScan hwm st = Some (r, st') ->
    match r with Some _ => E st' | None => I st' end.
Proof.
  intros HIE Hpage. induction fuel as [|fuel IH]; intros st r st' HI H; [discriminate|].
  rewrite scanPages_unfold in H.
  destruct (findFails w _); [inversion H; subst; auto|].
  destruct (processReliableMsgPage _ _ _ _ _) as [[[[err|] p'] db'] sent] eqn:Hproc;
    pose proof (Hpage _ _ _ _ _ HI Hproc) as Hnext; cbn beta iota in Hnext.
  - inversion H; subst. exact Hnext.
  - destruct (length _ <? reliableMessagePageSize c)%nat.
    + inversion H; subst. exact Hnext.
    + eapply IH; eauto.
Qed.

(** A row of a page lies above the bound of its query. *)
Lemma pageAt_above st rm :
  rm ∈ pageAt c fullScan hwm st ->
  above (queryBound fullScan hwm (sc_lastPageEnd st)) rm = true.
Proof.
  intros Hin. apply subseteq_take in Hin.
  now apply TransportFacts.unackedAbove_elem in Hin as (_ & _ & Hab).
Qed.

Lemma pageAt_sorted st : StronglySorted seqLe (pageAt c fullScan hwm st).
Proof.
  eapply StronglySorted_sublist; [apply sublist_take|].
  apply TransportFacts.unackedAbove_sorted.
Qed.

Lemma pageAt_last st l x :
  last (pageAt c fullScan hwm st) = Some l -> x ∈ pageAt c fullScan hwm st ->
  (Sequence x <= Sequence l)%N.
Proof.
  intros Hl Hx. pose proof (pageAt_sorted st) as Hs.
  apply last_Some in Hl as [front Hfront]. rewrite Hfront in Hs, Hx.
  apply elem_of_app in Hx as [Hx|Hx].
  - eapply (StronglySorted_app_1_elem_of seqLe) in Hs; [exact Hs|exact Hx|].
    apply list_elem_of_here.
  - apply list_elem_of_singleton in Hx. subst. lia.
Qed.

Lemma ordered_page st r p' db' sent :
  ordered fullScan hwm st ->
  processReliableMsgPage c w (sc_peer st) (sc_db st) (pageAt c fullScan hwm st)
    = (r, p', db', sent) ->
  match r with
  | Some _ => inOrder fullScan hwm (sc_sent (failedPage st p' db' sent))
  | None => ordered fullScan hwm (afterPage st (pageAt c fullScan hwm st) p' db' sent)
  end.
Proof.
  intros ((Hsorted & Habove) & Hend & Hhwm) Hproc.
  pose proof (processReliableMsgPage_sublist _ _ _ _ _ _ _ _ _ Hproc) as Hsub.
  assert (Hrow : forall sq, sq ∈ fst <$> sent ->
            exists rm, rm ∈ pageAt c fullScan hwm st /\ Sequence rm = sq).
  { intros sq Hsq. eapply elem_of_sublist in Hsq; [|exact Hsub].
    apply list_elem_of_fmap in Hsq as (rm & -> & Hrm). eauto. }
  assert (Hnew : StronglySorted N.le (fst <$> sent)).
  { eapply StronglySorted_sublist; [exact Hsub|].
    eapply StronglySorted_fmap; [|apply pageAt_sorted]. auto. }
  assert (Hin : inOrder fullScan hwm (sc_sent st ++ sent)).
  { split.
    - rewrite fmap_app. apply StronglySorted_app_2; auto.
      intros x1 x2 H1 H2. destruct (Hend _ H1) as (e & He & Hle).
      destruct (Hrow _ H2) as (rm & Hrm & <-).
      apply pageAt_above in Hrm. rewrite He in Hrm. cbn [queryBound above] in Hrm.
      apply N.ltb_lt in Hrm. lia.
    - intros Hfs h Hh sq Hsq. rewrite fmap_app in Hsq.
      apply elem_of_app in Hsq as [Hsq|Hsq]; [eauto|].
      destruct (Hrow _ Hsq) as (rm & Hrm & <-).
      apply pageAt_above in Hrm. rewrite Hfs, Hh in Hrm.
      destruct (sc_lastPageEnd st) as [e|] eqn:He; cbn [queryBound above] in Hrm;
        apply N.ltb_lt in Hrm; [|exact Hrm].
      specialize (Hhwm Hfs h e Hh eq_refl). lia. }
  destruct r as [err|]; [exact Hin|].
  split; [exact Hin|]. cbn [afterPage sc_sent sc_lastPageEnd]. split.
  - intros sq Hsq. rewrite fmap_app in Hsq.
    destruct (last (pageAt c fullScan hwm st)) as [l|] eqn:Hlast.
    + exists (Sequence l). split; [reflexivity|].
      apply elem_of_app in Hsq as [Hsq|Hsq].
      * destruct (Hend _ Hsq) as (e & He & Hle).
        assert (Hl : l ∈ pageAt c fullScan hwm st) by (eapply last_Some_elem_of; eauto).
        apply pageAt_above in Hl. rewrite He in Hl. cbn [queryBound above] in Hl.
        apply N.ltb_lt in Hl. lia.
      * destruct (Hrow _ Hsq) as (rm & Hrm & <-). eapply pageAt_last; eauto.
    + apply last_None in Hlast. rewrite Hlast in Hrow.
      apply elem_of_app in Hsq as [Hsq|Hsq]; [auto|].
      destruct (Hrow _ Hsq) as (rm & Hrm & _). inversion Hrm.
  - intros Hfs h e Hh.
    destruct (last (pageAt c fullScan hwm st)) as [l|] eqn:Hlast; [|eauto].
    intros [= <-].
    assert (Hl : l ∈ pageAt c fullScan hwm st) by (eapply last_Some_elem_of; eauto).
    apply pageAt_above in Hl. rewrite Hfs, Hh in Hl.
    destruct (sc_lastPageEnd st) as [e|] eqn:He; cbn [queryBound above] in Hl;
      apply N.ltb_lt in Hl; [|exact Hl].
    specialize (Hhwm Hfs h e Hh eq_refl). lia.
Qed.

Lemma scanPages_ordered fuel st r st' :
  ordered fullScan hwm st ->
  scanPages fuel c w fullScan hwm st = Some (r, st') ->
  inOrder fullScan hwm (sc_sent st').
Proof.
  intros Hord Hrun.
  pose proof (scanPages_invariant (ordered fullScan hwm)
                (fun st => inOrder fullScan hwm (sc_sent st))
                (fun _ H => proj1 H) ordered_page fuel st r st' Hord Hrun) as H.
  destruct r; [exact H|apply H].
Qed.

Lemma accounted_page s0 st r p' db' sent :
  lastDrainHWM (sc_peer st) = hwm /\
  accounted (now w) hwm s0 (Stats (sc_peer st)) (sc_sent st) ->
  processReliableMsgPage c w (sc_peer st) (sc_db st) (pageAt c fullScan hwm st)
    = (r, p', db', sent) ->
  lastDrainHWM p' = hwm /\
  accounted (now w) hwm s0 (Stats p') (sc_sent st ++ sent).
Proof.
  intros [Hh Hacc] Hproc.
  destruct (TransportFacts.processReliableMsgPage_spec _ _ _ _ _ _ _ _ _ Hproc)
    as (_ & _ & Hh' & _).
  split; [congruence|].
  destruct (accounted_bounded _ _ _ _ _ Hacc) as [B1 B2].
  pose proof (processReliableMsgPage_accounted _ _ _ _ _ _ _ _ _ B1 B2 Hproc) as Hstep.
  rewrite Hh in Hstep. eapply accounted_trans; eauto.
Qed.

Lemma scanPages_accounted s0 fuel st r st' :
  lastDrainHWM (sc_peer st) = hwm /\
  accounted (now w) hwm s0 (Stats (sc_peer st)) (sc_sent st) ->
  scanPages fuel c w fullScan hwm st = Some (r, st') ->
  lastDrainHWM (sc_peer st') = hwm /\
  accounted (now w) hwm s0 (Stats (sc_peer st')) (sc_sent st').
Proof.
  intros HI Hrun.
  set (I := fun st => lastDrainHWM (sc_peer st) = hwm /\
                      accounted (now w) hwm s0 (Stats (sc_peer st)) (sc_sent st)).
  assert (H : match r with Some _ => I st' | None => I st' end).
  { apply (scanPages_invariant I I (fun _ H => H)) with (fuel := fuel) (st := st); auto.
    intros st1 r1 p' db' sent HI1 Hproc.
    pose proof (accounted_page s0 _ _ _ _ _ HI1 Hproc) as Hn.
    destruct r1; [exact Hn|]. unfold I. cbn [afterPage sc_peer sc_sent].
    destruct (0 <? length _)%nat; exact Hn. }
  destruct r; exact H.
Qed.

Lemma foundRows_kept fuel st st' :
  foundRows st -> scanPages fuel c w fullScan hwm st = Some (None, st') -> foundRows st'.
Proof.
  intros HI Hrun.
  apply (scanPages_invariant foundRows (fun _ => True) (fun _ _ => I))
    with (fuel := fuel) (st := st) (r := @None transportError); auto.
  intros st1 r1 p' db' sent [Ht He] _. destruct r1; [exact I|].
  split; cbn [afterPage sc_total sc_lastPageEnd].
  - destruct (0 <? length _)%nat; lia.
  - destruct (last _); [eauto|exact He].
Qed.

End Pages.

Lemma highestOf_ge sent : forall start,
  (start <= highestOf start sent)%N /\
  (forall sq, sq ∈ fst <$> sent -> (sq <= highestOf start sent)%N).
Proof.
  unfold highestOf.
  induction sent as [|e sent IH]; intros start; cbn [fmap list_fmap fold_left].
  - split; [lia|]. intros sq H. inversion H.
  - destruct (IH (N.max start (fst e))) as [IH1 IH2]. split; [lia|].
    intros sq H. apply elem_of_cons in H as [-> |H]; [lia|auto].
Qed.

(** The start of a scan. *)
Lemma scan_initial c w p db :
  ordered (isFullScan c w p) (lastDrainHWM p) (mkScan p db 0 None []) /\
  ((SentMsgs (Stats p) < 2 ^ 64)%N -> (SentBytes (Stats p) < 2 ^ 64)%N ->
   accounted (now w) (lastDrainHWM p) (Stats p) (Stats p) []).
Proof.
  split; [|apply accounted_refl].
  split; [split|split]; cbn [sc_sent sc_lastPageEnd fmap list_fmap].
  - constructor.
  - intros _ h _ sq H. inversion H.
  - intros sq H. inversion H.
  - intros _ h e _ H. discriminate.
Qed.

(** X9.  Within one scan the reliable messages are handed to the
    transport in ascending order of their sequence; a scan for new
    messages only (not a full scan) hands over nothing at or below the
    high-water mark of the last drain, and when it ends without error the
    high-water mark has not moved down. *)
Theorem reliableMessageScan_in_sequence_order
  (c : config) (w : world) (p p' : peer) (db db' : MessageStore) (checkNew : bool)
  (r : option transportError) (sent : list (N * PaladinMsg)) :
  reliableMessageScan c w p db checkNew = Some (r, p', db', sent) ->
  StronglySorted N.le (fst <$> sent) /\
  (isFullScan c w p = false ->
   forall h, lastDrainHWM p = Some h ->
     (forall sq, sq ∈ fst <$> sent -> (h < sq)%N) /\
     (r = None -> exists e, lastDrainHWM p' = Some e /\ (h <= e)%N)).
Proof.
  unfold reliableMessageScan.
  destruct (negb (isFullScan c w p) && negb checkNew) eqn:Hskip.
  { intros [= <- <- <- <-]. split; [constructor|]. intros _ h Hh. split.
    - intros sq H. inversion H.
    - intros _. exists h. split; [exact Hh|lia]. }
  destruct (scanPages _ _ _ _ _ _) as [[r1 st]|] eqn:Hrun; [|discriminate].
  destruct (scan_initial c w p db) as [Hord _].
  pose proof (scanPages_invariant c w (isFullScan c w p) (lastDrainHWM p)
                (ordered (isFullScan c w p) (lastDrainHWM p))
                (fun st => inOrder (isFullScan c w p) (lastDrainHWM p) (sc_sent st))
                (fun _ H => proj1 H)
                (ordered_page c w (isFullScan c w p) (lastDrainHWM p))
                _ _ _ _ Hord Hrun) as H.
  destruct r1 as [err|].
  - intros [= <- <- <- <-]. destruct H as [Hs Hab]. split; [exact Hs|].
    intros Hfs h Hh. split; [eauto|discriminate].
  - intros [= <- <- <- <-]. destruct H as ((Hs & Hab) & _ & Hend).
    split; [exact Hs|]. intros Hfs h Hh. split; [eauto|]. intros _.
    rewrite Hfs. cbn [lastDrainHWM].
    assert (Hsafe0 : scanSafe w p db (mkScan p db 0 None [])).
    { repeat split; auto. intros e He. inversion He. }
    pose proof (TransportFacts.scanPages_safe c w (isFullScan c w p) p db _ _ _ _
                  Hsafe0 Hrun) as (_ & _ & Hhwm & _).
    destruct (sc_lastPageEnd st) as [e|] eqn:He.
    + exists e. split; [reflexivity|]. specialize (Hend Hfs h e Hh eq_refl). lia.
    + exists h. split; [congruence|lia].
Qed.

Lemma reliableMessageScan_in_sequence_order_witness :
  StronglySorted N.le
    (fst <$> [(1%N, mkMsg "m1" "RELIABLE_MESSAGE_HANDLER" "StateDistribution" "gooddata")]).
Proof.
  apply (reliableMessageScan_in_sequence_order config_10_2 (quietWorld 100) freshPeer
           (mkPeer "node2" 100 (Some 2%N) false (mkStats (Some 100%Z) 1 8 1 0))
           twoMessages
           (mkStore (reliable_msgs twoMessages)
              (reliable_msg_acks twoMessages
                 ++ [mkAck "m2" 100 (Some (ParseError "bad"))]))
           false None
           [(1%N, mkMsg "m1" "RELIABLE_MESSAGE_HANDLER" "StateDistribution" "gooddata")]).
  vm_compute. reflexivity.
Defined.

(** X10.  The counters of the peer account for what a scan handed to the
    transport, whether or not the scan ended with an error: the message
    count and the byte count grow by the messages and the payload bytes
    sent (wrapping at 64 bits), and the highest reliable sequence sent
    becomes the highest of its old value and the sequences sent, so it
    never moves down; a scan that sends nothing leaves the counters as
    they were. *)
Theorem reliableMessageScan_counts_sent
  (c : config) (w : world) (p p' : peer) (db db' : MessageStore) (checkNew : bool)
  (r : option transportError) (sent : list (N * PaladinMsg)) :
  (SentMsgs (Stats p) < 2 ^ 64)%N ->
  (SentBytes (Stats p) < 2 ^ 64)%N ->
  reliableMessageScan c w p db checkNew = Some (r, p', db', sent) ->
  SentMsgs (Stats p') = ((SentMsgs (Stats p) + N.of_nat (length sent)) mod 2 ^ 64)%N /\
  SentBytes (Stats p') = ((SentBytes (Stats p) + sentBytes sent) mod 2 ^ 64)%N /\
  ReliableHighestSent (Stats p') = highestOf (ReliableHighestSent (Stats p)) sent /\
  (ReliableHighestSent (Stats p) <= ReliableHighestSent (Stats p'))%N /\
  (forall sq, sq ∈ fst <$> sent -> (sq <= ReliableHighestSent (Stats p'))%N) /\
  (sent = [] -> Stats p' = Stats p) /\
  (sent <> [] -> LastSend (Stats p') = Some (now w)).
Proof.
  intros B1 B2. unfold reliableMessageScan.
  assert (Hfinal : forall s1,
            accounted (now w) (lastDrainHWM p) (Stats p) s1 sent ->
            SentMsgs s1 = ((SentMsgs (Stats p) + N.of_nat (length sent)) mod 2 ^ 64)%N /\
            SentBytes s1 = ((SentBytes (Stats p) + sentBytes sent) mod 2 ^ 64)%N /\
            ReliableHighestSent s1 = highestOf (ReliableHighestSent (Stats p)) sent /\
            (ReliableHighestSent (Stats p) <= ReliableHighestSent s1)%N /\
            (forall sq, sq ∈ fst <$> sent -> (sq <= ReliableHighestSent s1)%N) /\
            (sent = [] -> s1 = Stats p) /\
            (sent <> [] -> LastSend s1 = Some (now w))).
  { intros s1 (A1 & A2 & A3 & A4 & A5).
    destruct (highestOf_ge sent (ReliableHighestSent (Stats p))) as [G1 G2].
    rewrite <- A3 in G1, G2.
    split; [exact A1|]. split; [exact A2|]. split; [exact A3|]. split; [exact G1|].
    split; [exact G2|]. split; [exact A4|]. intros Hne. now destruct (A5 Hne). }
  destruct (negb (isFullScan c w p) && negb checkNew).
  { intros [= <- <- <- <-]. apply Hfinal. now apply accounted_refl. }
  destruct (scanPages _ _ _ _ _ _) as [[r1 st]|] eqn:Hrun; [|discriminate].
  assert (H0 : lastDrainHWM (sc_peer (mkScan p db 0 None [])) = lastDrainHWM p /\
               accounted (now w) (lastDrainHWM p) (Stats p)
                 (Stats (sc_peer (mkScan p db 0 None []))) (sc_sent (mkScan p db 0 None []))).
  { split; [reflexivity|]. now apply accounted_refl. }
  destruct (scanPages_accounted c w (isFullScan c w p) (lastDrainHWM p) (Stats p)
              _ _ _ _ H0 Hrun) as [_ Hacc].
  destruct r1 as [err|]; intros [= <- <- <- <-]; [now apply Hfinal|].
  destruct (isFullScan c w p); cbn [Stats]; now apply Hfinal.
Qed.

Lemma reliableMessageScan_counts_sent_witness :
  SentMsgs (mkStats (Some 100%Z) 1 8 1 0) = ((0 + 1) mod 2 ^ 64)%N.
Proof.
  apply (reliableMessageScan_counts_sent config_10_2 (quietWorld 100) freshPeer
           (mkPeer "node2" 100 (Some 2%N) false (mkStats (Some 100%Z) 1 8 1 0))
           twoMessages
           (mkStore (reliable_msgs twoMessages)
              (reliable_msg_acks twoMessages
                 ++ [mkAck "m2" 100 (Some (ParseError "bad"))]))
           false None
           [(1%N, mkMsg "m1" "RELIABLE_MESSAGE_HANDLER" "StateDistribution" "gooddata")]).
  - reflexivity.
  - reflexivity.
  - vm_compute. reflexivity.
Defined.

(** X11.  After a full scan that ends without error, with a page size
    above zero: the time of the last full scan is the time of this one;
    the peer counts as drained of persisted messages exactly when, as the
    scan began, every stored message had an ack row, and exactly then the
    high-water mark is cleared and nothing was handed to the transport. *)
Theorem reliableMessageScan_drained
  (c : config) (w : world) (p p' : peer) (db db' : MessageStore) (checkNew : bool)
  (sent : list (N * PaladinMsg)) :
  (0 < reliableMessagePageSize c)%nat ->
  isFullScan c w p = true ->
  reliableMessageScan c w p db checkNew = Some (None, p', db', sent) ->
  let allAcked :=
    forall rm, rm ∈ reliable_msgs db -> acked (reliable_msg_acks db) (ID rm) = true in
  lastFullScan p' = now w /\
  (persistentMsgsDrained p' = true <-> allAcked) /\
  (lastDrainHWM p' = None <-> allAcked) /\
  (allAcked -> sent = [] /\ db' = db).
Proof.
  intros Hps Hfull. unfold reliableMessageScan. rewrite Hfull. cbn [negb andb].
  destruct (scanPages _ _ _ _ _ _) as [[[err|] st]|] eqn:Hrun; try discriminate.
  intros [= <- <- <-]. cbn [lastFullScan persistentMsgsDrained lastDrainHWM].
  set (allAcked := forall rm, rm ∈ reliable_msgs db ->
                              acked (reliable_msg_acks db) (ID rm) = true).
  assert (Hempty : unackedAbove db None = [] <-> allAcked).
  { split.
    - intros Hnil rm Hin.
      destruct (acked (reliable_msg_acks db) (ID rm)) eqn:E; [reflexivity|].
      assert (H : rm ∈ unackedAbove db None)
        by (apply TransportFacts.unackedAbove_elem; auto).
      rewrite Hnil in H. inversion H.
    - intros Hall. destruct (unackedAbove db None) as [|rm U] eqn:HU; [reflexivity|].
      assert (H : rm ∈ unackedAbove db None) by (rewrite HU; left).
      apply TransportFacts.unackedAbove_elem in H as (Hin & Hun & _).
      rewrite (Hall rm Hin) in Hun. discriminate. }
  rewrite scanPages_unfold in Hrun. cbn [sc_lastPageEnd queryBound] in Hrun.
  destruct (findFails w None); [discriminate|].
  unfold pageAt in Hrun. cbn [sc_db sc_lastPageEnd sc_peer queryBound] in Hrun.
  destruct (unackedAbove db None) as [|rm U] eqn:HU.
  - rewrite take_nil in Hrun. cbn in Hrun.
    destruct (reliableMessagePageSize c) as [|n] eqn:Hn; [lia|].
    cbn in Hrun. inversion Hrun; subst st. cbn.
    split; [reflexivity|]. split; [tauto|]. split; [tauto|]. intros _.
    split; [reflexivity|]. now destruct db.
  - destruct (processReliableMsgPage _ _ _ _ _) as [[[[err|] p1] db1] sent1] eqn:Hproc;
      [discriminate|].
    assert (Hnone : ~ allAcked) by (intros H; apply Hempty in H; discriminate).
    set (st1 := afterPage _ _ _ _ _) in Hrun.
    assert (Hfound : foundRows st1).
    { subst st1. destruct (reliableMessagePageSize c) as [|n] eqn:Hn; [lia|].
      split; cbn; [lia|]. destruct (last (rm :: take n U)) eqn:Hl; [eauto|].
      apply last_None in Hl. discriminate. }
    assert (Hfinal : foundRows st).
    { destruct (length _ <? reliableMessagePageSize c)%nat.
      - inversion Hrun; subst st. exact Hfound.
      - eapply foundRows_kept; eauto. }
    destruct Hfinal as [Ht [e He]]. rewrite He.
    destruct (Nat.eqb_spec (sc_total st) 0) as [E|E]; [lia|].
    split; [reflexivity|]. split; [|split].
    + split; [discriminate|contradiction].
    + split; [discriminate|contradiction].
    + contradiction.
Qed.

Lemma reliableMessageScan_drained_witness :
  persistentMsgsDrained (mkPeer "node2" 100 None true (mkStats None 0 0 0 0)) = true <->
  (forall rm, rm ∈ reliable_msgs (mkStore [mkRM 3 "m3" 0 "node2" RMTState "good"]
                                         [mkAck "m3" 5 None]) ->
     acked (reliable_msg_acks (mkStore [mkRM 3 "m3" 0 "node2" RMTState "good"]
                                       [mkAck "m3" 5 None])) (ID rm) = true).
Proof.
  apply (reliableMessageScan_drained config_10_2 (quietWorld 100) freshPeer
           (mkPeer "node2" 100 None true (mkStats None 0 0 0 0))
           (mkStore [mkRM 3 "m3" 0 "node2" RMTState "good"] [mkAck "m3" 5 None])
           (mkStore [mkRM 3 "m3" 0 "node2" RMTState "good"] [mkAck "m3" 5 None])
           false []).
  - cbn. lia.
  - reflexivity.
  - vm_compute. reflexivity.
Defined.

End ScanFacts.

Module StateViewsFacts.
Import StateMgr StateViews StateMgrFacts.

(** ** Locks by transaction *)

Lemma locksByTransaction_fold locks : forall (m : gmap N (list StateLock)) tx,
  fold_left
    (fun txLocksCopy l =>
       <[lk_Transaction l :=
           (default [] (txLocksCopy !! lk_Transaction l) ++ [l])%list]> txLocksCopy)
    locks m !! tx
  = match filter (fun l => (lk_Transaction l =? tx)%N) locks with
    | [] => m !! tx
    | found => Some (default [] (m !! tx) ++ found)%list
    end.
Proof.
  induction locks as [|l rest IH]; intros m tx; [reflexivity|].
  cbn [fold_left]. rewrite IH, filter_cons.
  destruct (N.eqb_spec (lk_Transaction l) tx) as [E|E].
  - rewrite decide_True by exact I. subst tx. rewrite lookup_insert_eq. cbn [default].
    destruct (filter _ rest); [reflexivity|]. unfold Datatypes.id.
    now rewrite <- app_assoc.
  - rewrite decide_False by (intros []). now rewrite lookup_insert_ne by exact E.
Qed.

Lemma StateLocksByTransaction_lookup dc tx :
  StateLocksByTransaction dc !! tx =
    match locksOf dc tx with [] => None | found => Some found end.
Proof.
  unfold StateLocksByTransaction, locksOf. rewrite locksByTransaction_fold.
  rewrite lookup_empty. reflexivity.
Qed.

(** X12.  [StateLocksByTransaction] groups the locks of the context by
    transaction without losing or inventing any: a transaction has an
    entry exactly when it holds a lock, its entry lists its locks in the
    order they were taken, and every lock of the context is in the entry
    of its own transaction and in no other. *)
Theorem StateLocksByTransaction_groups (dc : domainContext) :
  (forall tx, StateLocksByTransaction dc !! tx =
              match locksOf dc tx with [] => None | found => Some found end) /\
  (forall tx found, StateLocksByTransaction dc !! tx = Some found ->
     found <> [] /\ found `sublist_of` txLocks dc /\
     forall l, l ∈ found <-> l ∈ txLocks dc /\ lk_Transaction l = tx) /\
  (forall l, l ∈ txLocks dc ->
     exists found, StateLocksByTransaction dc !! lk_Transaction l = Some found /\
                   l ∈ found).
Proof.
  split; [apply StateLocksByTransaction_lookup|]. split.
  - intros tx found. rewrite StateLocksByTransaction_lookup.
    destruct (locksOf dc tx) as [|l0 ls] eqn:Hf; [discriminate|]. intros [= <-].
    split; [discriminate|]. rewrite <- Hf. unfold locksOf.
    split; [apply sublist_filter|]. intros l. rewrite list_elem_of_filter.
    rewrite Is_true_true, N.eqb_eq. tauto.
  - intros l Hl. rewrite StateLocksByTransaction_lookup.
    assert (Hin : l ∈ locksOf dc (lk_Transaction l)).
    { apply list_elem_of_filter. split; [|exact Hl].
      apply Is_true_true, N.eqb_refl. }
    destruct (locksOf dc (lk_Transaction l)) as [|l0 ls]; [inversion Hin|eauto].
Qed.

Lemma filter_none {A} (P : A -> Prop) `{!forall x, Decision (P x)} (l : list A) :
  (forall x, x ∈ l -> ~ P x) -> filter P l = [].
Proof.
  induction l as [|x l IH]; intros Hno; [reflexivity|].
  rewrite filter_cons_False by (apply Hno; left).
  apply IH. intros y Hy. apply Hno. now right.
Qed.

Lemma filter_filter_cleared transactions tx (locks : list StateLock) :
  filter (fun l => (lk_Transaction l =? tx)%N)
         (filter (fun l => negb (cleared transactions l)) locks)
  = if existsb (fun t => (tx =? t)%N) transactions then []
    else filter (fun l => (lk_Transaction l =? tx)%N) locks.
Proof.
  rewrite list_filter_filter.
  destruct (existsb (fun t => (tx =? t)%N) transactions) eqn:Hex.
  - apply filter_none. intros l _ [Ht Hk].
    apply Is_true_true, N.eqb_eq in Ht. subst tx.
    apply negb_True in Hk. apply Hk, Is_true_true. exact Hex.
  - apply list_filter_iff. intros l. split; [tauto|]. intros Ht. split; [exact Ht|].
    apply Is_true_true, N.eqb_eq in Ht. subst tx.
    apply negb_True, Is_true_false. exact Hex.
Qed.

(** X13.  After [ClearTransactions], [StateLocksByTransaction] has no
    entry for a transaction that was cleared, and the entry of every other
    transaction is what it was. *)
Theorem ClearTransactions_drops_entries (dc : domainContext) (transactions : list N)
  (tx : N) :
  StateLocksByTransaction (ClearTransactions dc transactions) !! tx =
    if bool_decide (tx ∈ transactions) then None
    else StateLocksByTransaction dc !! tx.
Proof.
  rewrite !StateLocksByTransaction_lookup. unfold locksOf, ClearTransactions.
  destruct (clearLocks_spec transactions (txLocks dc) (creatingStates dc)) as [H1 _].
  destruct (clearLocks transactions (txLocks dc) (creatingStates dc))
    as [creating newLocks]. cbn [snd] in H1. cbn [txLocks set_txLocks]. rewrite H1.
  rewrite filter_filter_cleared.
  destruct (existsb (fun t => (tx =? t)%N) transactions) eqn:Hex.
  - rewrite bool_decide_eq_true_2; [reflexivity|].
    apply existsb_exists in Hex as (t & Hin & Heq). apply N.eqb_eq in Heq. subst t.
    now apply list_elem_of_In.
  - rewrite bool_decide_eq_false_2; [reflexivity|]. intros Hin.
    assert (existsb (fun t => (tx =? t)%N) transactions = true); [|congruence].
    apply existsb_exists. exists tx. split; [now apply list_elem_of_In|apply N.eqb_refl].
Qed.

Example StateLocksByTransaction_sample :
  StateLocksByTransaction contextThreeLocks !! 7%N =
    Some [mkLock StateLockTypeCreate 7 "s1"; mkLock StateLockTypeRead 7 "s1"] /\
  StateLocksByTransaction (ClearTransactions contextThreeLocks [7%N]) !! 7%N = None /\
  StateLocksByTransaction (ClearTransactions contextThreeLocks [7%N]) !! 8%N =
    Some [mkLock StateLockTypeSpend 8 "s1"].
Proof. vm_compute. repeat split. Qed.

(** ** Adding locks *)

Lemma addStateLocks_cons dc l rest :
  addStateLocks dc (l :: rest) =
    match lockError dc l with
    | Some e => (Some e, dc)
    | None => addStateLocks (set_txLocks (txLocks dc ++ [l])%list dc) rest
    end.
Proof.
  cbn [addStateLocks]. unfold lockError.
  destruct (lk_Transaction l =? 0)%N; [reflexivity|].
  destruct (String.length (lk_State l) =? 0)%nat; [reflexivity|].
  now destruct (creatingStates dc !! lk_State l), (isCreate (lk_Type l)).
Qed.

Lemma addStateLocks_steps locks : forall dc r dc',
  addStateLocks dc locks = (r, dc') ->
  creatingStates dc' = creatingStates dc /\
  match r with
  | None =>
      (forall l, l ∈ locks -> lockError dc l = None) /\
      txLocks dc' = (txLocks dc ++ locks)%list
  | Some e =>
      exists before l after,
        locks = (before ++ l :: after)%list /\
        (forall x, x ∈ before -> lockError dc x = None) /\
        lockError dc l = Some e /\
        txLocks dc' = (txLocks dc ++ before)%list
  end.
Proof.
  induction locks as [|l rest IH]; intros dc r dc' H.
  { cbn [addStateLocks] in H. inversion H; subst. split; [reflexivity|].
    split; [|now rewrite app_nil_r]. intros l Hl. inversion Hl. }
  rewrite addStateLocks_cons in H.
  destruct (lockError dc l) as [e|] eqn:Hl.
  { inversion H; subst. split; [reflexivity|]. exists [], l, rest.
    split; [reflexivity|]. split; [intros x Hx; inversion Hx|].
    split; [exact Hl|now rewrite app_nil_r]. }
  destruct (IH _ _ _ H) as [Hcr Hr].
  cbn [creatingStates txLocks set_txLocks] in Hcr, Hr. split; [exact Hcr|].
  assert (Hsame : forall x, lockError (set_txLocks (txLocks dc ++ [l])%list dc) x
                            = lockError dc x) by reflexivity.
  destruct r as [e|].
  - destruct Hr as (before & l0 & after & -> & Hb & Hl0 & Ht).
    exists (l :: before), l0, after. split; [reflexivity|]. split.
    + intros x Hx. apply elem_of_cons in Hx as [-> |Hx]; [exact Hl|].
      rewrite <- Hsame. now apply Hb.
    + split; [now rewrite <- Hsame|]. rewrite Ht, <- app_assoc. reflexivity.
  - destruct Hr as [Hall Ht]. split.
    + intros x Hx. apply elem_of_cons in Hx as [-> |Hx]; [exact Hl|].
      rewrite <- Hsame. now apply Hall.
    + rewrite Ht, <- app_assoc. reflexivity.
Qed.

(** X14.  [AddStateLocks] on a context that passes the check (open, no
    failed flush): it succeeds exactly when every lock names a
    transaction and a state and every create lock is on a state of the
    creating map, and then the locks are appended in order to those held,
    whatever locks other transactions hold on the same states; when it
    fails, the error is that of the first lock that does not pass, and the
    locks before it stay added. *)
Theorem AddStateLocks_appends (dc : domainContext) (locks : list StateLock)
  (r : option stateError) (dc' : domainContext) :
  fst (checkResetInitUnFlushed dc) = None ->
  AddStateLocks dc locks = (r, dc') ->
  creatingStates dc' = creatingStates dc /\
  (r = None <-> forall l, l ∈ locks -> lockError dc l = None) /\
  (r = None -> txLocks dc' = (txLocks dc ++ locks)%list) /\
  (forall e, r = Some e ->
     exists before l after,
       locks = (before ++ l :: after)%list /\
       (forall x, x ∈ before -> lockError dc x = None) /\
       lockError dc l = Some e /\
       txLocks dc' = (txLocks dc ++ before)%list).
Proof.
  intros Hcheck. unfold AddStateLocks.
  destruct (checkResetInitUnFlushed dc) as [[e|] dc1] eqn:Hc; [discriminate|].
  destruct (check_pass _ _ Hc) as (_ & _ & _ & _ & Hcr & Hlk & _).
  intros Hadd. destruct (addStateLocks_steps _ _ _ _ Hadd) as [Hcr' Hr].
  assert (Hsame : forall x, lockError dc1 x = lockError dc x).
  { intros x. unfold lockError. now rewrite Hcr. }
  split; [congruence|]. destruct r as [e|].
  - destruct Hr as (before & l & after & -> & Hb & Hl & Ht).
    split; [|split; [discriminate|]].
    + split; [discriminate|]. intros Hall.
      rewrite Hsame, Hall in Hl; [discriminate|].
      apply elem_of_app. right. left.
    + intros e' [= <-]. exists before, l, after. split; [reflexivity|].
      split; [intros x Hx; rewrite <- Hsame; now apply Hb|].
      split; [now rewrite <- Hsame|congruence].
  - destruct Hr as [Hall Ht]. split; [|split; [intros _; congruence|discriminate]].
    split; [|reflexivity]. intros _ l Hl. rewrite <- Hsame. now apply Hall.
Qed.

Lemma AddStateLocks_appends_witness :
  txLocks contextThreeLocks =
    (txLocks contextWithS1
       ++ [mkLock StateLockTypeSpend 8 "s1"; mkLock StateLockTypeRead 7 "s1"])%list.
Proof.
  apply (AddStateLocks_appends contextWithS1
           [mkLock StateLockTypeSpend 8 "s1"; mkLock StateLockTypeRead 7 "s1"]
           None contextThreeLocks); reflexivity.
Defined.

(** ** What every context keeps *)

Lemma lockError_valid dc l : lockError dc l = None -> validLock l.
Proof.
  unfold lockError, validLock.
  destruct (N.eqb_spec (lk_Transaction l) 0); [discriminate|].
  destruct (lk_State l) as [|c s]; [discriminate|]. intros _. split; [assumption|discriminate].
Qed.

Lemma addStateLocks_valid locks dc r dc' :
  Forall validLock (txLocks dc) -> addStateLocks dc locks = (r, dc') ->
  Forall validLock (txLocks dc').
Proof.
  intros Hv Hadd. destruct (addStateLocks_steps _ _ _ _ Hadd) as [_ Hr].
  destruct r as [e|].
  - destruct Hr as (before & l & after & _ & Hb & _ & ->).
    apply Forall_app. split; [exact Hv|]. apply Forall_forall. intros x Hx.
    eapply lockError_valid; eauto.
  - destruct Hr as [Hall ->]. apply Forall_app. split; [exact Hv|].
    apply Forall_forall. intros x Hx. eapply lockError_valid; eauto.
Qed.

Lemma attachQueued_txLocks nullifiers states : forall dc,
  txLocks (attachQueued dc nullifiers states) = txLocks dc.
Proof.
  induction states as [|s rest IH]; intros dc; cbn [attachQueued]; [reflexivity|].
  rewrite IH. destruct (Nullifier (fieldsOf dc s)); [reflexivity|].
  now destruct (List.find _ nullifiers).
Qed.

Lemma clearExistingFlush_txLocks wait dc r dc' :
  clearExistingFlush wait dc = (r, dc') -> txLocks dc' = txLocks dc.
Proof.
  unfold clearExistingFlush. destruct (flushing dc) as [f|]; [|now intros [= <- <-]].
  destruct wait as [res|]; [|now intros [= <- <-]].
  destruct (flushed f); now intros [= <- <-].
Qed.

Section Kept.

Variable GetSchema : string -> string -> option stateError.
Variable ProcessState :
  string -> StateUpsert -> result stateError (string * string * string * list (string * string)).
Variable EvalQuery : QueryJSON -> string -> list (string * string) -> result stateError bool.
Variable RecoverLabels : string -> State -> result stateError (list (string * string)).
Variable SortValueSetInPlace :
  string -> list string -> list StateWithLabels -> result stateError (list StateWithLabels).
Variable findStates :
  string -> string -> string -> QueryJSON -> list string ->
  result stateError (list (string * string * string * option StateNullifier)).
Variable findAvailableNullifiers :
  string -> string -> string -> QueryJSON -> list string -> list string -> list string ->
  result stateError (list (string * string * string * option StateNullifier)).

Lemma mergeUnFlushedApplyLocks_txLocks dc schemaId dbStates query requireNullifier :
  txLocks (snd (mergeUnFlushedApplyLocks EvalQuery RecoverLabels SortValueSetInPlace
                  dc schemaId dbStates query requireNullifier)) = txLocks dc.
Proof.
  unfold mergeUnFlushedApplyLocks.
  destruct (checkResetInitUnFlushed dc) as [[e|] dc1] eqn:Hc.
  { now destruct (check_fail _ _ _ Hc) as [-> _]. }
  destruct (check_pass _ _ Hc) as (_ & _ & _ & _ & _ & Hlk & _).
  destruct (collectMatches _ _ _ _ _ _ _) as [matches|]; [|exact Hlk].
  destruct (if (0 <? length matches)%nat then _ else _) as [retStates|]; [|exact Hlk].
  cbn [snd]. destruct (applyLocks_frame retStates dc1) as (Hlk' & _). congruence.
Qed.

Lemma UpsertStates_valid dc stateUpserts :
  Forall validLock (txLocks dc) ->
  Forall validLock (txLocks (snd (UpsertStates GetSchema ProcessState dc stateUpserts))).
Proof.
  intros Hv. unfold UpsertStates.
  destruct (processUpserts _ _ _ _ _ _) as [[[withValues stateLocks] toMakeAvailable]|];
    [|exact Hv].
  destruct (checkResetInitUnFlushed dc) as [[e|] dc1] eqn:Hc.
  { now destruct (check_fail _ _ _ Hc) as [-> _]. }
  destruct (check_pass _ _ Hc) as (_ & _ & _ & _ & _ & Hlk & _).
  destruct (addStateLocks _ stateLocks) as [[e|] dc4] eqn:Hadd; cbn [snd];
    (eapply addStateLocks_valid; [|exact Hadd]); cbn; now rewrite Hlk.
Qed.

Lemma FindAvailableStates_txLocks dc schemaID query :
  txLocks (snd (FindAvailableStates EvalQuery RecoverLabels SortValueSetInPlace findStates
                  dc schemaID query)) = txLocks dc.
Proof.
  unfold FindAvailableStates, getUnFlushedStates.
  destruct (checkResetInitUnFlushed dc) as [[e|] dc1] eqn:Hc.
  { now destruct (check_fail _ _ _ Hc) as [-> _]. }
  destruct (check_pass _ _ Hc) as (_ & _ & _ & _ & _ & Hlk & _).
  destruct (findStates _ _ _ _ _) as [rows|]; [|exact Hlk].
  destruct (loadRows dc1 rows) as [states dc2] eqn:Hload.
  destruct (loadRows_spec _ _ _ _ Hload) as (_ & _ & _ & _ & Hlk2 & _).
  rewrite mergeUnFlushedApplyLocks_txLocks. congruence.
Qed.

Lemma FindAvailableNullifiers_txLocks dc schemaID query :
  txLocks (snd (FindAvailableNullifiers EvalQuery RecoverLabels SortValueSetInPlace
                  findAvailableNullifiers dc schemaID query)) = txLocks dc.
Proof.
  unfold FindAvailableNullifiers, getUnFlushedStates.
  destruct (checkResetInitUnFlushed dc) as [[e|] dc1] eqn:Hc.
  { now destruct (check_fail _ _ _ Hc) as [-> _]. }
  destruct (check_pass _ _ Hc) as (_ & _ & _ & _ & _ & Hlk & _).
  destruct (findAvailableNullifiers _ _ _ _ _ _ _) as [rows|]; [|exact Hlk].
  destruct (loadRows dc1 rows) as [states dc2] eqn:Hload.
  destruct (loadRows_spec _ _ _ _ Hload) as (_ & _ & _ & _ & Hlk2 & _).
  rewrite mergeUnFlushedApplyLocks_txLocks, attachQueued_txLocks. congruence.
Qed.

(** X15.  In every context reached from a new one by the operations of a
    domain context and the completion of flushes, whatever their inputs
    and outcomes: every lock held names a transaction and a state, and
    every entry of the creating map sits under the id of its state. *)
Theorem reached_context_keeps (dc : domainContext) :
  reached GetSchema ProcessState EvalQuery RecoverLabels SortValueSetInPlace
    findStates findAvailableNullifiers dc ->
  Forall validLock (txLocks dc) /\
  (forall k cs, creatingStates dc !! k = Some cs -> ID (state cs) = k).
Proof.
  intros Hreached. split.
  - induction Hreached as
      [ctxId domain contract|dc ups _ IH|dc ns _ IH|dc locks _ IH|dc s q _ IH|dc s q _ IH
      |dc txs _ IH|dc wait _ IH|dc op err _ IH|dc wait _ IH|dc _ IH].
    + constructor.
    + now apply UpsertStates_valid.
    + unfold UpsertNullifiers.
      destruct (checkResetInitUnFlushed dc) as [[e|] dc1] eqn:Hc.
      { now destruct (check_fail _ _ _ Hc) as [-> _]. }
      destruct (check_pass _ _ Hc) as (_ & _ & _ & _ & _ & Hlk & _).
      destruct (attachNullifiers _ ns) as [r dc2] eqn:Hat.
      destruct (attachNullifiers_spec _ _ _ _ Hat) as ((_ & Hlk2 & _) & _).
      cbn [snd]. rewrite Hlk2. cbn. now rewrite Hlk.
    + unfold AddStateLocks.
      destruct (checkResetInitUnFlushed dc) as [[e|] dc1] eqn:Hc.
      { now destruct (check_fail _ _ _ Hc) as [-> _]. }
      destruct (check_pass _ _ Hc) as (_ & _ & _ & _ & _ & Hlk & _).
      destruct (addStateLocks dc1 locks) as [r dc2] eqn:Hadd. cbn [snd].
      eapply addStateLocks_valid; [|exact Hadd]. now rewrite Hlk.
    + now rewrite FindAvailableStates_txLocks.
    + now rewrite FindAvailableNullifiers_txLocks.
    + unfold ClearTransactions.
      destruct (clearLocks_spec txs (txLocks dc) (creatingStates dc)) as [H1 _].
      destruct (clearLocks txs (txLocks dc) (creatingStates dc)) as [creating newLocks].
      cbn [snd] in H1. cbn [txLocks set_txLocks]. rewrite H1.
      apply Forall_forall. intros l Hl. apply list_elem_of_filter in Hl as [_ Hl].
      rewrite Forall_forall in IH. now apply IH.
    + unfold InitiateFlush.
      destruct (clearExistingFlush wait dc) as [[e|] dc1] eqn:Hclear; cbn [snd];
        cbn; now rewrite (clearExistingFlush_txLocks _ _ _ _ Hclear).
    + unfold doFlush. destruct (flushing dc) as [f|]; [|exact IH].
      destruct (_ && _); exact IH.
    + unfold Reset. destruct (clearExistingFlush wait dc). constructor.
    + exact IH.
  - intros k cs Hk.
    pose proof (wellFormed_reached _ _ _ _ _ _ _ _ Hreached) as [Hkey _].
    now destruct (Hkey k cs Hk).
Qed.

End Kept.

Lemma reached_context_keeps_witness :
  Forall validLock (txLocks contextWithS1) /\
  (forall k cs, creatingStates contextWithS1 !! k = Some cs -> ID (state cs) = k).
Proof.
  apply (reached_context_keeps sampleGetSchema sampleProcessState sampleEvalQuery
           sampleRecoverLabels sampleSort emptyFindStates emptyFindNullifiers
           contextWithS1).
  apply reached_UpsertStates, reached_new.
Defined.

(** ** A flush that succeeds changes no answer *)

Lemma collectMatches_ext EvalQuery a b schemaId dbStates query requireNullifier creating :
  txLocks a = txLocks b -> objects a = objects b ->
  collectMatches EvalQuery a schemaId dbStates query requireNullifier creating
  = collectMatches EvalQuery b schemaId dbStates query requireNullifier creating.
Proof.
  intros Hlk Hobj. induction creating as [|st rest IH]; cbn [collectMatches]; [reflexivity|].
  rewrite IH. unfold spendLocked, fieldsOf. now rewrite Hlk, Hobj.
Qed.

Lemma loadRows_agree rows : forall a b sa a' sb b',
  allocated a = allocated b -> objects a = objects b ->
  loadRows a rows = (sa, a') -> loadRows b rows = (sb, b') ->
  sa = sb /\ objects a' = objects b' /\ allocated a' = allocated b'.
Proof.
  induction rows as [|[[[rid rschema] rdata] rnull] rest IH];
    intros a b sa a' sb b' Hal Hobj Ha Hb; cbn [loadRows] in Ha, Hb.
  - inversion Ha; inversion Hb; subst. auto.
  - destruct (loadRows _ rest) as [sa1 a2] eqn:Ha1 in Ha.
    destruct (loadRows _ rest) as [sb1 b2] eqn:Hb1 in Hb.
    inversion Ha; inversion Hb; subst.
    assert (Hal1 : allocated
                     (set_allocated (S (allocated a))
                        (set_Nullifier (mkState (allocated a) rid rschema rdata) rnull a))
                   = allocated
                       (set_allocated (S (allocated b))
                          (set_Nullifier (mkState (allocated b) rid rschema rdata) rnull b)))
      by (cbn; congruence).
    assert (Hobj1 : objects
                      (set_allocated (S (allocated a))
                         (set_Nullifier (mkState (allocated a) rid rschema rdata) rnull a))
                    = objects
                        (set_allocated (S (allocated b))
                           (set_Nullifier (mkState (allocated b) rid rschema rdata) rnull b)))
      by (cbn; unfold fieldsOf; cbn; now rewrite Hal, Hobj).
    destruct (IH _ _ _ _ _ _ Hal1 Hobj1 Ha1 Hb1) as (-> & Ho & Hl).
    rewrite Hal. auto.
Qed.

Lemma flush_frame wait op dc :
  fst (InitiateFlush wait dc) = None ->
  let dc' := doFlush op None (snd (InitiateFlush wait dc)) in
  fst (checkResetInitUnFlushed dc') = fst (checkResetInitUnFlushed dc) /\
  domainName dc' = domainName dc /\ contractAddress dc' = contractAddress dc /\
  creatingStates dc' = creatingStates dc /\ txLocks dc' = txLocks dc /\
  objects dc' = objects dc /\ allocated dc' = allocated dc.
Proof.
  unfold InitiateFlush, clearExistingFlush, doFlush, checkResetInitUnFlushed.
  destruct dc as [i dn ca cl u f cr lk ob al oc]. cbn.
  destruct f as [[fid fst_ fnl [|] [cause|]]|]; destruct wait as [[cause'|]|]; cbn;
    try discriminate;
    intros _; destruct u as [[uid ust unl ufl ures]|]; cbn;
    try (destruct (_ && _); cbn); destruct cl; cbn; repeat split.
Qed.

Section Answers.

Variable EvalQuery : QueryJSON -> string -> list (string * string) -> result stateError bool.
Variable RecoverLabels : string -> State -> result stateError (list (string * string)).
Variable SortValueSetInPlace :
  string -> list string -> list StateWithLabels -> result stateError (list StateWithLabels).
Variable findStates :
  string -> string -> string -> QueryJSON -> list string ->
  result stateError (list (string * string * string * option StateNullifier)).

Local Abbreviation FindAvailableStates :=
  (FindAvailableStates EvalQuery RecoverLabels SortValueSetInPlace findStates).

Lemma FindAvailableStates_agree a b schemaID query :
  fst (checkResetInitUnFlushed a) = fst (checkResetInitUnFlushed b) ->
  domainName a = domainName b -> contractAddress a = contractAddress b ->
  creatingStates a = creatingStates b -> txLocks a = txLocks b ->
  objects a = objects b -> allocated a = allocated b ->
  fst (FindAvailableStates a schemaID query) = fst (FindAvailableStates b schemaID query).
Proof.
  intros Hcheck Hdn Hca Hcr Hlk Hobj Hal.
  unfold StateMgr.FindAvailableStates, getUnFlushedStates.
  destruct (checkResetInitUnFlushed a) as [[ea|] a1] eqn:Ha;
    destruct (checkResetInitUnFlushed b) as [[eb|] b1] eqn:Hb;
    cbn [fst] in Hcheck; try discriminate.
  { injection Hcheck as ->. reflexivity. }
  destruct (check_pass _ _ Ha) as (_ & _ & _ & _ & Hcra & Hlka & Hoa & Hala & Hdna & Hcaa).
  destruct (check_pass _ _ Hb) as (_ & _ & _ & _ & Hcrb & Hlkb & Hob & Halb & Hdnb & Hcab).
  rewrite Hdna, Hcaa, Hlka, Hdnb, Hcab, Hlkb, Hdn, Hca, Hlk.
  destruct (findStates _ _ _ _ _) as [rows|]; [|reflexivity].
  destruct (loadRows a1 rows) as [sa a2] eqn:Hla.
  destruct (loadRows b1 rows) as [sb b2] eqn:Hlb.
  destruct (loadRows_agree rows a1 b1 sa a2 sb b2 ltac:(congruence) ltac:(congruence)
              Hla Hlb) as (-> & Ho2 & _).
  destruct (loadRows_spec _ _ _ _ Hla) as (_ & _ & _ & Hcr2a & Hlk2a & Hu2a & Hf2a & Hcl2a).
  destruct (loadRows_spec _ _ _ _ Hlb) as (_ & _ & _ & Hcr2b & Hlk2b & Hu2b & Hf2b & Hcl2b).
  unfold mergeUnFlushedApplyLocks.
  rewrite (check_again _ _ a2 Ha Hu2a Hf2a Hcl2a), (check_again _ _ b2 Hb Hu2b Hf2b Hcl2b).
  replace (creatingList a2) with (creatingList b2)
    by (unfold creatingList; congruence).
  rewrite (collectMatches_ext EvalQuery a2 b2) by congruence.
  destruct (collectMatches _ _ _ _ _ _ _) as [matches|]; [|reflexivity].
  destruct (if (0 <? length matches)%nat then _ else _); reflexivity.
Qed.

(** X16.  A flush that was initiated without error and completes without
    error changes no answer: given the same rows from the database,
    [FindAvailableStates] returns after it what it returned before it, the
    states of the creating map included, which a flush never removes. *)
Theorem flush_keeps_answers (wait : waitOutcome) (op : nat) (dc : domainContext)
  (schemaID : string) (query : QueryJSON) :
  fst (InitiateFlush wait dc) = None ->
  fst (FindAvailableStates (doFlush op None (snd (InitiateFlush wait dc))) schemaID query)
  = fst (FindAvailableStates dc schemaID query).
Proof.
  intros Hflush.
  destruct (flush_frame wait op dc Hflush) as (H1 & H2 & H3 & H4 & H5 & H6 & H7).
  now apply FindAvailableStates_agree.
Qed.

End Answers.

Lemma flush_keeps_answers_witness :
  fst (sampleFindAvailableStates
         (doFlush 0 None (snd (InitiateFlush (FlushCompletes None) contextWithS1)))
         "coin" allStates)
  = fst (sampleFindAvailableStates contextWithS1 "coin" allStates).
Proof.
  apply (flush_keeps_answers sampleEvalQuery sampleRecoverLabels sampleSort
           emptyFindStates (FlushCompletes None) 0 contextWithS1 "coin" allStates).
  reflexivity.
Defined.

(** ** Nullifiers on the states of a nullifier query *)

Lemma fieldsOf_after_set_Nullifier dc s n s' :
  fieldsOf (set_Nullifier s n dc) s'
  = if decide (addr s = addr s')
    then mkFields (Locks (fieldsOf dc s')) n else fieldsOf dc s'.
Proof.
  unfold fieldsOf, set_Nullifier. cbn [objects set_objects].
  destruct (decide (addr s = addr s')) as [E|E].
  - rewrite E, lookup_insert_eq. unfold fieldsOf. now rewrite E.
  - rewrite lookup_insert_ne by exact E. reflexivity.
Qed.

Lemma applyLocks_Nullifier states : forall dc s,
  Nullifier (fieldsOf (applyLocks dc states) s) = Nullifier (fieldsOf dc s).
Proof.
  induction states as [|s0 rest IH]; intros dc s; cbn [applyLocks]; [reflexivity|].
  rewrite IH, fieldsOf_set_Locks. now destruct (decide _).
Qed.

Lemma loadRows_nullifiers rows : forall dc states dc',
  loadRows dc rows = (states, dc') ->
  Forall2 (fun s row => ID s = rowId row /\ Nullifier (fieldsOf dc' s) = row.2)
          states rows /\
  (forall s, (addr s < allocated dc)%nat -> fieldsOf dc' s = fieldsOf dc s).
Proof.
  induction rows as [|[[[rid rschema] rdata] rnull] rest IH]; intros dc states dc' H;
    cbn [loadRows] in H.
  - inversion H; subst. split; [constructor|reflexivity].
  - destruct (loadRows _ rest) as [states1 dc2] eqn:Hrest. inversion H; subst.
    destruct (IH _ _ _ Hrest) as [Hall Hold]. cbn [allocated set_allocated] in Hold.
    split.
    + constructor; [|exact Hall]. split; [reflexivity|].
      rewrite Hold by (cbn; lia).
      change (Nullifier (fieldsOf (set_Nullifier (mkState (allocated dc) rid rschema rdata)
                                     rnull dc)
                           (mkState (allocated dc) rid rschema rdata)) = rnull).
      rewrite fieldsOf_after_set_Nullifier. now rewrite decide_True.
    + intros s Hs. rewrite Hold by lia.
      change (fieldsOf (set_Nullifier (mkState (allocated dc) rid rschema rdata) rnull dc) s
              = fieldsOf dc s).
      rewrite fieldsOf_after_set_Nullifier. rewrite decide_False; [reflexivity|]. cbn. lia.
Qed.

Lemma attachQueued_objects nullifiers states : forall dc,
  exists o, attachQueued dc nullifiers states = set_objects o dc.
Proof.
  induction states as [|s rest IH]; intros dc; cbn [attachQueued].
  - exists (objects dc). now destruct dc.
  - destruct (Nullifier (fieldsOf dc s)); [apply IH|].
    destruct (List.find _ nullifiers) as [n|]; [|apply IH].
    destruct (IH (set_Nullifier s (Some n) dc)) as [o ->]. now exists o.
Qed.

Lemma attachQueued_others nullifiers states : forall dc s,
  addr s ∉ addr <$> states ->
  fieldsOf (attachQueued dc nullifiers states) s = fieldsOf dc s.
Proof.
  induction states as [|s0 rest IH]; intros dc s Hs; cbn [attachQueued]; [reflexivity|].
  rewrite fmap_cons in Hs. apply not_elem_of_cons in Hs as [Hne Hs].
  rewrite IH by exact Hs.
  destruct (Nullifier (fieldsOf dc s0)); [reflexivity|].
  destruct (List.find _ nullifiers); [|reflexivity].
  rewrite fieldsOf_after_set_Nullifier. now rewrite decide_False by congruence.
Qed.

Lemma attachQueued_nullifiers nullifiers states : forall dc,
  NoDup (addr <$> states) ->
  forall s, s ∈ states ->
    Nullifier (fieldsOf (attachQueued dc nullifiers states) s)
    = match Nullifier (fieldsOf dc s) with
      | Some n => Some n
      | None => List.find (fun n => String.eqb (nf_State n) (ID s)) nullifiers
      end.
Proof.
  induction states as [|s0 rest IH]; intros dc Hnd s Hs; [inversion Hs|].
  rewrite fmap_cons in Hnd. apply NoDup_cons in Hnd as [Hfresh Hnd].
  cbn [attachQueued]. apply elem_of_cons in Hs as [-> |Hs].
  - rewrite attachQueued_others by exact Hfresh.
    destruct (Nullifier (fieldsOf dc s0)) as [n|] eqn:Hn; [now rewrite Hn|].
    destruct (List.find _ nullifiers) as [n|]; [|now rewrite Hn].
    rewrite fieldsOf_after_set_Nullifier. now rewrite decide_True.
  - rewrite IH by assumption.
    assert (Hne : addr s0 <> addr s).
    { intros E. apply Hfresh. rewrite E. now apply list_elem_of_fmap_2. }
    destruct (Nullifier (fieldsOf dc s0)); [reflexivity|].
    destruct (List.find _ nullifiers); [|reflexivity].
    rewrite fieldsOf_after_set_Nullifier. now rewrite decide_False by exact Hne.
Qed.

Section Nullifiers.

Variable EvalQuery : QueryJSON -> string -> list (string * string) -> result stateError bool.
Variable RecoverLabels : string -> State -> result stateError (list (string * string)).
Variable SortValueSetInPlace :
  string -> list string -> list StateWithLabels -> result stateError (list StateWithLabels).
Variable findAvailableNullifiers :
  string -> string -> string -> QueryJSON -> list string -> list string -> list string ->
  result stateError (list (string * string * string * option StateNullifier)).

Lemma collectMatches_sound dc schemaId dbStates query b creating : forall matches,
  collectMatches EvalQuery dc schemaId dbStates query b creating = Ok matches ->
  forall cs, cs ∈ matches ->
    cs ∈ creating /\ collected EvalQuery dc schemaId dbStates query cs /\
    (b = true -> is_Some (Nullifier (fieldsOf dc (state cs)))).
Proof.
  induction creating as [|st rest IH]; intros matches H cs Hcs; cbn [collectMatches] in H.
  { inversion H; subst. inversion Hcs. }
  assert (Hrest : collectMatches EvalQuery dc schemaId dbStates query b rest = Ok matches ->
                  cs ∈ st :: rest /\ collected EvalQuery dc schemaId dbStates query cs /\
                  (b = true -> is_Some (Nullifier (fieldsOf dc (state cs))))).
  { intros Hr. destruct (IH _ Hr cs Hcs) as (H1 & H2 & H3).
    split; [now apply list_elem_of_further|]. now split. }
  destruct (String.eqb_spec (Schema (state st)) schemaId) as [Hsch|Hsch]; cbn [negb] in H;
    [|now apply Hrest].
  destruct (spendLocked dc (ID (state st))) eqn:Hsp; [now apply Hrest|].
  destruct (b && negb (bool_decide (is_Some (Nullifier (fieldsOf dc (state st))))))
    eqn:Hnull; [now apply Hrest|].
  destruct (EvalQuery query schemaId (LabelValues st)) as [isMatch|err] eqn:Hev;
    [|discriminate].
  destruct (collectMatches EvalQuery dc schemaId dbStates query b rest)
    as [matches'|err] eqn:Hr; [|discriminate].
  destruct (isMatch && negb (existsb _ dbStates)) eqn:Hadd;
    injection H as <-; [|now apply Hrest].
  apply elem_of_cons in Hcs as [-> |Hcs].
  2:{ destruct (IH _ eq_refl cs Hcs) as (H1 & H2 & H3).
      split; [now apply list_elem_of_further|]. now split. }
  apply andb_true_iff in Hadd as [-> Hdup]. apply negb_true_iff in Hdup.
  split; [apply list_elem_of_here|]. split.
  - split; [exact Hsch|]. split; [exact Hsp|]. split; [exact Hev|].
    intros Hin. apply list_elem_of_fmap in Hin as (d & Hd & Hin).
    assert (existsb (fun dbState => String.eqb (ID dbState) (ID (state st))) dbStates
            = true); [|congruence].
    apply existsb_exists. exists d. split; [now apply list_elem_of_In|].
    apply String.eqb_eq. now symmetry.
  - intros ->. cbn [andb] in Hnull. apply negb_false_iff in Hnull.
    now apply bool_decide_eq_true_1 in Hnull.
Qed.

Hypothesis sort_permutes : forall schemaId fields l sorted,
  SortValueSetInPlace schemaId fields l = Ok sorted -> sorted ≡ₚ l.

Local Abbreviation FindAvailableNullifiers :=
  (FindAvailableNullifiers EvalQuery RecoverLabels SortValueSetInPlace
     findAvailableNullifiers).

(** X17.  When [FindAvailableNullifiers] returns states on a well-formed
    context (the sort rearranging its input), the database was asked with
    the states of the queued nullifiers and the ids under a spend lock,
    and every state returned is either a row of the answer, carrying the
    nullifier of the row or else the first queued nullifier for its id, or
    a state of the creating map of the schema that is not under a spend
    lock, satisfies the query and carries a nullifier, which it keeps. *)
Theorem FindAvailableNullifiers_carry (dc : domainContext) (schemaID : string)
  (query : QueryJSON) (states : list State) (dc' : domainContext) :
  wellFormed dc ->
  FindAvailableNullifiers dc schemaID query = (Ok states, dc') ->
  exists rows,
    findAvailableNullifiers (domainName dc) (contractAddress dc) schemaID query
      (map nf_State (queuedNullifiers dc)) (spendingIds dc) [] = Ok rows /\
    forall s, s ∈ states ->
      (exists row, row ∈ rows /\ ID s = rowId row /\
                   Nullifier (fieldsOf dc' s) = rowNullifier (queuedNullifiers dc) row) \/
      (exists cs, overlayVisible EvalQuery dc schemaID query cs /\ state cs = s /\
                  is_Some (Nullifier (fieldsOf dc s)) /\
                  Nullifier (fieldsOf dc' s) = Nullifier (fieldsOf dc s)).
Proof.
  intros Hwf. destruct (wellFormed_list _ Hwf) as (Wkey & Wold & Waddr).
  unfold StateMgr.FindAvailableNullifiers, getUnFlushedStates.
  destruct (checkResetInitUnFlushed dc) as [[e|] dc1] eqn:Hc; [discriminate|].
  destruct (check_pass _ _ Hc) as (Hu & _ & Hcl & Hf & Hcr & Hlk & Hobj & Hal & Hdn & Hca).
  assert (Hq : (wo_stateNullifiers (theUnFlushed dc1) ++
                match flushing dc1 with
                | Some f => wo_stateNullifiers f
                | None => []
                end)%list = queuedNullifiers dc).
  { unfold queuedNullifiers, theUnFlushed at 1. now rewrite Hu, Hf. }
  rewrite Hq, Hdn, Hca.
  replace (map lk_State (filter (fun l => isSpend (lk_Type l)) (txLocks dc1)))
    with (spendingIds dc) by (unfold spendingIds; now rewrite Hlk).
  destruct (findAvailableNullifiers _ _ _ _ _ _ _) as [rows|] eqn:Hfind; [|discriminate].
  destruct (loadRows dc1 rows) as [dbStates dc2] eqn:Hload.
  destruct (loadRows_spec _ _ _ _ Hload)
    as (Hids & Haddrs & _ & Hcr2 & Hlk2 & Hu2 & Hf2 & Hcl2).
  destruct (loadRows_nullifiers _ _ _ _ Hload) as [Hrows Hold].
  set (queued := queuedNullifiers dc) in *.
  destruct (attachQueued_objects queued dbStates dc2) as [o Hdc3].
  set (dc3 := attachQueued dc2 queued dbStates) in *.
  assert (Hnd : NoDup (addr <$> dbStates)) by (rewrite Haddrs; apply NoDup_seq).
  assert (Hdb : forall s, s ∈ dbStates ->
            exists row, row ∈ rows /\ ID s = rowId row /\
                        Nullifier (fieldsOf dc3 s) = rowNullifier queued row).
  { intros s Hs. apply list_elem_of_lookup in Hs as [i Hi].
    destruct (Forall2_lookup_l _ _ _ _ _ Hrows Hi) as (row & Hrow & Hid & Hn).
    exists row. split; [eapply list_elem_of_lookup_2, Hrow|]. split; [exact Hid|].
    subst dc3. rewrite attachQueued_nullifiers;
      [|exact Hnd|eapply list_elem_of_lookup_2, Hi].
    unfold rowNullifier. rewrite Hn, Hid. reflexivity. }
  assert (Hov : forall cs, cs ∈ creatingList dc ->
            fieldsOf dc3 (state cs) = fieldsOf dc (state cs)).
  { intros cs Hcs. apply Wold in Hcs. subst dc3. rewrite attachQueued_others.
    - rewrite Hold by lia. unfold fieldsOf. now rewrite Hobj.
    - rewrite Haddrs, Hal. intros Hin. apply elem_of_seq in Hin. lia. }
  unfold mergeUnFlushedApplyLocks.
  assert (Hc3 : checkResetInitUnFlushed dc3 = (None, dc3)).
  { apply (check_again _ _ dc3 Hc); rewrite Hdc3; cbn; assumption. }
  rewrite Hc3.
  replace (creatingList dc3) with (creatingList dc)
    by (unfold creatingList; rewrite Hdc3; cbn; now rewrite Hcr2, Hcr).
  destruct (collectMatches _ _ _ _ _ _ _) as [matches|] eqn:Hcm; [|discriminate].
  assert (Hsp : forall i, spendLocked dc3 i = spendLocked dc i).
  { intros i. unfold spendLocked. rewrite Hdc3. cbn. now rewrite Hlk2, Hlk. }
  assert (Hm : forall cs, cs ∈ matches ->
            overlayVisible EvalQuery dc schemaID query cs /\
            (ID (state cs) ∉ ID <$> dbStates) /\
            is_Some (Nullifier (fieldsOf dc (state cs)))).
  { intros cs Hcs.
    destruct (collectMatches_sound _ _ _ _ _ _ _ Hcm cs Hcs)
      as (Hin & (Hs1 & Hs2 & Hs3 & Hs4) & Hn).
    rewrite Hsp in Hs2. rewrite (Hov cs Hin) in Hn.
    split; [|split; [exact Hs4|now apply Hn]]. now split. }
  assert (Hret : forall ret,
            (if (0 <? length matches)%nat
             then mergeInMemoryMatches RecoverLabels SortValueSetInPlace schemaID dbStates
                    matches query
             else Ok dbStates) = Ok ret ->
            forall s, s ∈ ret -> s ∈ dbStates \/ exists cs, cs ∈ matches /\ state cs = s).
  { intros ret Hret s Hs. destruct (0 <? length matches)%nat.
    - assert (Hfresh : forall x, x ∈ matches -> ID (state x) ∉ ID <$> dbStates)
        by (intros x Hx; now apply Hm in Hx as (_ & Hx & _)).
      destruct (mergeInMemoryMatches_spec RecoverLabels SortValueSetInPlace sort_permutes
                  _ _ _ _ _ Hfresh Hret)
        as (recovered & sorted & _ & Hrec & _ & Hperm & ->).
      apply list_elem_of_fmap in Hs as (x & -> & Hx).
      assert (Hx' : x ∈ sorted).
      { unfold upToLimit in Hx. destruct (Limit query); [|exact Hx].
        eapply elem_of_sublist; [exact Hx|apply sublist_take]. }
      rewrite Hperm in Hx'. apply elem_of_app in Hx' as [Hx'|Hx'].
      + left. rewrite <- Hrec. now apply list_elem_of_fmap_2.
      + right. eauto.
    - left. now inversion Hret; subst. }
  destruct (if (0 <? length matches)%nat then _ else _) as [ret|] eqn:Hmerge;
    [|discriminate].
  intros [= <- <-]. exists rows. split; [reflexivity|].
  intros s Hs. destruct (Hret _ eq_refl s Hs) as [Hin|(cs & Hcs & <-)].
  - left. destruct (Hdb s Hin) as (row & H1 & H2 & H3). exists row.
    split; [exact H1|]. split; [exact H2|]. now rewrite applyLocks_Nullifier.
  - right. destruct (Hm cs Hcs) as (Hvis & _ & Hn). exists cs.
    split; [exact Hvis|]. split; [reflexivity|]. split; [exact Hn|].
    rewrite applyLocks_Nullifier. f_equal. apply Hov. now destruct Hvis.
Qed.

End Nullifiers.

Lemma sampleSort_permutes schemaId fields (l sorted : list StateWithLabels) :
  sampleSort schemaId fields l = Ok sorted -> sorted ≡ₚ l.
Proof. now intros [= <-]. Qed.

Lemma contextWithN1_wellFormed : wellFormed contextWithN1.
Proof.
  apply (wellFormed_reached sampleGetSchema sampleProcessState sampleEvalQuery
           sampleRecoverLabels sampleSort emptyFindStates emptyFindNullifiers).
  apply reached_UpsertNullifiers, reached_UpsertStates, reached_new.
Qed.

(** The theorem on [contextWithN1] with an empty database: the one state
    returned is the overlay state "s1", carrying its nullifier. *)
Lemma FindAvailableNullifiers_carry_witness :
  let r := sampleFindAvailableNullifiers contextWithN1 "coin" allStates in
  fst r = Ok [mkState 0 "s1" "coin" "alice"] /\
  exists rows,
    emptyFindNullifiers (domainName contextWithN1) (contractAddress contextWithN1)
      "coin" allStates (map nf_State (queuedNullifiers contextWithN1))
      (spendingIds contextWithN1) [] = Ok rows /\
    forall s, s ∈ [mkState 0 "s1" "coin" "alice"] ->
      (exists row, row ∈ rows /\ ID s = rowId row /\
         Nullifier (fieldsOf (snd r) s)
         = rowNullifier (queuedNullifiers contextWithN1) row) \/
      (exists cs, overlayVisible sampleEvalQuery contextWithN1 "coin" allStates cs /\
                  state cs = s /\
                  is_Some (Nullifier (fieldsOf contextWithN1 s)) /\
                  Nullifier (fieldsOf (snd r) s) = Nullifier (fieldsOf contextWithN1 s)).
Proof.
  cbv zeta. split; [reflexivity|].
  apply (FindAvailableNullifiers_carry sampleEvalQuery sampleRecoverLabels sampleSort
           emptyFindNullifiers sampleSort_permutes contextWithN1 "coin" allStates
           [mkState 0 "s1" "coin" "alice"]
           (snd (sampleFindAvailableNullifiers contextWithN1 "coin" allStates))
           contextWithN1_wellFormed).
  reflexivity.
Defined.

(** An overlay state without a nullifier is not returned by the nullifier
    query, and is by the state query. *)
Example FindAvailableNullifiers_sample :
  fst (sampleFindAvailableNullifiers contextWithS1 "coin" allStates) = Ok [] /\
  fst (sampleFindAvailableStates contextWithS1 "coin" allStates)
  = Ok [mkState 0 "s1" "coin" "alice"].
Proof. split; reflexivity. Qed.

(** ** What [UpsertStates] makes available *)

Lemma fold_insert_last (l : list StateWithLabels) :
  forall (m : gmap string StateWithLabels) k,
  fold_left (fun m s => <[ID (state s) := s]> m) l m !! k
  = match lastWithId k l with Some s => Some s | None => m !! k end.
Proof.
  unfold lastWithId.
  induction l as [|s rest IH]; intros m k; cbn [fold_left]; [reflexivity|].
  rewrite IH, filter_cons.
  destruct (String.eqb_spec (ID (state s)) k) as [E|E].
  - rewrite decide_True by exact I. rewrite last_cons.
    destruct (last (filter _ rest)); [reflexivity|]. now rewrite E, lookup_insert_eq.
  - rewrite decide_False by (intros []).
    destruct (last (filter _ rest)); [reflexivity|]. now rewrite lookup_insert_ne.
Qed.

Lemma lastWithId_elem k l s :
  s ∈ l -> ID (state s) = k -> is_Some (lastWithId k l).
Proof.
  intros Hin Hid. unfold lastWithId. apply last_is_Some.
  intros Hnil.
  assert (Hs : s ∈ filter (fun s => String.eqb (ID (state s)) k) l).
  { apply list_elem_of_filter. split; [|exact Hin].
    apply Is_true_true, String.eqb_eq, Hid. }
  rewrite Hnil in Hs. inversion Hs.
Qed.

Lemma lockError_in_context dc l :
  is_Some (creatingStates dc !! lk_State l) ->
  (lockError dc l = None <-> validLock l) /\
  (forall e, lockError dc l = Some e ->
             e = MsgStateLockNoTransaction \/ e = MsgStateLockNoState).
Proof.
  intros [cs Hcs]. unfold lockError, validLock. rewrite Hcs.
  destruct (N.eqb_spec (lk_Transaction l) 0) as [E|E].
  { split; [|intros e [= <-]; now left].
    split; [discriminate|]. intros [H _]. contradiction. }
  destruct (lk_State l) as [|c s]; cbn [String.length Nat.eqb].
  { split; [|intros e [= <-]; now right].
    split; [discriminate|]. intros [_ H]. contradiction. }
  split; [|discriminate]. split; [|reflexivity]. intros _. split; [exact E|discriminate].
Qed.

Section Available.

Variable GetSchema : string -> string -> option stateError.
Variable ProcessState :
  string -> StateUpsert -> result stateError (string * string * string * list (string * string)).

Lemma processUpserts_views domain contract stateUpserts :
  forall base withValues stateLocks toMakeAvailable,
  processUpserts GetSchema ProcessState domain contract base stateUpserts
    = Ok (withValues, stateLocks, toMakeAvailable) ->
  length withValues = length stateUpserts /\
  toMakeAvailable = omap availableOf (zip stateUpserts withValues) /\
  stateLocks = omap createLockOf (zip stateUpserts withValues).
Proof.
  induction stateUpserts as [|ns rest IH]; intros base wv sl av H;
    cbn [processUpserts] in H.
  - now inversion H; subst.
  - destruct (GetSchema domain (up_SchemaID ns)); [discriminate|].
    destruct (ProcessState contract ns) as [[[[sid sschema] sdata] labels]|];
      [|discriminate].
    destruct (processUpserts _ _ _ _ (S base) rest) as [[[wv' sl'] av']|] eqn:Hrest;
      [|discriminate].
    destruct (IH _ _ _ _ Hrest) as (Hlen & Hav & Hsl).
    destruct (up_CreatedBy ns) as [createdBy|] eqn:Hby; injection H as <- <- <-;
      cbn [length zip zip_with omap list_omap]; unfold availableOf at 1, createLockOf at 1;
      cbn [fst snd]; rewrite Hby; cbn [fmap option_fmap option_map state ID];
      rewrite Hlen, <- Hav, <- Hsl; repeat split.
Qed.

(** X18.  When the schemas and states of an [UpsertStates] call are
    accepted and the context passes the check: the states that name their
    creator, and only those, are put in the creating map under their ids,
    the last of an id winning, also when the call then fails; the call
    succeeds exactly when every such state has a creator other than the
    zero transaction and a non-empty id, returning the states in order and
    appending one create lock for each; and a failure is for the first
    create lock without transaction or state, the locks before it staying
    added. *)
Theorem UpsertStates_makes_available (dc : domainContext) (stateUpserts : list StateUpsert)
  (withValues : list StateWithLabels) (stateLocks : list StateLock)
  (toMakeAvailable : list StateWithLabels)
  (r : result stateError (list State)) (dc' : domainContext) :
  processUpserts GetSchema ProcessState (domainName dc) (contractAddress dc)
    (allocated dc) stateUpserts = Ok (withValues, stateLocks, toMakeAvailable) ->
  fst (checkResetInitUnFlushed dc) = None ->
  UpsertStates GetSchema ProcessState dc stateUpserts = (r, dc') ->
  length withValues = length stateUpserts /\
  toMakeAvailable = omap availableOf (zip stateUpserts withValues) /\
  stateLocks = omap createLockOf (zip stateUpserts withValues) /\
  (forall k, creatingStates dc' !! k
             = match lastWithId k toMakeAvailable with
               | Some s => Some s
               | None => creatingStates dc !! k
               end) /\
  ((forall l, l ∈ stateLocks -> validLock l) <-> r = Ok (map state withValues)) /\
  (r = Ok (map state withValues) -> txLocks dc' = (txLocks dc ++ stateLocks)%list) /\
  (forall e, r = Err e ->
     (e = MsgStateLockNoTransaction \/ e = MsgStateLockNoState) /\
     exists before l after,
       stateLocks = (before ++ l :: after)%list /\
       (forall x, x ∈ before -> validLock x) /\ ~ validLock l /\
       txLocks dc' = (txLocks dc ++ before)%list).
Proof.
  intros Hproc Hcheck. unfold UpsertStates. rewrite Hproc.
  destruct (checkResetInitUnFlushed dc) as [[e|] dc1] eqn:Hc; [discriminate|].
  destruct (check_pass _ _ Hc) as (_ & _ & _ & _ & Hcr & Hlk & _).
  destruct (processUpserts_views _ _ _ _ _ _ _ Hproc) as (Hlen & Hav & Hsl).
  match goal with
  | |- context [addStateLocks ?d stateLocks] =>
      set (dc3 := d); destruct (addStateLocks dc3 stateLocks) as [res dc4] eqn:Hadd
  end.
  destruct (addStateLocks_steps _ _ _ _ Hadd) as [Hcr4 Hres].
  assert (Hcr3 : forall k, creatingStates dc3 !! k
                           = match lastWithId k toMakeAvailable with
                             | Some s => Some s
                             | None => creatingStates dc !! k
                             end).
  { intros k. subst dc3. cbn [creatingStates set_creatingStates set_allocated
                               set_unFlushed].
    rewrite fold_insert_last. now rewrite Hcr. }
  assert (Hlk3 : txLocks dc3 = txLocks dc) by (subst dc3; cbn; exact Hlk).
  assert (Hin : forall l, l ∈ stateLocks -> is_Some (creatingStates dc3 !! lk_State l)).
  { intros l Hl. rewrite Hsl in Hl. apply list_elem_of_omap in Hl as ([ns vs] & Hp & Hl).
    unfold createLockOf in Hl. cbn [fst snd] in Hl.
    destruct (up_CreatedBy ns) as [createdBy|] eqn:Hby; [|discriminate].
    injection Hl as <-. cbn [lk_State]. rewrite Hcr3.
    destruct (lastWithId_elem (ID (state vs)) toMakeAvailable vs) as [s ->];
      [|reflexivity|eauto].
    rewrite Hav. apply list_elem_of_omap. exists (ns, vs). split; [exact Hp|].
    unfold availableOf. cbn [fst snd]. now rewrite Hby. }
  assert (Hvalid : forall l, l ∈ stateLocks -> lockError dc3 l = None <-> validLock l).
  { intros l Hl. now apply lockError_in_context, Hin. }
  assert (Hgoal : forall r0,
            r0 = match res with
                 | Some err => Err err
                 | None => Ok (map state withValues)
                 end ->
            ((forall l, l ∈ stateLocks -> validLock l) <-> r0 = Ok (map state withValues)) /\
            (r0 = Ok (map state withValues) ->
             txLocks dc4 = (txLocks dc ++ stateLocks)%list) /\
            (forall e, r0 = Err e ->
               (e = MsgStateLockNoTransaction \/ e = MsgStateLockNoState) /\
               exists before l after,
                 stateLocks = (before ++ l :: after)%list /\
                 (forall x, x ∈ before -> validLock x) /\ ~ validLock l /\
                 txLocks dc4 = (txLocks dc ++ before)%list)).
  { intros r0 ->. destruct res as [err|].
    - destruct Hres as (before & l & after & Hsplit & Hb & Hl & Ht).
      assert (Hlin : l ∈ stateLocks).
      { rewrite Hsplit. apply elem_of_app. right. apply list_elem_of_here. }
      assert (Hbad : ~ validLock l).
      { intros Hv. apply (Hvalid l Hlin) in Hv. congruence. }
      split; [|split; [discriminate|]].
      + split; [|discriminate]. intros Hall. exfalso. now apply Hbad, Hall.
      + intros e [= <-]. split.
        * exact (proj2 (lockError_in_context dc3 l (Hin l Hlin)) err Hl).
        * exists before, l, after. split; [exact Hsplit|]. split.
          -- intros x Hx. apply Hvalid; [|now apply Hb].
             rewrite Hsplit. apply elem_of_app. now left.
          -- split; [exact Hbad|]. now rewrite Ht, Hlk3.
    - destruct Hres as [Hall Ht]. split; [|split; [|discriminate]].
      + split; [reflexivity|]. intros _ l Hl. apply Hvalid; [exact Hl|now apply Hall].
      + intros _. now rewrite Ht, Hlk3. }
  intros Hret.
  assert (Hr : r = match res with
                   | Some err => Err err
                   | None => Ok (map state withValues)
                   end /\ dc' = dc4).
  { destruct res; now injection Hret as <- <-. }
  destruct Hr as [Hr ->].
  split; [exact Hlen|]. split; [exact Hav|]. split; [exact Hsl|].
  split; [intros k; now rewrite Hcr4|]. now apply Hgoal.
Qed.

End Available.

Lemma UpsertStates_makes_available_witness :
  creatingStates contextWithS1 !! "s1"
  = Some (mkLabelled (mkState 0 "s1" "coin" "alice") [("owner", "alice")]) /\
  txLocks contextWithS1 = [mkLock StateLockTypeCreate 7 "s1"].
Proof.
  destruct (UpsertStates_makes_available sampleGetSchema sampleProcessState emptyContext
              [mkUpsert "s1" "coin" "alice" (Some 7%N)]
              [mkLabelled (mkState 0 "s1" "coin" "alice") [("owner", "alice")]]
              [mkLock StateLockTypeCreate 7 "s1"]
              [mkLabelled (mkState 0 "s1" "coin" "alice") [("owner", "alice")]]
              (Ok [mkState 0 "s1" "coin" "alice"]) contextWithS1
              eq_refl eq_refl eq_refl) as (_ & _ & _ & Hmap & _ & Hlocks & _).
  split; [exact (Hmap "s1")|exact (Hlocks eq_refl)].
Defined.

(** A state upserted for the zero transaction: the call fails, and the
    state is returned by queries all the same, under no lock. *)
Example UpsertStates_refused_yet_available :
  let r := sampleUpsertStates emptyContext [upsertByNobody] in
  fst r = Err MsgStateLockNoTransaction /\
  txLocks (snd r) = [] /\
  fst (sampleFindAvailableStates (snd r) "coin" allStates)
  = Ok [mkState 0 "s1" "coin" "alice"].
Proof. vm_compute. repeat split. Qed.

End StateViewsFacts.

(* ===================================================================== *)
(** * Zeto: the coins selected and the coins made *)
(* ===================================================================== *)

Module ZetoOutputsFacts.
Import Zeto ZetoOutputs.

Section Selection.

Variable findAvailableStates : string -> Query -> result string (list StoredState).
Variable makeCoin : string -> result string ZetoCoin.
Variables (stateQueryContext sender : string) (expectedTotal : Z).

Lemma eachState_selecting states : forall st,
  selecting expectedTotal st ->
  match eachState makeCoin expectedTotal states st with
  | Continue st' => selecting expectedTotal st'
  | Return (Ok res) => covering expectedTotal res
  | Return (Err _) => True
  end.
Proof.
  induction states as [|state rest IH]; intros st (Ht & Hlen & Hmax & Hshort);
    cbn [eachState].
  { repeat split; auto. }
  destruct (makeCoin (ss_DataJson state)) as [coin|err]; [|exact I].
  destruct (Z.leb_spec expectedTotal (total st + coin_Amount coin)) as [Hge|Hlt].
  - unfold covering. cbn [in_total in_remainder in_coins in_stateRefs].
    rewrite ZetoFacts.totalOf_app, !length_app, <- Ht, Hlen. cbn [length].
    split; [reflexivity|]. split; [reflexivity|]. split; [lia|].
    split; [reflexivity|]. split; [lia|].
    intros before c Heq Hne. apply app_inj_tail in Heq as [<- _].
    rewrite <- Ht. now apply Hshort.
  - destruct (Nat.leb_spec MAX_INPUT_COUNT
                (length (stateRefs st ++ [mkStateRef (ss_SchemaId state) (ss_Id state)])%list))
      as [|Hroom]; [exact I|].
    apply IH. unfold selecting. cbn [total coins stateRefs].
    rewrite ZetoFacts.totalOf_app, !length_app, <- Ht, Hlen. cbn [length].
    split; [reflexivity|]. split; [reflexivity|].
    split; [rewrite length_app in Hroom; exact Hroom|]. intros _. exact Hlt.
Qed.

Lemma pages_selecting : forall fuel st res,
  selecting expectedTotal st ->
  pages findAvailableStates makeCoin fuel stateQueryContext sender expectedTotal st
    = Some (Ok res) ->
  covering expectedTotal res.
Proof.
  induction fuel as [|fuel IH]; intros st res Hsel H; cbn [pages] in H; [discriminate|].
  unfold onePage in H.
  destruct (findAvailableStates _ _) as [[|s0 states]|err]; try discriminate.
  pose proof (eachState_selecting (s0 :: states) st Hsel) as Hpage.
  destruct (eachState makeCoin expectedTotal (s0 :: states) st) as [st'|[res'|err]].
  - now apply (IH st').
  - now injection H as <-.
  - discriminate.
Qed.

End Selection.

Lemma selecting_initial expectedTotal : selecting expectedTotal initial.
Proof.
  unfold selecting, MAX_INPUT_COUNT. cbn. split; [reflexivity|]. split; [reflexivity|].
  split; [lia|]. intros H. now contradiction H.
Qed.

(** X19.  When [prepareInputs] succeeds: the two numbers it returns are
    both the remainder, the sum of the selected coins less the sum of the
    amounts asked, which is not negative; there is one state reference per
    coin, at least one and at most [MAX_INPUT_COUNT]; and the coins before
    the last, if any, did not yet cover the amounts asked. *)
Theorem prepareInputs_covers
  (find : string -> Query -> result string (list StoredState))
  (mk : string -> result string ZetoCoin)
  (ctx sender : string) (params : list TransferParamEntry) (res : inputs) :
  prepareInputs find mk ctx sender params = Some (Ok res) ->
  in_total res = in_remainder res /\
  in_remainder res = (totalOf (in_coins res) - sumAmounts params)%Z /\
  (0 <= in_remainder res)%Z /\
  length (in_coins res) = length (in_stateRefs res) /\
  (0 < length (in_stateRefs res) <= MAX_INPUT_COUNT)%nat /\
  (forall before c, in_coins res = (before ++ [c])%list -> before <> [] ->
                    (totalOf before < sumAmounts params)%Z).
Proof.
  intros H. unfold prepareInputs in H.
  exact (pages_selecting find mk ctx sender (sumAmounts params) _ _ res
           (selecting_initial _) H).
Qed.

Lemma prepareInputs_covers_witness :
  let res := mkInputs [mkCoin "alice" 4; mkCoin "alice" 7]
               [mkStateRef "coin" "0x01"; mkStateRef "coin" "0x02"] 1 1 in
  in_total res = in_remainder res /\
  in_remainder res = (totalOf (in_coins res) - sumAmounts [mkParam "bob" 10])%Z /\
  (0 <= in_remainder res)%Z /\
  length (in_coins res) = length (in_stateRefs res) /\
  (0 < length (in_stateRefs res) <= MAX_INPUT_COUNT)%nat /\
  (forall before c, in_coins res = (before ++ [c])%list -> before <> [] ->
                    (totalOf before < sumAmounts [mkParam "bob" 10])%Z).
Proof.
  cbv zeta.
  apply (prepareInputs_covers twoCoins coinOfAlice "ctx" "alice" [mkParam "bob" 10]).
  reflexivity.
Defined.

(** Nothing asked for: one coin is selected all the same, and comes back
    whole as the remainder; with an empty store the call fails. *)
Example prepareInputs_nothing_asked :
  prepareInputs twoCoins coinOfAlice "ctx" "alice" []
  = Some (Ok (mkInputs [mkCoin "alice" 4] [mkStateRef "coin" "0x01"] 4 4)) /\
  prepareInputs (fun _ _ => Ok []) coinOfAlice "ctx" "alice" []
  = Some (Err "insufficient funds (available=0)").
Proof. split; reflexivity. Qed.

Lemma sumAmounts_from (params : list TransferParamEntry) : forall acc,
  fold_left (fun acc p => (acc + param_Amount p)%Z) params acc
  = (acc + fold_right (fun p s => (param_Amount p + s)%Z) 0%Z params)%Z.
Proof.
  induction params as [|p rest IH]; intros acc; cbn [fold_left fold_right]; [lia|].
  rewrite IH. lia.
Qed.

Section Outputs.

Variable key : Type.
Variable FindVerifier :
  string -> string -> string -> list ResolvedVerifier -> option ResolvedVerifier.
Variable algoZetoSnarkBJJ : string.
Variable IDEN3_PUBKEY_BABYJUBJUB_COMPRESSED_0X : string.
Variable loadBabyJubKey : string -> result string key.
Variable NewSalt : nat -> Z.
Variable EncodeBabyJubJubPublicKey : key -> string.
Variable MustParseHexBytes : string -> option string.
Variable Marshal : OutputCoin -> result string string.
Variable Hash : OutputCoin -> result string string.
Variable coinSchemaId : string.

Local Abbreviation prepareOutputs :=
  (prepareOutputs key FindVerifier algoZetoSnarkBJJ IDEN3_PUBKEY_BABYJUBJUB_COMPRESSED_0X
     loadBabyJubKey NewSalt EncodeBabyJubJubPublicKey MustParseHexBytes Marshal Hash
     coinSchemaId).
Local Abbreviation makeNewState := (makeNewState Marshal Hash coinSchemaId).

(** X20.  When [prepareOutputs] returns coins and states, there is one coin
    and one state per parameter, in the order of the parameters: each coin
    has the recipient and the amount of its parameter and a salt of its
    own, each state is the one made from its coin, and the amounts of the
    coins add up to the amounts asked.  When it returns an error, the
    error is one of the three for the first parameter that has one: the
    parameters before it yield their coins and states, and the call on
    that parameter alone, with as many salts drawn as there are
    parameters before it, returns the error. *)
Theorem prepareOutputs_per_param (salts : nat) (params : list TransferParamEntry)
  (resolvedVerifiers : list ResolvedVerifier) :
  (forall coins newStates,
     prepareOutputs salts params resolvedVerifiers = Returned (Ok (coins, newStates)) ->
     map Owner coins = map param_To params /\
     map Amount coins = map param_Amount params /\
     map Salt coins = map NewSalt (seq salts (length params)) /\
     Forall2 (fun c s => makeNewState c = Ok s) coins newStates /\
     outputTotal coins = sumAmounts params) /\
  (forall e,
     prepareOutputs salts params resolvedVerifiers = Returned (Err e) ->
     exists before param after coins newStates,
       params = (before ++ param :: after)%list /\
       prepareOutputs salts before resolvedVerifiers = Returned (Ok (coins, newStates)) /\
       prepareOutputs (salts + length before) [param] resolvedVerifiers
         = Returned (Err e) /\
       outputErrorFor param e).
Proof.
  revert salts. induction params as [|param rest IH]; intros salts.
  { split.
    - intros coins newStates [= <- <-]. repeat split; constructor.
    - discriminate. }
  cbn [ZetoOutputs.prepareOutputs].
  destruct (FindVerifier _ _ _ _) as [resolvedRecipient|] eqn:Hf.
  2:{ split; [discriminate|]. intros e [= <-].
      exists [], param, rest, [], []. split; [reflexivity|]. split; [reflexivity|].
      split; [|now left].
      cbn [ZetoOutputs.prepareOutputs length]. now rewrite Nat.add_0_r, Hf. }
  destruct (loadBabyJubKey _) as [recipientKey|err] eqn:Hl.
  2:{ split; [discriminate|]. intros e [= <-].
      exists [], param, rest, [], []. split; [reflexivity|]. split; [reflexivity|].
      split; [|right; left; now exists err].
      cbn [ZetoOutputs.prepareOutputs length]. now rewrite Nat.add_0_r, Hf, Hl. }
  destruct (MustParseHexBytes _) as [ownerKey|] eqn:Hm; [|split; discriminate].
  destruct (makeNewState _) as [newState|err] eqn:Hmake.
  2:{ split; [discriminate|]. intros e [= <-].
      exists [], param, rest, [], []. split; [reflexivity|]. split; [reflexivity|].
      split; [|right; right; now exists err].
      cbn [ZetoOutputs.prepareOutputs length].
      now rewrite Nat.add_0_r, Hf, Hl, Hm, Hmake. }
  destruct (IH (S salts)) as [IHok IHerr].
  destruct (prepareOutputs (S salts) rest resolvedVerifiers) as [[[coins newStates]|err]|]
    eqn:Hrest.
  - split; [|discriminate]. intros coins' newStates' [= <- <-].
    destruct (IHok coins newStates eq_refl) as (H1 & H2 & H3 & H4 & H5).
    cbn [map length seq Owner Amount Salt]. rewrite H1, H2, H3.
    split; [reflexivity|]. split; [reflexivity|]. split; [reflexivity|].
    split; [now constructor|].
    unfold sumAmounts in *. cbn [outputTotal fold_right fold_left Amount].
    fold (outputTotal coins). rewrite H5, !sumAmounts_from. cbn. lia.
  - split; [discriminate|]. intros e [= <-].
    destruct (IHerr err eq_refl)
      as (before & p & after & cs & nss & Hp & Hb & Hown & He).
    exists (param :: before), p, after.
    exists (mkOutputCoin (NewSalt salts) (param_To param) ownerKey (param_Amount param)
              :: cs), (newState :: nss).
    split; [now rewrite Hp|]. split; [|split; [|exact He]].
    + cbn [ZetoOutputs.prepareOutputs]. now rewrite Hf, Hl, Hm, Hmake, Hb.
    + cbn [length]. now rewrite Nat.add_succ_r.
  - split; discriminate.
Qed.

End Outputs.

(** Two recipients, and a recipient that does not resolve after one that
    does. *)
Example prepareOutputs_sample :
  samplePrepareOutputs 0 [mkParam "bob" 10; mkParam "carol" 5] []
  = Returned (Ok ([mkOutputCoin 0 "bob" "0xbob" 10; mkOutputCoin 1 "carol" "0xcarol" 5],
                  [mkNewState (Some "0xbob") "coin" "bob";
                   mkNewState (Some "0xcarol") "coin" "carol"])) /\
  samplePrepareOutputs 0 [mkParam "bob" 10; mkParam "nobody" 5] []
  = Returned (Err "failed to resolve: nobody").
Proof. split; reflexivity. Qed.

End ZetoOutputsFacts.

(* ===================================================================== *)
(** * PublicTxMgr: only the newest version is live *)
(* ===================================================================== *)

Module InFlightFacts.
Import InFlight.
Local Open Scope list_scope.

Lemma NewVersion_step (n : nat) :
  NewVersion (mkState ((retired <$> seq 0 n) ++ [NewInFlightTransactionStateVersion n]))
  = Some (mkState ((retired <$> seq 0 (S n))
                   ++ [NewInFlightTransactionStateVersion (S n)])).
Proof.
  unfold NewVersion. cbn [versions].
  assert (Hlen : length ((retired <$> seq 0 n) ++ [NewInFlightTransactionStateVersion n])
                 = S n).
  { rewrite length_app, length_fmap, length_seq. cbn. lia. }
  rewrite Hlen.
  assert (Hn : length (retired <$> seq 0 n) = n) by now rewrite length_fmap, length_seq.
  assert (Halter : forall f (v : InFlightTransactionStateVersion) l,
            length l = n -> alter f n (l ++ [v]) = l ++ [f v]).
  { intros f v l Hl. rewrite alter_app_r_alt by lia.
    rewrite Hl, Nat.sub_diag. reflexivity. }
  rewrite !Halter by exact Hn.
  rewrite length_app, Hn. cbn [length]. rewrite Nat.add_1_r.
  rewrite seq_S, fmap_app. reflexivity.
Qed.

Lemma newVersions_from (n : nat) : forall k,
  newVersions n
    (mkState ((retired <$> seq 0 k) ++ [NewInFlightTransactionStateVersion k]))
  = Some (mkState ((retired <$> seq 0 (k + n))
                   ++ [NewInFlightTransactionStateVersion (k + n)])).
Proof.
  induction n as [|n IH]; intros k; cbn [newVersions].
  - now rewrite Nat.add_0_r.
  - rewrite NewVersion_step, IH. now replace (k + S n)%nat with (S k + n)%nat by lia.
Qed.

(** X21.  However many times [NewVersion] is called on a new manager, no
    call panics, and after [n] calls: there are [n + 1] versions, the
    version at each index having that index as its id; the current
    version is the one made last, on which nothing was called; the
    previous versions are all the others, each set not current and then
    cancelled, once; and the previous versions followed by the current
    one are all the versions. *)
Theorem NewVersion_retires_previous (n : nat) :
  exists iftxs current,
    newVersions n NewInFlightTransactionStateManager = Some iftxs /\
    length (GetVersions iftxs) = S n /\
    (forall i, GetVersion iftxs i = None <-> (n < i)%nat) /\
    (forall i v, GetVersion iftxs i = Some v -> v_id v = i) /\
    GetCurrentVersion iftxs = Some current /\
    current = NewInFlightTransactionStateVersion n /\
    GetPreviousVersions iftxs = retired <$> seq 0 n /\
    GetVersions iftxs = (GetPreviousVersions iftxs ++ [current])%list.
Proof.
  pose proof (newVersions_from n 0) as H. cbn [seq fmap list_fmap app Nat.add] in H.
  set (vs := ((retired <$> seq 0 n) ++ [NewInFlightTransactionStateVersion n])%list) in *.
  assert (Hn : length (retired <$> seq 0 n) = n) by now rewrite length_fmap, length_seq.
  assert (Hlen : length vs = S n).
  { subst vs. rewrite length_app, Hn. cbn. lia. }
  assert (Hprev : GetPreviousVersions (mkState vs) = retired <$> seq 0 n).
  { unfold GetPreviousVersions. cbn [versions]. rewrite Hlen.
    destruct n as [|n']; [reflexivity|].
    cbn [Nat.ltb Nat.leb]. subst vs. replace (S (S n') - 1)%nat with (S n') by lia.
    rewrite take_app_length'; [reflexivity|now rewrite Hn]. }
  exists (mkState vs), (NewInFlightTransactionStateVersion n).
  split; [exact H|]. split; [exact Hlen|]. split; [|split; [|split; [|split; [|split]]]].
  - intros i. unfold GetVersion. cbn [versions]. rewrite lookup_ge_None, Hlen. lia.
  - intros i v. unfold GetVersion. cbn [versions]. subst vs. intros Hi.
    apply lookup_app_Some in Hi as [Hi|[Hge Hi]].
    + rewrite list_lookup_fmap in Hi.
      destruct (seq 0 n !! i) as [j|] eqn:Hj; [|discriminate].
      apply lookup_seq in Hj as [-> _]. now injection Hi as <-.
    + rewrite Hn in Hge, Hi. destruct (i - n)%nat as [|d] eqn:Hd; [|discriminate].
      injection Hi as <-. cbn. lia.
  - unfold GetCurrentVersion. cbn [versions]. rewrite Hlen. subst vs.
    rewrite lookup_app_r by lia. now rewrite Hn, Nat.sub_diag.
  - reflexivity.
  - exact Hprev.
  - rewrite Hprev. reflexivity.
Qed.

(** An empty list of versions, which no manager made by the constructor
    has, makes the current version and a new version panic. *)
Example NewVersion_empty :
  GetCurrentVersion (mkState []) = None /\ NewVersion (mkState []) = None /\
  GetPreviousVersions (mkState []) = [].
Proof. repeat split. Qed.

End InFlightFacts.

(* ===================================================================== *)
(** * Zeto: only locked coins are loaded *)
(* ===================================================================== *)

Module ZetoLockedFacts.
Import Zeto ZetoLocked.

Section Facts.

Variable HexString : Z -> string.
Variable inQuery : list string -> string.
Variable findAvailableStates : bool -> string -> string -> result string (list StoredState).
Variable Unmarshal : string -> result string LockedCoin.

Local Abbreviation inputIDs := (inputIDs HexString).
Local Abbreviation eachInput := (eachInput Unmarshal).
Local Abbreviation loadCoins :=
  (loadCoins HexString inQuery findAvailableStates Unmarshal).

Lemma inputIDs_spec ids :
  inputIDs ids
  = map (fun input => HexString (default 0%Z input))
        (List.filter (fun input => negb (NilOrZero input)) ids).
Proof.
  induction ids as [|input rest IH]; cbn [ZetoLocked.inputIDs List.filter map];
    [reflexivity|].
  destruct (negb (NilOrZero input)); cbn [map]; now rewrite IH.
Qed.

Lemma eachInput_ok inputStates : forall inputCoins stateRefs,
  eachInput inputStates = Ok (inputCoins, stateRefs) ->
  Forall2 (fun state coin => Unmarshal (ss_DataJson state) = Ok coin /\
                             lc_Locked coin = true) inputStates inputCoins /\
  stateRefs = map (fun state => mkStateRef (ss_SchemaId state) (ss_Id state)) inputStates.
Proof.
  induction inputStates as [|state rest IH]; intros inputCoins stateRefs H;
    cbn [ZetoLocked.eachInput] in H.
  - injection H as <- <-. split; [constructor|reflexivity].
  - destruct (Unmarshal (ss_DataJson state)) as [coin|err] eqn:Hu; [|discriminate].
    destruct (lc_Locked coin) eqn:Hl; cbn [negb] in H; [|discriminate].
    destruct (eachInput rest) as [[cs refs]|err] eqn:Hrest; [|discriminate].
    injection H as <- <-. destruct (IH _ _ eq_refl) as [Hall ->].
    split; [|reflexivity]. constructor; [now split|exact Hall].
Qed.

Lemma eachInput_err inputStates : forall e,
  eachInput inputStates = Err e ->
  exists before state after,
    inputStates = (before ++ state :: after)%list /\
    (forall s, In s before ->
       exists coin, Unmarshal (ss_DataJson s) = Ok coin /\ lc_Locked coin = true) /\
    ((exists err, Unmarshal (ss_DataJson state) = Err err /\ e = UnmarshalFailed err) \/
     (exists coin, Unmarshal (ss_DataJson state) = Ok coin /\ lc_Locked coin = false /\
                   e = MsgErrorInputNotLocked (ss_Id state))).
Proof.
  induction inputStates as [|state rest IH]; intros e H; cbn [ZetoLocked.eachInput] in H;
    [discriminate|].
  destruct (Unmarshal (ss_DataJson state)) as [coin|err] eqn:Hu.
  2:{ injection H as <-. exists [], state, rest. split; [reflexivity|].
      split; [intros s []|]. left. now exists err. }
  destruct (lc_Locked coin) eqn:Hl; cbn [negb] in H.
  2:{ injection H as <-. exists [], state, rest. split; [reflexivity|].
      split; [intros s []|]. right. now exists coin. }
  destruct (eachInput rest) as [[cs refs]|err] eqn:Hrest; [discriminate|].
  injection H as <-. destruct (IH _ eq_refl) as (before & st & after & -> & Hb & He).
  exists (state :: before), st, after. split; [reflexivity|]. split; [|exact He].
  intros s [<- |Hs]; [now exists coin|now apply Hb].
Qed.

(** X22.  [loadCoins] asks the store for the ids that are neither nil nor
    zero, and succeeds only when the store answers with exactly as many
    states as it was asked for and every one of them holds a coin that is
    locked: the coins are those of the states and the references name the
    states, in the order of the answer.  A different number of states is
    refused with both numbers, before any state is read; otherwise a
    failure is for the first state that cannot be read or whose coin is
    not locked. *)
Theorem loadCoins_only_locked (ids : list (option Z)) (useNullifiers : bool)
  (stateQueryContext : string) :
  let wanted := map (fun input => HexString (default 0%Z input))
                    (List.filter (fun input => negb (NilOrZero input)) ids) in
  let answer := findAvailableStates useNullifiers stateQueryContext (inQuery wanted) in
  (forall inputCoins stateRefs,
     loadCoins ids useNullifiers stateQueryContext = Ok (inputCoins, stateRefs) ->
     exists inputStates,
       answer = Ok inputStates /\
       length inputStates = length wanted /\
       Forall2 (fun state coin => Unmarshal (ss_DataJson state) = Ok coin /\
                                  lc_Locked coin = true) inputStates inputCoins /\
       stateRefs
       = map (fun state => mkStateRef (ss_SchemaId state) (ss_Id state)) inputStates) /\
  (forall inputStates,
     answer = Ok inputStates -> length inputStates <> length wanted ->
     loadCoins ids useNullifiers stateQueryContext
     = Err (MsgFailedToQueryStatesById (length wanted) (length inputStates))) /\
  (forall inputStates e,
     answer = Ok inputStates -> length inputStates = length wanted ->
     loadCoins ids useNullifiers stateQueryContext = Err e ->
     exists before state after,
       inputStates = (before ++ state :: after)%list /\
       (forall s, In s before ->
          exists coin, Unmarshal (ss_DataJson s) = Ok coin /\ lc_Locked coin = true) /\
       ((exists err, Unmarshal (ss_DataJson state) = Err err /\ e = UnmarshalFailed err) \/
        (exists coin, Unmarshal (ss_DataJson state) = Ok coin /\ lc_Locked coin = false /\
                      e = MsgErrorInputNotLocked (ss_Id state)))).
Proof.
  cbv zeta. unfold ZetoLocked.loadCoins. rewrite inputIDs_spec.
  set (wanted := map _ (List.filter _ ids)).
  destruct (findAvailableStates useNullifiers stateQueryContext (inQuery wanted))
    as [inputStates|err].
  2:{ split; [discriminate|]. split; discriminate. }
  destruct (Nat.eqb_spec (length inputStates) (length wanted)) as [Hlen|Hlen];
    cbn [negb].
  - split; [|split].
    + intros inputCoins stateRefs H. exists inputStates.
      destruct (eachInput_ok _ _ _ H) as [Hall Hrefs]. now repeat split.
    + intros ? [= <-] Hne. contradiction.
    + intros ? e [= <-] _ H. now apply eachInput_err.
  - split; [discriminate|]. split.
    + now intros ? [= <-] _.
    + intros ? e [= <-] Heq. contradiction.
Qed.

End Facts.

(** The locked coin "1" is loaded, the zero and nil ids being passed over;
    with the coin "2", which is not locked, the call fails; and an id the
    store does not hold is refused by the count. *)
Example loadCoins_sample :
  sampleLoadCoins [Some 1%Z; Some 0%Z; None] false "ctx"
  = Ok ([mkLockedCoin "alice" 4 true], [mkStateRef "coin" "1"]) /\
  sampleLoadCoins [Some 1%Z; Some 2%Z] false "ctx" = Err (MsgErrorInputNotLocked "2") /\
  sampleLoadCoins [Some 3%Z] false "ctx" = Err (MsgFailedToQueryStatesById 1 0).
Proof. repeat split. Qed.

End ZetoLockedFacts.
